(** * PMRES: core-guided MaxSAT with stratification and linear search

    A shallow embedding of [solver/Loandra/algorithms/Alg_PMRES.cc].

    The solver object is a record [PMRES]; every member function becomes
    a computation in a small state-and-failure monad [M]: the state is
    the solver object, and failure ([None]) stands for a violated
    [assert], an access outside a vector, or a division by zero.  The
    SAT oracle and the wall clock are outside the file that is embedded;
    what they answer is an input of the functions that call them. *)

From Stdlib Require Import ZArith Lia.
From stdpp Require Import base numbers option list gmap.

Open Scope Z_scope.

(** ** Machine integers: [uint64_t] with its wrap-around *)

Module U64.
Definition modulus : Z := 2 ^ 64.
Definition MAX : Z := modulus - 1.
Definition wrap (z : Z) : Z := z mod modulus.
Definition add (a b : Z) : Z := wrap (a + b).
Definition sub (a b : Z) : Z := wrap (a - b).
Definition inrange (z : Z) : Prop := 0 <= z < modulus.
End U64.

(** ** Literals, truth values, clauses *)

(** Modelled from the spec: a literal is a signed variable (section 3);
    the type [Lit] is declared by the oracle library, not by the
    embedded file.  It is taken with the encoding of that library: the
    integer [2 * var + sign], negation ([~l]) flips the lowest bit, and
    [lit_Undef] is the integer [-2], which no variable yields. *)

Definition Lit : Type := Z.
Definition mkLit (v : nat) (sgn : bool) : Z := 2 * Z.of_nat v + (if sgn then 1 else 0).
Definition lit_Undef : Z := -2.
Definition neg (l : Z) : Z := Z.lxor l 1.
Definition sign (l : Z) : bool := Z.odd l.
Definition var (l : Z) : nat := Z.to_nat (Z.shiftr l 1).

Inductive lbool : Type := l_True | l_False | l_Undef.

Definition lbool_eqb (a b : lbool) : bool :=
  match a, b with
  | l_True, l_True | l_False, l_False | l_Undef, l_Undef => true
  | _, _ => false
  end.

Definition Clause : Type := list Z.

(** ** The formula store *)

Inductive ProblemType : Type := _UNWEIGHTED_ | _WEIGHTED_.

Definition ProblemType_eqb (a b : ProblemType) : bool :=
  match a, b with
  | _UNWEIGHTED_, _UNWEIGHTED_ | _WEIGHTED_, _WEIGHTED_ => true
  | _, _ => false
  end.

Record Soft : Type := mkSoft {
  clause : Clause;
  weight : Z;
  assumption_var : Z
}.

Definition set_weight (w : Z) (s : Soft) : Soft :=
  {| clause := clause s; weight := w; assumption_var := assumption_var s |}.
Definition set_assumption_var (l : Z) (s : Soft) : Soft :=
  {| clause := clause s; weight := weight s; assumption_var := l |}.

(** Modelled from the spec: the class [MaxSATFormula] (section 4.1); its
    declaration is not part of the embedded file.  A variable count, the
    ordered hard and soft clauses, the sum of weights, the working
    maximum weight, the hard-weight sentinel and the problem type; every
    mutation is an append or a field write. *)
Record MaxSATFormula : Type := mkFormula {
  n_vars : nat;
  hard_clauses : list Clause;
  soft_clauses : list Soft;
  sum_soft_weight : Z;
  max_soft_weight : Z;
  hard_weight : Z;
  problem_type : ProblemType
}.

Definition nVars (f : MaxSATFormula) : nat := n_vars f.
Definition nHard (f : MaxSATFormula) : nat := length (hard_clauses f).
Definition nSoft (f : MaxSATFormula) : nat := length (soft_clauses f).
Definition getMaximumWeight (f : MaxSATFormula) : Z := max_soft_weight f.
Definition getProblemType (f : MaxSATFormula) : ProblemType := problem_type f.

Definition with_soft_clauses (l : list Soft) (f : MaxSATFormula) : MaxSATFormula :=
  {| n_vars := n_vars f; hard_clauses := hard_clauses f; soft_clauses := l;
     sum_soft_weight := sum_soft_weight f; max_soft_weight := max_soft_weight f;
     hard_weight := hard_weight f; problem_type := problem_type f |}.
Definition with_hard_clauses (l : list Clause) (f : MaxSATFormula) : MaxSATFormula :=
  {| n_vars := n_vars f; hard_clauses := l; soft_clauses := soft_clauses f;
     sum_soft_weight := sum_soft_weight f; max_soft_weight := max_soft_weight f;
     hard_weight := hard_weight f; problem_type := problem_type f |}.
Definition with_n_vars (n : nat) (f : MaxSATFormula) : MaxSATFormula :=
  {| n_vars := n; hard_clauses := hard_clauses f; soft_clauses := soft_clauses f;
     sum_soft_weight := sum_soft_weight f; max_soft_weight := max_soft_weight f;
     hard_weight := hard_weight f; problem_type := problem_type f |}.
Definition setMaximumWeight (w : Z) (f : MaxSATFormula) : MaxSATFormula :=
  {| n_vars := n_vars f; hard_clauses := hard_clauses f; soft_clauses := soft_clauses f;
     sum_soft_weight := sum_soft_weight f; max_soft_weight := w;
     hard_weight := hard_weight f; problem_type := problem_type f |}.
Definition setProblemType (t : ProblemType) (f : MaxSATFormula) : MaxSATFormula :=
  {| n_vars := n_vars f; hard_clauses := hard_clauses f; soft_clauses := soft_clauses f;
     sum_soft_weight := sum_soft_weight f; max_soft_weight := max_soft_weight f;
     hard_weight := hard_weight f; problem_type := t |}.

(** Modelled from the spec: the operations of the formula store
    (section 4.1) are appends and field writes, without deduplication.
    [newLiteral] gives the positive literal of a variable one past the
    current count, which is then counted. *)
Definition newLiteral (f : MaxSATFormula) : Z * MaxSATFormula :=
  (mkLit (nVars f) false, with_n_vars (S (n_vars f)) f).
Definition addHardClause (c : Clause) (f : MaxSATFormula) : MaxSATFormula :=
  with_hard_clauses (hard_clauses f ++ [c]) f.
(** [addSoftClause]: the new soft clause starts without an assumption. *)
Definition addSoftClause (w : Z) (c : Clause) (f : MaxSATFormula) : MaxSATFormula :=
  with_soft_clauses (soft_clauses f ++ [mkSoft c w lit_Undef]) f.

(** ** The oracle, as far as the solver object writes to it *)

(** Modelled from the spec: the oracle interface (section 4.2) takes
    variables and clauses and, after a call, holds a model or a
    conflict; the class [Solver] is declared by the oracle library. *)
Record Solver : Type := mkSolver {
  solver_nvars : nat;
  solver_clauses : list Clause;
  model : list lbool;
  conflict : list Z
}.

Definition solver_addClause (c : Clause) (s : Solver) : Solver :=
  {| solver_nvars := solver_nvars s; solver_clauses := solver_clauses s ++ [c];
     model := model s; conflict := conflict s |}.
Definition solver_answer (m : list lbool) (c : list Z) (s : Solver) : Solver :=
  {| solver_nvars := solver_nvars s; solver_clauses := solver_clauses s;
     model := m; conflict := c |}.

(** ** Options fixed at construction

    The members of the solver object that the constructor sets from the
    command line and that the search only reads. *)

Inductive WeightStrategy : Type := _WEIGHT_NONE_ | _WEIGHT_NORMAL_ | _WEIGHT_DIVERSIFY_.

Record Options : Type := mkOptions {
  weightStrategy : WeightStrategy;
  lins : Z;
  varyingres : bool;
  varyingresCG : bool;
  varresFactor : Z;
  timeLimitCores : Z;
  relaxBeforeStrat : bool;
  incrementalVarres : bool;
  delete_before_lin : bool
}.

(** ** The solver object *)

Record PMRES : Type := mkPMRES {
  opts : Options;
  maxsat_formula : MaxSATFormula;
  costComputingFormula : MaxSATFormula;
  solver : Solver;
  coreMapping : gmap Z nat;
  assumptions : list Z;
  lbCost : Z;
  ubCost : Z;
  known_gap : Z;
  num_hardened : nat;
  maxw_nothardened : Z;
  nbCurrentSoft : nat;
  nbCores : nat;
  nbSatisfiable : nat;
  sumSizeCores : nat;
  vars_added : nat;
  clauses_added : nat;
  softs_added : nat;
  bestModel : list lbool
}.

(** A solver object on a formula before anything has run, used to
    write down the worked examples: empty tables and counters, lower
    bound 0, upper bound and known gap at the largest value. *)
Definition new_PMRES (o : Options) (f : MaxSATFormula) : PMRES :=
  {| opts := o; maxsat_formula := f; costComputingFormula := f;
     solver := mkSolver 0 [] [] []; coreMapping := ∅; assumptions := [];
     lbCost := 0; ubCost := U64.MAX; known_gap := U64.MAX;
     num_hardened := 0; maxw_nothardened := 0; nbCurrentSoft := 0;
     nbCores := 0; nbSatisfiable := 0; sumSizeCores := 0;
     vars_added := 0; clauses_added := 0; softs_added := 0; bestModel := [] |}.

(** Field writes on the solver object. *)
Definition set_maxsat_formula (v : MaxSATFormula) (s : PMRES) : PMRES :=
  {| opts := opts s; maxsat_formula := v;
     costComputingFormula := costComputingFormula s; solver := solver s;
     coreMapping := coreMapping s; assumptions := assumptions s; lbCost := lbCost s;
     ubCost := ubCost s; known_gap := known_gap s; num_hardened := num_hardened s;
     maxw_nothardened := maxw_nothardened s; nbCurrentSoft := nbCurrentSoft s;
     nbCores := nbCores s; nbSatisfiable := nbSatisfiable s;
     sumSizeCores := sumSizeCores s; vars_added := vars_added s;
     clauses_added := clauses_added s; softs_added := softs_added s;
     bestModel := bestModel s |}.
Definition set_solver (v : Solver) (s : PMRES) : PMRES :=
  {| opts := opts s; maxsat_formula := maxsat_formula s;
     costComputingFormula := costComputingFormula s; solver := v;
     coreMapping := coreMapping s; assumptions := assumptions s; lbCost := lbCost s;
     ubCost := ubCost s; known_gap := known_gap s; num_hardened := num_hardened s;
     maxw_nothardened := maxw_nothardened s; nbCurrentSoft := nbCurrentSoft s;
     nbCores := nbCores s; nbSatisfiable := nbSatisfiable s;
     sumSizeCores := sumSizeCores s; vars_added := vars_added s;
     clauses_added := clauses_added s; softs_added := softs_added s;
     bestModel := bestModel s |}.
Definition set_coreMapping (v : gmap Z nat) (s : PMRES) : PMRES :=
  {| opts := opts s; maxsat_formula := maxsat_formula s;
     costComputingFormula := costComputingFormula s; solver := solver s;
     coreMapping := v; assumptions := assumptions s; lbCost := lbCost s;
     ubCost := ubCost s; known_gap := known_gap s; num_hardened := num_hardened s;
     maxw_nothardened := maxw_nothardened s; nbCurrentSoft := nbCurrentSoft s;
     nbCores := nbCores s; nbSatisfiable := nbSatisfiable s;
     sumSizeCores := sumSizeCores s; vars_added := vars_added s;
     clauses_added := clauses_added s; softs_added := softs_added s;
     bestModel := bestModel s |}.
Definition set_assumptions (v : list Z) (s : PMRES) : PMRES :=
  {| opts := opts s; maxsat_formula := maxsat_formula s;
     costComputingFormula := costComputingFormula s; solver := solver s;
     coreMapping := coreMapping s; assumptions := v; lbCost := lbCost s;
     ubCost := ubCost s; known_gap := known_gap s; num_hardened := num_hardened s;
     maxw_nothardened := maxw_nothardened s; nbCurrentSoft := nbCurrentSoft s;
     nbCores := nbCores s; nbSatisfiable := nbSatisfiable s;
     sumSizeCores := sumSizeCores s; vars_added := vars_added s;
     clauses_added := clauses_added s; softs_added := softs_added s;
     bestModel := bestModel s |}.
Definition set_lbCost (v : Z) (s : PMRES) : PMRES :=
  {| opts := opts s; maxsat_formula := maxsat_formula s;
     costComputingFormula := costComputingFormula s; solver := solver s;
     coreMapping := coreMapping s; assumptions := assumptions s; lbCost := v;
     ubCost := ubCost s; known_gap := known_gap s; num_hardened := num_hardened s;
     maxw_nothardened := maxw_nothardened s; nbCurrentSoft := nbCurrentSoft s;
     nbCores := nbCores s; nbSatisfiable := nbSatisfiable s;
     sumSizeCores := sumSizeCores s; vars_added := vars_added s;
     clauses_added := clauses_added s; softs_added := softs_added s;
     bestModel := bestModel s |}.
Definition set_ubCost (v : Z) (s : PMRES) : PMRES :=
  {| opts := opts s; maxsat_formula := maxsat_formula s;
     costComputingFormula := costComputingFormula s; solver := solver s;
     coreMapping := coreMapping s; assumptions := assumptions s; lbCost := lbCost s;
     ubCost := v; known_gap := known_gap s; num_hardened := num_hardened s;
     maxw_nothardened := maxw_nothardened s; nbCurrentSoft := nbCurrentSoft s;
     nbCores := nbCores s; nbSatisfiable := nbSatisfiable s;
     sumSizeCores := sumSizeCores s; vars_added := vars_added s;
     clauses_added := clauses_added s; softs_added := softs_added s;
     bestModel := bestModel s |}.
Definition set_known_gap (v : Z) (s : PMRES) : PMRES :=
  {| opts := opts s; maxsat_formula := maxsat_formula s;
     costComputingFormula := costComputingFormula s; solver := solver s;
     coreMapping := coreMapping s; assumptions := assumptions s; lbCost := lbCost s;
     ubCost := ubCost s; known_gap := v; num_hardened := num_hardened s;
     maxw_nothardened := maxw_nothardened s; nbCurrentSoft := nbCurrentSoft s;
     nbCores := nbCores s; nbSatisfiable := nbSatisfiable s;
     sumSizeCores := sumSizeCores s; vars_added := vars_added s;
     clauses_added := clauses_added s; softs_added := softs_added s;
     bestModel := bestModel s |}.
Definition set_num_hardened (v : nat) (s : PMRES) : PMRES :=
  {| opts := opts s; maxsat_formula := maxsat_formula s;
     costComputingFormula := costComputingFormula s; solver := solver s;
     coreMapping := coreMapping s; assumptions := assumptions s; lbCost := lbCost s;
     ubCost := ubCost s; known_gap := known_gap s; num_hardened := v;
     maxw_nothardened := maxw_nothardened s; nbCurrentSoft := nbCurrentSoft s;
     nbCores := nbCores s; nbSatisfiable := nbSatisfiable s;
     sumSizeCores := sumSizeCores s; vars_added := vars_added s;
     clauses_added := clauses_added s; softs_added := softs_added s;
     bestModel := bestModel s |}.
Definition set_maxw_nothardened (v : Z) (s : PMRES) : PMRES :=
  {| opts := opts s; maxsat_formula := maxsat_formula s;
     costComputingFormula := costComputingFormula s; solver := solver s;
     coreMapping := coreMapping s; assumptions := assumptions s; lbCost := lbCost s;
     ubCost := ubCost s; known_gap := known_gap s; num_hardened := num_hardened s;
     maxw_nothardened := v; nbCurrentSoft := nbCurrentSoft s; nbCores := nbCores s;
     nbSatisfiable := nbSatisfiable s; sumSizeCores := sumSizeCores s;
     vars_added := vars_added s; clauses_added := clauses_added s;
     softs_added := softs_added s; bestModel := bestModel s |}.
Definition set_nbCurrentSoft (v : nat) (s : PMRES) : PMRES :=
  {| opts := opts s; maxsat_formula := maxsat_formula s;
     costComputingFormula := costComputingFormula s; solver := solver s;
     coreMapping := coreMapping s; assumptions := assumptions s; lbCost := lbCost s;
     ubCost := ubCost s; known_gap := known_gap s; num_hardened := num_hardened s;
     maxw_nothardened := maxw_nothardened s; nbCurrentSoft := v; nbCores := nbCores s;
     nbSatisfiable := nbSatisfiable s; sumSizeCores := sumSizeCores s;
     vars_added := vars_added s; clauses_added := clauses_added s;
     softs_added := softs_added s; bestModel := bestModel s |}.
Definition set_nbCores (v : nat) (s : PMRES) : PMRES :=
  {| opts := opts s; maxsat_formula := maxsat_formula s;
     costComputingFormula := costComputingFormula s; solver := solver s;
     coreMapping := coreMapping s; assumptions := assumptions s; lbCost := lbCost s;
     ubCost := ubCost s; known_gap := known_gap s; num_hardened := num_hardened s;
     maxw_nothardened := maxw_nothardened s; nbCurrentSoft := nbCurrentSoft s;
     nbCores := v; nbSatisfiable := nbSatisfiable s; sumSizeCores := sumSizeCores s;
     vars_added := vars_added s; clauses_added := clauses_added s;
     softs_added := softs_added s; bestModel := bestModel s |}.
Definition set_nbSatisfiable (v : nat) (s : PMRES) : PMRES :=
  {| opts := opts s; maxsat_formula := maxsat_formula s;
     costComputingFormula := costComputingFormula s; solver := solver s;
     coreMapping := coreMapping s; assumptions := assumptions s; lbCost := lbCost s;
     ubCost := ubCost s; known_gap := known_gap s; num_hardened := num_hardened s;
     maxw_nothardened := maxw_nothardened s; nbCurrentSoft := nbCurrentSoft s;
     nbCores := nbCores s; nbSatisfiable := v; sumSizeCores := sumSizeCores s;
     vars_added := vars_added s; clauses_added := clauses_added s;
     softs_added := softs_added s; bestModel := bestModel s |}.
Definition set_sumSizeCores (v : nat) (s : PMRES) : PMRES :=
  {| opts := opts s; maxsat_formula := maxsat_formula s;
     costComputingFormula := costComputingFormula s; solver := solver s;
     coreMapping := coreMapping s; assumptions := assumptions s; lbCost := lbCost s;
     ubCost := ubCost s; known_gap := known_gap s; num_hardened := num_hardened s;
     maxw_nothardened := maxw_nothardened s; nbCurrentSoft := nbCurrentSoft s;
     nbCores := nbCores s; nbSatisfiable := nbSatisfiable s; sumSizeCores := v;
     vars_added := vars_added s; clauses_added := clauses_added s;
     softs_added := softs_added s; bestModel := bestModel s |}.
Definition set_vars_added (v : nat) (s : PMRES) : PMRES :=
  {| opts := opts s; maxsat_formula := maxsat_formula s;
     costComputingFormula := costComputingFormula s; solver := solver s;
     coreMapping := coreMapping s; assumptions := assumptions s; lbCost := lbCost s;
     ubCost := ubCost s; known_gap := known_gap s; num_hardened := num_hardened s;
     maxw_nothardened := maxw_nothardened s; nbCurrentSoft := nbCurrentSoft s;
     nbCores := nbCores s; nbSatisfiable := nbSatisfiable s;
     sumSizeCores := sumSizeCores s; vars_added := v; clauses_added := clauses_added s;
     softs_added := softs_added s; bestModel := bestModel s |}.
Definition set_clauses_added (v : nat) (s : PMRES) : PMRES :=
  {| opts := opts s; maxsat_formula := maxsat_formula s;
     costComputingFormula := costComputingFormula s; solver := solver s;
     coreMapping := coreMapping s; assumptions := assumptions s; lbCost := lbCost s;
     ubCost := ubCost s; known_gap := known_gap s; num_hardened := num_hardened s;
     maxw_nothardened := maxw_nothardened s; nbCurrentSoft := nbCurrentSoft s;
     nbCores := nbCores s; nbSatisfiable := nbSatisfiable s;
     sumSizeCores := sumSizeCores s; vars_added := vars_added s; clauses_added := v;
     softs_added := softs_added s; bestModel := bestModel s |}.
Definition set_softs_added (v : nat) (s : PMRES) : PMRES :=
  {| opts := opts s; maxsat_formula := maxsat_formula s;
     costComputingFormula := costComputingFormula s; solver := solver s;
     coreMapping := coreMapping s; assumptions := assumptions s; lbCost := lbCost s;
     ubCost := ubCost s; known_gap := known_gap s; num_hardened := num_hardened s;
     maxw_nothardened := maxw_nothardened s; nbCurrentSoft := nbCurrentSoft s;
     nbCores := nbCores s; nbSatisfiable := nbSatisfiable s;
     sumSizeCores := sumSizeCores s; vars_added := vars_added s;
     clauses_added := clauses_added s; softs_added := v; bestModel := bestModel s |}.
Definition set_bestModel (v : list lbool) (s : PMRES) : PMRES :=
  {| opts := opts s; maxsat_formula := maxsat_formula s;
     costComputingFormula := costComputingFormula s; solver := solver s;
     coreMapping := coreMapping s; assumptions := assumptions s; lbCost := lbCost s;
     ubCost := ubCost s; known_gap := known_gap s; num_hardened := num_hardened s;
     maxw_nothardened := maxw_nothardened s; nbCurrentSoft := nbCurrentSoft s;
     nbCores := nbCores s; nbSatisfiable := nbSatisfiable s;
     sumSizeCores := sumSizeCores s; vars_added := vars_added s;
     clauses_added := clauses_added s; softs_added := softs_added s; bestModel := v |}.

(** ** The monad of member functions *)

Definition M (A : Type) : Type := PMRES -> option (A * PMRES).

Definition ret {A} (a : A) : M A := fun s => Some (a, s).
Definition bind {A B} (m : M A) (k : A -> M B) : M B :=
  fun s => match m s with
           | Some (a, s') => k a s'
           | None => None
           end.
Definition failM {A} : M A := fun _ => None.
Definition gets {A} (f : PMRES -> A) : M A := fun s => Some (f s, s).
Definition modify (f : PMRES -> PMRES) : M unit := fun s => Some (tt, f s).
(** [assert(b)]: the computation stops when [b] is false. *)
Definition assertM (b : bool) : M unit := if b then ret tt else failM.

Notation "x <- m ;; k" := (bind m (fun x => k))
  (at level 100, m at next level, right associativity).
Notation "m ;;; k" := (bind m (fun _ => k))
  (at level 100, right associativity).

(** [for (x : l) body]; the loop carries its updates in the state. *)
Fixpoint for_each {A} (l : list A) (body : A -> M unit) : M unit :=
  match l with
  | [] => ret tt
  | x :: l' => body x ;;; for_each l' body
  end.

(** [for (int i = 0; i < n; i++) body]. *)
Definition for_upto (n : nat) (body : nat -> M unit) : M unit :=
  for_each (seq 0 n) body.

(** A loop that also carries a local variable. *)
Fixpoint foldM {A B} (body : B -> A -> M B) (l : list A) (acc : B) : M B :=
  match l with
  | [] => ret acc
  | x :: l' => b <- body acc x ;; foldM body l' b
  end.

(** Access to the formula of the solver object. *)
Definition softs (s : PMRES) : list Soft := soft_clauses (maxsat_formula s).

Definition getSoftClause (i : nat) : M Soft :=
  fun s => match softs s !! i with
           | Some c => Some (c, s)
           | None => None
           end.

Definition putSoftClause (i : nat) (c : Soft) : M unit :=
  modify (fun s =>
    set_maxsat_formula
      (with_soft_clauses (<[i := c]> (softs s)) (maxsat_formula s)) s).

Definition onFormula (g : MaxSATFormula -> MaxSATFormula) : M unit :=
  modify (fun s => set_maxsat_formula (g (maxsat_formula s)) s).

Definition formula_newLiteral : M Z :=
  fun s => let '(l, f) := newLiteral (maxsat_formula s) in
           Some (l, set_maxsat_formula f s).

(** [coreMapping[l]] on a [std::map<Lit, int>]: a key that is absent is
    entered with the value 0, which is then read. *)
Definition coreMapping_at (l : Z) : M nat :=
  fun s => match coreMapping s !! l with
           | Some i => Some (i, s)
           | None => Some (0%nat, set_coreMapping (<[l := 0%nat]> (coreMapping s)) s)
           end.

(** What [coreMapping[l]] reads, as a function of the table. *)
Definition cm_get (m : gmap Z nat) (l : Z) : nat := default 0%nat (m !! l).

(** ** Stratification: the next working weight *)

Definition findNextWeight_step (weight0 nextWeight : Z) (c : Soft) : Z :=
  if (weight c >? nextWeight) && (weight c <? weight0)
  then weight c else nextWeight.

Definition findNextWeight (s : PMRES) (weight0 : Z) : Z :=
  fold_left (findNextWeight_step weight0) (softs s) 1.

(** ** Cost of a core *)

Definition computeCostCore_body (coreCost : Z) (l : Z) : M Z :=
  indexSoft <- coreMapping_at l ;;
  c <- getSoftClause indexSoft ;;
  ret (if weight c <? coreCost then weight c else coreCost).

Definition computeCostCore (conflict0 : list Z) : M Z :=
  assertM (negb (Nat.eqb (length conflict0) 0)) ;;;
  f <- gets maxsat_formula ;;
  if ProblemType_eqb (getProblemType f) _UNWEIGHTED_ then ret 1
  else foldM computeCostCore_body conflict0 U64.MAX.

(** ** Small helpers for the C++ expressions *)

(** [v[i]] on a [vec]: outside the vector there is no result. *)
Definition vec_at {A} (v : list A) (i : nat) : M A :=
  fun s => match v !! i with
           | Some x => Some (x, s)
           | None => None
           end.

(** [a / b] on [uint64_t]. *)
Definition u64_div (a b : Z) : M Z :=
  if b =? 0 then failM else ret (a / b).

(** [var(l)] as the (signed) integer the oracle library computes. *)
Definition varZ (l : Z) : Z := Z.shiftr l 1.

(** [model[v]] for an [int] index. *)
Definition model_at (m : list lbool) (v : Z) : M lbool :=
  if v <? 0 then failM else vec_at m (Z.to_nat v).

(** The test written out in [hardenClauses], [computeCostReducedWeights],
    [computeCostModelPMRES] and [literalTrueInModel]. *)
Definition lit_true_under (l : Z) (v : lbool) : bool :=
  (sign l && lbool_eqb v l_False) || (negb (sign l) && lbool_eqb v l_True).

Definition nRealSoft (s : PMRES) : Z :=
  Z.of_nat (nSoft (maxsat_formula s)) - Z.of_nat (num_hardened s).

Definition incr_num_hardened : M unit :=
  modify (fun s => set_num_hardened (S (num_hardened s)) s).

(** ** Assumptions of the core-guided phase *)

(** The test [shouldAdd]; the quotient is computed only when the first
    disjunct is false. *)
Definition shouldAdd (c : Soft) : M bool :=
  mw <- gets (fun s => getMaximumWeight (maxsat_formula s)) ;;
  vcg <- gets (fun s => varyingresCG (opts s)) ;;
  if (weight c >=? mw) && negb vcg then ret true
  else q <- u64_div (weight c) mw ;; ret ((q >? 0) && vcg).

Definition setAssumptions_body (i : nat) : M unit :=
  c <- getSoftClause i ;;
  assertM (Nat.eqb (length (clause c)) 1) ;;;
  add <- shouldAdd c ;;
  if add : bool then
    let l := assumption_var c in
    assertM (negb (l =? lit_Undef)) ;;;
    modify (fun s => set_assumptions (assumptions s ++ [neg l]) s) ;;;
    modify (fun s => set_nbCurrentSoft (S (nbCurrentSoft s)) s)
  else ret tt.

Definition setAssumptions : M unit :=
  modify (set_nbCurrentSoft 0%nat) ;;;
  modify (set_assumptions []) ;;;
  n <- gets softs_added ;;
  for_upto n setAssumptions_body.

Definition addHard (c : Clause) : M unit := onFormula (addHardClause c).

(** ** The hardener *)

Definition hardenLazily (s : PMRES) : bool :=
  negb (delete_before_lin (opts s)) && negb (varyingres (opts s)).

Definition hardenClauses_body (bound : Z) (i : nat) : M unit :=
  c <- getSoftClause i ;;
  satisfied <- (if weight c =? bound then
                  assertM (Nat.eqb (length (clause c)) 1) ;;;
                  l <- vec_at (clause c) 0 ;;
                  currentModel <- gets (fun s => model (solver s)) ;;
                  assertM (varZ l <? Z.of_nat (length currentModel)) ;;;
                  v <- model_at currentModel (varZ l) ;;
                  ret (lit_true_under l v)
                else ret false) ;;
  if (weight c >? bound) || ((weight c =? bound) && satisfied) then
    let l := assumption_var c in
    assertM (negb (l =? lit_Undef)) ;;;
    modify (fun s => set_solver (solver_addClause [neg l] (solver s)) s) ;;;
    lazy <- gets hardenLazily ;;
    (if lazy : bool then ret tt else addHard [neg l]) ;;;
    putSoftClause i (set_assumption_var lit_Undef (set_weight 0 c)) ;;;
    incr_num_hardened
  else
    mx <- gets maxw_nothardened ;;
    if weight c >? mx then modify (set_maxw_nothardened (weight c))
    else ret tt.

Definition hardenClauses : M unit :=
  bound <- gets (fun s => U64.sub (ubCost s) (lbCost s)) ;;
  modify (set_maxw_nothardened 0) ;;;
  n <- gets softs_added ;;
  for_upto n (hardenClauses_body bound).

(** ** Varying resolution *)

(** The two counters of the loop shared by [enoughSoftAboveWeight] and
    [findNextWeightDiversity]: the number of soft clauses at or above
    the candidate, and the set of their weights. *)
Definition softs_above (s : PMRES) (weightCand : Z) : nat * gset Z :=
  fold_left
    (fun (acc : nat * gset Z) c =>
       if weight c >=? weightCand
       then (S (fst acc), {[weight c]} ∪ snd acc)
       else acc)
    (softs s) (0%nat, ∅).

(** The quotient [num / den] rounded to the nearest integer, a tie
    going to the even one ([0 <= num], [0 < den]). *)
Definition round_half_even (num den : Z) : Z :=
  let q := num / den in
  let r := num mod den in
  if 2 * r <? den then q
  else if den <? 2 * r then q + 1
  else if Z.even q then q else q + 1.

(** Single precision (IEEE 754 binary32, 24 significant bits, rounding
    to nearest, ties to even).  A positive [float] is the pair [(m, e)]
    of its value [m * 2 ^ e].  [f32_round num den] is the [float]
    nearest to the rational [num / den] ([0 < num], [0 < den]): with
    [2 ^ k <= num / den < 2 ^ (k + 1)] the significand is the quotient
    by [2 ^ (k - 23)], rounded.  The counts converted and divided here
    are [int] and [size_t] values, so that every value lies between
    [2 ^ -64] and [2 ^ 64], among the normal numbers. *)
Definition f32_round (num den : Z) : Z * Z :=
  let k0 := Z.log2 num - Z.log2 den in
  let k := if (if 0 <=? k0 then den * 2 ^ k0 <=? num else den <=? num * 2 ^ (- k0))
           then k0 else k0 - 1 in
  let e := k - 23 in
  (if 0 <=? e then round_half_even num (den * 2 ^ e)
   else round_half_even (num * 2 ^ (- e)) den,
   e).

(** The conversion of a positive integer to [float]. *)
Definition f32_of_Z (n : Z) : Z * Z := f32_round n 1.

(** The quotient of two positive [float]s. *)
Definition f32_div (a b : Z * Z) : Z * Z :=
  let '(ma, ea) := a in
  let '(mb, eb) := b in
  if eb <=? ea then f32_round (ma * 2 ^ (ea - eb)) mb
  else f32_round ma (mb * 2 ^ (eb - ea)).

(** [x > alpha] for [float alpha = 1.25], which is a [float]. *)
Definition f32_above_alpha (x : Z * Z) : bool :=
  let '(m, e) := x in
  if 0 <=? e then 5 <? 4 * m * 2 ^ e else 5 * 2 ^ (- e) <? 4 * m.

(** [(float)n / d > alpha]: both counts are converted to [float] and
    the division is the one of [float].  With [n = 0] the quotient is 0,
    or not a number when [d = 0] too, and the comparison is false; with
    [d = 0 < n] the quotient is infinite. *)
Definition quotient_above_alpha (n d : Z) : bool :=
  if n <=? 0 then false
  else if d <=? 0 then true
  else f32_above_alpha (f32_div (f32_of_Z n) (f32_of_Z d)).

(** [(float)nbClauses / nbWeights.size() > alpha] with [alpha = 1.25]. *)
Definition ratio_above_alpha (nbClauses nbWeights : nat) : bool :=
  quotient_above_alpha (Z.of_nat nbClauses) (Z.of_nat nbWeights).

Definition enoughSoftAboveWeight (weightCand : Z) : M bool :=
  sat <- gets nbSatisfiable ;;
  assertM (Nat.ltb 0 sat) ;;;
  s <- gets id ;;
  let '(nbClauses, nbWeights) := softs_above s weightCand in
  ret (ratio_above_alpha nbClauses (size nbWeights)
       || (Z.of_nat nbClauses =? nRealSoft s)).

(** The maximum that [resetMaximumWeight] computes: the largest weight
    of a soft clause, and at least 1. *)
Definition reset_weight (s : PMRES) : Z :=
  fold_left (fun maxW c => if weight c >? maxW then weight c else maxW) (softs s) 1.

Definition resetMaximumWeight : M unit :=
  s <- gets id ;;
  onFormula (setMaximumWeight (reset_weight s)).

(** [while (maxW > 0) { counter++; maxW = maxW / varresFactor; }] *)
Fixpoint count_divisions (fuel : nat) (factor maxW counter : Z) : M Z :=
  if maxW >? 0 then
    match fuel with
    | O => failM
    | S fuel' =>
        q <- u64_div maxW factor ;;
        count_divisions fuel' factor q (counter + 1)
    end
  else ret counter.

(** [while (!enoughSoftAboveWeight(cand)) cand /= varresFactor;] *)
Fixpoint divide_until_enough (fuel : nat) (factor cand : Z) : M Z :=
  ok <- enoughSoftAboveWeight cand ;;
  if ok : bool then ret cand
  else match fuel with
       | O => failM
       | S fuel' =>
           q <- u64_div cand factor ;;
           divide_until_enough fuel' factor q
       end.

Definition updateDivisionFactor (fuel : nat) : M unit :=
  s <- gets id ;;
  let factor := varresFactor (opts s) in
  nextFactor <- u64_div (getMaximumWeight (maxsat_formula s)) factor ;;
  nextFactor' <- divide_until_enough fuel factor nextFactor ;;
  onFormula (setMaximumWeight nextFactor').

(** [pow(varresFactor, counter - 1)] is the function of the C library
    on [double], whose value is converted to [uint64_t].  The library
    is not part of the program, and beyond [2 ^ 53] a power need not be
    a [double]: the function [pow_u64], which gives the converted
    value of the call for a base and an exponent, is an input of the
    model, as the answers of the oracle are. *)
Definition initializeDivisionFactor (fuel : nat) (pow_u64 : Z -> Z -> Z) (var0 : bool)
  : M unit :=
  if negb var0 then onFormula (setMaximumWeight 1)
  else
    resetMaximumWeight ;;;
    s <- gets id ;;
    let factor := varresFactor (opts s) in
    counter <- count_divisions fuel factor (getMaximumWeight (maxsat_formula s)) 0 ;;
    weightCand <- divide_until_enough fuel factor (pow_u64 factor (counter - 1)) ;;
    onFormula (setMaximumWeight weightCand).

(** [findNextWeightDiversity]: the [for (;;)] loop, one turn per unit
    of fuel. *)
Fixpoint findNextWeightDiversity_loop (fuel : nat) (nextWeight : Z) (findNext : bool)
  : M Z :=
  match fuel with
  | O => failM
  | S fuel' =>
      s <- gets id ;;
      let nextWeight' :=
        if Nat.ltb 1 (nbSatisfiable s) || findNext
        then findNextWeight s nextWeight else nextWeight in
      let '(nbClauses, nbWeights) := softs_above s nextWeight' in
      if (ratio_above_alpha nbClauses (size nbWeights)
          && Nat.ltb (nbCurrentSoft s) nbClauses)
         || (Z.of_nat nbClauses =? nRealSoft s)
      then ret nextWeight'
      else findNextWeightDiversity_loop fuel' nextWeight'
             (if Nat.eqb (nbSatisfiable s) 1 && negb findNext then true else findNext)
  end.

Definition findNextWeightDiversity (fuel : nat) (weight0 : Z) : M Z :=
  s <- gets id ;;
  assertM (match weightStrategy (opts s) with _WEIGHT_DIVERSIFY_ => true | _ => false end) ;;;
  assertM (Nat.ltb 0 (nbSatisfiable s)) ;;;
  findNextWeightDiversity_loop fuel weight0 false.

Definition updateCurrentWeight (fuel : nat) (strategy : WeightStrategy) : M unit :=
  assertM (match strategy with _WEIGHT_NONE_ => false | _ => true end) ;;;
  s <- gets id ;;
  if negb (varyingresCG (opts s)) then
    match strategy with
    | _WEIGHT_NORMAL_ =>
        onFormula (setMaximumWeight
                     (findNextWeight s (getMaximumWeight (maxsat_formula s))))
    | _WEIGHT_DIVERSIFY_ =>
        w <- findNextWeightDiversity fuel (getMaximumWeight (maxsat_formula s)) ;;
        onFormula (setMaximumWeight w)
    | _WEIGHT_NONE_ => ret tt
    end
  else updateDivisionFactor fuel.

(** ** Core management: the PMRES transformation *)

Definition addSoftClauseAndAssumptionVar (weight0 : Z) (clause0 : Clause) : M unit :=
  l <- formula_newLiteral ;;
  addHard (clause0 ++ [l]) ;;;
  onFormula (addSoftClause weight0 [neg l]) ;;;
  n <- gets (fun s => nSoft (maxsat_formula s)) ;;
  c <- getSoftClause (n - 1) ;;
  putSoftClause (n - 1) (set_assumption_var l c) ;;;
  modify (fun s => set_coreMapping (<[l := (n - 1)%nat]> (coreMapping s)) s).

Definition encodeMaxRes (core : list Z) (weightCore : Z) : M unit :=
  assertM (negb (Nat.eqb (length core) 0)) ;;;
  let n := length core in
  dVars <- foldM (fun dVars (_ : nat) =>
                    p <- formula_newLiteral ;; ret (dVars ++ [p]))
                 (seq 0 (n - 1)) [] ;;
  lin <- gets (fun s => lins (opts s)) ;;
  (if lin =? 0 then addHard core else ret tt) ;;;
  (if Nat.ltb 2 n then
     for_upto (n - 2) (fun i =>
       (if lin =? 0 then
          di <- vec_at dVars i ;;
          di1 <- vec_at dVars (i + 1) ;;
          bi1 <- vec_at core (i + 1) ;;
          addHard [neg di; di1; bi1]
        else ret tt) ;;;
       di <- vec_at dVars i ;;
       bi1 <- vec_at core (i + 1) ;;
       addHard [di; neg bi1] ;;;
       di1 <- vec_at dVars (i + 1) ;;
       addHard [di; neg di1])
   else ret tt) ;;;
  (if Nat.ltb 1 n then
     d <- vec_at dVars (n - 2) ;;
     b <- vec_at core (n - 1) ;;
     addHard [d; neg b] ;;;
     addHard [neg d; b]
   else ret tt) ;;;
  for_upto (n - 1) (fun i =>
    bi <- vec_at core i ;;
    di <- vec_at dVars i ;;
    addSoftClauseAndAssumptionVar weightCore [neg bi; neg di]).

Definition relaxCore_body (weightCore : Z) (l : Z) : M unit :=
  indexSoft <- coreMapping_at l ;;
  c <- getSoftClause indexSoft ;;
  assertM (weight c >=? weightCore) ;;;
  putSoftClause indexSoft (set_weight (U64.sub (weight c) weightCore) c) ;;;
  c' <- getSoftClause indexSoft ;;
  if weight c' =? 0 then
    putSoftClause indexSoft (set_assumption_var lit_Undef c') ;;;
    incr_num_hardened
  else ret tt.

Definition relaxCore (conflict0 : list Z) (weightCore : Z) : M unit :=
  assertM (Nat.ltb 0 (length conflict0)) ;;;
  assertM (weightCore >? 0) ;;;
  for_each conflict0 (relaxCore_body weightCore) ;;;
  encodeMaxRes conflict0 weightCore ;;;
  modify (fun s => set_sumSizeCores (sumSizeCores s + length conflict0)%nat s).

(** ** Bounds *)

Definition checkGap : M unit :=
  s <- gets id ;;
  let currentGap := U64.sub (ubCost s) (lbCost s) in
  if currentGap <? known_gap s then modify (set_known_gap currentGap)
  else ret tt.

(** Cost of a model on the formula the search started from: the weight
    of every soft clause none of whose literals is true. *)
Definition computeCostModelPMRES (currentModel : list lbool) : M Z :=
  assertM (negb (Nat.eqb (length currentModel) 0)) ;;;
  s <- gets id ;;
  foldM (fun currentCost c =>
           sat <- foldM (fun (found : bool) l =>
                           if found then ret true
                           else
                             assertM (varZ l <? Z.of_nat (length currentModel)) ;;;
                             v <- model_at currentModel (varZ l) ;;
                             ret (lit_true_under l v))
                        (clause c) false ;;
           ret (if sat : bool then currentCost else U64.add currentCost (weight c)))
        (soft_clauses (costComputingFormula s)) 0.

Definition checkModel : M bool :=
  m <- gets (fun s => model (solver s)) ;;
  modelCost <- computeCostModelPMRES m ;;
  ub <- gets ubCost ;;
  let isBetter := modelCost <? ub in
  (if isBetter then
     modify (set_ubCost modelCost) ;;;
     modify (set_bestModel m) ;;;
     checkGap
   else ret tt) ;;;
  s <- gets id ;;
  (if (modelCost =? ubCost s) && Nat.ltb (length (bestModel s)) (length m)
   then modify (set_bestModel m) else ret tt) ;;;
  ret isBetter.

(** ** The oracle is brought up to date *)

(** [updateSolver]: one [newSATVariable] for each variable of the formula
    from [vars_added] on, one [addClause] for each hard clause from
    [clauses_added] on, then the three counters are brought level with
    the formula.  The two closing assertions, [nPB() == 0] and
    [nCard() == 0], hold of every formula of this model, which has no
    pseudo-Boolean and no cardinality constraints. *)
Definition updateSolver : M unit :=
  s <- gets id ;;
  let f := maxsat_formula s in
  let sv := solver s in
  modify (set_solver
    {| solver_nvars := solver_nvars sv + (nVars f - vars_added s);
       solver_clauses := solver_clauses sv ++ drop (clauses_added s) (hard_clauses f);
       model := model sv; conflict := conflict sv |}) ;;;
  modify (set_vars_added (nVars f)) ;;;
  modify (set_clauses_added (nHard f)) ;;;
  modify (set_softs_added (nSoft f)).

(** ** The core-guided loop *)

Inductive StatusCode : Type :=
  _SATISFIABLE_ | _UNSATISFIABLE_ | _OPTIMUM_ | _UNKNOWN_ | _ERROR_.

(** What the world answers in one turn of the loop: the clock read at
    the top of the turn and the oracle's answer to [searchSATSolver],
    with the model or the conflict it leaves in the solver. *)
Record Turn : Type := mkTurn {
  timeSinceStart : Z;
  res : lbool;
  turn_model : list lbool;
  turn_conflict : list Z
}.

(** One turn of [for (;;)] in [weightDisjointCores]: [Some] status when
    the function returns in this turn, [None] when the loop goes on. *)
Definition weightDisjointCores_turn (t : Turn) : M (option StatusCode) :=
  limit <- gets (fun s => timeLimitCores (opts s)) ;;
  if (limit >? 0) && (limit - timeSinceStart t <=? 0) then ret (Some _UNKNOWN_)
  else
    setAssumptions ;;;
    modify (fun s => set_solver (solver_answer (turn_model t) (turn_conflict t) (solver s)) s) ;;;
    if lbool_eqb (res t) l_Undef then ret (Some _UNKNOWN_)
    else
      (if lbool_eqb (res t) l_False then
         modify (fun s => set_nbCores (S (nbCores s)) s) ;;;
         cf <- gets (fun s => conflict (solver s)) ;;
         assertM (Nat.ltb 0 (length cf)) ;;;
         coreCost <- computeCostCore cf ;;
         modify (fun s => set_lbCost (U64.add (lbCost s) coreCost) s) ;;;
         checkGap ;;;
         relaxCore cf coreCost
       else ret tt) ;;;
      if lbool_eqb (res t) l_True then ret (Some _SATISFIABLE_)
      else
        s <- gets id ;;
        if lbCost s >? ubCost s then ret (Some _ERROR_) else ret None.

(** The loop over the turns the world provides; [None] in the result
    when the turns are used up before the function returns. *)
Fixpoint weightDisjointCores (turns : list Turn) : M (option StatusCode) :=
  match turns with
  | [] => ret None
  | t :: turns' =>
      r <- weightDisjointCores_turn t ;;
      match r with
      | Some st => ret (Some st)
      | None => weightDisjointCores turns'
      end
  end.

(** ** The statements of the specification, for comparison *)

(** "The greatest soft weight strictly less than [w], or 1 if none", as
    a relation between the state, [w] and a result [r]. *)
Definition greatest_weight_below (s : PMRES) (w r : Z) : Prop :=
  ((exists c, c ∈ softs s /\ weight c < w) ->
     (exists c, c ∈ softs s /\ weight c = r) /\ r < w /\
     (forall c, c ∈ softs s -> weight c < w -> weight c <= r))
  /\ ((forall c, c ∈ softs s -> ~ weight c < w) -> r = 1).

(** The same, counting only the soft clauses of positive weight. *)
Definition greatest_positive_weight_below (s : PMRES) (w r : Z) : Prop :=
  ((exists c, c ∈ softs s /\ 0 < weight c < w) ->
     (exists c, c ∈ softs s /\ weight c = r) /\ r < w /\
     (forall c, c ∈ softs s -> weight c < w -> weight c <= r))
  /\ ((forall c, c ∈ softs s -> ~ 0 < weight c < w) -> r = 1).

(** The soft clauses [setAssumptions] is after: weight at least the
    working weight, or a positive quotient by it under varying
    resolution. *)
Definition in_stratum (s : PMRES) (c : Soft) : bool :=
  let mw := getMaximumWeight (maxsat_formula s) in
  if varyingresCG (opts s) then weight c / mw >? 0 else weight c >=? mw.

(** "The assumption vector contains exactly the negated assumption
    literals of the soft clauses of the formula in the stratum, and
    [nbCurrentSoft] is their number", between the state [s] in which
    [setAssumptions] is called and the state [s'] it leaves. *)
Definition assumptions_of_every_soft (s s' : PMRES) : Prop :=
  (forall a, a ∈ assumptions s' <->
             exists c, c ∈ softs s /\ in_stratum s c = true
                       /\ a = neg (assumption_var c))
  /\ nbCurrentSoft s' = length (filter (fun c => in_stratum s c = true) (softs s)).

(** The clauses of the stratum among the first [k] soft clauses. *)
Definition stratum_upto (s : PMRES) (k : nat) : list Soft :=
  filter (fun c => in_stratum s c = true) (take k (softs s)).

Definition negated_assumptions (l : list Soft) : list Z :=
  map (fun c => neg (assumption_var c)) l.

(** What [setAssumptions] needs to run through: the clauses delivered
    to the oracle exist and are unit clauses, the working weight is
    positive, and a clause of the stratum has its assumption. *)
Definition setAssumptions_ready (s : PMRES) : Prop :=
  (softs_added s <= nSoft (maxsat_formula s))%nat
  /\ 0 < getMaximumWeight (maxsat_formula s)
  /\ forall c, c ∈ take (softs_added s) (softs s) ->
       length (clause c) = 1%nat
       /\ (in_stratum s c = true -> assumption_var c <> lit_Undef).

(** The unit soft clause [c] is satisfied by the model [m]. *)
Definition soft_satisfied (m : list lbool) (c : Soft) : bool :=
  match clause c with
  | l :: _ =>
      if varZ l <? 0 then false
      else match m !! Z.to_nat (varZ l) with
           | Some v => lit_true_under l v
           | None => false
           end
  | [] => false
  end.

(** The condition of the hardener at the gap [ubCost - lbCost], with
    the model [m] deciding the clauses whose weight equals the gap. *)
Definition to_harden (m : list lbool) (s : PMRES) (c : Soft) : bool :=
  let gap := U64.sub (ubCost s) (lbCost s) in
  (weight c >? gap) || ((weight c =? gap) && soft_satisfied m c).

Definition hardened (c : Soft) : Soft := mkSoft (clause c) 0 lit_Undef.

(** "Every active soft clause is hardened if and only if its weight is
    above the gap, or equals it and the clause is satisfied by the
    current best model", between the state [s] in which the hardener
    is called and the state [s'] it leaves. *)
Definition hardens_every_active_soft (s s' : PMRES) : Prop :=
  forall i c,
    softs s !! i = Some c -> length (clause c) = 1%nat -> 0 < weight c ->
    (to_harden (bestModel s) s c = true <-> softs s' !! i = Some (hardened c)).

(** The clauses the hardener takes among the first [k] soft clauses,
    with the oracle's model as the model. *)
Definition hardened_upto (s : PMRES) (k : nat) : list Soft :=
  filter (fun c => to_harden (model (solver s)) s c = true) (take k (softs s)).

Definition kept_upto (s : PMRES) (k : nat) : list Soft :=
  filter (fun c => to_harden (model (solver s)) s c = false) (take k (softs s)).

Definition unit_of_assumption (c : Soft) : Clause := [neg (assumption_var c)].

(** The largest weight in a list of clauses, 0 for the empty list. *)
Definition max_weight_of (l : list Soft) : Z :=
  fold_left (fun mx c => if weight c >? mx then weight c else mx) l 0.

(** What [hardenClauses] needs to run through: the clauses delivered to
    the oracle exist; one whose weight equals the gap is a unit clause
    over a variable of the model; one that is taken has its
    assumption. *)
Definition hardenClauses_ready (s : PMRES) : Prop :=
  (softs_added s <= nSoft (maxsat_formula s))%nat
  /\ forall c, c ∈ take (softs_added s) (softs s) ->
       (weight c = U64.sub (ubCost s) (lbCost s) ->
        exists l, clause c = [l]
                  /\ 0 <= varZ l < Z.of_nat (length (model (solver s))))
       /\ (to_harden (model (solver s)) s c = true -> assumption_var c <> lit_Undef).

(** The solver object after the hardener has gone through the first
    [k] soft clauses. *)
Definition hardened_state (s : PMRES) (k : nat) : PMRES :=
  let units := map unit_of_assumption (hardened_upto s k) in
  let f := maxsat_formula s in
  let f1 := if hardenLazily s then f
            else with_hard_clauses (hard_clauses f ++ units) f in
  let f2 := with_soft_clauses
              (map (fun c => if to_harden (model (solver s)) s c then hardened c else c)
                   (take k (softs s))
               ++ drop k (softs s)) f1 in
  set_num_hardened (num_hardened s + length (hardened_upto s k))%nat
    (set_maxsat_formula f2
       (set_solver
          {| solver_nvars := solver_nvars (solver s);
             solver_clauses := solver_clauses (solver s) ++ units;
             model := model (solver s); conflict := conflict (solver s) |}
          (set_maxw_nothardened (max_weight_of (kept_upto s k)) s))).

(** ** The PMRES transformation, written out *)

(** The solver object [s] with the variable count, the hard clauses,
    the soft clauses and the table replaced. *)
Definition put_formula (nv : nat) (hard : list Clause) (sf : list Soft)
           (cm : gmap Z nat) (s : PMRES) : PMRES :=
  set_coreMapping cm
    (set_maxsat_formula
       (with_soft_clauses sf
          (with_hard_clauses hard (with_n_vars nv (maxsat_formula s)))) s).

(** For a core [b] of size [n] relaxed when the formula has [nv]
    variables: the d-variables [d 0 .. d (n-2)] and the assumption
    literals [a 0 .. a (n-2)] of the new soft clauses. *)
Definition core_lit (core : list Z) (i : nat) : Z := default 0 (core !! i).
Definition d_var (nv i : nat) : Z := mkLit (nv + i) false.
Definition a_var (nv n i : nat) : Z := mkLit (nv + (n - 1) + i) false.

(** [d i -> (b (i+1) or d (i+1))], emitted when [lins = 0]. *)
Definition clause_d_implies (nv : nat) (core : list Z) (i : nat) : Clause :=
  [neg (d_var nv i); d_var nv (i + 1); core_lit core (i + 1)].
(** [(b (i+1) or d (i+1)) -> d i], two clauses. *)
Definition clauses_implies_d (nv : nat) (core : list Z) (i : nat) : list Clause :=
  [[d_var nv i; neg (core_lit core (i + 1))];
   [d_var nv i; neg (d_var nv (i + 1))]].
(** [d (n-2) <-> b (n-1)], the final clauses. *)
Definition clauses_last (nv : nat) (core : list Z) : list Clause :=
  let n := length core in
  if Nat.ltb 1 n
  then [[d_var nv (n - 2); neg (core_lit core (n - 1))];
        [neg (d_var nv (n - 2)); core_lit core (n - 1)]]
  else [].
(** [not b i or not d i or a i], the body of the new soft clause. *)
Definition clause_reified (nv : nat) (core : list Z) (i : nat) : Clause :=
  [neg (core_lit core i); neg (d_var nv i); a_var nv (length core) i].

Definition new_hards (lin : Z) (nv : nat) (core : list Z) : list Clause :=
  let n := length core in
  (if lin =? 0 then [core] else [])
  ++ flat_map (fun i => (if lin =? 0 then [clause_d_implies nv core i] else [])
                        ++ clauses_implies_d nv core i)
              (seq 0 (n - 2))
  ++ clauses_last nv core
  ++ map (clause_reified nv core) (seq 0 (n - 1)).

Definition new_soft (nv n : nat) (w : Z) (i : nat) : Soft :=
  mkSoft [neg (a_var nv n i)] w (a_var nv n i).

Definition new_softs (nv n : nat) (w : Z) : list Soft :=
  map (new_soft nv n w) (seq 0 (n - 1)).

Definition new_mapping (nv n ns : nat) (cm : gmap Z nat) : gmap Z nat :=
  fold_left (fun m i => <[a_var nv n i := (ns + i)%nat]> m) (seq 0 (n - 1)) cm.

Definition d_vars (nv m : nat) : list Z := map (d_var nv) (seq 0 m).

(** ** Relaxation of a core, written out *)

(** The table after [coreMapping[l]] has been read. *)
Definition cm_touch (m : gmap Z nat) (l : Z) : gmap Z nat :=
  match m !! l with
  | Some _ => m
  | None => <[l := 0%nat]> m
  end.

(** A soft clause of a core after the weight of the core is taken off. *)
Definition relax_soft (w : Z) (c : Soft) : Soft :=
  let c' := set_weight (U64.sub (weight c) w) c in
  if weight c' =? 0 then set_assumption_var lit_Undef c' else c'.

(** The solver object after one turn of the loop of [relaxCore] on the
    literal [l], whose soft clause is [c]. *)
Definition relaxed_at (w : Z) (l : Z) (c : Soft) (s : PMRES) : PMRES :=
  let i := cm_get (coreMapping s) l in
  set_num_hardened
    (if weight (relax_soft w c) =? 0 then S (num_hardened s) else num_hardened s)
    (set_maxsat_formula
       (with_soft_clauses (<[i := relax_soft w c]> (softs s)) (maxsat_formula s))
       (set_coreMapping (cm_touch (coreMapping s) l) s)).

(** The sum of the weights of the soft clauses, on the integers. *)
Fixpoint total_weight (l : list Soft) : Z :=
  match l with
  | [] => 0
  | c :: l' => weight c + total_weight l'
  end.

(** Every weight is a [uint64_t]. *)
Definition weights_inrange (l : list Soft) : Prop :=
  Forall (fun c => U64.inrange (weight c)) l.

(** The bounds of [s'] are those of [s]. *)
Definition same_bounds (s s' : PMRES) : Prop :=
  lbCost s' = lbCost s /\ ubCost s' = ubCost s /\ known_gap s' = known_gap s.

(** The index and the soft clause that a literal of a conflict stands
    for, read through the table. *)
Definition core_index (s : PMRES) (l : Z) : nat := cm_get (coreMapping s) l.
Definition core_soft (s : PMRES) (l : Z) : option Soft := softs s !! core_index s l.

(** The literals of a conflict whose soft clause has exactly the
    weight [w]. *)
Definition exhausted (w : Z) (s : PMRES) (l : Z) : bool :=
  match core_soft s l with
  | Some c => weight c =? w
  | None => false
  end.

(** The literals of a conflict whose soft clause is left with weight 0
    when [w] is taken off. *)
Definition zeroed (w : Z) (s : PMRES) (l : Z) : bool :=
  match core_soft s l with
  | Some c => weight (relax_soft w c) =? 0
  | None => false
  end.

(** A conflict as the oracle reports it on the assumptions of the
    core-guided phase: its literals stand for pairwise distinct soft
    clauses, each active with a weight that is a [uint64_t]. *)
Definition conflict_of_active_softs (s : PMRES) (conflict0 : list Z) : Prop :=
  NoDup (core_index s <$> conflict0)
  /\ forall l, l ∈ conflict0 ->
       exists c, core_soft s l = Some c /\ 0 < weight c < U64.modulus.

(** ** The drivers, as far as they write to the solver object *)

(** [initAssumptions]: every soft clause is a unit clause; the negation
    of its literal becomes its assumption and is entered in
    [coreMapping] with the index of the clause. *)
Definition initAssumptions_body (i : nat) : M unit :=
  c <- getSoftClause i ;;
  assertM (Nat.eqb (length (clause c)) 1) ;;;
  l <- vec_at (clause c) 0 ;;
  putSoftClause i (set_assumption_var (neg l) c) ;;;
  modify (fun s => set_coreMapping (<[neg l := i]> (coreMapping s)) s).

Definition initAssumptions : M unit :=
  n <- gets (fun s => nSoft (maxsat_formula s)) ;;
  for_upto n initAssumptions_body.

(** [searchSATSolver]: the oracle leaves its model or its conflict. *)
Definition oracle_answers (t : Turn) : M unit :=
  modify (fun s => set_solver (solver_answer (turn_model t) (turn_conflict t) (solver s)) s).

Definition incr_nbSatisfiable : M unit :=
  modify (fun s => set_nbSatisfiable (S (nbSatisfiable s)) s).

(** [if (lbCost < ubCost) { ubCost = lbCost; saveModel(...); }] *)
Definition lower_ub_to_lb : M unit :=
  s <- gets id ;;
  if lbCost s <? ubCost s then modify (set_ubCost (lbCost s)) else ret tt.

(** Modelled from the spec: [set_polarity(var, value)] of the oracle
    interface (section 4.2) is a hint for the first decision on a
    variable.  The hints have no part in the oracle of this model,
    whose answers are inputs; that the variable is one the oracle
    holds is a premise of the properties that state a return of
    [softsSatisfied] ([polarities_ready]). *)
Definition setPolarity (v : Z) (b : bool) : M unit := ret tt.

(** [softsSatisfied]: the bound of the loop is the number of soft
    clauses of the formula the search was given, the clauses read are
    those of the working formula. *)
Definition softsSatisfied_body (i : nat) : M unit :=
  c <- getSoftClause i ;;
  assertM (Nat.eqb (length (clause c)) 1) ;;;
  l <- vec_at (clause c) 0 ;;
  setPolarity (varZ l) (sign l).

Definition softsSatisfied : M unit :=
  n <- gets (fun s => nSoft (costComputingFormula s)) ;;
  for_upto n softsSatisfied_body.

(** [unsatSearch]: the first call of the oracle, without assumptions. *)
Definition unsatSearch (t : Turn) : M StatusCode :=
  a <- gets assumptions ;;
  assertM (Nat.eqb (length a) 0) ;;;
  updateSolver ;;;
  softsSatisfied ;;;
  oracle_answers t ;;;
  if lbool_eqb (res t) l_False then
    modify (fun s => set_nbCores (S (nbCores s)) s) ;;;
    ret _UNSATISFIABLE_
  else
    (if lbool_eqb (res t) l_True then
       incr_nbSatisfiable ;;;
       beforecheck <- gets ubCost ;;
       checkModel ;;;
       aftercheck <- gets ubCost ;;
       assertM (beforecheck >=? aftercheck)
     else ret tt) ;;;
    ret _SATISFIABLE_.

(** [weightSearch], from the model that [weightDisjointCores] returned
    with to the two places where the function returns; [None] when the
    loop goes on to hardening and the next stratum. *)
Definition weightSearch_model : M (option StatusCode) :=
  incr_nbSatisfiable ;;;
  m <- gets (fun s => model (solver s)) ;;
  modelCost <- computeCostModelPMRES m ;;
  ub <- gets ubCost ;;
  (if modelCost <? ub then modify (set_ubCost modelCost) else ret tt) ;;;
  s <- gets id ;;
  if lbCost s =? ubCost s then ret (Some _OPTIMUM_)
  else if Z.of_nat (nbCurrentSoft s) =? nRealSoft s then
    assertM (modelCost =? lbCost s) ;;;
    lower_ub_to_lb ;;;
    ret (Some _OPTIMUM_)
  else ret None.

(** The same stretch of [coreGuidedLinearSearch]. *)
Definition coreGuidedLinearSearch_model : M (option StatusCode) :=
  incr_nbSatisfiable ;;;
  checkModel ;;;
  s <- gets id ;;
  if lbCost s =? ubCost s then ret (Some _OPTIMUM_)
  else if Z.of_nat (nbCurrentSoft s) =? nRealSoft s then
    modelCost <- computeCostModelPMRES (model (solver s)) ;;
    assertM (modelCost =? lbCost s) ;;;
    lower_ub_to_lb ;;;
    ret (Some _OPTIMUM_)
  else ret None.

Definition getModelAfterCG (t : Turn) : M StatusCode :=
  updateSolver ;;;
  setAssumptions ;;;
  oracle_answers t ;;;
  assertM (lbool_eqb (res t) l_True) ;;;
  m <- gets (fun s => model (solver s)) ;;
  modelCost <- computeCostModelPMRES m ;;
  lb <- gets lbCost ;;
  assertM (modelCost =? lb) ;;;
  lower_ub_to_lb ;;;
  ret _OPTIMUM_.

(** The head of the loops of [weightSearch] and
    [coreGuidedLinearSearch]: the status of [weightDisjointCores] is
    compared with [_OPTIMUM_] first. *)
Definition on_status {R} (us : option StatusCode) (optimum : M R)
           (otherwise : option StatusCode -> M R) : M R :=
  match us with
  | Some _OPTIMUM_ => optimum
  | _ => otherwise us
  end.

(** What the linear phase writes to the solver object apart from its
    calls of [checkModel]: the working weight and the problem type of
    the formula, the oracle (rebuilt, fed by the encoder), the
    assumptions and the counters. *)
Definition linear_phase_writes (mw : Z) (t : ProblemType) (sv : Solver)
           (a : list Z) (nb nsat va ca sa : nat) (s : PMRES) : PMRES :=
  set_softs_added sa (set_clauses_added ca (set_vars_added va
    (set_nbSatisfiable nsat (set_nbCurrentSoft nb (set_assumptions a (set_solver sv
      (set_maxsat_formula
         (setProblemType t (setMaximumWeight mw (maxsat_formula s))) s))))))).

(** One operation of the search on the solver object; the integer is
    the weight that the operation takes away by hardening. *)
Inductive step : PMRES -> Z -> PMRES -> Prop :=
| step_initAssumptions s s' :
    initAssumptions s = Some (tt, s') -> step s 0 s'
| step_unsatSearch t s r s' :
    unsatSearch t s = Some (r, s') -> step s 0 s'
| step_core t s r s' :
    weightDisjointCores_turn t s = Some (r, s') -> step s 0 s'
| step_weightSearch_model s r s' :
    weightSearch_model s = Some (r, s') -> step s 0 s'
| step_coreGuidedLinearSearch_model s r s' :
    coreGuidedLinearSearch_model s = Some (r, s') -> step s 0 s'
| step_getModelAfterCG t s r s' :
    getModelAfterCG t s = Some (r, s') -> step s 0 s'
| step_harden s s' :
    hardenClauses s = Some (tt, s') ->
    step s (total_weight (hardened_upto s (softs_added s))) s'
| step_updateSolver s s' :
    updateSolver s = Some (tt, s') -> step s 0 s'
| step_updateCurrentWeight fuel strategy s s' :
    updateCurrentWeight fuel strategy s = Some (tt, s') -> step s 0 s'
| step_initializeDivisionFactor fuel pow_u64 v s s' :
    initializeDivisionFactor fuel pow_u64 v s = Some (tt, s') -> step s 0 s'
| step_checkModel t s b s' :
    (oracle_answers t ;;; checkModel) s = Some (b, s') -> step s 0 s'
| step_linear mw t sv a nb nsat va ca sa s :
    step s 0 (linear_phase_writes mw t sv a nb nsat va ca sa s).

(** A run: the operations in sequence, with the weight hardened so far. *)
Inductive run : PMRES -> Z -> PMRES -> Prop :=
| run_start s : run s 0 s
| run_step s h1 s1 h2 s2 : run s h1 s1 -> step s1 h2 s2 -> run s (h1 + h2) s2.

(** The solver object when [search] starts on a formula: the weights
    are [uint64_t] values and so is their sum with the lower bound. *)
Definition sums_fit (s : PMRES) : Prop :=
  weights_inrange (softs s)
  /\ 0 <= lbCost s
  /\ lbCost s + total_weight (softs s) < U64.modulus.

(** The three bounds of [s'] are those of [s] or have moved in their
    direction. *)
Definition bounds_monotone (s s' : PMRES) : Prop :=
  lbCost s <= lbCost s' /\ ubCost s' <= ubCost s /\ known_gap s' <= known_gap s.

(** The upper bound and the known gap of [s'] are those of [s] or
    lower. *)
Definition upper_bounds_down (s s' : PMRES) : Prop :=
  ubCost s' <= ubCost s /\ known_gap s' <= known_gap s.

(** The time budget of the core-guided phase is used up at turn [t]. *)
Definition out_of_time (t : Turn) (s : PMRES) : Prop :=
  0 < timeLimitCores (opts s)
  /\ timeLimitCores (opts s) - timeSinceStart t <= 0.

(** Why a turn of [weightDisjointCores] returns the status [st], or why
    it goes on, in the state [s'] it leaves. *)
Definition turn_outcome (t : Turn) (s : PMRES) (r : option StatusCode) (s' : PMRES)
  : Prop :=
  match r with
  | Some _UNKNOWN_ => out_of_time t s \/ (~ out_of_time t s /\ res t = l_Undef)
  | Some _SATISFIABLE_ => ~ out_of_time t s /\ res t = l_True
  | Some _ERROR_ => ~ out_of_time t s /\ res t = l_False /\ ubCost s' < lbCost s'
  | None => ~ out_of_time t s /\ res t = l_False /\ lbCost s' <= ubCost s'
  | Some _OPTIMUM_ | Some _UNSATISFIABLE_ => False
  end.

(** ** The division factor, written out *)

(** The predicate of [enoughSoftAboveWeight] as a function of the
    solver object. *)
Definition enough_above (s : PMRES) (weightCand : Z) : bool :=
  ratio_above_alpha (fst (softs_above s weightCand))
                    (size (snd (softs_above s weightCand)))
  || (Z.of_nat (fst (softs_above s weightCand)) =? nRealSoft s).

(** The soft clauses at or above a candidate weight. *)
Definition at_or_above (s : PMRES) (weightCand : Z) : list Soft :=
  filter (fun c => weightCand <= weight c) (softs s).

(** [k] divisions of a candidate by the factor. *)
Definition divided (factor : Z) (k : nat) (cand : Z) : Z :=
  Nat.iter k (fun c => c / factor) cand.

(** The first candidate of the chain [cand, cand / factor, ...] for
    which the predicate holds is [r]. *)
Definition first_enough (s : PMRES) (factor cand r : Z) : Prop :=
  exists k, r = divided factor k cand
            /\ enough_above s r = true
            /\ forall j, (j < k)%nat -> enough_above s (divided factor j cand) = false.

Definition is_power (factor p : Z) : Prop := exists e, 0 <= e /\ p = factor ^ e.

Definition smallest_power_upto (factor m p : Z) : Prop :=
  is_power factor p /\ p <= m
  /\ forall q, is_power factor q -> q <= m -> p <= q.

Definition greatest_power_upto (factor m p : Z) : Prop :=
  is_power factor p /\ p <= m
  /\ forall q, is_power factor q -> q <= m -> q <= p.

(** "[initializeDivisionFactor(true)] starts from the smallest power of
    the factor not exceeding the maximum soft weight and divides until
    the predicate holds", between the states before and after. *)
Definition starts_from_smallest_power (s s' : PMRES) : Prop :=
  exists cand,
    smallest_power_upto (varresFactor (opts s)) (max_weight_of (softs s)) cand
    /\ first_enough s (varresFactor (opts s)) cand
                    (getMaximumWeight (maxsat_formula s')).

(** ** Relations between the states before and after a computation *)

(** Every result of the computation [m] is related to the state it
    ran in by [R]. *)
Definition preserves (R : PMRES -> PMRES -> Prop) {A} (m : M A) : Prop :=
  forall s a s', m s = Some (a, s') -> R s s'.

(** Nothing that the accounts of the search rest on has changed: the
    bounds, the soft clauses and the counter of hardened clauses. *)
Definition frame (s s' : PMRES) : Prop :=
  same_bounds s s' /\ softs s' = softs s /\ num_hardened s' = num_hardened s.

(** The lower bound and the soft clauses are the same; the upper bound
    and the known gap have not grown. *)
Definition quiet (s s' : PMRES) : Prop :=
  (lbCost s' = lbCost s /\ ubCost s' <= ubCost s /\ known_gap s' <= known_gap s)
  /\ softs s' = softs s.

(** The bounds and the weights of the soft clauses, in their order,
    are the same. *)
Definition same_weights (s s' : PMRES) : Prop :=
  same_bounds s s' /\ weight <$> softs s' = weight <$> softs s.

(** The hardener can go on at the soft clause of index [i]. *)
Definition ready_at (s : PMRES) (i : nat) : Prop :=
  exists c, softs s !! i = Some c
            /\ (weight c = U64.sub (ubCost s) (lbCost s) ->
                exists l, clause c = [l]
                          /\ 0 <= varZ l < Z.of_nat (length (model (solver s))))
            /\ (to_harden (model (solver s)) s c = true ->
                assumption_var c <> lit_Undef).

(** ** Further member functions *)

(** [literalTrueInModel]: the assertion guards the read of the model. *)
Definition literalTrueInModel (l : Z) (m : list lbool) : M bool :=
  assertM (varZ l <? Z.of_nat (length m)) ;;;
  v <- model_at m (varZ l) ;;
  ret (lit_true_under l v).

(** [shouldUpdate]: hard clauses of the formula are still to be given
    to the oracle. *)
Definition shouldUpdate (s : PMRES) : bool :=
  Nat.ltb (clauses_added s) (nHard (maxsat_formula s)).

(** Modelled from the spec: [newSATSolver] builds an oracle that holds
    no variable and no clause (section 4.2). *)
Definition newSATSolver : Solver := mkSolver 0 [] [] [].

(** [resetSolver]: the oracle is replaced by a new one, the three
    counters go back to 0 and [updateSolver] delivers everything
    again. *)
Definition resetSolver : M unit :=
  modify (set_solver newSATSolver) ;;;
  modify (set_clauses_added 0%nat) ;;;
  modify (set_softs_added 0%nat) ;;;
  modify (set_vars_added 0%nat) ;;;
  updateSolver.

(** [moreThanWeight]: the number of soft clauses of weight at least the
    candidate. *)
Definition moreThanWeight (s : PMRES) (weightCand : Z) : nat :=
  fold_left (fun test c => if weight c >=? weightCand then S test else test)
            (softs s) 0%nat.

(** [while (moreThanWeight(nextFactor) == nbCurrentSoft && nextFactor > 1)
      nextFactor /= varresFactor;] *)
Fixpoint divide_while_all_above (fuel : nat) (factor nextFactor : Z) : M Z :=
  s <- gets id ;;
  if Nat.eqb (moreThanWeight s nextFactor) (nbCurrentSoft s) && (nextFactor >? 1) then
    match fuel with
    | O => failM
    | S fuel' =>
        q <- u64_div nextFactor factor ;;
        divide_while_all_above fuel' factor q
    end
  else ret nextFactor.

Definition updateDivisionFactorLinear (fuel : nat) : M unit :=
  s <- gets id ;;
  let factor := varresFactor (opts s) in
  nextFactor <- u64_div (getMaximumWeight (maxsat_formula s)) factor ;;
  nextFactor' <- divide_while_all_above fuel factor nextFactor ;;
  onFormula (setMaximumWeight nextFactor').

(** The locals of the loop of [initRelaxation], with the two vectors it
    fills: [objFunction], [coeffs], [comW] and [unweighted].  The local
    [maxreducedweight] is written in the loop and never read; it is
    left out. *)
Record Relaxation : Type := mkRelaxation {
  objFunction : list Z;
  coeffs : list Z;
  comW : Z;
  unweighted : bool
}.

Definition initRelaxation_body (r : Relaxation) (i : nat) : M Relaxation :=
  c <- getSoftClause i ;;
  mw <- gets (fun s => getMaximumWeight (maxsat_formula s)) ;;
  reducedWeight <- u64_div (weight c) mw ;;
  if reducedWeight >? 0 then
    let l := assumption_var c in
    assertM (negb (l =? lit_Undef)) ;;;
    modify (fun s => set_nbCurrentSoft (S (nbCurrentSoft s)) s) ;;;
    ret {| objFunction := objFunction r ++ [l];
           coeffs := coeffs r ++ [reducedWeight];
           comW := if comW r =? 0 then reducedWeight else comW r;
           unweighted := if comW r =? 0 then unweighted r
                         else if negb (comW r =? reducedWeight) then false
                              else unweighted r |}
  else ret r.

(** [initRelaxation]: the objective function of the linear phase.  The
    vectors [objFunction] and [coeffs] are members of the solver object
    that only this function writes and only the encoder reads; they are
    the result here. *)
Definition initRelaxation : M (list Z * list Z) :=
  modify (set_nbCurrentSoft 0%nat) ;;;
  n <- gets (fun s => nSoft (maxsat_formula s)) ;;
  r <- foldM initRelaxation_body (seq 0 n)
         {| objFunction := []; coeffs := []; comW := 0; unweighted := true |} ;;
  incr <- gets (fun s => incrementalVarres (opts s)) ;;
  let unweighted' := if incr : bool then false else unweighted r in
  onFormula (setProblemType (if unweighted' then _UNWEIGHTED_ else _WEIGHTED_)) ;;;
  ret (objFunction r, coeffs r).

(** Modelled from the spec: a formula store as it is constructed, with
    no variable and no clause (section 4.1); [newVar] counts one more
    variable, [updateSumWeights] adds to the sum of the weights and
    [setHardWeight] writes the sentinel. *)
Definition new_MaxSATFormula : MaxSATFormula :=
  {| n_vars := 0; hard_clauses := []; soft_clauses := [];
     sum_soft_weight := 0; max_soft_weight := 0; hard_weight := U64.MAX;
     problem_type := _UNWEIGHTED_ |}.
Definition newVar (f : MaxSATFormula) : MaxSATFormula := with_n_vars (S (n_vars f)) f.
Definition getSumWeights (f : MaxSATFormula) : Z := sum_soft_weight f.
Definition getHardWeight (f : MaxSATFormula) : Z := hard_weight f.
Definition updateSumWeights (w : Z) (f : MaxSATFormula) : MaxSATFormula :=
  {| n_vars := n_vars f; hard_clauses := hard_clauses f; soft_clauses := soft_clauses f;
     sum_soft_weight := U64.add (sum_soft_weight f) w;
     max_soft_weight := max_soft_weight f;
     hard_weight := hard_weight f; problem_type := problem_type f |}.
Definition setHardWeight (w : Z) (f : MaxSATFormula) : MaxSATFormula :=
  {| n_vars := n_vars f; hard_clauses := hard_clauses f; soft_clauses := soft_clauses f;
     sum_soft_weight := sum_soft_weight f; max_soft_weight := max_soft_weight f;
     hard_weight := w; problem_type := problem_type f |}.

(** One turn of the loop of [standardizeMaxSATFormula] over the soft
    clauses: the clause goes to the hard clauses with a new literal,
    and the negation of that literal is the soft clause. *)
Definition standardize_soft (copymx : MaxSATFormula) (c : Soft) : MaxSATFormula :=
  let '(l, f1) := newLiteral copymx in
  addSoftClause (weight c) [neg l] (addHardClause (clause c ++ [l]) f1).

Definition standardizeMaxSATFormula (f : MaxSATFormula) : MaxSATFormula :=
  let copymx := Nat.iter (nVars f) newVar new_MaxSATFormula in
  let copymx := fold_left (fun g c => addHardClause c g) (hard_clauses f) copymx in
  let copymx := fold_left standardize_soft (soft_clauses f) copymx in
  setHardWeight (getHardWeight f)
    (setMaximumWeight (getMaximumWeight f)
       (updateSumWeights (getSumWeights f)
          (setProblemType (getProblemType f) copymx))).

Definition set_costComputingFormula (v : MaxSATFormula) (s : PMRES) : PMRES :=
  {| opts := opts s; maxsat_formula := maxsat_formula s;
     costComputingFormula := v; solver := solver s;
     coreMapping := coreMapping s; assumptions := assumptions s; lbCost := lbCost s;
     ubCost := ubCost s; known_gap := known_gap s; num_hardened := num_hardened s;
     maxw_nothardened := maxw_nothardened s; nbCurrentSoft := nbCurrentSoft s;
     nbCores := nbCores s; nbSatisfiable := nbSatisfiable s;
     sumSizeCores := sumSizeCores s; vars_added := vars_added s;
     clauses_added := clauses_added s; softs_added := softs_added s;
     bestModel := bestModel s |}.

Definition set_weightStrategy (v : WeightStrategy) (s : PMRES) : PMRES :=
  {| opts := {| weightStrategy := v; lins := lins (opts s);
                varyingres := varyingres (opts s);
                varyingresCG := varyingresCG (opts s);
                varresFactor := varresFactor (opts s);
                timeLimitCores := timeLimitCores (opts s);
                relaxBeforeStrat := relaxBeforeStrat (opts s);
                incrementalVarres := incrementalVarres (opts s);
                delete_before_lin := delete_before_lin (opts s) |};
     maxsat_formula := maxsat_formula s;
     costComputingFormula := costComputingFormula s; solver := solver s;
     coreMapping := coreMapping s; assumptions := assumptions s; lbCost := lbCost s;
     ubCost := ubCost s; known_gap := known_gap s; num_hardened := num_hardened s;
     maxw_nothardened := maxw_nothardened s; nbCurrentSoft := nbCurrentSoft s;
     nbCores := nbCores s; nbSatisfiable := nbSatisfiable s;
     sumSizeCores := sumSizeCores s; vars_added := vars_added s;
     clauses_added := clauses_added s; softs_added := softs_added s;
     bestModel := bestModel s |}.

(** The head of [search], up to the call of [setup]: a weight strategy
    is forced, the formula as given is kept for the cost of models, and
    the search goes on with its standardized copy. *)
Definition search_init : M unit :=
  s <- gets id ;;
  (match weightStrategy (opts s) with
   | _WEIGHT_NONE_ => modify (set_weightStrategy _WEIGHT_NORMAL_)
   | _ => ret tt
   end) ;;;
  modify (fun s => set_costComputingFormula (maxsat_formula s) s) ;;;
  modify (fun s => set_maxsat_formula (standardizeMaxSATFormula (maxsat_formula s)) s) ;;;
  modify (fun s => set_maxw_nothardened (getSumWeights (maxsat_formula s)) s).

(** [setup]: the assumptions, a new oracle, the first call of the
    oracle and the first working weight. *)
Definition setup (fuel : nat) (pow_u64 : Z -> Z -> Z) (t : Turn) : M StatusCode :=
  initAssumptions ;;;
  modify (set_solver newSATSolver) ;;;
  rs <- unsatSearch t ;;
  vcg <- gets (fun s => varyingresCG (opts s)) ;;
  (if vcg : bool then initializeDivisionFactor fuel pow_u64 vcg
   else
     strategy <- gets (fun s => weightStrategy (opts s)) ;;
     updateCurrentWeight fuel strategy) ;;;
  ret rs.

(** One round of the loop of [weightSearch] after a model: the
    hardener when the gap is below [maxw_nothardened], then the oracle
    is brought up to date or the working weight is lowered. *)
Definition weightSearch_next (fuel : nat) : M unit :=
  s <- gets id ;;
  (if U64.sub (ubCost s) (lbCost s) <? maxw_nothardened s then hardenClauses
   else ret tt) ;;;
  s <- gets id ;;
  if shouldUpdate s then updateSolver
  else updateCurrentWeight fuel (weightStrategy (opts s)).

(** The loop of [weightSearch].  A round is given by the turns of the
    oracle in [weightDisjointCores] and the turn that [getModelAfterCG]
    would use; the result is [None] when the rounds or the turns of a
    round are used up before the function returns. *)
Fixpoint weightSearch_loop (fuel : nat) (rounds : list (list Turn * Turn))
  : M (option StatusCode) :=
  match rounds with
  | [] => ret None
  | (turns, t) :: rounds' =>
      us <- weightDisjointCores turns ;;
      match us with
      | None => ret None
      | Some _ =>
          on_status us
            (r <- getModelAfterCG t ;; ret (Some r))
            (fun _ =>
               r <- weightSearch_model ;;
               match r with
               | Some st => ret (Some st)
               | None => weightSearch_next fuel ;;; weightSearch_loop fuel rounds'
               end)
      end
  end.

Definition weightSearch (fuel : nat) (rounds : list (list Turn * Turn))
  : M (option StatusCode) :=
  strategy <- gets (fun s => weightStrategy (opts s)) ;;
  assertM (match strategy with _WEIGHT_NONE_ => false | _ => true end) ;;;
  limit <- gets (fun s => timeLimitCores (opts s)) ;;
  assertM (limit <? 0) ;;;
  weightSearch_loop fuel rounds.

(** ** The cost of a model in units of the working weight *)

(** [getModel]: the oracle is asked for a model under the assumptions
    made of [currentModel] (a vector local to the call, which only the
    oracle reads); its answer has to be a model, which [checkModel]
    takes up and which is copied to the caller. *)
Definition getModel (t : Turn) (currentModel : list lbool) : M (list lbool) :=
  oracle_answers t ;;;
  assertM (lbool_eqb (res t) l_True) ;;;
  checkModel ;;;
  gets (fun s => model (solver s)).

(** [getSoftClause(nSoft() - 1)]: with no soft clause the index is -1,
    out of the range of the vector. *)
Definition getLastSoftClause : M Soft :=
  n <- gets (fun s => nSoft (maxsat_formula s)) ;;
  if Nat.eqb n 0 then failM else getSoftClause (n - 1).

(** One turn of the loop of [computeCostReducedWeights]. *)
Definition computeCostReducedWeights_body (fullModel : list lbool)
           (tot_reducedCost : Z) (i : nat) : M Z :=
  c <- getSoftClause i ;;
  assertM (Nat.eqb (length (clause c)) 1) ;;;
  l <- vec_at (clause c) 0 ;;
  assertM (varZ l <? Z.of_nat (length fullModel)) ;;;
  v <- model_at fullModel (varZ l) ;;
  if lit_true_under l v then ret tot_reducedCost
  else
    mw <- gets (fun s => getMaximumWeight (maxsat_formula s)) ;;
    q <- u64_div (weight c) mw ;;
    ret (U64.add tot_reducedCost q).

(** [computeCostReducedWeights]: the quotients [weight / maxWeight] of
    the unit soft clauses that the model falsifies.  The oracle is
    asked (the turn [t]) only when the model does not reach the
    variable of the last soft clause. *)
Definition computeCostReducedWeights (t : Turn) (inputModel : list lbool) : M Z :=
  assertM (negb (Nat.eqb (length inputModel) 0)) ;;;
  c <- getLastSoftClause ;;
  assertM (Nat.eqb (length (clause c)) 1) ;;;
  c <- getLastSoftClause ;;
  l <- vec_at (clause c) 0 ;;
  let haveModel := varZ l <? Z.of_nat (length inputModel) in
  fullModel <- (if haveModel then ret inputModel else getModel t inputModel) ;;
  c <- getLastSoftClause ;;
  l <- vec_at (clause c) 0 ;;
  assertM (varZ l <? Z.of_nat (length fullModel)) ;;;
  n <- gets (fun s => nSoft (maxsat_formula s)) ;;
  foldM (computeCostReducedWeights_body fullModel) (seq 0 n) 0.

(** ** Invariants of the search, written out *)

(** The number of soft clauses of weight 0. *)
Definition zero_weights (l : list Soft) : nat :=
  length (filter (fun c => weight c = 0) l).

(** [num_hardened] counts the soft clauses of weight 0, and a soft
    clause of weight 0 has no assumption. *)
Definition hardened_counted (s : PMRES) : Prop :=
  num_hardened s = zero_weights (softs s)
  /\ forall c, c ∈ softs s -> weight c = 0 -> assumption_var c = lit_Undef.

(** The cost of the model [m] on a list of soft clauses: the weights of
    the clauses no literal of which is true under [m]. *)
Definition clause_true_under (m : list lbool) (c : Clause) : bool :=
  existsb (fun l => match m !! Z.to_nat (varZ l) with
                    | Some v => lit_true_under l v
                    | None => false
                    end) c.

Definition cost_under (m : list lbool) (l : list Soft) : Z :=
  total_weight (filter (fun c => clause_true_under m (clause c) = false) l).

(** Every literal of the soft clauses is over a variable of the model. *)
Definition model_covers (m : list lbool) (l : list Soft) : Prop :=
  forall c x, c ∈ l -> x ∈ clause c -> 0 <= varZ x < Z.of_nat (length m).

(** The oracle holds the first [vars_added] variables and the first
    [clauses_added] hard clauses of the formula, in their order. *)
Definition oracle_in_step (s : PMRES) : Prop :=
  (vars_added s <= nVars (maxsat_formula s))%nat
  /\ solver_nvars (solver s) = vars_added s
  /\ (clauses_added s <= nHard (maxsat_formula s))%nat
  /\ solver_clauses (solver s)
     = take (clauses_added s) (hard_clauses (maxsat_formula s)).

(** The soft clauses that [initRelaxation] puts in the objective. *)
Definition in_objective (s : PMRES) (c : Soft) : bool :=
  weight c / getMaximumWeight (maxsat_formula s) >? 0.

(** The soft clause that standardisation makes of the [i]-th soft
    clause of a formula with [nv] variables. *)
Definition standard_soft (nv i : nat) (c : Soft) : Soft :=
  mkSoft [neg (mkLit (nv + i) false)] (weight c) lit_Undef.

(** The literal of a unit soft clause, and the clause with the
    assumption that [initAssumptions] gives it. *)
Definition unit_lit (c : Soft) : Z := hd 0 (clause c).
Definition assumed (c : Soft) : Soft := set_assumption_var (neg (unit_lit c)) c.

(** The table after [initAssumptions] has gone through the first [k] of
    the soft clauses [l]. *)
Definition assumed_mapping (l : list Soft) (k : nat) (cm : gmap Z nat) : gmap Z nat :=
  fold_left (fun m i => <[neg (unit_lit (default (mkSoft [] 0 0) (l !! i))) := i]> m)
            (seq 0 k) cm.

(** Every soft clause is a unit clause. *)
Definition unit_softs (l : list Soft) : Prop :=
  forall c, c ∈ l -> length (clause c) = 1%nat.

(** What [softsSatisfied] needs when the oracle holds [nv] variables:
    up to the number of soft clauses of the formula the search was
    given, the working formula has a soft clause, which is a unit
    clause (the assertion of the loop) over a variable of the oracle
    (the one whose polarity is set). *)
Definition polarities_ready (nv : nat) (s : PMRES) : Prop :=
  forall i, (i < nSoft (costComputingFormula s))%nat ->
    exists c l, softs s !! i = Some c /\ clause c = [l]
                /\ 0 <= varZ l < Z.of_nat nv.

(** The part of it that the assertion of the loop checks. *)
Definition units_below (s : PMRES) : Prop :=
  forall i, (i < nSoft (costComputingFormula s))%nat ->
    exists c l, softs s !! i = Some c /\ clause c = [l].

(** The variables that the oracle holds after [updateSolver]. *)
Definition nvars_after_update (s : PMRES) : nat :=
  solver_nvars (solver s) + (nVars (maxsat_formula s) - vars_added s).

(** The test that ends the loop of [findNextWeightDiversity] at the
    weight [w]. *)
Definition diversity_reached (s : PMRES) (w : Z) : bool :=
  let n := length (at_or_above s w) in
  (ratio_above_alpha n (size (list_to_set (weight <$> at_or_above s w) : gset Z))
   && Nat.ltb (nbCurrentSoft s) n)
  || (Z.of_nat n =? nRealSoft s).

(** The soft clauses with a weight strictly between 1 and [w]: the
    weights [findNextWeight] can still step to. *)
Definition weights_between (s : PMRES) (w : Z) : list Soft :=
  filter (fun c => 1 < weight c < w) (softs s).

(** Every soft clause that has an assumption is found through
    [coreMapping] by that assumption, which is over a variable of the
    formula. *)
Definition mapping_exact (s : PMRES) : Prop :=
  forall i c,
    softs s !! i = Some c -> assumption_var c <> lit_Undef ->
    coreMapping s !! assumption_var c = Some i
    /\ varZ (assumption_var c) < Z.of_nat (nVars (maxsat_formula s)).

(** The sum of the quotients [weight / mw] of the soft clauses no
    literal of which is true under the model [m]. *)
Fixpoint reduced_cost_under (m : list lbool) (mw : Z) (l : list Soft) : Z :=
  match l with
  | [] => 0
  | c :: l' =>
      (if clause_true_under m (clause c) then 0 else weight c / mw)
      + reduced_cost_under m mw l'
  end.

(** ** Worked examples: concrete solver objects *)

(** Options and formulas used in the worked examples. *)
Definition opts_cg : Options :=
  {| weightStrategy := _WEIGHT_NORMAL_; lins := 0; varyingres := false;
     varyingresCG := false; varresFactor := 2; timeLimitCores := -1;
     relaxBeforeStrat := false; incrementalVarres := false;
     delete_before_lin := false |}.

Definition formula_of (nv : nat) (t : ProblemType) (mw : Z) (l : list Soft)
  : MaxSATFormula :=
  {| n_vars := nv; hard_clauses := []; soft_clauses := l;
     sum_soft_weight := 0; max_soft_weight := mw; hard_weight := U64.MAX;
     problem_type := t |}.

(** A soft clause relaxed down to weight 0 next to one of weight 5. *)
Definition st_zero_and_five : PMRES :=
  new_PMRES opts_cg
    (formula_of 2 _WEIGHTED_ 5 [mkSoft [neg 0] 0 lit_Undef; mkSoft [neg 2] 5 2]).

(** A unit soft clause as [initAssumptions] leaves it: the body is the
    negation of the positive literal of [v], which is its assumption. *)
Definition unit_soft (v : nat) (w : Z) : Soft :=
  mkSoft [neg (mkLit v false)] w (mkLit v false).

Definition mapping_of (vs : list nat) : gmap Z nat :=
  list_to_map (zip (map (fun v => mkLit v false) vs) (seq 0 (length vs))).

(** Two soft clauses of weights 5 and 3 over the variables 0 and 1. *)
Definition st_five_three : PMRES :=
  set_coreMapping (mapping_of [0; 1]%nat)
    (new_PMRES opts_cg
       (formula_of 2 _WEIGHTED_ 5 [unit_soft 0 5; unit_soft 1 3])).

(** A solver object after [setup]: two soft clauses of weights 2 and 3
    known to the oracle, working weight 1, a first model of cost 5. *)
Definition st_after_setup : PMRES :=
  set_ubCost 5 (set_nbSatisfiable 1%nat (set_softs_added 2%nat (set_vars_added 2%nat
    (set_solver (mkSolver 2 [] [l_False; l_False] [])
      (set_coreMapping (mapping_of [0; 1]%nat)
        (new_PMRES opts_cg
           (formula_of 2 _WEIGHTED_ 1 [unit_soft 0 2; unit_soft 1 3]))))))).

(** The oracle answers that the two assumptions are in conflict. *)
Definition turn_core : Turn :=
  {| timeSinceStart := 0; res := l_False; turn_model := []; turn_conflict := [0; 2] |}.

(** The formula "x or r0, not x or r1" with the unit soft clauses
    "not r0" of weight 4 and "not r1" of weight 5, after [setup] under
    the normal weight strategy: a first model of cost 5, working
    weight 4. *)
Definition st_four_five : PMRES :=
  set_maxw_nothardened 9 (set_bestModel [l_True; l_False; l_True]
    (set_ubCost 5 (set_nbSatisfiable 1%nat
      (set_softs_added 2%nat (set_clauses_added 2%nat (set_vars_added 3%nat
        (set_solver (mkSolver 3 [[0; 2]; [1; 4]] [l_True; l_False; l_True] [])
          (set_coreMapping (list_to_map [(2, 0%nat); (4, 1%nat)])
            (new_PMRES opts_cg
               {| n_vars := 3; hard_clauses := [[0; 2]; [1; 4]];
                  soft_clauses := [mkSoft [3] 4 2; mkSoft [5] 5 4];
                  sum_soft_weight := 9; max_soft_weight := 4;
                  hard_weight := 10; problem_type := _WEIGHTED_ |}))))))))).

(** The oracle finds the core of the two assumptions, then a model. *)
Definition turn_with_core : Turn :=
  {| timeSinceStart := 0; res := l_False; turn_model := []; turn_conflict := [2; 4] |}.

Definition turn_with_model : Turn :=
  {| timeSinceStart := 0; res := l_True;
     turn_model := [l_True; l_False; l_True]; turn_conflict := [] |}.

Definition turns_core_then_model : list Turn := [turn_with_core; turn_with_model].

(** The solver object when [weightDisjointCores] returns from there. *)
Definition st_before_hardening : PMRES :=
  match weightDisjointCores turns_core_then_model st_four_five with
  | Some (_, s) => s
  | None => st_four_five
  end.

(** A soft clause whose weight equals the gap, satisfied by the model
    of the oracle and falsified by the best model. *)
Definition st_models_differ : PMRES :=
  set_bestModel [l_True] (set_ubCost 3 (set_softs_added 1%nat
    (set_solver (mkSolver 1 [] [l_False] [])
      (set_coreMapping (mapping_of [0%nat])
        (new_PMRES opts_cg (formula_of 1 _WEIGHTED_ 1 [unit_soft 0 3])))))).

(** Three soft clauses of weight 9, varying resolution with factor 2,
    after the first model. *)
Definition st_three_nines : PMRES :=
  set_nbSatisfiable 1%nat
    (set_coreMapping (mapping_of [0; 1; 2]%nat)
      (new_PMRES
         {| weightStrategy := _WEIGHT_NORMAL_; lins := 1; varyingres := true;
            varyingresCG := true; varresFactor := 2; timeLimitCores := -1;
            relaxBeforeStrat := false; incrementalVarres := false;
            delete_before_lin := false |}
         (formula_of 3 _WEIGHTED_ 9 [unit_soft 0 9; unit_soft 1 9; unit_soft 2 9]))).

(** One soft clause of weight 3^34, which is odd and above 2^53 and so
    no [double], under varying resolution with factor 3, after the
    first model. *)
Definition st_three_to_34 : PMRES :=
  set_nbSatisfiable 1%nat
    (set_coreMapping (mapping_of [0%nat])
      (new_PMRES
         {| weightStrategy := _WEIGHT_NORMAL_; lins := 1; varyingres := true;
            varyingresCG := true; varresFactor := 3; timeLimitCores := -1;
            relaxBeforeStrat := false; incrementalVarres := false;
            delete_before_lin := false |}
         (formula_of 1 _WEIGHTED_ (3 ^ 34) [unit_soft 0 (3 ^ 34)]))).

(** The state that a computation leaves. *)
Definition state_after {A} (r : option (A * PMRES)) : PMRES :=
  match r with
  | Some (_, s) => s
  | None => st_four_five
  end.

(** The run of [weightSearch] from [st_four_five]: the core is relaxed,
    the model is taken, the hardener runs. *)
Definition st_after_core : PMRES :=
  state_after (weightDisjointCores_turn turn_with_core st_four_five).

Definition st_after_model : PMRES :=
  state_after (weightSearch_model
                 (state_after (weightDisjointCores_turn turn_with_model st_after_core))).

Definition st_after_hardening : PMRES :=
  state_after (hardenClauses st_after_model).

(** ** Worked examples for the further properties *)

(** Three soft clauses of weight 9 with the working weight at 8, where
    [initializeDivisionFactor] leaves it. *)
Definition st_three_nines_at_eight : PMRES :=
  set_maxsat_formula (setMaximumWeight 8 (maxsat_formula st_three_nines)) st_three_nines.

(** Varying resolution before any model. *)
Definition st_three_nines_no_model : PMRES := set_nbSatisfiable 0%nat st_three_nines.

(** [st_four_five] with the lower bound at the cost of its model. *)
Definition st_bounds_meet : PMRES := set_lbCost 5 st_four_five.

Definition st_optimum : PMRES := state_after (weightSearch_model st_bounds_meet).

(** The oracle finds the model that falsifies the soft clause of
    weight 4 only. *)
Definition turn_with_best_model : Turn :=
  {| timeSinceStart := 0; res := l_True;
     turn_model := [l_False; l_True; l_False; l_True; l_True]; turn_conflict := [] |}.

Definition rounds_core_then_best : list (list Turn * Turn) :=
  [([turn_with_core; turn_with_best_model], turn_with_best_model)].

Definition st_after_weightSearch : PMRES :=
  state_after (weightSearch 8 rounds_core_then_best st_four_five).

(** Soft clauses of weights 9, 5 and 2 under the diversifying strategy,
    after a first model. *)
Definition opts_diversify : Options :=
  {| weightStrategy := _WEIGHT_DIVERSIFY_; lins := 0; varyingres := false;
     varyingresCG := false; varresFactor := 2; timeLimitCores := -1;
     relaxBeforeStrat := false; incrementalVarres := false;
     delete_before_lin := false |}.

Definition st_diversify : PMRES :=
  set_nbSatisfiable 1%nat
    (set_coreMapping (mapping_of [0; 1; 2]%nat)
      (new_PMRES opts_diversify
         (formula_of 3 _WEIGHTED_ 9 [unit_soft 0 9; unit_soft 1 5; unit_soft 2 2]))).

(** The solver objects that [relaxCore] and [setAssumptions] leave. *)
Definition st_five_three_relaxed : PMRES :=
  state_after (relaxCore [0; 2] 3 st_five_three).

Definition st_assumed : PMRES := state_after (setAssumptions st_after_setup).

(** Three soft clauses "x0", "x1" and "x2" of weight 2^63 + 1 each,
    with the hard clauses "not x0 or not x1" and "not x2": every weight
    is a [uint64_t], their sum is not. *)
Definition heavy : Z := 2 ^ 63 + 1.

Definition formula_heavy : MaxSATFormula :=
  {| n_vars := 3; hard_clauses := [[1; 3]; [5]];
     soft_clauses := [mkSoft [0] heavy lit_Undef; mkSoft [2] heavy lit_Undef;
                      mkSoft [4] heavy lit_Undef];
     sum_soft_weight := U64.add heavy (U64.add heavy heavy);
     max_soft_weight := heavy; hard_weight := U64.MAX;
     problem_type := _WEIGHTED_ |}.

(** The run of [search] on it, under the normal weight strategy.  The
    standardized formula has the relaxation variables 3, 4 and 5.  The
    first model sets them all; then the oracle reports the core of the
    first two soft clauses, which "not x0 or not x1" gives, and the
    core of the third alone, which "not x2" gives. *)
Definition turn_all_relaxed : Turn :=
  {| timeSinceStart := 0; res := l_True;
     turn_model := [l_False; l_False; l_False; l_True; l_True; l_True];
     turn_conflict := [] |}.

Definition turn_core_of_two : Turn :=
  {| timeSinceStart := 0; res := l_False; turn_model := []; turn_conflict := [6; 8] |}.

Definition turn_core_of_one : Turn :=
  {| timeSinceStart := 0; res := l_False; turn_model := []; turn_conflict := [10] |}.

Definition st_heavy_given : PMRES := new_PMRES opts_cg formula_heavy.

Definition st_heavy_setup : PMRES :=
  state_after (setup 8 Z.pow turn_all_relaxed (state_after (search_init st_heavy_given))).

Definition st_heavy_one_core : PMRES :=
  state_after (weightDisjointCores_turn turn_core_of_two st_heavy_setup).

Definition st_heavy_two_cores : PMRES :=
  state_after (weightDisjointCores_turn turn_core_of_one st_heavy_one_core).

(** * Properties *)

(** ** Facts on machine integers *)

Lemma u64_sub_exact a b : U64.inrange a -> 0 <= b <= a -> U64.sub a b = a - b.
Proof. intros [Ha0 Ha1] Hb. apply Z.mod_small. unfold U64.modulus in *. lia. Qed.

Lemma u64_add_exact a b :
  0 <= a -> 0 <= b -> a + b < U64.modulus -> U64.add a b = a + b.
Proof. intros Ha Hb Hab. apply Z.mod_small. lia. Qed.

(** ** Reasoning in the monad *)

Lemma bind_Some {A B} (m : M A) (k : A -> M B) s b s' :
  bind m k s = Some (b, s') <->
  exists a s1, m s = Some (a, s1) /\ k a s1 = Some (b, s').
Proof.
  unfold bind. split.
  - destruct (m s) as [[a s1]|]; [|discriminate]. intros H. eauto.
  - intros (a & s1 & -> & H). exact H.
Qed.

Lemma assertM_Some b s u s' : assertM b s = Some (u, s') <-> b = true /\ s' = s.
Proof.
  destruct b, u; cbn; split.
  - intros [= <-]. auto.
  - intros [_ ->]. reflexivity.
  - discriminate.
  - intros [[=] _].
Qed.

Lemma bind_eq {A B} (m : M A) (k : A -> M B) s a s1 :
  m s = Some (a, s1) -> bind m k s = k a s1.
Proof. intros H. unfold bind. rewrite H. reflexivity. Qed.

Lemma getSoftClause_eq (i : nat) (s : PMRES) (c : Soft) :
  softs s !! i = Some c -> getSoftClause i s = Some (c, s).
Proof. intros H. unfold getSoftClause. rewrite H. reflexivity. Qed.

Lemma vec_at_eq {A} (v : list A) (i : nat) (s : PMRES) (x : A) :
  v !! i = Some x -> vec_at v i s = Some (x, s).
Proof. intros H. unfold vec_at. rewrite H. reflexivity. Qed.

(** ** Stratification: [findNextWeight] *)

Section FindNextWeight.
Variable w : Z.

Lemma findNextWeight_fold (l : list Soft) (acc : Z) :
  let r := fold_left (findNextWeight_step w) l acc in
  acc <= r /\
  (r = acc \/ (exists c, c ∈ l /\ weight c = r) /\ r < w) /\
  (forall c, c ∈ l -> weight c < w -> weight c <= r).
Proof.
  revert acc. induction l as [|c l IH]; intros acc; cbn.
  - split; [lia|]. split; [now left|]. intros c Hc. inversion Hc.
  - specialize (IH (findNextWeight_step w acc c)). cbn in IH.
    set (step := findNextWeight_step w) in *.
    destruct IH as (Hle & Hin & Hub).
    assert (Hstep : acc <= step acc c /\
                    (step acc c = acc \/ step acc c = weight c /\ weight c < w) /\
                    (weight c < w -> weight c <= step acc c)).
    { unfold step, findNextWeight_step. destruct (Z.gtb_spec (weight c) acc), (Z.ltb_spec (weight c) w);
        cbn; lia. }
    destruct Hstep as (Hs1 & Hs2 & Hs3).
    split; [lia|]. split.
    + destruct Hin as [Heq | [(c' & Hc' & Hw) Hlt]].
      * destruct Hs2 as [Hs2 | [Hs2 Hs2']]; [left; congruence|].
        right. split; [|lia]. exists c. split; [left|congruence].
      * right. split; [|exact Hlt]. exists c'. split; [now right|exact Hw].
    + intros c' Hc' Hlt. apply elem_of_cons in Hc' as [->|Hc'].
      * specialize (Hs3 Hlt). lia.
      * now apply Hub.
Qed.
End FindNextWeight.

(** C7 (as stated, refuted): with a soft clause of weight 0 and one of
    weight 5, [findNextWeight 5] is 1, although a soft clause has a
    weight strictly less than 5 and no soft clause has weight 1: the
    result is not "the greatest soft weight strictly less than [w]". *)
Lemma findNextWeight_not_greatest_below :
  findNextWeight st_zero_and_five 5 = 1 /\
  ~ greatest_weight_below st_zero_and_five 5 (findNextWeight st_zero_and_five 5).
Proof.
  split; [reflexivity|].
  intros [H _].
  destruct H as ((c & Hc & Hw) & _).
  - exists (mkSoft [neg 0] 0 lit_Undef). split; [left|cbn; lia].
  - change (findNextWeight st_zero_and_five 5) with 1 in Hw.
    cbn in Hc. rewrite !elem_of_cons in Hc.
    destruct Hc as [->| [->|Hc]]; cbn in Hw; try lia. inversion Hc.
Qed.

(** C7 (amended): [findNextWeight w] is the greatest weight strictly
    less than [w] among the soft clauses as soon as some soft clause
    has a positive weight strictly less than [w], and 1 when no soft
    clause has a positive weight strictly less than [w]. *)
Theorem findNextWeight_greatest_positive_below (s : PMRES) (w : Z) :
  greatest_positive_weight_below s w (findNextWeight s w).
Proof.
  unfold greatest_positive_weight_below, findNextWeight.
  destruct (findNextWeight_fold w (softs s) 1) as (Hle & Hin & Hub).
  cbn in Hle, Hin, Hub. split.
  - intros (c & Hc & Hpos).
    destruct Hin as [Heq | [Hex Hlt]].
    + assert (weight c <= 1) by (rewrite <- Heq; apply Hub; [exact Hc|lia]).
      assert (weight c = 1) by lia.
      split; [exists c; split; [exact Hc|congruence]|].
      split; [lia|exact Hub].
    + split; [exact Hex|]. split; [exact Hlt|exact Hub].
  - intros Hnone.
    destruct Hin as [Heq | [(c & Hc & Hw) Hlt]]; [exact Heq|].
    exfalso. apply (Hnone c Hc). lia.
Qed.

(** ** The table [coreMapping] *)

Lemma cm_get_insert_absent (m : gmap Z nat) (l l' : Z) :
  m !! l = None -> cm_get (<[l := 0%nat]> m) l' = cm_get m l'.
Proof.
  intros Hm. unfold cm_get. destruct (decide (l = l')) as [<-|Hne].
  - rewrite lookup_insert_eq, Hm. reflexivity.
  - rewrite lookup_insert_ne by exact Hne. reflexivity.
Qed.

(** Reading the table returns [cm_get] and changes nothing but the
    table, whose readings stay the same. *)
Lemma coreMapping_at_spec (l : Z) (s : PMRES) :
  exists m', coreMapping_at l s = Some (cm_get (coreMapping s) l, set_coreMapping m' s)
             /\ forall l', cm_get m' l' = cm_get (coreMapping s) l'.
Proof.
  unfold coreMapping_at, cm_get.
  destruct (coreMapping s !! l) as [i|] eqn:Hl.
  - exists (coreMapping s). split; [|reflexivity]. destruct s; reflexivity.
  - exists (<[l := 0%nat]> (coreMapping s)). split; [reflexivity|].
    intros l'. now apply cm_get_insert_absent.
Qed.

(** ** Cost of a core: [computeCostCore] *)

Lemma computeCostCore_loop (conflict0 : list Z) :
  forall (s : PMRES) (acc : Z),
    (forall l, l ∈ conflict0 -> is_Some (softs s !! cm_get (coreMapping s) l)) ->
    exists r m',
      foldM computeCostCore_body conflict0 acc s = Some (r, set_coreMapping m' s)
      /\ (forall l, cm_get m' l = cm_get (coreMapping s) l)
      /\ r <= acc
      /\ (r = acc \/
          exists l c, l ∈ conflict0 /\ softs s !! cm_get (coreMapping s) l = Some c
                      /\ weight c = r)
      /\ (forall l c, l ∈ conflict0 ->
             softs s !! cm_get (coreMapping s) l = Some c -> r <= weight c).
Proof.
  induction conflict0 as [|l0 rest IH]; intros s acc Hin.
  - exists acc, (coreMapping s). cbn. split; [destruct s; reflexivity|].
    split; [reflexivity|]. split; [lia|]. split; [now left|].
    intros l c Hl. inversion Hl.
  - destruct (coreMapping_at_spec l0 s) as (m1 & Hat & Hm1).
    destruct (Hin l0) as [c0 Hc0]; [left|].
    set (acc1 := if weight c0 <? acc then weight c0 else acc).
    destruct (IH (set_coreMapping m1 s) acc1) as (r & m' & Hrun & Hm' & Hle & Hex & Hlb).
    { intros l Hl. cbn. rewrite Hm1. apply Hin. now right. }
    exists r, m'. split.
    { cbn [foldM]. unfold computeCostCore_body at 1.
      assert (Hget : getSoftClause (cm_get (coreMapping s) l0) (set_coreMapping m1 s)
                     = Some (c0, set_coreMapping m1 s))
        by (apply getSoftClause_eq; exact Hc0).
      rewrite (bind_eq _ _ s acc1 (set_coreMapping m1 s)); [exact Hrun|].
      rewrite (bind_eq _ _ _ _ _ Hat), (bind_eq _ _ _ _ _ Hget). reflexivity. }
    cbn in Hm', Hex, Hlb.
    assert (Hacc1 : acc1 <= acc /\ acc1 <= weight c0 /\ (acc1 = acc \/ acc1 = weight c0)).
    { unfold acc1. destruct (Z.ltb_spec (weight c0) acc); lia. }
    split; [intros l; rewrite Hm'; apply Hm1|].
    split; [lia|]. split.
    + destruct Hex as [-> | (l & c & Hl & Hc & Hw)].
      * destruct Hacc1 as (_ & _ & [H|H]); [now left|].
        right. exists l0, c0. split; [left|]. split; [exact Hc0|congruence].
      * right. exists l, c. split; [now right|]. rewrite Hm1 in Hc. auto.
    + intros l c Hl Hc. apply elem_of_cons in Hl as [->|Hl].
      * assert (c = c0) by congruence. subst c. lia.
      * apply (Hlb l c Hl). rewrite Hm1. exact Hc.
Qed.

(** [computeCostCore] on a non-empty conflict whose soft clauses exist:
    the result, and the solver object it leaves. *)
Lemma computeCostCore_total (s : PMRES) (conflict0 : list Z) :
  conflict0 <> [] ->
  (getProblemType (maxsat_formula s) = _WEIGHTED_ ->
   forall l, l ∈ conflict0 ->
     exists c, softs s !! cm_get (coreMapping s) l = Some c /\ weight c <= U64.MAX) ->
  exists r m',
    computeCostCore conflict0 s = Some (r, set_coreMapping m' s)
    /\ (forall l, cm_get m' l = cm_get (coreMapping s) l)
    /\ match getProblemType (maxsat_formula s) with
       | _UNWEIGHTED_ => r = 1
       | _WEIGHTED_ =>
           (exists l c, l ∈ conflict0
                        /\ softs s !! cm_get (coreMapping s) l = Some c
                        /\ weight c = r)
           /\ (forall l c, l ∈ conflict0 ->
                  softs s !! cm_get (coreMapping s) l = Some c -> r <= weight c)
       end.
Proof.
  intros Hne Hidx. unfold computeCostCore.
  assert (Hlen : negb (Nat.eqb (length conflict0) 0) = true).
  { destruct conflict0; [congruence|reflexivity]. }
  rewrite Hlen. unfold getProblemType in Hidx |- * at 2.
  destruct (problem_type (maxsat_formula s)) eqn:Hty.
  - exists 1, (coreMapping s). split; [|auto].
    rewrite (bind_eq _ _ s tt s) by reflexivity.
    rewrite (bind_eq _ _ s (maxsat_formula s) s) by reflexivity.
    unfold getProblemType. rewrite Hty. destruct s; reflexivity.
  - specialize (Hidx eq_refl).
    destruct (computeCostCore_loop conflict0 s U64.MAX)
      as (r & m' & Hrun & Hm' & Hle & Hex & Hlb).
    { intros l Hl. destruct (Hidx l Hl) as (c & Hc & _). eauto. }
    exists r, m'. split.
    { rewrite (bind_eq _ _ s tt s) by reflexivity.
      rewrite (bind_eq _ _ s (maxsat_formula s) s) by reflexivity.
      unfold getProblemType. rewrite Hty. exact Hrun. }
    split; [exact Hm'|]. split; [|exact Hlb].
    destruct Hex as [-> | Hex]; [|exact Hex].
    destruct conflict0 as [|l0 rest]; [congruence|].
    destruct (Hidx l0) as (c & Hc & Hmax); [left|].
    exists l0, c. split; [left|]. split; [exact Hc|].
    assert (U64.MAX <= weight c) by (apply (Hlb l0 c); [left|exact Hc]). lia.
Qed.

(** C6: for a non-empty conflict [computeCostCore] returns 1 on an
    unweighted formula, and otherwise the minimum, over the literals
    [l] of the conflict, of the weight of the soft clause at index
    [coreMapping[l]]: it is the weight of one of them and at most the
    weight of each.  The formula is left as it was. *)
Theorem computeCostCore_minimum (s : PMRES) (conflict0 : list Z) :
  conflict0 <> [] ->
  (getProblemType (maxsat_formula s) = _WEIGHTED_ ->
   forall l, l ∈ conflict0 ->
     exists c, softs s !! cm_get (coreMapping s) l = Some c /\ weight c <= U64.MAX) ->
  exists r s',
    computeCostCore conflict0 s = Some (r, s')
    /\ maxsat_formula s' = maxsat_formula s
    /\ match getProblemType (maxsat_formula s) with
       | _UNWEIGHTED_ => r = 1
       | _WEIGHTED_ =>
           (exists l c, l ∈ conflict0
                        /\ softs s !! cm_get (coreMapping s) l = Some c
                        /\ weight c = r)
           /\ (forall l c, l ∈ conflict0 ->
                  softs s !! cm_get (coreMapping s) l = Some c -> r <= weight c)
       end.
Proof.
  intros Hne Hidx.
  destruct (computeCostCore_total s conflict0 Hne Hidx) as (r & m' & Hrun & _ & Hr).
  exists r, (set_coreMapping m' s). split; [exact Hrun|]. split; [reflexivity|exact Hr].
Qed.

Lemma computeCostCore_minimum_witness :
  exists r s',
    computeCostCore [0; 2] st_five_three = Some (r, s')
    /\ maxsat_formula s' = maxsat_formula st_five_three
    /\ (exists l c, l ∈ [0; 2]
                    /\ softs st_five_three !! cm_get (coreMapping st_five_three) l = Some c
                    /\ weight c = r)
    /\ (forall l c, l ∈ [0; 2] ->
          softs st_five_three !! cm_get (coreMapping st_five_three) l = Some c ->
          r <= weight c).
Proof.
  apply (computeCostCore_minimum st_five_three [0; 2]).
  - discriminate.
  - intros _ l Hl. rewrite !elem_of_cons in Hl.
    destruct Hl as [->|[->|Hl]].
    + exists (unit_soft 0 5). split; [reflexivity|]. vm_compute. discriminate.
    + exists (unit_soft 1 3). split; [reflexivity|]. vm_compute. discriminate.
    + inversion Hl.
Defined.

Example computeCostCore_five_three :
  fst <$> computeCostCore [0; 2] st_five_three = Some 3.
Proof. reflexivity. Qed.

(** ** Loops *)

Lemma for_each_from (I : nat -> PMRES -> Prop) (body : nat -> M unit) (m : nat) :
  forall (k : nat) (s : PMRES),
    I k s ->
    (forall i s1, (k <= i < k + m)%nat -> I i s1 ->
                  exists s2, body i s1 = Some (tt, s2) /\ I (S i) s2) ->
    exists s', for_each (seq k m) body s = Some (tt, s') /\ I (k + m)%nat s'.
Proof.
  induction m as [|m IH]; intros k s Hk Hstep.
  - exists s. split; [reflexivity|]. now rewrite Nat.add_0_r.
  - destruct (Hstep k s) as (s2 & Hb & H2); [lia|exact Hk|].
    destruct (IH (S k) s2 H2) as (s' & Hrun & H').
    { intros i s1 Hi. apply Hstep. lia. }
    exists s'. split.
    + cbn [seq for_each]. rewrite (bind_eq _ _ _ _ _ Hb). exact Hrun.
    + now replace (k + S m)%nat with (S k + m)%nat by lia.
Qed.

(** A counting loop with an invariant on the number of turns made. *)
Lemma for_upto_inv (I : nat -> PMRES -> Prop) (body : nat -> M unit) (n : nat)
      (s : PMRES) :
  I 0%nat s ->
  (forall i s1, (i < n)%nat -> I i s1 ->
                exists s2, body i s1 = Some (tt, s2) /\ I (S i) s2) ->
  exists s', for_upto n body s = Some (tt, s') /\ I n s'.
Proof.
  intros H0 Hstep. unfold for_upto.
  destruct (for_each_from I body n 0 s H0) as (s' & Hrun & H').
  - intros i s1 Hi. apply Hstep. lia.
  - exists s'. auto.
Qed.

(** ** Assumptions: [setAssumptions] *)

Lemma shouldAdd_spec (s : PMRES) (c : Soft) :
  0 < getMaximumWeight (maxsat_formula s) ->
  shouldAdd c s = Some (in_stratum s c, s).
Proof.
  intros Hmw. unfold shouldAdd, in_stratum.
  rewrite (bind_eq _ _ s (getMaximumWeight (maxsat_formula s)) s) by reflexivity.
  rewrite (bind_eq _ _ s (varyingresCG (opts s)) s) by reflexivity.
  set (mw := getMaximumWeight (maxsat_formula s)) in *.
  assert (Hdiv : u64_div (weight c) mw s = Some (weight c / mw, s)).
  { unfold u64_div. destruct (Z.eqb_spec mw 0); [lia|reflexivity]. }
  destruct (varyingresCG (opts s)); cbn.
  - rewrite andb_false_r. rewrite (bind_eq _ _ _ _ _ Hdiv).
    unfold ret. now rewrite andb_true_r.
  - rewrite andb_true_r. destruct (weight c >=? mw) eqn:Hge; [reflexivity|].
    rewrite (bind_eq _ _ _ _ _ Hdiv). unfold ret. now rewrite andb_false_r.
Qed.

Lemma stratum_upto_S (s : PMRES) (k : nat) (c : Soft) :
  softs s !! k = Some c ->
  stratum_upto s (S k)
  = stratum_upto s k ++ (if in_stratum s c then [c] else []).
Proof.
  intros Hc. unfold stratum_upto.
  rewrite (take_S_r _ _ _ Hc), filter_app. f_equal.
  rewrite filter_cons. destruct (in_stratum s c); cbn.
  - rewrite decide_True by reflexivity. reflexivity.
  - rewrite decide_False by discriminate. reflexivity.
Qed.

Lemma setAssumptions_body_step (s : PMRES) (i : nat) :
  setAssumptions_ready s -> (i < softs_added s)%nat ->
  let s1 := set_nbCurrentSoft (length (stratum_upto s i))
              (set_assumptions (negated_assumptions (stratum_upto s i)) s) in
  setAssumptions_body i s1
  = Some (tt, set_nbCurrentSoft (length (stratum_upto s (S i)))
                (set_assumptions (negated_assumptions (stratum_upto s (S i))) s)).
Proof.
  intros (Hn & Hmw & Hcl) Hi s1.
  destruct (lookup_lt_is_Some_2 (softs s) i) as [c Hc].
  { unfold nSoft in Hn. unfold softs. lia. }
  assert (Hin : c ∈ take (softs_added s) (softs s)).
  { apply list_elem_of_lookup. exists i. rewrite lookup_take_lt by exact Hi. exact Hc. }
  destruct (Hcl c Hin) as (Hunit & Hassump).
  unfold setAssumptions_body.
  rewrite (bind_eq _ _ s1 c s1) by (apply getSoftClause_eq; exact Hc).
  rewrite Hunit. rewrite (bind_eq _ _ s1 tt s1) by reflexivity.
  rewrite (bind_eq _ _ s1 (in_stratum s c) s1)
    by (apply (shouldAdd_spec s1 c); exact Hmw).
  rewrite (stratum_upto_S s i c Hc).
  destruct (in_stratum s c) eqn:Hsel.
  - specialize (Hassump eq_refl).
    assert (Hne : negb (assumption_var c =? lit_Undef) = true).
    { apply negb_true_iff, Z.eqb_neq. exact Hassump. }
    rewrite Hne. rewrite (bind_eq _ _ s1 tt s1) by reflexivity.
    unfold bind, modify, negated_assumptions. cbn.
    rewrite map_app, length_app. cbn.
    rewrite Nat.add_1_r. reflexivity.
  - rewrite !app_nil_r. reflexivity.
Qed.

(** C4 (amended): after [setAssumptions] the assumption vector is, in
    order, the negated assumption literals of the soft clauses of the
    stratum among the first [softs_added] soft clauses, those that the
    oracle has been told of; [nbCurrentSoft] is their number; nothing
    else changes. *)
Theorem setAssumptions_delivered (s : PMRES) :
  setAssumptions_ready s ->
  exists s',
    setAssumptions s = Some (tt, s')
    /\ assumptions s' = negated_assumptions (stratum_upto s (softs_added s))
    /\ nbCurrentSoft s' = length (stratum_upto s (softs_added s))
    /\ s' = set_nbCurrentSoft (nbCurrentSoft s') (set_assumptions (assumptions s') s).
Proof.
  intros Hready.
  destruct (for_upto_inv
              (fun k s1 => s1 = set_nbCurrentSoft (length (stratum_upto s k))
                                  (set_assumptions
                                     (negated_assumptions (stratum_upto s k)) s))
              setAssumptions_body (softs_added s)
              (set_assumptions [] (set_nbCurrentSoft 0 s)))
    as (s' & Hrun & Hs').
  - reflexivity.
  - intros i s1 Hi ->. eexists. split; [|reflexivity].
    now apply setAssumptions_body_step.
  - exists s'. split; [exact Hrun|]. rewrite Hs'. repeat split; reflexivity.
Qed.

Lemma setAssumptions_delivered_witness :
  setAssumptions_ready st_after_setup /\
  exists s',
    setAssumptions st_after_setup = Some (tt, s')
    /\ assumptions s' = negated_assumptions (stratum_upto st_after_setup 2)
    /\ nbCurrentSoft s' = length (stratum_upto st_after_setup 2)
    /\ s' = set_nbCurrentSoft (nbCurrentSoft s')
              (set_assumptions (assumptions s') st_after_setup).
Proof.
  assert (Hready : setAssumptions_ready st_after_setup).
  { split; [vm_compute; lia|]. split; [reflexivity|].
    intros c Hc. cbn in Hc. rewrite !elem_of_cons in Hc.
    destruct Hc as [->|[->|Hc]]; [| |inversion Hc].
    - split; [reflexivity|]. intros _. discriminate.
    - split; [reflexivity|]. intros _. discriminate. }
  split; [exact Hready|].
  exact (setAssumptions_delivered st_after_setup Hready).
Defined.

(** C4 (as stated, refuted): one turn of [weightDisjointCores] in which
    the oracle reports a core appends a soft clause of weight 2; the
    [setAssumptions] of the next turn, at working weight 1, leaves
    that clause out, and [nbCurrentSoft] is 1 where two soft clauses
    of the formula are in the stratum. *)
Lemma setAssumptions_misses_new_soft :
  exists s1 s',
    weightDisjointCores_turn turn_core st_after_setup = Some (None, s1)
    /\ setAssumptions s1 = Some (tt, s')
    /\ ~ assumptions_of_every_soft s1 s'.
Proof.
  eexists. eexists. split; [vm_compute; reflexivity|].
  split; [vm_compute; reflexivity|].
  intros [_ Hnb]. vm_compute in Hnb. discriminate Hnb.
Qed.

(** ** Equality of solver objects, field by field *)

Lemma MaxSATFormula_ext (f g : MaxSATFormula) :
  n_vars f = n_vars g -> hard_clauses f = hard_clauses g ->
  soft_clauses f = soft_clauses g -> sum_soft_weight f = sum_soft_weight g ->
  max_soft_weight f = max_soft_weight g -> hard_weight f = hard_weight g ->
  problem_type f = problem_type g -> f = g.
Proof. destruct f, g; cbn; intros; subst; reflexivity. Qed.

Lemma Solver_ext (a b : Solver) :
  solver_nvars a = solver_nvars b -> solver_clauses a = solver_clauses b ->
  model a = model b -> conflict a = conflict b -> a = b.
Proof. destruct a, b; cbn; intros; subst; reflexivity. Qed.

Lemma PMRES_ext (a b : PMRES) :
  opts a = opts b -> maxsat_formula a = maxsat_formula b ->
  costComputingFormula a = costComputingFormula b -> solver a = solver b ->
  coreMapping a = coreMapping b -> assumptions a = assumptions b ->
  lbCost a = lbCost b -> ubCost a = ubCost b -> known_gap a = known_gap b ->
  num_hardened a = num_hardened b -> maxw_nothardened a = maxw_nothardened b ->
  nbCurrentSoft a = nbCurrentSoft b -> nbCores a = nbCores b ->
  nbSatisfiable a = nbSatisfiable b -> sumSizeCores a = sumSizeCores b ->
  vars_added a = vars_added b -> clauses_added a = clauses_added b ->
  softs_added a = softs_added b -> bestModel a = bestModel b -> a = b.
Proof. destruct a, b; cbn; intros; subst; reflexivity. Qed.

(** ** The hardener: [hardenClauses] *)

Lemma hardened_upto_S (s : PMRES) (k : nat) (c : Soft) :
  softs s !! k = Some c ->
  hardened_upto s (S k)
  = hardened_upto s k ++ (if to_harden (model (solver s)) s c then [c] else []).
Proof.
  intros Hc. unfold hardened_upto.
  rewrite (take_S_r _ _ _ Hc), filter_app. f_equal.
  rewrite filter_cons. destruct (to_harden _ s c); cbn.
  - rewrite decide_True by reflexivity. reflexivity.
  - rewrite decide_False by discriminate. reflexivity.
Qed.

Lemma kept_upto_S (s : PMRES) (k : nat) (c : Soft) :
  softs s !! k = Some c ->
  kept_upto s (S k)
  = kept_upto s k ++ (if to_harden (model (solver s)) s c then [] else [c]).
Proof.
  intros Hc. unfold kept_upto.
  rewrite (take_S_r _ _ _ Hc), filter_app. f_equal.
  rewrite filter_cons. destruct (to_harden _ s c); cbn.
  - rewrite decide_False by discriminate. reflexivity.
  - rewrite decide_True by reflexivity. reflexivity.
Qed.

Lemma max_weight_of_snoc (l : list Soft) (c : Soft) :
  max_weight_of (l ++ [c])
  = if weight c >? max_weight_of l then weight c else max_weight_of l.
Proof. unfold max_weight_of. rewrite fold_left_app. reflexivity. Qed.

Lemma hardened_state_0 (s : PMRES) :
  hardened_state s 0 = set_maxw_nothardened 0 s.
Proof.
  unfold hardened_state, hardened_upto, kept_upto.
  rewrite take_0, drop_0, !filter_nil. cbn [map length app max_weight_of fold_left].
  rewrite Nat.add_0_r, !app_nil_r. unfold softs.
  destruct s as [o f cf sv]; destruct f, sv; cbn.
  destruct (hardenLazily _); reflexivity.
Qed.

(** The soft clauses after [k] turns: the first [k] are dealt with. *)
Lemma softs_hardened_state (s : PMRES) (k : nat) :
  softs (hardened_state s k)
  = map (fun c => if to_harden (model (solver s)) s c then hardened c else c)
        (take k (softs s))
    ++ drop k (softs s).
Proof. unfold hardened_state. destruct (hardenLazily s); reflexivity. Qed.

Lemma lookup_hardened_state (s : PMRES) (k : nat) (c : Soft) :
  softs s !! k = Some c -> softs (hardened_state s k) !! k = Some c.
Proof.
  intros Hc. rewrite softs_hardened_state.
  assert (Hk : (k < length (softs s))%nat) by (eapply lookup_lt_Some; exact Hc).
  rewrite lookup_app_r; rewrite length_map, length_take_le by lia; [|lia].
  rewrite Nat.sub_diag, lookup_drop, Nat.add_0_r. exact Hc.
Qed.

Lemma hardenClauses_ready_at (s : PMRES) (i : nat) :
  hardenClauses_ready s -> (i < softs_added s)%nat -> ready_at s i.
Proof.
  intros (Hn & Hcl) Hi.
  destruct (lookup_lt_is_Some_2 (softs s) i) as [c Hc].
  { unfold nSoft in Hn. unfold softs. lia. }
  assert (Hin : c ∈ take (softs_added s) (softs s)).
  { apply list_elem_of_lookup. exists i. rewrite lookup_take_lt by exact Hi. exact Hc. }
  exists c. split; [exact Hc|]. apply Hcl. exact Hin.
Qed.

Lemma hardenClauses_body_step (s : PMRES) (i : nat) :
  ready_at s i ->
  hardenClauses_body (U64.sub (ubCost s) (lbCost s)) i (hardened_state s i)
  = Some (tt, hardened_state s (S i)).
Proof.
  intros (c & Hc & Hunit & Hassump).
  set (s1 := hardened_state s i).
  set (bound := U64.sub (ubCost s) (lbCost s)) in *.
  unfold hardenClauses_body.
  rewrite (bind_eq _ _ s1 c s1)
    by (apply getSoftClause_eq, lookup_hardened_state; exact Hc).
  (* the test on the model *)
  assert (Hsat : (if weight c =? bound then
                    assertM (Nat.eqb (length (clause c)) 1) ;;;
                    l <- vec_at (clause c) 0 ;;
                    currentModel <- gets (fun s => model (solver s)) ;;
                    assertM (varZ l <? Z.of_nat (length currentModel)) ;;;
                    v <- model_at currentModel (varZ l) ;;
                    ret (lit_true_under l v)
                  else ret false) s1
                 = Some ((weight c =? bound) && soft_satisfied (model (solver s)) c, s1)).
  { destruct (Z.eqb_spec (weight c) bound) as [Heq|Hne]; [|reflexivity].
    destruct (Hunit Heq) as (l & Hl & Hv0 & Hv1).
    rewrite Hl. cbn [length Nat.eqb].
    rewrite (bind_eq _ _ s1 tt s1) by reflexivity.
    rewrite (bind_eq _ _ s1 l s1) by reflexivity.
    rewrite (bind_eq _ _ s1 (model (solver s)) s1) by reflexivity.
    assert (Hlt : (varZ l <? Z.of_nat (length (model (solver s)))) = true)
      by (apply Z.ltb_lt; lia).
    rewrite Hlt. rewrite (bind_eq _ _ s1 tt s1) by reflexivity.
    destruct (lookup_lt_is_Some_2 (model (solver s)) (Z.to_nat (varZ l))) as [v Hv];
      [lia|].
    assert (Hneg : (varZ l <? 0) = false) by (apply Z.ltb_ge; lia).
    rewrite (bind_eq _ _ s1 v s1).
    - unfold soft_satisfied. rewrite Hl, Hneg, Hv. reflexivity.
    - unfold model_at. rewrite Hneg. apply vec_at_eq. exact Hv. }
  rewrite (bind_eq _ _ _ _ _ Hsat). clear Hsat.
  assert (Hcond : (weight c >? bound)
                  || (weight c =? bound)
                     && ((weight c =? bound) && soft_satisfied (model (solver s)) c)
                  = to_harden (model (solver s)) s c).
  { unfold to_harden. fold bound. destruct (weight c =? bound); reflexivity. }
  rewrite Hcond. clear Hcond.
  unfold s1, hardened_state.
  rewrite (hardened_upto_S s i c Hc), (kept_upto_S s i c Hc).
  rewrite (take_S_r _ _ _ Hc), map_app.
  destruct (to_harden (model (solver s)) s c) eqn:Hth.
  - specialize (Hassump eq_refl).
    assert (Hne : negb (assumption_var c =? lit_Undef) = true).
    { apply negb_true_iff, Z.eqb_neq. exact Hassump. }
    rewrite Hne. rewrite app_nil_r.
    rewrite (drop_S _ _ _ Hc).
    rewrite !map_app, !length_app. cbn [map length].
    rewrite Hth.
    unfold bind, assertM, ret, modify, gets, addHard, onFormula, putSoftClause,
      incr_num_hardened.
    unfold hardenLazily at 1. cbn [opts set_solver set_num_hardened set_maxsat_formula set_maxw_nothardened].
    fold (hardenLazily s).
    assert (Hlen : length (map (fun c0 : Soft =>
                                  if to_harden (model (solver s)) s c0
                                  then hardened c0 else c0) (take i (softs s))) = i).
    { rewrite length_map, length_take_le; [reflexivity|].
      apply Nat.lt_le_incl. eapply lookup_lt_Some. exact Hc. }
    destruct (hardenLazily s); cbn; unfold modify;
      apply (f_equal (fun x => Some (tt, x)));
      (apply PMRES_ext; cbn; try reflexivity; [| |lia]).
    all: [> apply MaxSATFormula_ext; cbn; try reflexivity
          | apply Solver_ext; cbn; try reflexivity
          | apply MaxSATFormula_ext; cbn; try reflexivity
          | apply Solver_ext; cbn; try reflexivity ].
    all: rewrite <- ?app_assoc; try reflexivity.
    all: rewrite insert_app_r_alt; rewrite Hlen; [|lia].
    all: rewrite Nat.sub_diag; reflexivity.
  - rewrite !app_nil_r. rewrite (drop_S _ _ _ Hc).
    cbn [map]. rewrite Hth. rewrite max_weight_of_snoc.
    rewrite <- app_assoc. cbn [app].
    rewrite (bind_eq _ _ _ (max_weight_of (kept_upto s i)) _) by reflexivity.
    destruct (weight c >? max_weight_of (kept_upto s i)); reflexivity.
Qed.

Lemma max_weight_of_fold (l : list Soft) (acc : Z) :
  let r := fold_left (fun mx c => if weight c >? mx then weight c else mx) l acc in
  acc <= r
  /\ (forall c, c ∈ l -> weight c <= r)
  /\ (r = acc \/ exists c, c ∈ l /\ weight c = r).
Proof.
  revert acc. induction l as [|c l IH]; intros acc; cbn.
  - split; [lia|]. split; [|now left]. intros c Hc. inversion Hc.
  - destruct (IH (if weight c >? acc then weight c else acc)) as (Hle & Hub & Hex).
    assert (Hstep : acc <= (if weight c >? acc then weight c else acc)
                    /\ weight c <= (if weight c >? acc then weight c else acc)).
    { destruct (Z.gtb_spec (weight c) acc); lia. }
    split; [lia|]. split.
    + intros c' Hc'. apply elem_of_cons in Hc' as [->|Hc']; [lia|now apply Hub].
    + destruct Hex as [Heq | (c' & Hc' & Hw)].
      * destruct (Z.gtb_spec (weight c) acc).
        -- right. exists c. split; [left|congruence].
        -- now left.
      * right. exists c'. split; [now right|exact Hw].
Qed.

Lemma lookup_hardened_softs (s : PMRES) (n i : nat) (c : Soft) :
  (n <= length (softs s))%nat ->
  softs s !! i = Some c ->
  softs (hardened_state s n) !! i
  = Some (if (i <? n)%nat && to_harden (model (solver s)) s c
          then hardened c else c).
Proof.
  intros Hn Hc. rewrite softs_hardened_state.
  destruct (Nat.ltb_spec i n) as [Hlt|Hge]; cbn [andb].
  - rewrite lookup_app_l by (rewrite length_map, length_take_le; lia).
    rewrite list_lookup_fmap, lookup_take_lt, Hc by exact Hlt. reflexivity.
  - rewrite lookup_app_r; rewrite length_map, length_take_le by lia; [|lia].
    rewrite lookup_drop. replace (n + (i - n))%nat with i by lia. exact Hc.
Qed.

(** C3 (amended): at the gap [ubCost - lbCost] the hardener takes,
    among the first [softs_added] soft clauses (those delivered to the
    oracle), exactly those whose weight is above the gap, or equals it
    while the clause is satisfied by the model the oracle holds.  For
    each of them, in order, the unit clause of the negated assumption
    is added to the oracle and, unless [hardenLazily], to the hard
    clauses of the formula; its weight becomes 0 and its assumption
    undefined; [num_hardened] grows by their number.  Every other soft
    clause is left as it was, and [maxw_nothardened] ends as the
    largest weight among the clauses gone through and not taken. *)
Theorem hardenClauses_delivered (s : PMRES) :
  hardenClauses_ready s ->
  exists s',
    hardenClauses s = Some (tt, s')
    /\ (forall i c,
          softs s !! i = Some c ->
          softs s' !! i
          = Some (if (i <? softs_added s)%nat && to_harden (model (solver s)) s c
                  then hardened c else c))
    /\ length (softs s') = length (softs s)
    /\ solver_clauses (solver s')
       = solver_clauses (solver s)
         ++ map unit_of_assumption (hardened_upto s (softs_added s))
    /\ hard_clauses (maxsat_formula s')
       = (if hardenLazily s then hard_clauses (maxsat_formula s)
          else hard_clauses (maxsat_formula s)
               ++ map unit_of_assumption (hardened_upto s (softs_added s)))
    /\ num_hardened s'
       = (num_hardened s + length (hardened_upto s (softs_added s)))%nat
    /\ (forall c, c ∈ kept_upto s (softs_added s) -> weight c <= maxw_nothardened s')
    /\ (maxw_nothardened s' = 0
        \/ exists c, c ∈ kept_upto s (softs_added s) /\ weight c = maxw_nothardened s')
    /\ s' = hardened_state s (softs_added s).
Proof.
  intros Hready.
  destruct (for_upto_inv (fun k s1 => s1 = hardened_state s k)
              (hardenClauses_body (U64.sub (ubCost s) (lbCost s)))
              (softs_added s) (set_maxw_nothardened 0 s))
    as (s' & Hrun & ->).
  - symmetry. apply hardened_state_0.
  - intros i s1 Hi ->. eexists. split; [|reflexivity].
    apply hardenClauses_body_step. now apply hardenClauses_ready_at.
  - destruct Hready as (Hn & _). unfold nSoft in Hn. fold (softs s) in Hn.
    exists (hardened_state s (softs_added s)).
    split; [exact Hrun|].
    split; [intros i c Hc; now apply lookup_hardened_softs|].
    split.
    { rewrite softs_hardened_state, length_app, length_map, length_take_le by lia.
      rewrite length_drop. lia. }
    split; [reflexivity|].
    split; [unfold hardened_state; destruct (hardenLazily s); reflexivity|].
    split; [reflexivity|].
    destruct (max_weight_of_fold (kept_upto s (softs_added s)) 0) as (_ & Hub & Hex).
    split; [exact Hub|]. split; [exact Hex|reflexivity].
Qed.

Lemma hardenClauses_delivered_witness :
  hardenClauses_ready st_before_hardening /\
  exists s',
    hardenClauses st_before_hardening = Some (tt, s')
    /\ softs s' = [mkSoft [3] 0 lit_Undef; mkSoft [5] 1 4; mkSoft [9] 4 8]
    /\ maxw_nothardened s' = 1.
Proof.
  assert (Hready : hardenClauses_ready st_before_hardening).
  { split; [vm_compute; lia|].
    assert (Ht : take (softs_added st_before_hardening) (softs st_before_hardening)
                 = [mkSoft [3] 0 lit_Undef; mkSoft [5] 1 4])
      by (vm_compute; reflexivity).
    intros c Hc. rewrite Ht in Hc. rewrite !elem_of_cons in Hc.
    destruct Hc as [->|[->|Hc]]; [| |inversion Hc].
    - split; [intros [=]|intros [=]].
    - split; [|intros [=]]. intros _. exists 5. split; [reflexivity|].
      vm_compute. split; [discriminate|reflexivity]. }
  split; [exact Hready|].
  destruct (hardenClauses_delivered st_before_hardening Hready)
    as (s' & Hrun & _ & _ & _ & _ & _ & _ & _ & ->).
  eexists. split; [exact Hrun|]. split; reflexivity.
Defined.

(** C3 (as stated, refuted).  First: after a core of cost 4 and a model
    of cost 5 the gap is 1 and the soft clause appended by the
    relaxation, a unit clause of weight 4, is active and above the gap,
    yet the hardener leaves it as it is: it goes through the first
    [softs_added] soft clauses only.  Second: a soft clause whose
    weight equals the gap and which the best model falsifies is
    hardened, because the model of the oracle satisfies it. *)
Lemma hardenClauses_not_every_active_soft :
  (exists s',
      weightDisjointCores turns_core_then_model st_four_five
      = Some (Some _SATISFIABLE_, st_before_hardening)
      /\ hardenClauses st_before_hardening = Some (tt, s')
      /\ ~ hardens_every_active_soft st_before_hardening s')
  /\ (exists s',
         hardenClauses st_models_differ = Some (tt, s')
         /\ ~ hardens_every_active_soft st_models_differ s').
Proof.
  split.
  - eexists. split; [vm_compute; reflexivity|].
    split; [vm_compute; reflexivity|].
    intros H.
    destruct (H 2%nat (mkSoft [9] 4 8)) as [Hh _];
      [reflexivity|reflexivity|cbn; lia|].
    specialize (Hh eq_refl). vm_compute in Hh. discriminate Hh.
  - eexists. split; [vm_compute; reflexivity|].
    intros H.
    destruct (H 0%nat (unit_soft 0 3)) as [_ Hh]; [reflexivity|reflexivity|cbn; lia|].
    specialize (Hh eq_refl). vm_compute in Hh. discriminate Hh.
Qed.

(** ** The PMRES transformation: [encodeMaxRes] *)

Lemma put_formula_id (s : PMRES) :
  put_formula (n_vars (maxsat_formula s)) (hard_clauses (maxsat_formula s))
              (softs s) (coreMapping s) s = s.
Proof. destruct s as [o f]; destruct f; reflexivity. Qed.

Lemma newLiteral_put (nv : nat) (h : list Clause) (sf : list Soft)
      (cm : gmap Z nat) (s : PMRES) :
  formula_newLiteral (put_formula nv h sf cm s)
  = Some (mkLit nv false, put_formula (S nv) h sf cm s).
Proof. reflexivity. Qed.

Lemma addHard_put (nv : nat) (h : list Clause) (sf : list Soft)
      (cm : gmap Z nat) (s : PMRES) (c : Clause) :
  addHard c (put_formula nv h sf cm s) = Some (tt, put_formula nv (h ++ [c]) sf cm s).
Proof. reflexivity. Qed.

Lemma addSoftClauseAndAssumptionVar_put (nv : nat) (h : list Clause)
      (sf : list Soft) (cm : gmap Z nat) (s : PMRES) (w : Z) (cl : Clause) :
  addSoftClauseAndAssumptionVar w cl (put_formula nv h sf cm s)
  = Some (tt, put_formula (S nv) (h ++ [cl ++ [mkLit nv false]])
                (sf ++ [mkSoft [neg (mkLit nv false)] w (mkLit nv false)])
                (<[mkLit nv false := length sf]> cm) s).
Proof.
  unfold addSoftClauseAndAssumptionVar.
  rewrite (bind_eq _ _ _ _ _ (newLiteral_put nv h sf cm s)).
  set (a := mkLit nv false).
  rewrite (bind_eq _ _ _ tt _ (addHard_put (S nv) h sf cm s (cl ++ [a]))).
  set (s2 := put_formula (S nv) (h ++ [cl ++ [a]])
               (sf ++ [mkSoft [neg a] w lit_Undef]) cm s).
  rewrite (bind_eq _ _ _ tt s2) by reflexivity.
  rewrite (bind_eq _ _ s2 (length (sf ++ [mkSoft [neg a] w lit_Undef])) s2)
    by reflexivity.
  rewrite length_app. cbn [length]. rewrite Nat.add_sub.
  rewrite (bind_eq _ _ s2 (mkSoft [neg a] w lit_Undef) s2).
  2:{ apply getSoftClause_eq. unfold s2. cbn.
      rewrite lookup_app_r, Nat.sub_diag by lia. reflexivity. }
  unfold bind, putSoftClause, modify.
  apply (f_equal (fun x => Some (tt, x))).
  apply PMRES_ext; try reflexivity.
  apply MaxSATFormula_ext; try reflexivity.
  unfold s2. cbn. rewrite insert_app_r_alt, Nat.sub_diag by lia. reflexivity.
Qed.

Lemma d_vars_S (nv m : nat) : d_vars nv (S m) = d_var nv 0 :: d_vars (S nv) m.
Proof.
  unfold d_vars. cbn [seq map]. f_equal.
  rewrite <- seq_shift, map_map. apply map_ext. intros i.
  unfold d_var. f_equal. lia.
Qed.

Lemma d_vars_lookup (nv m i : nat) :
  (i < m)%nat -> d_vars nv m !! i = Some (d_var nv i).
Proof.
  intros Hi. unfold d_vars. rewrite list_lookup_fmap, lookup_seq_lt by exact Hi.
  reflexivity.
Qed.

Lemma core_lit_lookup (core : list Z) (i : nat) :
  (i < length core)%nat -> core !! i = Some (core_lit core i).
Proof.
  intros Hi. unfold core_lit.
  destruct (lookup_lt_is_Some_2 core i Hi) as [b Hb]. rewrite Hb. reflexivity.
Qed.

(** The first loop: one fresh literal per turn. *)
Lemma encodeMaxRes_dVars (h : list Clause) (sf : list Soft) (cm : gmap Z nat)
      (s : PMRES) (l : list nat) :
  forall (nv : nat) (acc : list Z),
    foldM (fun dVars (_ : nat) => p <- formula_newLiteral ;; ret (dVars ++ [p]))
          l acc (put_formula nv h sf cm s)
    = Some (acc ++ d_vars nv (length l), put_formula (nv + length l) h sf cm s).
Proof.
  induction l as [|x l IH]; intros nv acc.
  - cbn. rewrite app_nil_r, Nat.add_0_r. reflexivity.
  - cbn [foldM length].
    rewrite (bind_eq _ _ _ (acc ++ [mkLit nv false]) (put_formula (S nv) h sf cm s)).
    + rewrite IH, d_vars_S, <- app_assoc. cbn [app].
      unfold d_var at 1. rewrite Nat.add_0_r.
      replace (S nv + length l)%nat with (nv + S (length l))%nat by lia.
      reflexivity.
    + rewrite (bind_eq _ _ _ _ _ (newLiteral_put nv h sf cm s)). reflexivity.
Qed.

(** The loop of the implications between consecutive d-variables. *)
Lemma encodeMaxRes_chain (lin : Z) (nv0 nv : nat) (core : list Z) (h : list Clause)
      (sf : list Soft) (cm : gmap Z nat) (s : PMRES) :
  let n := length core in
  let body := fun i =>
    (if lin =? 0 then
       di <- vec_at (d_vars nv0 (n - 1)) i ;;
       di1 <- vec_at (d_vars nv0 (n - 1)) (i + 1) ;;
       bi1 <- vec_at core (i + 1) ;;
       addHard [neg di; di1; bi1]
     else ret tt) ;;;
    di <- vec_at (d_vars nv0 (n - 1)) i ;;
    bi1 <- vec_at core (i + 1) ;;
    addHard [di; neg bi1] ;;;
    di1 <- vec_at (d_vars nv0 (n - 1)) (i + 1) ;;
    addHard [di; neg di1] in
  for_upto (n - 2) body (put_formula nv h sf cm s)
  = Some (tt, put_formula nv
                (h ++ flat_map (fun i => (if lin =? 0
                                          then [clause_d_implies nv0 core i] else [])
                                         ++ clauses_implies_d nv0 core i)
                               (seq 0 (n - 2)))
                sf cm s).
Proof.
  intros n body.
  set (g := fun i => (if lin =? 0 then [clause_d_implies nv0 core i] else [])
                     ++ clauses_implies_d nv0 core i).
  destruct (for_upto_inv
              (fun k s1 => s1 = put_formula nv (h ++ flat_map g (seq 0 k)) sf cm s)
              body (n - 2) (put_formula nv h sf cm s)) as (s' & Hrun & ->).
  - cbn. now rewrite app_nil_r.
  - intros i s1 Hi ->. eexists. split; [|reflexivity].
    rewrite seq_S, flat_map_app. cbn [flat_map seq]. rewrite app_nil_r, Nat.add_0_l.
    unfold body.
    assert (Hd : d_vars nv0 (n - 1) !! i = Some (d_var nv0 i))
      by (apply d_vars_lookup; lia).
    assert (Hd1 : d_vars nv0 (n - 1) !! (i + 1)%nat = Some (d_var nv0 (i + 1)))
      by (apply d_vars_lookup; lia).
    assert (Hb1 : core !! (i + 1)%nat = Some (core_lit core (i + 1)))
      by (apply core_lit_lookup; fold n; lia).
    set (h1 := h ++ flat_map g (seq 0 i)).
    assert (Hfirst :
      (if lin =? 0 then
         di <- vec_at (d_vars nv0 (n - 1)) i ;;
         di1 <- vec_at (d_vars nv0 (n - 1)) (i + 1) ;;
         bi1 <- vec_at core (i + 1) ;;
         addHard [neg di; di1; bi1]
       else ret tt) (put_formula nv h1 sf cm s)
      = Some (tt, put_formula nv
                    (h1 ++ (if lin =? 0 then [clause_d_implies nv0 core i] else []))
                    sf cm s)).
    { destruct (lin =? 0).
      - rewrite (bind_eq _ _ _ _ _ (vec_at_eq _ _ _ _ Hd)).
        rewrite (bind_eq _ _ _ _ _ (vec_at_eq _ _ _ _ Hd1)).
        rewrite (bind_eq _ _ _ _ _ (vec_at_eq _ _ _ _ Hb1)).
        apply addHard_put.
      - rewrite app_nil_r. reflexivity. }
    rewrite (bind_eq _ _ _ _ _ Hfirst).
    rewrite (bind_eq _ _ _ _ _ (vec_at_eq _ _ _ _ Hd)).
    rewrite (bind_eq _ _ _ _ _ (vec_at_eq _ _ _ _ Hb1)).
    rewrite (bind_eq _ _ _ _ _ (addHard_put _ _ _ _ _ _)).
    rewrite (bind_eq _ _ _ _ _ (vec_at_eq _ _ _ _ Hd1)).
    rewrite addHard_put. unfold g, clauses_implies_d, h1.
    rewrite <- !app_assoc. reflexivity.
  - exact Hrun.
Qed.

(** The loop of the new soft clauses. *)
Lemma encodeMaxRes_softs (nv : nat) (core : list Z) (w : Z) (h : list Clause)
      (sf : list Soft) (cm : gmap Z nat) (s : PMRES) :
  let n := length core in
  let body := fun i =>
    bi <- vec_at core i ;;
    di <- vec_at (d_vars nv (n - 1)) i ;;
    addSoftClauseAndAssumptionVar w [neg bi; neg di] in
  for_upto (n - 1) body (put_formula (nv + (n - 1)) h sf cm s)
  = Some (tt, put_formula (nv + (n - 1) + (n - 1))
                (h ++ map (clause_reified nv core) (seq 0 (n - 1)))
                (sf ++ new_softs nv n w)
                (new_mapping nv n (length sf) cm) s).
Proof.
  intros n body.
  destruct (for_upto_inv
              (fun k s1 =>
                 s1 = put_formula (nv + (n - 1) + k)
                        (h ++ map (clause_reified nv core) (seq 0 k))
                        (sf ++ map (new_soft nv n w) (seq 0 k))
                        (fold_left (fun m i => <[a_var nv n i := (length sf + i)%nat]> m)
                                   (seq 0 k) cm) s)
              body (n - 1) (put_formula (nv + (n - 1)) h sf cm s))
    as (s' & Hrun & ->).
  - cbn. now rewrite !app_nil_r, Nat.add_0_r.
  - intros i s1 Hi ->. eexists. split; [|reflexivity].
    rewrite seq_S, !map_app, fold_left_app. cbn [map fold_left seq]. rewrite Nat.add_0_l.
    unfold body.
    rewrite (bind_eq _ _ _ (core_lit core i) _)
      by (apply vec_at_eq, core_lit_lookup; fold n; lia).
    rewrite (bind_eq _ _ _ (d_var nv i) _)
      by (apply vec_at_eq, d_vars_lookup; lia).
    rewrite addSoftClauseAndAssumptionVar_put.
    rewrite length_app, length_map, length_seq.
    unfold clause_reified, new_soft, a_var. fold n.
    rewrite <- !app_assoc. cbn [app].
    replace (S (nv + (n - 1) + i)) with (nv + (n - 1) + S i)%nat by lia.
    reflexivity.
  - exact Hrun.
Qed.

(** The whole function on a solver object: what it returns. *)
Lemma encodeMaxRes_result (s : PMRES) (core : list Z) (w : Z) :
  core <> [] ->
  let n := length core in
  let f := maxsat_formula s in
  encodeMaxRes core w s
  = Some (tt, put_formula (n_vars f + (n - 1) + (n - 1))
                (hard_clauses f ++ new_hards (lins (opts s)) (n_vars f) core)
                (softs s ++ new_softs (n_vars f) n w)
                (new_mapping (n_vars f) n (length (softs s)) (coreMapping s)) s).
Proof.
  intros Hne n f. unfold encodeMaxRes. fold n.
  assert (Hn : (0 < n)%nat) by (destruct core; [congruence|cbn; lia]).
  replace (Nat.eqb n 0) with false by (symmetry; apply Nat.eqb_neq; lia).
  cbn [negb]. rewrite (bind_eq _ _ s tt s) by reflexivity.
  rewrite <- (put_formula_id s) at 1.
  set (nv := n_vars (maxsat_formula s)). set (h := hard_clauses (maxsat_formula s)).
  rewrite (bind_eq _ _ _ _ _ (encodeMaxRes_dVars h _ _ s (seq 0 (n - 1)) nv [])).
  rewrite length_seq. cbn [app].
  rewrite (bind_eq _ _ _ (lins (opts s)) _) by reflexivity.
  set (lin := lins (opts s)).
  set (h1 := h ++ (if lin =? 0 then [core] else [])).
  rewrite (bind_eq _ _ _ tt (put_formula (nv + (n - 1)) h1 (softs s) (coreMapping s) s)).
  2:{ unfold h1. destruct (lin =? 0); [apply addHard_put|].
      rewrite app_nil_r. reflexivity. }
  set (h2 := h1 ++ flat_map (fun i => (if lin =? 0
                                       then [clause_d_implies nv core i] else [])
                                      ++ clauses_implies_d nv core i)
                            (seq 0 (n - 2))).
  rewrite (bind_eq _ _ _ tt (put_formula (nv + (n - 1)) h2 (softs s) (coreMapping s) s)).
  2:{ destruct (Nat.ltb_spec 2 n) as [H2|H2].
      - apply encodeMaxRes_chain.
      - unfold h2. replace (n - 2)%nat with 0%nat by lia. cbn.
        rewrite app_nil_r. reflexivity. }
  set (h3 := h2 ++ clauses_last nv core).
  rewrite (bind_eq _ _ _ tt (put_formula (nv + (n - 1)) h3 (softs s) (coreMapping s) s)).
  2:{ unfold h3, clauses_last. fold n. destruct (Nat.ltb_spec 1 n) as [H1|H1].
      - rewrite (bind_eq _ _ _ (d_var nv (n - 2)) _)
          by (apply vec_at_eq, d_vars_lookup; lia).
        rewrite (bind_eq _ _ _ (core_lit core (n - 1)) _)
          by (apply vec_at_eq, core_lit_lookup; fold n; lia).
        rewrite (bind_eq _ _ _ _ _ (addHard_put _ _ _ _ _ _)).
        rewrite addHard_put, <- app_assoc. reflexivity.
      - rewrite app_nil_r. reflexivity. }
  pose proof (encodeMaxRes_softs nv core w h3 (softs s) (coreMapping s) s) as Hs.
  cbv zeta in Hs. fold n in Hs.
  etransitivity; [exact Hs|].
  unfold new_hards, h3, h2, h1. fold n. rewrite <- !app_assoc. reflexivity.
Qed.

Lemma mkLit_false_inj (u v : nat) : mkLit u false = mkLit v false -> u = v.
Proof. unfold mkLit. lia. Qed.

Lemma varZ_mkLit_false (v : nat) : varZ (mkLit v false) = Z.of_nat v.
Proof.
  unfold varZ, mkLit. rewrite Z.shiftr_div_pow2 by lia.
  change (2 ^ 1) with 2. rewrite Z.add_0_r, Z.mul_comm. apply Z.div_mul. lia.
Qed.

Lemma new_mapping_lookup (nv n ns : nat) (cm : gmap Z nat) (i : nat) :
  (i < n - 1)%nat ->
  new_mapping nv n ns cm !! a_var nv n i = Some (ns + i)%nat.
Proof.
  unfold new_mapping. generalize (n - 1)%nat as m. intros m.
  induction m as [|m IH]; intros Hi; [lia|].
  rewrite seq_S, fold_left_app. cbn [fold_left]. rewrite Nat.add_0_l.
  destruct (decide (i = m)) as [->|Hne].
  - apply lookup_insert_eq.
  - rewrite lookup_insert_ne; [apply IH; lia|].
    unfold a_var. intros Heq. apply mkLit_false_inj in Heq. lia.
Qed.

(** C2: for a non-empty core [b 0 .. b (n-1)] and a weight [w],
    [encodeMaxRes] introduces the [n-1] fresh d-variables [d i] and
    [n-1] fresh assumption literals [a i] (the next [2 (n-1)]
    variables of the formula), appends exactly the [n-1] unit soft
    clauses [not a i] of weight [w] with assumption [a i], adds the
    hard clause [not b i or not d i or a i] for each and registers
    [coreMapping[a i]] as the index of the new soft clause.  The hard
    clauses added are, in order: the core itself (only when
    [lins = 0]); for [i < n-2] the clause [d i -> b (i+1) or d (i+1)]
    (only when [lins = 0]) and the two clauses of
    [b (i+1) or d (i+1) -> d i] (always); the two final clauses for
    [i = n-2] (always, when [n > 1]); the reified bodies. *)
Theorem encodeMaxRes_transformation (s : PMRES) (core : list Z) (w : Z) :
  core <> [] ->
  let n := length core in
  let nv := n_vars (maxsat_formula s) in
  let ns := length (softs s) in
  exists s',
    encodeMaxRes core w s = Some (tt, s')
    /\ n_vars (maxsat_formula s') = (nv + (n - 1) + (n - 1))%nat
    /\ (forall i, (i < n - 1)%nat ->
          varZ (d_var nv i) = Z.of_nat (nv + i)
          /\ varZ (a_var nv n i) = Z.of_nat (nv + (n - 1) + i))
    /\ softs s' = softs s ++ map (new_soft nv n w) (seq 0 (n - 1))
    /\ length (softs s') = (ns + (n - 1))%nat
    /\ (forall i, (i < n - 1)%nat ->
          softs s' !! (ns + i)%nat
          = Some (mkSoft [neg (a_var nv n i)] w (a_var nv n i))
          /\ coreMapping s' !! a_var nv n i = Some (ns + i)%nat
          /\ [neg (core_lit core i); neg (d_var nv i); a_var nv n i]
             ∈ hard_clauses (maxsat_formula s'))
    /\ hard_clauses (maxsat_formula s')
       = hard_clauses (maxsat_formula s)
         ++ (if lins (opts s) =? 0
             then [core]
                  ++ flat_map (fun i => clause_d_implies nv core i
                                        :: clauses_implies_d nv core i)
                              (seq 0 (n - 2))
             else flat_map (clauses_implies_d nv core) (seq 0 (n - 2)))
         ++ clauses_last nv core
         ++ map (clause_reified nv core) (seq 0 (n - 1)).
Proof.
  intros Hne n nv ns.
  set (hs := hard_clauses (maxsat_formula s) ++ new_hards (lins (opts s)) nv core).
  set (sf := softs s ++ new_softs nv n w).
  set (cm := new_mapping nv n ns (coreMapping s)).
  exists (put_formula (nv + (n - 1) + (n - 1)) hs sf cm s).
  split; [apply encodeMaxRes_result; exact Hne|].
  change (n_vars (maxsat_formula (put_formula (nv + (n - 1) + (n - 1)) hs sf cm s)))
    with (nv + (n - 1) + (n - 1))%nat.
  change (softs (put_formula (nv + (n - 1) + (n - 1)) hs sf cm s)) with sf.
  change (coreMapping (put_formula (nv + (n - 1) + (n - 1)) hs sf cm s)) with cm.
  change (hard_clauses (maxsat_formula (put_formula (nv + (n - 1) + (n - 1)) hs sf cm s)))
    with hs.
  split; [reflexivity|].
  split.
  { intros i Hi. unfold d_var, a_var. rewrite !varZ_mkLit_false. auto. }
  split; [reflexivity|].
  split.
  { unfold sf, new_softs. rewrite length_app, length_map, length_seq. reflexivity. }
  split.
  { intros i Hi. split; [|split].
    - unfold sf. rewrite lookup_app_r by (unfold ns; lia).
      replace (ns + i - length (softs s))%nat with i by (unfold ns; lia).
      unfold new_softs. rewrite list_lookup_fmap, lookup_seq_lt by exact Hi.
      reflexivity.
    - apply new_mapping_lookup. exact Hi.
    - unfold hs, new_hards. rewrite !elem_of_app. right. right. right. right.
      apply list_elem_of_fmap. exists i. split; [reflexivity|].
      apply elem_of_seq. fold n. lia. }
  unfold hs, new_hards. fold n. f_equal.
  destruct (lins (opts s) =? 0); reflexivity.
Qed.

Lemma encodeMaxRes_transformation_witness :
  [0; 2] <> [] /\
  exists s',
    encodeMaxRes [0; 2] 2 st_after_setup = Some (tt, s')
    /\ n_vars (maxsat_formula s') = 4%nat
    /\ softs s' = softs st_after_setup ++ [mkSoft [7] 2 6]
    /\ coreMapping s' !! 6 = Some 2%nat
    /\ hard_clauses (maxsat_formula s') = [[0; 2]; [4; 3]; [5; 2]; [1; 5; 6]].
Proof.
  split; [discriminate|].
  destruct (encodeMaxRes_transformation st_after_setup [0; 2] 2)
    as (s' & Hrun & Hnv & _ & Hsoft & _ & Hmap & Hhard); [discriminate|].
  exists s'. split; [exact Hrun|]. split; [exact Hnv|]. split; [exact Hsoft|].
  split; [|exact Hhard].
  destruct (Hmap 0%nat) as (_ & Hcm & _); [cbn; lia|]. exact Hcm.
Defined.

(** ** Relaxation of a core: [relaxCore] *)

Lemma coreMapping_at_eq (l : Z) (s : PMRES) :
  coreMapping_at l s
  = Some (cm_get (coreMapping s) l, set_coreMapping (cm_touch (coreMapping s) l) s).
Proof.
  unfold coreMapping_at, cm_get, cm_touch.
  destruct (coreMapping s !! l); [|reflexivity]. destruct s; reflexivity.
Qed.

Lemma cm_get_touch (m : gmap Z nat) (l l' : Z) :
  cm_get (cm_touch m l) l' = cm_get m l'.
Proof.
  unfold cm_touch. destruct (m !! l) eqn:Hl; [reflexivity|].
  now apply cm_get_insert_absent.
Qed.

(** One turn of the loop, as an equation. *)
Lemma relaxCore_body_eq (w l : Z) (s : PMRES) :
  relaxCore_body w l s
  = match softs s !! cm_get (coreMapping s) l with
    | Some c => if weight c >=? w then Some (tt, relaxed_at w l c s) else None
    | None => None
    end.
Proof.
  unfold relaxCore_body. rewrite (bind_eq _ _ _ _ _ (coreMapping_at_eq l s)).
  set (i := cm_get (coreMapping s) l). set (s1 := set_coreMapping _ s).
  unfold bind at 1. unfold getSoftClause at 1.
  change (softs s1) with (softs s).
  destruct (softs s !! i) as [c|] eqn:Hc; [|reflexivity].
  destruct (weight c >=? w); [|reflexivity].
  rewrite (bind_eq _ _ s1 tt s1) by reflexivity.
  assert (Hi : (i < length (softs s))%nat) by (eapply lookup_lt_Some; exact Hc).
  set (c1 := set_weight (U64.sub (weight c) w) c).
  set (s2 := set_maxsat_formula
               (with_soft_clauses (<[i := c1]> (softs s)) (maxsat_formula s)) s1).
  rewrite (bind_eq _ _ s1 tt s2) by reflexivity.
  rewrite (bind_eq _ _ s2 c1 s2).
  2:{ apply getSoftClause_eq. unfold s2. cbn. apply list_lookup_insert_eq. exact Hi. }
  unfold relaxed_at, relax_soft. fold i c1.
  destruct (weight c1 =? 0) eqn:Hz.
  - cbn [weight set_assumption_var]. rewrite Hz.
    unfold bind, putSoftClause, incr_num_hardened, modify, s2, s1. cbn.
    rewrite list_insert_insert_eq. reflexivity.
  - rewrite Hz. reflexivity.
Qed.

Lemma total_weight_app (l1 l2 : list Soft) :
  total_weight (l1 ++ l2) = total_weight l1 + total_weight l2.
Proof. induction l1 as [|c l1 IH]; cbn; [reflexivity|]. rewrite IH. lia. Qed.

Lemma total_weight_insert (l : list Soft) (i : nat) (c c' : Soft) :
  l !! i = Some c ->
  total_weight (<[i := c']> l) = total_weight l - weight c + weight c'.
Proof.
  revert i. induction l as [|x l IH]; intros i Hi; [discriminate|].
  destruct i as [|i].
  - cbn in Hi. injection Hi as ->. cbn. lia.
  - change (<[S i := c']> (x :: l)) with (x :: <[i := c']> l).
    cbn [total_weight]. rewrite (IH i Hi). lia.
Qed.

Lemma total_weight_nonneg (l : list Soft) :
  weights_inrange l -> 0 <= total_weight l.
Proof.
  induction 1 as [|c l Hc _ IH]; cbn; [lia|]. destruct Hc. lia.
Qed.

Lemma weights_inrange_insert (l : list Soft) (i : nat) (c : Soft) :
  weights_inrange l -> U64.inrange (weight c) -> weights_inrange (<[i := c]> l).
Proof. intros Hl Hc. apply Forall_insert; assumption. Qed.

Lemma weight_relax_soft (w : Z) (c : Soft) :
  weight (relax_soft w c) = U64.sub (weight c) w.
Proof. unfold relax_soft. cbn. destruct (U64.sub (weight c) w =? 0); reflexivity. Qed.

Lemma same_bounds_refl (s : PMRES) : same_bounds s s.
Proof. repeat split. Qed.

(** The loop of [relaxCore] takes [w] off one soft clause per literal
    of the conflict, without wrap-around when it runs through. *)
Lemma relaxCore_loop_sum (w : Z) (conflict0 : list Z) :
  0 < w ->
  forall s s',
    weights_inrange (softs s) ->
    for_each conflict0 (relaxCore_body w) s = Some (tt, s') ->
    total_weight (softs s')
    = total_weight (softs s) - Z.of_nat (length conflict0) * w
    /\ weights_inrange (softs s')
    /\ length (softs s') = length (softs s)
    /\ same_bounds s s'
    /\ (conflict0 <> [] -> w < U64.modulus).
Proof.
  intros Hw. induction conflict0 as [|l rest IH]; intros s s' Hin Hrun.
  - cbn in Hrun. injection Hrun as <-. split; [cbn; lia|].
    split; [exact Hin|]. split; [reflexivity|]. split; [apply same_bounds_refl|].
    congruence.
  - cbn [for_each] in Hrun. apply bind_Some in Hrun as ([] & s1 & Hbody & Hrest).
    rewrite relaxCore_body_eq in Hbody.
    destruct (softs s !! cm_get (coreMapping s) l) as [c|] eqn:Hc; [|discriminate].
    destruct (Z.geb_spec (weight c) w) as [Hge|]; [|discriminate].
    injection Hbody as <-.
    assert (Hcr : U64.inrange (weight c)).
    { eapply Forall_lookup_1 in Hin; [exact Hin|exact Hc]. }
    assert (Hsub : weight (relax_soft w c) = weight c - w).
    { rewrite weight_relax_soft. apply u64_sub_exact; [exact Hcr|lia]. }
    assert (Hin1 : weights_inrange (softs (relaxed_at w l c s))).
    { cbn. apply weights_inrange_insert; [exact Hin|].
      rewrite Hsub. destruct Hcr. split; lia. }
    destruct (IH _ _ Hin1 Hrest) as (Hsum & Hin' & Hlen & Hb & _).
    split.
    { rewrite Hsum. cbn [softs relaxed_at maxsat_formula set_num_hardened
                           set_maxsat_formula soft_clauses with_soft_clauses].
      rewrite (total_weight_insert _ _ _ _ Hc), Hsub. cbn [length]. lia. }
    split; [exact Hin'|]. split.
    { rewrite Hlen. cbn. apply length_insert. }
    split; [exact Hb|]. intros _. destruct Hcr. lia.
Qed.

Lemma total_weight_new_softs (nv n : nat) (w : Z) :
  total_weight (new_softs nv n w) = Z.of_nat (n - 1) * w.
Proof.
  assert (H : forall l, total_weight (map (new_soft nv n w) l)
                        = Z.of_nat (length l) * w).
  { induction l as [|i l IH]; [reflexivity|].
    cbn [map total_weight length weight new_soft]. rewrite IH. lia. }
  unfold new_softs. rewrite H, length_seq. reflexivity.
Qed.

Lemma weights_inrange_new_softs (nv n : nat) (w : Z) :
  U64.inrange w -> weights_inrange (new_softs nv n w).
Proof.
  intros Hw. unfold new_softs, weights_inrange. apply Forall_forall.
  intros c Hc. apply list_elem_of_fmap in Hc as (i & -> & _). exact Hw.
Qed.

(** [relaxCore] on a core of size [n] with weight [w]: [n] decrements
    by [w], then [n - 1] new soft clauses of weight [w]; the sum of
    the weights goes down by exactly [w]; the bounds are not touched. *)
Lemma relaxCore_sum (s s' : PMRES) (conflict0 : list Z) (w : Z) :
  weights_inrange (softs s) ->
  relaxCore conflict0 w s = Some (tt, s') ->
  let n := length conflict0 in
  exists (mid : list Soft) (nv : nat),
    length mid = length (softs s)
    /\ total_weight mid = total_weight (softs s) - Z.of_nat n * w
    /\ softs s' = mid ++ new_softs nv n w
    /\ length (new_softs nv n w) = (n - 1)%nat
    /\ (forall c, c ∈ new_softs nv n w -> weight c = w)
    /\ total_weight (softs s') = total_weight (softs s) - w
    /\ weights_inrange (softs s')
    /\ same_bounds s s'
    /\ (0 < n)%nat /\ 0 < w.
Proof.
  intros Hin Hrun n. unfold relaxCore in Hrun.
  apply bind_Some in Hrun as ([] & s0 & Ha1 & Hrun).
  apply assertM_Some in Ha1 as [Hn ->]. apply Nat.ltb_lt in Hn.
  apply bind_Some in Hrun as ([] & s0 & Ha2 & Hrun).
  apply assertM_Some in Ha2 as [Hw ->]. apply Z.gtb_lt in Hw.
  apply bind_Some in Hrun as ([] & s1 & Hloop & Hrun).
  apply bind_Some in Hrun as ([] & s2 & Henc & Hrun).
  unfold modify in Hrun. injection Hrun as <-.
  assert (Hne : conflict0 <> []) by (destruct conflict0; [cbn in Hn; lia|congruence]).
  destruct (relaxCore_loop_sum w conflict0 Hw s s1 Hin Hloop)
    as (Hsum & Hin1 & Hlen & Hb & Hwmax).
  specialize (Hwmax Hne).
  rewrite (encodeMaxRes_result s1 conflict0 w Hne) in Henc. injection Henc as <-.
  exists (softs s1), (n_vars (maxsat_formula s1)). fold n.
  split; [exact Hlen|]. split; [exact Hsum|]. split; [reflexivity|].
  split; [unfold new_softs; now rewrite length_map, length_seq|].
  split.
  { intros c Hc. unfold new_softs in Hc.
    apply list_elem_of_fmap in Hc as (i & -> & _). reflexivity. }
  split.
  { change (total_weight (softs s1 ++ new_softs (n_vars (maxsat_formula s1)) n w)
            = total_weight (softs s) - w).
    rewrite total_weight_app, total_weight_new_softs, Hsum. fold n. nia. }
  split.
  { change (weights_inrange (softs s1 ++ new_softs (n_vars (maxsat_formula s1)) n w)).
    apply Forall_app. split; [exact Hin1|].
    apply weights_inrange_new_softs. split; lia. }
  split; [exact Hb|]. split; [exact Hn|exact Hw].
Qed.

Lemma for_each_inv_total {A} (body : A -> M unit) (l : list A) :
  forall (I : list A -> PMRES -> Prop) (s : PMRES),
    I [] s ->
    (forall done x rest s1,
        l = done ++ x :: rest -> I done s1 ->
        exists s2, body x s1 = Some (tt, s2) /\ I (done ++ [x]) s2) ->
    exists s', for_each l body s = Some (tt, s') /\ I l s'.
Proof.
  induction l as [|x l IH]; intros I s H0 Hstep.
  - exists s. split; [reflexivity|exact H0].
  - destruct (Hstep [] x l s eq_refl H0) as (s2 & Hb & H2).
    destruct (IH (fun done => I (x :: done)) s2 H2) as (s' & Hrun & H').
    { intros done y rest s1 -> Hd. apply (Hstep (x :: done) y rest s1); auto. }
    exists s'. split; [|exact H'].
    cbn [for_each]. rewrite (bind_eq _ _ _ _ _ Hb). exact Hrun.
Qed.

(** The loop of [relaxCore] on a conflict whose literals stand for
    pairwise distinct soft clauses, each of weight at least [w]. *)
Lemma relaxCore_loop_total (w : Z) (conflict0 : list Z) (s : PMRES) :
  NoDup (core_index s <$> conflict0) ->
  (forall l, l ∈ conflict0 -> exists c, core_soft s l = Some c /\ w <= weight c) ->
  exists s',
    for_each conflict0 (relaxCore_body w) s = Some (tt, s')
    /\ (forall l c, l ∈ conflict0 -> core_soft s l = Some c ->
          softs s' !! core_index s l = Some (relax_soft w c))
    /\ (forall i, i ∉ core_index s <$> conflict0 -> softs s' !! i = softs s !! i)
    /\ num_hardened s'
       = (num_hardened s
          + length (filter (fun l => zeroed w s l = true) conflict0))%nat
    /\ (forall l, cm_get (coreMapping s') l = cm_get (coreMapping s) l)
    /\ same_bounds s s'.
Proof.
  intros Hnd Hw.
  set (zero := fun l => zeroed w s l = true).
  apply (for_each_inv_total (relaxCore_body w) conflict0
           (fun done s1 =>
              (forall l c, l ∈ done -> core_soft s l = Some c ->
                 softs s1 !! core_index s l = Some (relax_soft w c))
              /\ (forall i, i ∉ core_index s <$> done -> softs s1 !! i = softs s !! i)
              /\ num_hardened s1 = (num_hardened s + length (filter zero done))%nat
              /\ (forall l, cm_get (coreMapping s1) l = cm_get (coreMapping s) l)
              /\ same_bounds s s1)).
  - split; [intros l c Hl; inversion Hl|]. split; [reflexivity|].
    split; [cbn; lia|]. split; [reflexivity|apply same_bounds_refl].
  - intros done x rest s1 -> (Hdone & Hother & Hnum & Hcm & Hb).
    rewrite fmap_app, fmap_cons in Hnd.
    apply NoDup_app in Hnd as (_ & Hdisj & Hnd2).
    apply NoDup_cons in Hnd2 as (Hx_rest & _).
    assert (Hx_done : core_index s x ∉ core_index s <$> done).
    { intros Hin. apply (Hdisj _ Hin). left. }
    destruct (Hw x) as (c & Hc & Hwc); [apply elem_of_app; right; left|].
    assert (Hc1 : softs s1 !! cm_get (coreMapping s1) x = Some c).
    { rewrite Hcm. fold (core_index s x). rewrite Hother by exact Hx_done. exact Hc. }
    exists (relaxed_at w x c s1). split.
    { rewrite relaxCore_body_eq, Hc1.
      destruct (Z.geb_spec (weight c) w); [reflexivity|lia]. }
    assert (Hlt : (core_index s x < length (softs s1))%nat).
    { eapply lookup_lt_Some. rewrite Hcm in Hc1. exact Hc1. }
    split; [|split; [|split; [|split]]].
    + intros l c' Hl Hc'. cbn. rewrite Hcm. fold (core_index s x).
      apply elem_of_app in Hl as [Hl|Hl].
      * rewrite list_lookup_insert_ne; [now apply Hdone|].
        intros Heq. apply Hx_done. rewrite Heq.
        apply list_elem_of_fmap. exists l. auto.
      * apply list_elem_of_singleton in Hl as ->.
        unfold core_soft in Hc, Hc'. rewrite Hc in Hc'. injection Hc' as <-.
        apply list_lookup_insert_eq. exact Hlt.
    + intros i Hi. cbn. rewrite Hcm. fold (core_index s x).
      rewrite fmap_app in Hi. cbn in Hi.
      rewrite list_lookup_insert_ne.
      * apply Hother. intros Hin. apply Hi. apply elem_of_app. now left.
      * intros <-. apply Hi. apply elem_of_app. right. left.
    + cbn [num_hardened relaxed_at set_num_hardened].
      rewrite filter_app, length_app, Hnum, filter_cons, filter_nil.
      assert (Hz : zeroed w s x = (weight (relax_soft w c) =? 0))
        by (unfold zeroed; rewrite Hc; reflexivity).
      destruct (weight (relax_soft w c) =? 0).
      * rewrite decide_True by exact Hz. cbn. lia.
      * rewrite decide_False by (unfold zero; rewrite Hz; discriminate). cbn. lia.
    + intros l. cbn. rewrite cm_get_touch. apply Hcm.
    + exact Hb.
Qed.

Lemma core_index_set_coreMapping (s : PMRES) (m' : gmap Z nat) :
  (forall l, cm_get m' l = cm_get (coreMapping s) l) ->
  forall l, core_index (set_coreMapping m' s) l = core_index s l.
Proof. intros H l. unfold core_index. cbn. apply H. Qed.

Lemma zeroed_exhausted (w : Z) (s : PMRES) (l : Z) (c : Soft) :
  core_soft s l = Some c -> U64.inrange (weight c) -> 0 <= w <= weight c ->
  zeroed w s l = exhausted w s l.
Proof.
  intros Hc Hr Hw. unfold zeroed, exhausted. rewrite Hc, weight_relax_soft.
  rewrite u64_sub_exact by assumption.
  destruct (Z.eqb_spec (weight c - w) 0), (Z.eqb_spec (weight c) w); lia || reflexivity.
Qed.

Lemma filter_length_ext (f g : Z -> bool) (l : list Z) :
  (forall x, x ∈ l -> f x = g x) ->
  length (filter (fun x => f x = true) l) = length (filter (fun x => g x = true) l).
Proof.
  induction l as [|x l IH]; intros H; [reflexivity|].
  rewrite !filter_cons. rewrite <- (H x) by left.
  assert (IH' := IH (fun y Hy => H y (list_elem_of_further _ _ _ Hy))).
  destruct (decide (f x = true)); cbn; rewrite IH'; reflexivity.
Qed.

(** C10: [relaxCore] is called by [weightDisjointCores] alone, with the
    conflict of the oracle, whose literals stand, through
    [coreMapping], for pairwise distinct soft clauses of positive
    weight (they are assumptions of [setAssumptions]).  For such a
    non-empty conflict and [weightCore = computeCostCore(conflict)],
    every one of these clauses has weight at least [weightCore];
    [relaxCore] runs through, each decrement is exact (no wrap-around
    of the 64-bit weight), the clause is left with its weight minus
    [weightCore], its assumption is cleared exactly when that
    difference is 0, and [num_hardened] grows by the number of clauses
    so cleared; the soft clauses outside the conflict are not changed. *)
Theorem relaxCore_decrements (s s0 : PMRES) (conflict0 : list Z) (w : Z) :
  conflict0 <> [] ->
  conflict_of_active_softs s conflict0 ->
  computeCostCore conflict0 s = Some (w, s0) ->
  (forall l c, l ∈ conflict0 -> core_soft s l = Some c -> w <= weight c)
  /\ exists s',
      relaxCore conflict0 w s0 = Some (tt, s')
      /\ (forall l c, l ∈ conflict0 -> core_soft s l = Some c ->
            softs s' !! core_index s l
            = Some (mkSoft (clause c) (weight c - w)
                      (if weight c - w =? 0 then lit_Undef else assumption_var c)))
      /\ num_hardened s'
         = (num_hardened s
            + length (filter (fun l => exhausted w s l = true) conflict0))%nat
      /\ (forall i, i ∉ core_index s <$> conflict0 -> softs s' !! i = softs s !! i
                    \/ (length (softs s) <= i)%nat).
Proof.
  intros Hne (Hnd & Hact) Hcost.
  destruct (computeCostCore_total s conflict0 Hne) as (r & m' & Hrun & Hm' & Hr).
  { intros _ l Hl. destruct (Hact l Hl) as (c & Hc & Hw).
    exists c. split; [exact Hc|]. unfold U64.MAX. lia. }
  rewrite Hrun in Hcost. injection Hcost as Hw0 Hs0. subst r s0.
  (* the cost is positive and at most every weight of the conflict *)
  assert (Hwle : forall l c, l ∈ conflict0 -> core_soft s l = Some c -> w <= weight c).
  { intros l c Hl Hc. unfold getProblemType in Hr.
    destruct (problem_type (maxsat_formula s)).
    - subst w. destruct (Hact l Hl) as (c' & Hc' & Hw).
      rewrite Hc in Hc'. injection Hc' as <-. lia.
    - destruct Hr as (_ & Hlb). now apply (Hlb l c). }
  assert (Hwpos : 0 < w).
  { unfold getProblemType in Hr. destruct (problem_type (maxsat_formula s)); [lia|].
    destruct Hr as ((l & c & Hl & Hc & <-) & _).
    destruct (Hact l Hl) as (c' & Hc' & Hw).
    unfold core_soft, core_index in Hc'. rewrite Hc in Hc'. injection Hc' as <-. lia. }
  split; [exact Hwle|].
  set (s0 := set_coreMapping m' s).
  assert (Hidx : forall l, core_index s0 l = core_index s l)
    by (apply core_index_set_coreMapping; exact Hm').
  assert (Hmap : core_index s0 <$> conflict0 = core_index s <$> conflict0).
  { apply list_fmap_ext. intros i l _. apply Hidx. }
  destruct (relaxCore_loop_total w conflict0 s0)
    as (s1 & Hloop & Hin & Hout & Hnum & _ & _).
  { rewrite Hmap. exact Hnd. }
  { intros l Hl. destruct (Hact l Hl) as (c & Hc & Hw). exists c. split.
    - unfold core_soft. rewrite Hidx. exact Hc.
    - now apply (Hwle l c). }
  assert (Hlen1 : forall l c, l ∈ conflict0 -> core_soft s l = Some c ->
                              (core_index s l < length (softs s1))%nat).
  { intros l c Hl Hc. eapply lookup_lt_Some. rewrite <- Hidx.
    apply (Hin l c Hl). unfold core_soft. rewrite Hidx. exact Hc. }
  eexists. split.
  { unfold relaxCore.
    replace (Nat.ltb 0 (length conflict0)) with true
      by (destruct conflict0; [congruence|reflexivity]).
    rewrite (bind_eq _ _ s0 tt s0) by reflexivity.
    replace (w >? 0) with true by (symmetry; apply Z.gtb_lt; lia).
    rewrite (bind_eq _ _ s0 tt s0) by reflexivity.
    rewrite (bind_eq _ _ _ _ _ Hloop).
    rewrite (bind_eq _ _ _ _ _ (encodeMaxRes_result s1 conflict0 w Hne)).
    reflexivity. }
  cbn [softs num_hardened maxsat_formula soft_clauses put_formula set_coreMapping
         set_maxsat_formula with_soft_clauses set_sumSizeCores].
  split; [|split].
  - intros l c Hl Hc. rewrite lookup_app_l by (eapply Hlen1; eauto).
    rewrite <- Hidx. erewrite Hin; [|exact Hl|unfold core_soft; rewrite Hidx; exact Hc].
    destruct (Hact l Hl) as (c' & Hc' & Hw). rewrite Hc in Hc'. injection Hc' as <-.
    specialize (Hwle l c Hl Hc).
    unfold relax_soft. cbn [weight set_weight].
    rewrite u64_sub_exact by (unfold U64.inrange; lia).
    destruct (weight c - w =? 0); reflexivity.
  - rewrite Hnum. f_equal. apply filter_length_ext.
    intros l Hl. destruct (Hact l Hl) as (c & Hc & Hw).
    assert (Hcs : core_soft s0 l = core_soft s l)
      by (unfold core_soft; rewrite Hidx; reflexivity).
    specialize (Hwle l c Hl Hc).
    rewrite (zeroed_exhausted w s0 l c);
      [|rewrite Hcs; exact Hc|unfold U64.inrange; lia|lia].
    unfold exhausted. rewrite Hcs. reflexivity.
  - intros i Hi. destruct (Nat.lt_ge_cases i (length (softs s))) as [Hlt|Hge];
      [left|right; exact Hge].
    assert (Hi1 : softs s1 !! i = softs s !! i).
    { apply (Hout i). rewrite Hmap. exact Hi. }
    rewrite lookup_app_l; [exact Hi1|].
    apply lookup_lt_is_Some. rewrite Hi1. apply lookup_lt_is_Some. exact Hlt.
Qed.

Lemma relaxCore_decrements_witness :
  conflict_of_active_softs st_five_three [0; 2] /\
  exists s0 s',
    computeCostCore [0; 2] st_five_three = Some (3, s0)
    /\ relaxCore [0; 2] 3 s0 = Some (tt, s')
    /\ softs s' !! 0%nat = Some (mkSoft [1] 2 0)
    /\ softs s' !! 1%nat = Some (mkSoft [3] 0 lit_Undef)
    /\ num_hardened s' = 1%nat.
Proof.
  assert (Hconf : conflict_of_active_softs st_five_three [0; 2]).
  { split.
    - change (NoDup [0%nat; 1%nat]). apply NoDup_cons. split.
      + intros H. apply list_elem_of_singleton in H. discriminate H.
      + apply NoDup_singleton.
    - intros l Hl. rewrite !elem_of_cons in Hl. destruct Hl as [->|[->|Hl]].
      + exists (unit_soft 0 5). split; [reflexivity|]. vm_compute. auto.
      + exists (unit_soft 1 3). split; [reflexivity|]. vm_compute. auto.
      + inversion Hl. }
  split; [exact Hconf|].
  assert (Hcost : computeCostCore [0; 2] st_five_three
                  = Some (3, set_coreMapping (coreMapping st_five_three) st_five_three))
    by (vm_compute; reflexivity).
  destruct (relaxCore_decrements st_five_three _ [0; 2] 3
              ltac:(discriminate) Hconf Hcost)
    as (_ & s' & Hrun & Hsoft & Hnum & _).
  exists (set_coreMapping (coreMapping st_five_three) st_five_three), s'.
  split; [exact Hcost|]. split; [exact Hrun|].
  split; [|split].
  - apply (Hsoft 0 (unit_soft 0 5)); [left|reflexivity].
  - apply (Hsoft 2 (unit_soft 1 3)); [right; left|reflexivity].
  - rewrite Hnum. reflexivity.
Defined.

(** ** The core-guided loop: [weightDisjointCores] *)

Lemma weightDisjointCores_turn_outcome (t : Turn) (s : PMRES)
      (r : option StatusCode) (s' : PMRES) :
  weightDisjointCores_turn t s = Some (r, s') -> turn_outcome t s r s'.
Proof.
  unfold weightDisjointCores_turn. intros H.
  apply bind_Some in H as (limit & s1 & Hg & H).
  unfold gets in Hg. injection Hg as <- <-.
  destruct ((timeLimitCores (opts s) >? 0)
            && (timeLimitCores (opts s) - timeSinceStart t <=? 0)) eqn:Hto.
  - unfold ret in H. injection H as <- <-. left.
    apply andb_true_iff in Hto as [H1 H2].
    split; [apply Z.gtb_lt in H1; lia|apply Z.leb_le in H2; exact H2].
  - assert (Hnot : ~ out_of_time t s).
    { intros [H1 H2]. apply andb_false_iff in Hto as [Hto|Hto].
      - rewrite Z.gtb_ltb in Hto. apply Z.ltb_ge in Hto. lia.
      - apply Z.leb_gt in Hto. lia. }
    apply bind_Some in H as ([] & s1 & _ & H).
    apply bind_Some in H as ([] & s2 & _ & H).
    destruct (res t) eqn:Hres; cbn [lbool_eqb] in H.
    + apply bind_Some in H as ([] & s3 & _ & H).
      unfold ret in H. injection H as <- <-. cbn. auto.
    + apply bind_Some in H as ([] & s3 & _ & H).
      apply bind_Some in H as (s4 & s5 & Hg & H).
      unfold gets in Hg. injection Hg as <- <-.
      destruct (Z.gtb_spec (lbCost s3) (ubCost s3)) as [Hgt|Hle];
        unfold ret in H; injection H as <- <-; cbn; auto.
    + unfold ret in H. injection H as <- <-. right. auto.
Qed.

Lemma weightDisjointCores_returns (turns : list Turn) :
  forall s st s',
    weightDisjointCores turns s = Some (Some st, s') ->
    exists t s1, t ∈ turns /\ weightDisjointCores_turn t s1 = Some (Some st, s').
Proof.
  induction turns as [|t turns IH]; intros s st s' H.
  - discriminate H.
  - cbn [weightDisjointCores] in H.
    apply bind_Some in H as (r & s1 & Hturn & H).
    destruct r as [st1|].
    + unfold ret in H. injection H as <- <-. exists t, s. split; [left|exact Hturn].
    + destruct (IH _ _ _ H) as (t' & s2 & Hin & Ht').
      exists t', s2. split; [now right|exact Ht'].
Qed.

(** C9: [weightDisjointCores] returns only [_SATISFIABLE_] (the oracle
    answered true), [_UNKNOWN_] (time budget used up, or the oracle
    gave no answer) or [_ERROR_] (the oracle reported a core and after
    its relaxation [lbCost] exceeds [ubCost]); in a turn in which a
    core is relaxed it returns [_ERROR_] exactly when [lbCost] exceeds
    [ubCost] afterwards; it never returns [_OPTIMUM_], so that the
    branch that compares its status with [_OPTIMUM_] at the head of
    the loops of [weightSearch] and [coreGuidedLinearSearch] (the call
    of [getModelAfterCG]) is never taken. *)
Theorem weightDisjointCores_statuses :
  (forall turns s st s',
      weightDisjointCores turns s = Some (Some st, s') ->
      (st = _SATISFIABLE_ \/ st = _UNKNOWN_ \/ st = _ERROR_)
      /\ st <> _OPTIMUM_
      /\ exists t s1, t ∈ turns
                      /\ weightDisjointCores_turn t s1 = Some (Some st, s')
                      /\ turn_outcome t s1 (Some st) s')
  /\ (forall t s r s',
        weightDisjointCores_turn t s = Some (r, s') ->
        ~ out_of_time t s -> res t = l_False ->
        (r = Some _ERROR_ <-> ubCost s' < lbCost s'))
  /\ (forall (R : Type) turns (optimum : M R) otherwise s,
        (us <- weightDisjointCores turns ;; on_status us optimum otherwise) s
        = (us <- weightDisjointCores turns ;; otherwise us) s).
Proof.
  split; [|split].
  - intros turns s st s' H.
    destruct (weightDisjointCores_returns turns s st s' H) as (t & s1 & Hin & Ht).
    pose proof (weightDisjointCores_turn_outcome t s1 _ s' Ht) as Hout.
    split; [|split].
    + destruct st; cbn in Hout; tauto.
    + intros ->. exact Hout.
    + exists t, s1. auto.
  - intros t s r s' Ht Hnot Hres.
    pose proof (weightDisjointCores_turn_outcome t s r s' Ht) as Hout.
    destruct r as [[]|]; cbn in Hout.
    + exfalso. destruct Hout as (_ & Hr). congruence.
    + contradiction.
    + contradiction.
    + exfalso. destruct Hout as [Ho|(_ & Hr)]; [tauto|congruence].
    + destruct Hout as (_ & _ & Hlt). split; auto.
    + destruct Hout as (_ & _ & Hle). split; [discriminate|lia].
  - intros R turns optimum otherwise s. unfold bind.
    destruct (weightDisjointCores turns s) as [[us s']|] eqn:H; [|reflexivity].
    destruct us as [st|]; [|reflexivity].
    destruct (weightDisjointCores_returns turns s st s' H) as (t & s1 & _ & Ht).
    pose proof (weightDisjointCores_turn_outcome t s1 _ s' Ht) as Hout.
    destruct st; cbn in Hout; try reflexivity. contradiction.
Qed.

(** ** Varying resolution: [initializeDivisionFactor] *)

(** The two counters of [softs_above]: the number of soft clauses at or
    above the candidate and the set of their weights. *)
Lemma softs_above_counts (s : PMRES) (weightCand : Z) :
  softs_above s weightCand
  = (length (at_or_above s weightCand),
     list_to_set (weight <$> at_or_above s weightCand)).
Proof.
  unfold softs_above, at_or_above.
  assert (H : forall l n (ws : gset Z),
             fold_left (fun (acc : nat * gset Z) c =>
                          if weight c >=? weightCand
                          then (S (fst acc), {[weight c]} ∪ snd acc) else acc)
                       l (n, ws)
             = ((n + length (filter (fun c => (weightCand <= weight c)%Z) l))%nat,
                list_to_set (weight <$> filter (fun c => weightCand <= weight c) l) ∪ ws)).
  { induction l as [|c l IH]; intros n ws.
    - cbn. f_equal; [lia|]. set_solver.
    - cbn [fold_left]. rewrite filter_cons.
      destruct (Z.geb_spec (weight c) weightCand) as [Hge|Hlt].
      + rewrite decide_True by lia. cbn [fst snd]. rewrite IH. cbn.
        f_equal; [lia|]. set_solver.
      + rewrite decide_False by lia. apply IH. }
  rewrite H. f_equal. set_solver.
Qed.

Lemma enoughSoftAboveWeight_eq (s : PMRES) (weightCand : Z) :
  (0 < nbSatisfiable s)%nat ->
  enoughSoftAboveWeight weightCand s = Some (enough_above s weightCand, s).
Proof.
  intros Hsat. unfold enoughSoftAboveWeight, enough_above.
  rewrite (bind_eq _ _ s (nbSatisfiable s) s) by reflexivity.
  replace (Nat.ltb 0 (nbSatisfiable s)) with true
    by (symmetry; apply Nat.ltb_lt; exact Hsat).
  rewrite (bind_eq _ _ s tt s) by reflexivity.
  rewrite (bind_eq _ _ s s s) by reflexivity.
  destruct (softs_above s weightCand) as [n ws]. reflexivity.
Qed.

(** The first loop counts the divisions that bring the maximum weight
    down to 0: one more than the exponent of the greatest power of the
    factor below it. *)
Lemma count_divisions_spec (factor : Z) (s : PMRES) (fuel : nat) :
  2 <= factor ->
  forall maxW counter,
    0 <= maxW < factor ^ Z.of_nat fuel ->
    exists d,
      count_divisions fuel factor maxW counter s = Some (counter + d, s)
      /\ (maxW = 0 /\ d = 0
          \/ 0 < maxW /\ 0 < d /\ factor ^ (d - 1) <= maxW < factor ^ d).
Proof.
  intros Hf. induction fuel as [|fuel IH]; intros maxW counter Hm.
  - cbn in Hm. assert (maxW = 0) by lia. subst maxW.
    exists 0. split; [cbn; rewrite Z.add_0_r; reflexivity|]. left. auto.
  - destruct (Z.eq_dec maxW 0) as [->|Hnz].
    { exists 0. split; [cbn; rewrite Z.add_0_r; reflexivity|]. left. auto. }
    assert (Hpos : 0 < maxW) by lia.
    rewrite Nat2Z.inj_succ, Z.pow_succ_r in Hm by lia.
    assert (Hq : 0 <= maxW / factor < factor ^ Z.of_nat fuel).
    { split; [apply Z.div_pos; lia|]. apply Z.div_lt_upper_bound; lia. }
    destruct (IH (maxW / factor) (counter + 1) Hq) as (d & Hrun & Hd).
    exists (d + 1). split.
    { cbn [count_divisions].
      replace (maxW >? 0) with true by (symmetry; apply Z.gtb_lt; lia).
      unfold u64_div. replace (factor =? 0) with false
        by (symmetry; apply Z.eqb_neq; lia).
      rewrite (bind_eq _ _ s (maxW / factor) s) by reflexivity.
      rewrite Hrun. f_equal. f_equal. lia. }
    right. split; [exact Hpos|].
    pose proof (Z.div_mod maxW factor ltac:(lia)) as Hdm.
    pose proof (Z.mod_pos_bound maxW factor ltac:(lia)) as Hmod.
    destruct Hd as [[Hq0 ->] | (Hqpos & Hdpos & Hlo & Hhi)].
    + split; [lia|]. cbn. rewrite Z.pow_1_r. lia.
    + split; [lia|]. replace (d + 1 - 1) with (Z.succ (d - 1)) by lia.
      replace (d + 1) with (Z.succ d) by lia.
      rewrite !Z.pow_succ_r by lia. nia.
Qed.

Lemma divide_until_enough_spec (factor : Z) (s : PMRES) :
  factor <> 0 -> (0 < nbSatisfiable s)%nat ->
  forall (k fuel : nat) (cand : Z),
    (k <= fuel)%nat ->
    (forall j, (j < k)%nat -> enough_above s (divided factor j cand) = false) ->
    enough_above s (divided factor k cand) = true ->
    divide_until_enough fuel factor cand s = Some (divided factor k cand, s).
Proof.
  intros Hf Hsat. induction k as [|k IH]; intros fuel cand Hk Hbefore Hat.
  - cbn in Hat.
    destruct fuel; cbn [divide_until_enough];
      rewrite (bind_eq _ _ _ _ _ (enoughSoftAboveWeight_eq s cand Hsat)), Hat;
      reflexivity.
  - destruct fuel as [|fuel]; [lia|]. cbn [divide_until_enough].
    rewrite (bind_eq _ _ _ _ _ (enoughSoftAboveWeight_eq s cand Hsat)).
    pose proof (Hbefore 0%nat ltac:(lia)) as H0. cbn in H0. rewrite H0.
    unfold u64_div. replace (factor =? 0) with false
      by (symmetry; apply Z.eqb_neq; exact Hf).
    rewrite (bind_eq _ _ s (cand / factor) s) by reflexivity.
    assert (Hshift : forall j, divided factor (S j) cand = divided factor j (cand / factor)).
    { intros j. unfold divided. rewrite Nat.iter_succ_r. reflexivity. }
    rewrite Hshift. apply IH; [lia| |rewrite <- Hshift; exact Hat].
    intros j Hj. rewrite <- Hshift. apply Hbefore. lia.
Qed.

Lemma reset_weight_bounds (s : PMRES) :
  weights_inrange (softs s) -> 1 <= reset_weight s < U64.modulus.
Proof.
  intros Hin. unfold reset_weight.
  destruct (max_weight_of_fold (softs s) 1) as (Hle & _ & Hex). cbn in Hle, Hex.
  split; [exact Hle|].
  destruct Hex as [-> | (c & Hc & <-)]; [reflexivity|].
  unfold weights_inrange in Hin. rewrite Forall_forall in Hin.
  destruct (Hin c Hc). assumption.
Qed.

Lemma greatest_power_between (factor m e : Z) :
  2 <= factor -> 0 <= e -> factor ^ e <= m < factor ^ (e + 1) ->
  greatest_power_upto factor m (factor ^ e).
Proof.
  intros Hf He [Hlo Hhi]. split; [exists e; auto|]. split; [exact Hlo|].
  intros q (e' & He' & ->) Hq.
  destruct (Z_le_gt_dec e' e) as [Hle|Hgt].
  - apply Z.pow_le_mono_r; lia.
  - assert (factor ^ (e + 1) <= factor ^ e') by (apply Z.pow_le_mono_r; lia). lia.
Qed.

Lemma greatest_power_unique (factor m p q : Z) :
  greatest_power_upto factor m p -> greatest_power_upto factor m q -> p = q.
Proof.
  intros (Hp & Hpm & Hpmax) (Hq & Hqm & Hqmax).
  pose proof (Hpmax q Hq Hqm). pose proof (Hqmax p Hp Hpm). lia.
Qed.

(** C8 (amended): [initializeDivisionFactor(true)] sets the working
    weight as follows.  It takes the maximum [m] of 1 and the weights
    of the soft clauses and counts the divisions that bring [m] to 0,
    one more than the exponent [e] of the greatest power of
    [varresFactor] not exceeding [m].  It starts from the value that
    [pow(varresFactor, e)] gives in double precision, which is that
    greatest power whenever the call is exact, and divides it by
    [varresFactor] until the predicate of [enoughSoftAboveWeight]
    holds: with [n] the number of soft clauses of weight at least the
    candidate and [d] the number of their distinct weights, the
    single-precision quotient [n / d] is above 1.25, or [n] is the
    number of real soft clauses.  If the predicate first holds after
    [k] divisions, any fuel of at least 64 and [k] turns gives this
    result. *)
Theorem initializeDivisionFactor_greatest_power
        (pow_u64 : Z -> Z -> Z) (s : PMRES) (e : Z) (k fuel : nat) :
  let factor := varresFactor (opts s) in
  let start := pow_u64 factor e in
  2 <= factor -> (0 < nbSatisfiable s)%nat -> weights_inrange (softs s) ->
  0 <= e -> factor ^ e <= reset_weight s < factor ^ (e + 1) ->
  (forall j, (j < k)%nat -> enough_above s (divided factor j start) = false) ->
  enough_above s (divided factor k start) = true ->
  (64 <= fuel)%nat -> (k <= fuel)%nat ->
  initializeDivisionFactor fuel pow_u64 true s
  = Some (tt, set_maxsat_formula
                (setMaximumWeight (divided factor k start) (maxsat_formula s)) s)
  /\ first_enough s factor start (divided factor k start)
  /\ greatest_power_upto factor (reset_weight s) (factor ^ e)
  /\ (start = factor ^ e -> greatest_power_upto factor (reset_weight s) start)
  /\ (forall c,
        enough_above s c
        = ratio_above_alpha (length (at_or_above s c))
            (size (list_to_set (weight <$> at_or_above s c) : gset Z))
          || (Z.of_nat (length (at_or_above s c)) =? nRealSoft s)).
Proof.
  intros factor start Hf Hsat Hin He Hcand Hbefore Hat Hfuel Hk.
  pose proof (reset_weight_bounds s Hin) as Hm.
  set (s1 := set_maxsat_formula (setMaximumWeight (reset_weight s) (maxsat_formula s)) s).
  assert (Hpow : U64.modulus <= factor ^ Z.of_nat fuel).
  { unfold U64.modulus. transitivity (2 ^ Z.of_nat fuel).
    - apply Z.pow_le_mono_r; lia.
    - apply Z.pow_le_mono_l. lia. }
  destruct (count_divisions_spec factor s1 fuel Hf (reset_weight s) 0) as (d & Hcount & Hd);
    [lia|].
  destruct Hd as [[Hz _] | (_ & Hdpos & Hlo & Hhi)]; [lia|].
  assert (Hgp : greatest_power_upto factor (reset_weight s) (factor ^ e))
    by (apply greatest_power_between; assumption).
  assert (Hgd : greatest_power_upto factor (reset_weight s) (factor ^ (d - 1))).
  { apply greatest_power_between; [exact Hf|lia|].
    replace (d - 1 + 1) with d by lia. auto. }
  assert (Hed : d - 1 = e).
  { pose proof (greatest_power_unique _ _ _ _ Hgp Hgd) as Heq.
    destruct (Z.lt_trichotomy (d - 1) e) as [Hlt|[Heq'|Hgt]]; [|exact Heq'|].
    - assert (factor ^ (d - 1) < factor ^ e) by (apply Z.pow_lt_mono_r; lia). lia.
    - assert (factor ^ e < factor ^ (d - 1)) by (apply Z.pow_lt_mono_r; lia). lia. }
  split; [|split; [|split; [|split]]].
  - unfold initializeDivisionFactor. cbn [negb].
    rewrite (bind_eq _ _ s tt s1) by reflexivity.
    rewrite (bind_eq _ _ s1 s1 s1) by reflexivity.
    change (varresFactor (opts s1)) with factor.
    change (getMaximumWeight (maxsat_formula s1)) with (reset_weight s).
    rewrite (bind_eq _ _ _ _ _ Hcount).
    replace (0 + d - 1) with e by lia. fold start.
    rewrite (bind_eq _ _ s1 (divided factor k start) s1).
    + reflexivity.
    + apply (divide_until_enough_spec factor s1); [lia|exact Hsat|exact Hk| |exact Hat].
      exact Hbefore.
  - exists k. auto.
  - exact Hgp.
  - intros ->. exact Hgp.
  - intros c. unfold enough_above. rewrite softs_above_counts. reflexivity.
Qed.

Lemma divided_le (factor cand : Z) (k : nat) :
  1 <= factor -> 0 <= cand -> 0 <= divided factor k cand <= cand.
Proof.
  intros Hf Hc. induction k as [|k IH]; [cbn; lia|].
  change (divided factor (S k) cand) with (divided factor k cand / factor).
  set (x := divided factor k cand) in *.
  split; [apply Z.div_pos; lia|].
  transitivity x; [|lia].
  apply Z.div_le_upper_bound; [lia|]. nia.
Qed.

Lemma initializeDivisionFactor_greatest_power_witness :
  greatest_power_upto 2 (reset_weight st_three_nines) 8
  /\ enough_above st_three_nines (divided 2 0 8) = true
  /\ initializeDivisionFactor 64 Z.pow true st_three_nines
     = Some (tt, set_maxsat_formula
                   (setMaximumWeight 8 (maxsat_formula st_three_nines))
                   st_three_nines).
Proof.
  assert (Hr : 2 ^ 3 <= reset_weight st_three_nines < 2 ^ (3 + 1)).
  { vm_compute. split; [discriminate|reflexivity]. }
  destruct (initializeDivisionFactor_greatest_power Z.pow st_three_nines 3 0 64)
    as (Hrun & _ & _ & Hgp & _).
  - cbn. lia.
  - cbn. lia.
  - repeat constructor; vm_compute; try discriminate; reflexivity.
  - lia.
  - exact Hr.
  - intros j Hj. lia.
  - reflexivity.
  - lia.
  - lia.
  - split; [exact (Hgp eq_refl)|]. split; [reflexivity|]. exact Hrun.
Defined.

(** Beyond 2^53 the start is what [pow] returns: for the weight 3^34,
    which lies half-way between two [double]s, a [pow] that returns
    the upper one makes the first candidate exceed every weight, and
    the working weight becomes 3^33. *)
Example initializeDivisionFactor_rounded_pow :
  3 ^ 34 = 16677181699666569
  /\ exists s',
      initializeDivisionFactor 64 (fun _ _ => 16677181699666570) true st_three_to_34
      = Some (tt, s')
      /\ getMaximumWeight (maxsat_formula s') = 3 ^ 33.
Proof.
  split; [reflexivity|]. eexists. split; [vm_compute; reflexivity|]. reflexivity.
Qed.

(** The single-precision test and the test on the exact quotient
    differ in both directions: 5242884 clauses over 4194307 weights
    have a quotient above 1.25 that rounds to 1.25, and 41943046 over
    33554437 have a quotient below 1.25 whose operands round apart. *)
Example ratio_in_single_precision :
  quotient_above_alpha 5242884 4194307 = false
  /\ (4 * 5242884 >? 5 * 4194307) = true
  /\ quotient_above_alpha 41943046 33554437 = true
  /\ (4 * 41943046 >? 5 * 33554437) = false
  /\ quotient_above_alpha 10 3 = true /\ quotient_above_alpha 5 4 = false.
Proof. repeat split. Qed.

(** C8 (as stated, refuted): with three soft clauses of weight 9 and
    the factor 2 the working weight is set to 8, the greatest power of
    2 not exceeding 9, for which the predicate holds at once
    ([pow(2, 3)] is 8 in double precision).  The smallest power of 2
    not exceeding 9 is 1, and no division of 1 gives 8. *)
Lemma initializeDivisionFactor_not_smallest_power :
  exists s',
    initializeDivisionFactor 64 Z.pow true st_three_nines = Some (tt, s')
    /\ getMaximumWeight (maxsat_formula s') = 8
    /\ ~ starts_from_smallest_power st_three_nines s'.
Proof.
  eexists. split; [vm_compute; reflexivity|]. split; [reflexivity|].
  intros (cand & (Hpow & _ & Hmin) & (k & Hk & _)).
  change (getMaximumWeight _) with 8 in Hk.
  change (varresFactor (opts st_three_nines)) with 2 in *.
  assert (H1 : cand <= 1).
  { apply Hmin; [exists 0; split; [lia|reflexivity]|vm_compute; discriminate]. }
  destruct Hpow as (e & He & ->).
  assert (0 < 2 ^ e) by (apply Z.pow_pos_nonneg; lia).
  pose proof (divided_le 2 (2 ^ e) k ltac:(lia) ltac:(lia)). lia.
Qed.

(** ** Computations that leave a relation between their states *)

Section Preserves.
Variable R : PMRES -> PMRES -> Prop.
Hypothesis R_refl : forall s, R s s.
Hypothesis R_trans : forall s1 s2 s3, R s1 s2 -> R s2 s3 -> R s1 s3.

Lemma preserves_ret {A} (a : A) : preserves R (ret a).
Proof. intros s b s' H. injection H as _ <-. apply R_refl. Qed.

Lemma preserves_gets {A} (f : PMRES -> A) : preserves R (gets f).
Proof. intros s b s' H. injection H as _ <-. apply R_refl. Qed.

Lemma preserves_failM {A} : preserves R (@failM A).
Proof. intros s b s' H. discriminate H. Qed.

Lemma preserves_assertM (b : bool) : preserves R (assertM b).
Proof. destruct b; [apply preserves_ret|apply preserves_failM]. Qed.

Lemma preserves_bind {A B} (m : M A) (k : A -> M B) :
  preserves R m -> (forall a, preserves R (k a)) -> preserves R (bind m k).
Proof.
  intros Hm Hk s b s' H. apply bind_Some in H as (a & s1 & H1 & H2).
  eapply R_trans; [eapply Hm; exact H1|eapply Hk; exact H2].
Qed.

Lemma preserves_modify (f : PMRES -> PMRES) :
  (forall s, R s (f s)) -> preserves R (modify f).
Proof. intros Hf s b s' H. injection H as <- <-. apply Hf. Qed.

Lemma preserves_for_each {A} (l : list A) (body : A -> M unit) :
  (forall x, preserves R (body x)) -> preserves R (for_each l body).
Proof.
  intros Hb. induction l as [|x l IH]; cbn [for_each].
  - apply preserves_ret.
  - apply preserves_bind; [apply Hb|intros _; exact IH].
Qed.

Lemma preserves_for_upto (n : nat) (body : nat -> M unit) :
  (forall i, preserves R (body i)) -> preserves R (for_upto n body).
Proof. intros Hb. now apply preserves_for_each. Qed.

Lemma preserves_foldM {A B} (body : B -> A -> M B) (l : list A) :
  (forall b x, preserves R (body b x)) -> forall acc, preserves R (foldM body l acc).
Proof.
  intros Hb. induction l as [|x l IH]; intros acc; cbn [foldM].
  - apply preserves_ret.
  - apply preserves_bind; [apply Hb|intros b; apply IH].
Qed.

Lemma preserves_vec_at {A} (v : list A) (i : nat) : preserves R (vec_at v i).
Proof.
  intros s a s' H. unfold vec_at in H. destruct (v !! i); [|discriminate].
  injection H as _ <-. apply R_refl.
Qed.

Lemma preserves_getSoftClause (i : nat) : preserves R (getSoftClause i).
Proof.
  intros s a s' H. unfold getSoftClause in H. destruct (softs s !! i); [|discriminate].
  injection H as _ <-. apply R_refl.
Qed.

Lemma preserves_u64_div (a b : Z) : preserves R (u64_div a b).
Proof.
  unfold u64_div. destruct (b =? 0); [apply preserves_failM|apply preserves_ret].
Qed.

Lemma preserves_model_at (m : list lbool) (v : Z) : preserves R (model_at m v).
Proof.
  unfold model_at. destruct (v <? 0); [apply preserves_failM|apply preserves_vec_at].
Qed.
End Preserves.

Lemma preserves_weaken (R1 R2 : PMRES -> PMRES -> Prop) {A} (m : M A) :
  (forall s s', R1 s s' -> R2 s s') -> preserves R1 m -> preserves R2 m.
Proof. intros H Hm s a s' Hrun. apply H. eapply Hm. exact Hrun. Qed.

(** Break a goal [preserves R m] along the structure of [m]. *)
Ltac pres_step Hrefl Htrans :=
  cbv beta;
  lazymatch goal with
  | |- preserves _ (bind _ _) => apply (preserves_bind _ Htrans); [|intros ?]
  | |- preserves _ (ret _) => apply (preserves_ret _ Hrefl)
  | |- preserves _ (gets _) => apply (preserves_gets _ Hrefl)
  | |- preserves _ (assertM _) => apply (preserves_assertM _ Hrefl)
  | |- preserves _ failM => apply preserves_failM
  | |- preserves _ (vec_at _ _) => apply (preserves_vec_at _ Hrefl)
  | |- preserves _ (getSoftClause _) => apply (preserves_getSoftClause _ Hrefl)
  | |- preserves _ (u64_div _ _) => apply (preserves_u64_div _ Hrefl)
  | |- preserves _ (model_at _ _) => apply (preserves_model_at _ Hrefl)
  | |- preserves _ (for_upto _ _) =>
      apply (preserves_for_upto _ Hrefl Htrans); intros ?
  | |- preserves _ (for_each _ _) =>
      apply (preserves_for_each _ Hrefl Htrans); intros ?
  | |- preserves _ (foldM _ _ _) =>
      apply (preserves_foldM _ Hrefl Htrans); intros ? ?
  | |- preserves _ (if ?b then _ else _) => destruct b
  | |- preserves _ (match ?x with _ => _ end) => destruct x
  end.
Ltac pres Hrefl Htrans := repeat pres_step Hrefl Htrans.

(** The relations used below are preorders. *)
Lemma frame_refl (s : PMRES) : frame s s.
Proof. repeat split. Qed.

Lemma frame_trans (s1 s2 s3 : PMRES) : frame s1 s2 -> frame s2 s3 -> frame s1 s3.
Proof.
  intros ((a & b & c) & d & e) ((a' & b' & c') & d' & e').
  repeat split; congruence.
Qed.

Lemma quiet_refl (s : PMRES) : quiet s s.
Proof. repeat split; lia. Qed.

Lemma quiet_trans (s1 s2 s3 : PMRES) : quiet s1 s2 -> quiet s2 s3 -> quiet s1 s3.
Proof.
  intros ((a & b & c) & d) ((a' & b' & c') & d').
  repeat split; try lia. congruence.
Qed.

Lemma frame_quiet (s s' : PMRES) : frame s s' -> quiet s s'.
Proof. intros ((a & b & c) & d & _). repeat split; try lia. exact d. Qed.

Ltac frame_modify :=
  try (first [apply preserves_modify | unfold onFormula; apply preserves_modify];
       intros ?; repeat split; reflexivity).
Ltac frame_auto := pres frame_refl frame_trans; frame_modify.

Lemma frame_coreMapping_at (l : Z) : preserves frame (coreMapping_at l).
Proof.
  intros s i s' H. rewrite coreMapping_at_eq in H. injection H as _ <-.
  repeat split.
Qed.

Lemma frame_setAssumptions : preserves frame setAssumptions.
Proof.
  unfold setAssumptions. frame_auto.
  unfold setAssumptions_body. frame_auto.
  unfold shouldAdd. frame_auto.
Qed.

Lemma frame_updateSolver : preserves frame updateSolver.
Proof. unfold updateSolver. frame_auto. Qed.

Lemma frame_oracle_answers (t : Turn) : preserves frame (oracle_answers t).
Proof. unfold oracle_answers. frame_auto. Qed.

Lemma frame_softsSatisfied : preserves frame softsSatisfied.
Proof.
  unfold softsSatisfied. frame_auto.
  unfold softsSatisfied_body. frame_auto.
Qed.

Lemma frame_incr_nbSatisfiable : preserves frame incr_nbSatisfiable.
Proof. unfold incr_nbSatisfiable. frame_auto. Qed.

Lemma frame_computeCostCore (conflict0 : list Z) :
  preserves frame (computeCostCore conflict0).
Proof.
  unfold computeCostCore. frame_auto.
  unfold computeCostCore_body. pres frame_refl frame_trans.
  apply frame_coreMapping_at.
Qed.

Lemma frame_computeCostModelPMRES (m : list lbool) :
  preserves frame (computeCostModelPMRES m).
Proof. unfold computeCostModelPMRES. frame_auto. Qed.

Lemma frame_enoughSoftAboveWeight (w : Z) : preserves frame (enoughSoftAboveWeight w).
Proof. unfold enoughSoftAboveWeight. frame_auto. Qed.

Lemma frame_divide_until_enough (fuel : nat) (factor : Z) :
  forall cand, preserves frame (divide_until_enough fuel factor cand).
Proof.
  induction fuel as [|fuel IH]; intros cand; cbn [divide_until_enough].
  - frame_auto. apply frame_enoughSoftAboveWeight.
  - apply (preserves_bind _ frame_trans); [apply frame_enoughSoftAboveWeight|].
    intros ok. destruct ok; [apply (preserves_ret _ frame_refl)|].
    apply (preserves_bind _ frame_trans); [apply (preserves_u64_div _ frame_refl)|].
    intros q. apply IH.
Qed.

Lemma frame_count_divisions (fuel : nat) (factor : Z) :
  forall maxW counter, preserves frame (count_divisions fuel factor maxW counter).
Proof.
  induction fuel as [|fuel IH]; intros maxW counter; cbn [count_divisions].
  - frame_auto.
  - destruct (maxW >? 0); [|apply (preserves_ret _ frame_refl)].
    apply (preserves_bind _ frame_trans); [apply (preserves_u64_div _ frame_refl)|].
    intros q. apply IH.
Qed.

Lemma frame_findNextWeightDiversity_loop (fuel : nat) :
  forall w b, preserves frame (findNextWeightDiversity_loop fuel w b).
Proof.
  induction fuel as [|fuel IH]; intros w b; cbn [findNextWeightDiversity_loop].
  - apply preserves_failM.
  - apply (preserves_bind _ frame_trans); [apply (preserves_gets _ frame_refl)|].
    intros s. cbv zeta. destruct (softs_above _ _) as [n ws].
    destruct (_ || _); [apply (preserves_ret _ frame_refl)|apply IH].
Qed.

Lemma frame_setMaximumWeight (w : Z) : preserves frame (onFormula (setMaximumWeight w)).
Proof. unfold onFormula. frame_auto. Qed.

Lemma frame_updateCurrentWeight (fuel : nat) (strategy : WeightStrategy) :
  preserves frame (updateCurrentWeight fuel strategy).
Proof.
  unfold updateCurrentWeight, updateDivisionFactor, findNextWeightDiversity.
  pres frame_refl frame_trans;
    try first [ apply frame_setMaximumWeight
              | apply frame_divide_until_enough
              | apply frame_findNextWeightDiversity_loop ].
Qed.

Lemma frame_initializeDivisionFactor (fuel : nat) (pow_u64 : Z -> Z -> Z) (v : bool) :
  preserves frame (initializeDivisionFactor fuel pow_u64 v).
Proof.
  unfold initializeDivisionFactor, resetMaximumWeight.
  pres frame_refl frame_trans;
    try first [ apply frame_setMaximumWeight
              | apply frame_divide_until_enough
              | apply frame_count_divisions ].
Qed.

(** ** The bounds move in their direction only *)

Lemma checkGap_cases (s : PMRES) (u : unit) (s' : PMRES) :
  checkGap s = Some (u, s') ->
  s' = s \/ (s' = set_known_gap (U64.sub (ubCost s) (lbCost s)) s
             /\ U64.sub (ubCost s) (lbCost s) < known_gap s).
Proof.
  unfold checkGap. intros H. apply bind_Some in H as (s0 & s1 & Hg & H).
  injection Hg as <- <-.
  destruct (Z.ltb_spec (U64.sub (ubCost s) (lbCost s)) (known_gap s)) as [Hlt|Hge].
  - injection H as _ <-. right. auto.
  - injection H as _ <-. now left.
Qed.

Lemma quiet_checkGap : preserves quiet checkGap.
Proof.
  intros s u s' H. destruct (checkGap_cases s u s' H) as [->|[-> Hlt]].
  - apply quiet_refl.
  - repeat split; cbn; lia.
Qed.

Lemma quiet_lower_ub_to_lb : preserves quiet lower_ub_to_lb.
Proof.
  unfold lower_ub_to_lb. intros s u s' H.
  apply bind_Some in H as (s0 & s1 & Hg & H). injection Hg as <- <-.
  destruct (Z.ltb_spec (lbCost s) (ubCost s)) as [Hlt|Hge].
  - injection H as _ <-. repeat split; cbn; lia.
  - injection H as _ <-. apply quiet_refl.
Qed.

Lemma quiet_of_frame {A} (m : M A) : preserves frame m -> preserves quiet m.
Proof. apply preserves_weaken. exact frame_quiet. Qed.

Lemma quiet_checkModel : preserves quiet checkModel.
Proof.
  unfold checkModel.
  apply (preserves_bind _ quiet_trans); [apply (preserves_gets _ quiet_refl)|].
  intros m.
  apply (preserves_bind _ quiet_trans);
    [apply quiet_of_frame, frame_computeCostModelPMRES|].
  intros modelCost s b s' H.
  apply bind_Some in H as (ub & s1 & Hg & H). injection Hg as <- <-.
  apply bind_Some in H as ([] & s2 & Hbetter & H).
  assert (Hq : quiet s s2).
  { destruct (Z.ltb_spec modelCost (ubCost s)) as [Hlt|Hge].
    - apply bind_Some in Hbetter as ([] & s3 & H1 & Hbetter). injection H1 as <-.
      apply bind_Some in Hbetter as ([] & s4 & H1 & Hbetter). injection H1 as <-.
      eapply quiet_trans; [|eapply quiet_checkGap; exact Hbetter].
      repeat split; cbn; lia.
    - injection Hbetter as <-. apply quiet_refl. }
  eapply quiet_trans; [exact Hq|].
  assert (Htail : preserves quiet
            (s0 <- gets id ;;
             (if (modelCost =? ubCost s0) && Nat.ltb (length (bestModel s0)) (length m)
              then modify (set_bestModel m) else ret tt) ;;;
             ret (modelCost <? ubCost s))).
  { pres quiet_refl quiet_trans.
    apply preserves_modify. intros s0. repeat split; cbn; lia. }
  exact (Htail s2 b s' H).
Qed.

Lemma quiet_unsatSearch (t : Turn) : preserves quiet (unsatSearch t).
Proof.
  unfold unsatSearch.
  pres quiet_refl quiet_trans;
    first [ apply quiet_of_frame, frame_updateSolver
          | apply quiet_of_frame, frame_softsSatisfied
          | apply quiet_of_frame, frame_oracle_answers
          | apply quiet_of_frame, frame_incr_nbSatisfiable
          | apply quiet_checkModel
          | apply preserves_modify; intros ?; repeat split; cbn;
            first [lia | reflexivity] ].
Qed.

Lemma quiet_weightSearch_model : preserves quiet weightSearch_model.
Proof.
  unfold weightSearch_model.
  apply (preserves_bind _ quiet_trans);
    [apply quiet_of_frame, frame_incr_nbSatisfiable|]. intros _.
  apply (preserves_bind _ quiet_trans); [apply (preserves_gets _ quiet_refl)|].
  intros m.
  apply (preserves_bind _ quiet_trans);
    [apply quiet_of_frame, frame_computeCostModelPMRES|].
  intros modelCost s r s' H.
  apply bind_Some in H as (ub & s1 & Hg & H). injection Hg as <- <-.
  apply bind_Some in H as ([] & s2 & Hub & H).
  assert (Hq : quiet s s2).
  { destruct (Z.ltb_spec modelCost (ubCost s)) as [Hlt|Hge].
    - injection Hub as <-. repeat split; cbn; lia.
    - injection Hub as <-. apply quiet_refl. }
  eapply quiet_trans; [exact Hq|].
  assert (Htail : preserves quiet
            (s0 <- gets id ;;
             if lbCost s0 =? ubCost s0 then ret (Some _OPTIMUM_)
             else if Z.of_nat (nbCurrentSoft s0) =? nRealSoft s0 then
               assertM (modelCost =? lbCost s0) ;;;
               lower_ub_to_lb ;;;
               ret (Some _OPTIMUM_)
             else ret None)).
  { pres quiet_refl quiet_trans. apply quiet_lower_ub_to_lb. }
  exact (Htail s2 r s' H).
Qed.

Lemma quiet_coreGuidedLinearSearch_model : preserves quiet coreGuidedLinearSearch_model.
Proof.
  unfold coreGuidedLinearSearch_model.
  pres quiet_refl quiet_trans;
    first [ apply quiet_of_frame, frame_incr_nbSatisfiable
          | apply quiet_checkModel
          | apply quiet_of_frame, frame_computeCostModelPMRES
          | apply quiet_lower_ub_to_lb ].
Qed.

Lemma quiet_getModelAfterCG (t : Turn) : preserves quiet (getModelAfterCG t).
Proof.
  unfold getModelAfterCG.
  pres quiet_refl quiet_trans;
    first [ apply quiet_of_frame, frame_updateSolver
          | apply quiet_of_frame, frame_setAssumptions
          | apply quiet_of_frame, frame_oracle_answers
          | apply quiet_of_frame, frame_computeCostModelPMRES
          | apply quiet_lower_ub_to_lb ].
Qed.

Lemma frame_linear_phase_writes mw t sv a nb nsat va ca sa (s : PMRES) :
  frame s (linear_phase_writes mw t sv a nb nsat va ca sa s).
Proof. repeat split. Qed.

(** ** The hardener, from the fact that it has run through *)

Lemma lookup_hardened_state_inv (s : PMRES) (k : nat) (c : Soft) :
  softs (hardened_state s k) !! k = Some c -> softs s !! k = Some c.
Proof.
  rewrite softs_hardened_state. intros H.
  destruct (Nat.lt_ge_cases k (length (softs s))) as [Hlt|Hge].
  - rewrite lookup_app_r in H; rewrite length_map, length_take_le in * by lia; [|lia].
    rewrite Nat.sub_diag, lookup_drop, Nat.add_0_r in H. exact H.
  - rewrite drop_ge, app_nil_r in H by exact Hge.
    apply lookup_lt_Some in H. rewrite length_map, length_take in H. lia.
Qed.

(** A turn of the loop of [hardenClauses] that does not stop has found
    what it asserts. *)
Lemma hardenClauses_body_inv (s : PMRES) (i : nat) (s2 : PMRES) :
  hardenClauses_body (U64.sub (ubCost s) (lbCost s)) i (hardened_state s i)
  = Some (tt, s2) ->
  ready_at s i.
Proof.
  set (bound := U64.sub (ubCost s) (lbCost s)). set (s1 := hardened_state s i).
  unfold hardenClauses_body. intros H.
  apply bind_Some in H as (c & s1' & Hget & H).
  unfold getSoftClause in Hget.
  destruct (softs s1 !! i) as [c'|] eqn:Hc1; [|discriminate].
  injection Hget as -> <-.
  apply lookup_hardened_state_inv in Hc1.
  exists c. split; [exact Hc1|].
  apply bind_Some in H as (satisfied & s3 & Hsat & H).
  assert (Hunit : (weight c = bound ->
                   exists l, clause c = [l]
                             /\ 0 <= varZ l < Z.of_nat (length (model (solver s))))
                  /\ s3 = s1
                  /\ satisfied = (weight c =? bound) && soft_satisfied (model (solver s)) c).
  { destruct (Z.eqb_spec (weight c) bound) as [Heq|Hne].
    - apply bind_Some in Hsat as ([] & s4 & Ha & Hsat).
      apply assertM_Some in Ha as [Hlen ->]. apply Nat.eqb_eq in Hlen.
      destruct (clause c) as [|l [|l' rest]] eqn:Hcl; try discriminate Hlen.
      apply bind_Some in Hsat as (l0 & s4 & Hl & Hsat). injection Hl as <- <-.
      apply bind_Some in Hsat as (cm & s4 & Hg & Hsat). injection Hg as <- <-.
      apply bind_Some in Hsat as ([] & s4 & Ha & Hsat).
      apply assertM_Some in Ha as [Hlt ->].
      change (model (solver s1)) with (model (solver s)) in *.
      apply Z.ltb_lt in Hlt.
      apply bind_Some in Hsat as (v & s4 & Hv & Hsat). injection Hsat as <- <-.
      unfold model_at in Hv. destruct (Z.ltb_spec (varZ l) 0) as [|Hge]; [discriminate|].
      unfold vec_at in Hv.
      destruct (model (solver s) !! Z.to_nat (varZ l)) as [v'|] eqn:Hv'; [|discriminate].
      injection Hv as -> <-.
      split; [intros _; exists l; split; [reflexivity|lia]|]. split; [reflexivity|].
      unfold soft_satisfied. rewrite Hcl.
      replace (varZ l <? 0) with false by (symmetry; apply Z.ltb_ge; lia).
      rewrite Hv'. reflexivity.
    - injection Hsat as <- <-. split; [intros Heq; contradiction|]. split; reflexivity. }
  destruct Hunit as (Hunit & -> & ->). split; [exact Hunit|].
  intros Hth.
  assert (Hcond : (weight c >? bound)
                  || (weight c =? bound)
                     && ((weight c =? bound) && soft_satisfied (model (solver s)) c)
                  = true).
  { unfold to_harden in Hth. fold bound in Hth.
    destruct (weight c =? bound); exact Hth. }
  rewrite Hcond in H.
  apply bind_Some in H as ([] & s4 & Ha & _).
  apply assertM_Some in Ha as [Hne _].
  apply negb_true_iff, Z.eqb_neq in Hne. exact Hne.
Qed.

Lemma for_each_from_partial (I : nat -> PMRES -> Prop) (body : nat -> M unit) (m : nat) :
  forall (k : nat) (s s' : PMRES),
    I k s ->
    (forall i s1 s2, (k <= i < k + m)%nat -> I i s1 ->
                     body i s1 = Some (tt, s2) -> I (S i) s2) ->
    for_each (seq k m) body s = Some (tt, s') -> I (k + m)%nat s'.
Proof.
  induction m as [|m IH]; intros k s s' Hk Hstep Hrun.
  - injection Hrun as <-. now rewrite Nat.add_0_r.
  - cbn [seq for_each] in Hrun. apply bind_Some in Hrun as ([] & s1 & Hb & Hrun).
    replace (k + S m)%nat with (S k + m)%nat by lia.
    apply (IH (S k) s1 s'); [|intros i s2 s3 Hi; apply Hstep; lia|exact Hrun].
    apply (Hstep k s s1); [lia|exact Hk|exact Hb].
Qed.

(** [hardenClauses], when it returns, has left [hardened_state]. *)
Lemma hardenClauses_result (s s' : PMRES) :
  hardenClauses s = Some (tt, s') -> s' = hardened_state s (softs_added s).
Proof.
  unfold hardenClauses. intros H.
  apply bind_Some in H as (bound & s0 & Hg & H). injection Hg as <- <-.
  apply bind_Some in H as ([] & s0 & Hm & H). injection Hm as <-.
  apply bind_Some in H as (n & s0 & Hg & H). injection Hg as <- <-.
  change (softs_added (set_maxw_nothardened 0 s)) with (softs_added s) in H.
  unfold for_upto in H.
  apply (for_each_from_partial (fun k s1 => s1 = hardened_state s k)
           (hardenClauses_body (U64.sub (ubCost s) (lbCost s)))
           (softs_added s) 0 (set_maxw_nothardened 0 s) s').
  - symmetry. apply hardened_state_0.
  - intros i s1 s2 _ -> Hbody.
    pose proof (hardenClauses_body_inv s i s2 Hbody) as Hready.
    rewrite (hardenClauses_body_step s i Hready) in Hbody.
    injection Hbody as <-. reflexivity.
  - exact H.
Qed.

Lemma total_weight_hardened_split (m : list lbool) (s : PMRES) (l : list Soft) :
  total_weight (map (fun c => if to_harden m s c then hardened c else c) l)
  + total_weight (filter (fun c => to_harden m s c = true) l)
  = total_weight l.
Proof.
  induction l as [|c l IH]; [reflexivity|].
  cbn [map]. rewrite filter_cons. cbn [total_weight].
  destruct (to_harden m s c) eqn:Hth.
  - rewrite decide_True by reflexivity. cbn [total_weight hardened weight]. lia.
  - rewrite decide_False by discriminate. lia.
Qed.

(** The accounts of the hardener: the weight it takes away is the
    weight of the clauses it has taken. *)
Lemma hardenClauses_accounts (s s' : PMRES) :
  weights_inrange (softs s) ->
  hardenClauses s = Some (tt, s') ->
  total_weight (softs s') + total_weight (hardened_upto s (softs_added s))
  = total_weight (softs s)
  /\ 0 <= total_weight (hardened_upto s (softs_added s))
  /\ weights_inrange (softs s')
  /\ same_bounds s s'.
Proof.
  intros Hin H. apply hardenClauses_result in H. subst s'.
  set (n := softs_added s). set (m := model (solver s)).
  split; [|split; [|split]].
  - rewrite softs_hardened_state, total_weight_app. unfold hardened_upto. fold m n.
    pose proof (total_weight_hardened_split m s (take n (softs s))) as Hsplit.
    assert (Hall : total_weight (softs s)
                   = total_weight (take n (softs s)) + total_weight (drop n (softs s)))
      by (rewrite <- total_weight_app, take_drop; reflexivity).
    lia.
  - apply total_weight_nonneg. unfold hardened_upto, weights_inrange.
    apply Forall_forall. intros c Hc. apply list_elem_of_filter in Hc as [_ Hc].
    apply elem_of_take in Hc as (i & Hc & _).
    unfold weights_inrange in Hin. rewrite Forall_forall in Hin.
    apply Hin. apply list_elem_of_lookup. eauto.
  - rewrite softs_hardened_state. unfold weights_inrange. apply Forall_app. split.
    + apply Forall_forall. intros c Hc. apply list_elem_of_fmap in Hc as (c0 & -> & Hc0).
      destruct (to_harden _ s c0).
      * cbn. unfold U64.inrange, U64.modulus. lia.
      * apply elem_of_take in Hc0 as (i & Hc0 & _).
        unfold weights_inrange in Hin. rewrite Forall_forall in Hin.
        apply Hin. apply list_elem_of_lookup. eauto.
    + apply Forall_drop. exact Hin.
  - unfold hardened_state. destruct (hardenLazily s); repeat split.
Qed.

(** ** The accounts of a turn of the core-guided loop *)

(** A turn in which the oracle reports a core: the cost [w] of the
    core goes to the lower bound, [n] soft clauses lose [w] and [n - 1]
    soft clauses of weight [w] are appended. *)
Lemma weightDisjointCores_turn_core (t : Turn) (s : PMRES)
      (r : option StatusCode) (s' : PMRES) :
  sums_fit s ->
  weightDisjointCores_turn t s = Some (r, s') ->
  ~ out_of_time t s -> res t = l_False ->
  let n := length (turn_conflict t) in
  exists (w : Z) (mid : list Soft) (nv : nat),
    0 < w /\ (0 < n)%nat
    /\ lbCost s' = lbCost s + w
    /\ ubCost s' = ubCost s
    /\ known_gap s' <= known_gap s
    /\ length mid = length (softs s)
    /\ total_weight mid = total_weight (softs s) - Z.of_nat n * w
    /\ softs s' = mid ++ new_softs nv n w
    /\ length (new_softs nv n w) = (n - 1)%nat
    /\ (forall c, c ∈ new_softs nv n w -> weight c = w)
    /\ total_weight (softs s') = total_weight (softs s) - w
    /\ weights_inrange (softs s').
Proof.
  intros (Hin & Hlb0 & Hfit) H Hnot Hres n.
  unfold weightDisjointCores_turn in H.
  apply bind_Some in H as (limit & s0 & Hg & H). injection Hg as <- <-.
  destruct ((timeLimitCores (opts s) >? 0)
            && (timeLimitCores (opts s) - timeSinceStart t <=? 0)) eqn:Hto.
  { exfalso. apply Hnot. apply andb_true_iff in Hto as [H1 H2].
    split; [apply Z.gtb_lt in H1; lia|apply Z.leb_le in H2; exact H2]. }
  apply bind_Some in H as ([] & s1 & Hassume & H).
  apply frame_setAssumptions in Hassume.
  apply bind_Some in H as ([] & s2 & Horacle & H).
  assert (Hf2 : frame s1 s2) by (injection Horacle as <-; repeat split).
  assert (Hconf : conflict (solver s2) = turn_conflict t)
    by (injection Horacle as <-; reflexivity).
  rewrite Hres in H. cbn [lbool_eqb] in H.
  apply bind_Some in H as ([] & s7 & Hcore & H).
  apply bind_Some in Hcore as ([] & s3 & Hnb & Hcore).
  assert (Hf3 : frame s2 s3) by (injection Hnb as <-; repeat split).
  assert (Hconf3 : conflict (solver s3) = turn_conflict t)
    by (injection Hnb as <-; exact Hconf).
  apply bind_Some in Hcore as (cf & s3' & Hg & Hcore). injection Hg as <- <-.
  rewrite Hconf3 in Hcore.
  apply bind_Some in Hcore as ([] & s3' & Ha & Hcore). apply assertM_Some in Ha as [_ ->].
  apply bind_Some in Hcore as (w & s4 & Hcost & Hcore).
  apply frame_computeCostCore in Hcost.
  apply bind_Some in Hcore as ([] & s5 & Hlb & Hcore). injection Hlb as <-.
  apply bind_Some in Hcore as ([] & s6 & Hgap & Hrelax).
  pose proof (frame_trans _ _ _ (frame_trans _ _ _ (frame_trans _ _ _ Hassume Hf2) Hf3) Hcost)
    as ((Hlb4 & Hub4 & Hkg4) & Hsoft4 & _).
  assert (Hsoft6 : softs s6 = softs s).
  { destruct (checkGap_cases _ _ _ Hgap) as [->|[-> _]]; exact Hsoft4. }
  assert (Hin6 : weights_inrange (softs s6)) by (rewrite Hsoft6; exact Hin).
  destruct (relaxCore_sum s6 s7 (turn_conflict t) w Hin6 Hrelax)
    as (mid & nv & Hlen & Hmid & Hsofts & Hnew & Hneww & Htot & Hin7 & Hb67 & Hn & Hw).
  rewrite Hsoft6 in Hlen, Hmid, Htot.
  pose proof (total_weight_nonneg _ Hin7) as Hnonneg.
  assert (Hadd : U64.add (lbCost s4) w = lbCost s + w).
  { rewrite Hlb4. apply u64_add_exact; lia. }
  assert (Hbounds6 : lbCost s6 = lbCost s + w /\ ubCost s6 = ubCost s
                     /\ known_gap s6 <= known_gap s).
  { destruct (checkGap_cases _ _ _ Hgap) as [->|[-> Hlt]].
    - cbn. rewrite Hadd. repeat split; lia.
    - cbn in Hlt |- *. rewrite Hadd. rewrite Hadd in Hlt. repeat split; lia. }
  destruct Hb67 as (Hlb7 & Hub7 & Hkg7). destruct Hbounds6 as (Hlb6 & Hub6 & Hkg6).
  assert (Hs' : s' = s7).
  { apply bind_Some in H as (s8 & s9 & Hg & H). injection Hg as <- <-.
    destruct (lbCost s7 >? ubCost s7); injection H as _ <-; reflexivity. }
  subst s'. exists w, mid, nv. fold n in Hmid, Hsofts, Hnew, Hneww, Hn.
  repeat split; try assumption; lia.
Qed.

(** A turn in which no core is reported leaves the accounts alone. *)
Lemma weightDisjointCores_turn_quiet (t : Turn) (s : PMRES)
      (r : option StatusCode) (s' : PMRES) :
  weightDisjointCores_turn t s = Some (r, s') ->
  out_of_time t s \/ res t <> l_False ->
  quiet s s'.
Proof.
  intros H Hcase. unfold weightDisjointCores_turn in H.
  apply bind_Some in H as (limit & s0 & Hg & H). injection Hg as <- <-.
  destruct ((timeLimitCores (opts s) >? 0)
            && (timeLimitCores (opts s) - timeSinceStart t <=? 0)) eqn:Hto.
  { injection H as _ <-. apply quiet_refl. }
  destruct Hcase as [[H1 H2]|Hres].
  { exfalso. apply andb_false_iff in Hto as [Hto|Hto].
    - rewrite Z.gtb_ltb in Hto. apply Z.ltb_ge in Hto. lia.
    - apply Z.leb_gt in Hto. lia. }
  apply bind_Some in H as ([] & s1 & Hassume & H).
  apply frame_setAssumptions, frame_quiet in Hassume.
  apply bind_Some in H as ([] & s2 & Horacle & H).
  apply frame_oracle_answers, frame_quiet in Horacle.
  eapply quiet_trans; [exact Hassume|]. eapply quiet_trans; [exact Horacle|].
  destruct (res t); cbn [lbool_eqb] in H; [| congruence |].
  - apply bind_Some in H as ([] & s3 & Hr & H). injection Hr as <-.
    injection H as _ <-. apply quiet_refl.
  - injection H as _ <-. apply quiet_refl.
Qed.

(** A turn either relaxes a core or does not. *)
Lemma classic_turn (t : Turn) (s : PMRES) :
  (~ out_of_time t s /\ res t = l_False) \/ (out_of_time t s \/ res t <> l_False).
Proof.
  destruct (Z_lt_dec 0 (timeLimitCores (opts s))) as [H1|H1];
    destruct (Z_le_dec (timeLimitCores (opts s) - timeSinceStart t) 0) as [H2|H2];
    destruct (res t); unfold out_of_time;
      first [ left; split; [lia|reflexivity]
            | right; left; split; assumption
            | right; right; discriminate ].
Qed.

(** [initAssumptions] writes assumptions only. *)
Lemma same_weights_refl (s : PMRES) : same_weights s s.
Proof. repeat split. Qed.

Lemma same_weights_trans (s1 s2 s3 : PMRES) :
  same_weights s1 s2 -> same_weights s2 s3 -> same_weights s1 s3.
Proof.
  intros ((a & b & c) & d) ((a' & b' & c') & d').
  repeat split; congruence.
Qed.

Lemma initAssumptions_body_same_weights (i : nat) (s s' : PMRES) :
  initAssumptions_body i s = Some (tt, s') -> same_weights s s'.
Proof.
  unfold initAssumptions_body. intros H.
  apply bind_Some in H as (c & s1 & Hc & H).
  unfold getSoftClause in Hc. destruct (softs s !! i) as [c0|] eqn:Hi; [|discriminate].
  injection Hc as Hc0 Hs1. subst c0 s1.
  apply bind_Some in H as ([] & s2 & Ha & H).
  apply assertM_Some in Ha as [_ ->].
  apply bind_Some in H as (l & s3 & Hl & H).
  unfold vec_at in Hl.
  match type of Hl with
  | match ?x with _ => _ end = _ => destruct x as [l0|]; [|discriminate Hl]
  end.
  injection Hl as Hl0 Hs3. subst l0 s3.
  apply bind_Some in H as ([] & s4 & Hp & H).
  unfold putSoftClause, modify in Hp. injection Hp as <-.
  unfold modify in H. injection H as <-.
  split; [repeat split|].
  change (weight <$> <[i := set_assumption_var (neg l) c]> (softs s) = weight <$> softs s).
  rewrite list_fmap_insert. apply list_insert_id.
  rewrite list_lookup_fmap, Hi. reflexivity.
Qed.

Lemma initAssumptions_same_weights (s s' : PMRES) :
  initAssumptions s = Some (tt, s') -> same_weights s s'.
Proof.
  unfold initAssumptions. intros H.
  apply bind_Some in H as (n & s1 & Hn & H).
  unfold gets in Hn. injection Hn as Hn0 Hs1. subst n s1.
  unfold for_upto in H.
  apply (for_each_from_partial (fun _ s1 => same_weights s s1) initAssumptions_body
           (nSoft (maxsat_formula s)) 0 s s').
  - apply same_weights_refl.
  - intros i s1 s2 _ HI Hb. eapply same_weights_trans; [exact HI|].
    eapply initAssumptions_body_same_weights; exact Hb.
  - exact H.
Qed.

Lemma total_weight_fmap (l l' : list Soft) :
  weight <$> l' = weight <$> l -> total_weight l' = total_weight l.
Proof.
  revert l'. induction l as [|c l IH]; intros [|c' l'] H; try discriminate H.
  - reflexivity.
  - injection H as Hw Hl. cbn [total_weight]. rewrite Hw, (IH l' Hl). reflexivity.
Qed.

Lemma weights_inrange_fmap (l l' : list Soft) :
  weight <$> l' = weight <$> l -> weights_inrange l -> weights_inrange l'.
Proof.
  revert l'. induction l as [|c l IH]; intros [|c' l'] H Hl; try discriminate H.
  - constructor.
  - injection H as Hw Ht. inversion Hl as [|? ? Hc Hl']; subst.
    constructor; [rewrite Hw; exact Hc|exact (IH l' Ht Hl')].
Qed.

Lemma same_weights_accounts (s s' : PMRES) :
  sums_fit s -> same_weights s s' ->
  bounds_monotone s s' /\ sums_fit s'
  /\ total_weight (softs s') + lbCost s' + 0 = total_weight (softs s) + lbCost s
  /\ 0 <= 0.
Proof.
  intros (Hin & Hlb & Hfit) ((Hl & Hu & Hk) & Hs).
  pose proof (total_weight_fmap _ _ Hs) as Htot.
  split; [repeat split; lia|]. split; [|split; lia].
  split; [exact (weights_inrange_fmap _ _ Hs Hin)|]. split; lia.
Qed.

Lemma quiet_accounts (s s' : PMRES) :
  sums_fit s -> quiet s s' ->
  bounds_monotone s s' /\ sums_fit s'
  /\ total_weight (softs s') + lbCost s' + 0 = total_weight (softs s) + lbCost s
  /\ 0 <= 0.
Proof.
  intros (Hin & Hlb & Hfit) ((Hl & Hu & Hk) & Hs).
  split; [repeat split; lia|]. split; [|split; [rewrite Hs, Hl; lia|lia]].
  unfold sums_fit. rewrite Hs, Hl. auto.
Qed.

(** Every operation of the search moves the bounds in their direction
    only and keeps the accounts: what leaves the soft clauses goes to
    the lower bound or is the weight taken away by hardening. *)
Lemma step_accounts (s : PMRES) (h : Z) (s' : PMRES) :
  sums_fit s -> step s h s' ->
  bounds_monotone s s' /\ sums_fit s'
  /\ total_weight (softs s') + lbCost s' + h = total_weight (softs s) + lbCost s
  /\ 0 <= h.
Proof.
  intros Hfit Hstep. destruct Hstep.
  - apply same_weights_accounts; [exact Hfit|].
    apply initAssumptions_same_weights. assumption.
  - apply quiet_accounts; [exact Hfit|]. eapply quiet_unsatSearch; eassumption.
  - destruct (classic_turn t s) as [Hcore|Hquiet].
    + destruct Hcore as (Hnot & Hres).
      destruct (weightDisjointCores_turn_core t s r s' Hfit H Hnot Hres)
        as (w & mid & nv & Hw & _ & Hlb & Hub & Hkg & _ & _ & _ & _ & _ & Htot & Hin').
      destruct Hfit as (Hin & Hlb0 & Hsum).
      pose proof (total_weight_nonneg _ Hin').
      split; [repeat split; lia|]. split; [|split; lia].
      repeat split; [exact Hin'|lia|lia].
    + apply quiet_accounts; [exact Hfit|].
      eapply weightDisjointCores_turn_quiet; eassumption.
  - apply quiet_accounts; [exact Hfit|]. eapply quiet_weightSearch_model; eassumption.
  - apply quiet_accounts; [exact Hfit|].
    eapply quiet_coreGuidedLinearSearch_model; eassumption.
  - apply quiet_accounts; [exact Hfit|]. eapply quiet_getModelAfterCG; eassumption.
  - destruct Hfit as (Hin & Hlb0 & Hsum).
    destruct (hardenClauses_accounts s s' Hin H) as (Htot & Hh & Hin' & (Hl & Hu & Hk)).
    split; [repeat split; lia|]. split; [|split; lia].
    repeat split; [exact Hin'|lia|lia].
  - apply quiet_accounts; [exact Hfit|].
    eapply frame_quiet, frame_updateSolver; eassumption.
  - apply quiet_accounts; [exact Hfit|].
    eapply frame_quiet, frame_updateCurrentWeight; eassumption.
  - apply quiet_accounts; [exact Hfit|].
    eapply frame_quiet, frame_initializeDivisionFactor; eassumption.
  - apply quiet_accounts; [exact Hfit|].
    apply bind_Some in H as ([] & s1 & Ho & Hc).
    eapply quiet_trans; [eapply frame_quiet, frame_oracle_answers; exact Ho|].
    eapply quiet_checkModel; exact Hc.
  - apply quiet_accounts; [exact Hfit|]. apply frame_quiet, frame_linear_phase_writes.
Qed.

Lemma bounds_monotone_refl (s : PMRES) : bounds_monotone s s.
Proof. repeat split; lia. Qed.

Lemma bounds_monotone_trans (s1 s2 s3 : PMRES) :
  bounds_monotone s1 s2 -> bounds_monotone s2 s3 -> bounds_monotone s1 s3.
Proof. intros (a & b & c) (a' & b' & c'). repeat split; lia. Qed.

Lemma run_accounts (s0 : PMRES) (h : Z) (s : PMRES) :
  sums_fit s0 -> run s0 h s ->
  sums_fit s /\ bounds_monotone s0 s
  /\ total_weight (softs s) + lbCost s + h = total_weight (softs s0) + lbCost s0
  /\ 0 <= h.
Proof.
  intros Hfit Hrun. induction Hrun as [s|s h1 s1 h2 s2 Hrun IH Hstep].
  - split; [exact Hfit|]. split; [apply bounds_monotone_refl|]. lia.
  - destruct (IH Hfit) as (Hfit1 & Hmono1 & Hacc1 & Hh1).
    destruct (step_accounts s1 h2 s2 Hfit1 Hstep) as (Hmono2 & Hfit2 & Hacc2 & Hh2).
    split; [exact Hfit2|].
    split; [eapply bounds_monotone_trans; eassumption|]. lia.
Qed.

(** ** The upper bound and the known gap, whatever the weights *)

Lemma upper_bounds_down_refl (s : PMRES) : upper_bounds_down s s.
Proof. split; lia. Qed.

Lemma upper_bounds_down_trans (s1 s2 s3 : PMRES) :
  upper_bounds_down s1 s2 -> upper_bounds_down s2 s3 -> upper_bounds_down s1 s3.
Proof. intros [a b] [a' b']. split; lia. Qed.

Lemma upper_of_quiet (s s' : PMRES) : quiet s s' -> upper_bounds_down s s'.
Proof. intros ((_ & Hu & Hk) & _). split; assumption. Qed.

Lemma upper_of_same_bounds (s s' : PMRES) : same_bounds s s' -> upper_bounds_down s s'.
Proof. intros (_ & Hu & Hk). split; lia. Qed.

Lemma upper_of_frame {A} (m : M A) :
  preserves frame m -> preserves upper_bounds_down m.
Proof.
  apply preserves_weaken. intros s s' H. apply upper_of_quiet, frame_quiet, H.
Qed.

Lemma relaxCore_body_bounds (w l : Z) :
  preserves upper_bounds_down (relaxCore_body w l).
Proof.
  intros s u s' H. rewrite relaxCore_body_eq in H.
  destruct (softs s !! cm_get (coreMapping s) l) as [c|]; [|discriminate].
  destruct (weight c >=? w); [|discriminate]. injection H as _ <-.
  apply upper_of_same_bounds. repeat split.
Qed.

Lemma relaxCore_bounds (conflict0 : list Z) (w : Z) :
  preserves upper_bounds_down (relaxCore conflict0 w).
Proof.
  unfold relaxCore.
  pres upper_bounds_down_refl upper_bounds_down_trans.
  - apply relaxCore_body_bounds.
  - intros s u s' H.
    destruct conflict0 as [|l rest]; [unfold encodeMaxRes in H; discriminate H|].
    rewrite (encodeMaxRes_result s (l :: rest) w) in H by discriminate.
    injection H as _ <-. apply upper_of_same_bounds. repeat split.
  - apply preserves_modify. intros s. apply upper_of_same_bounds. repeat split.
Qed.

Lemma weightDisjointCores_turn_bounds (t : Turn) :
  preserves upper_bounds_down (weightDisjointCores_turn t).
Proof.
  unfold weightDisjointCores_turn.
  pres upper_bounds_down_refl upper_bounds_down_trans;
    first [ apply upper_of_frame, frame_setAssumptions
          | apply upper_of_frame, frame_computeCostCore
          | apply (preserves_weaken quiet); [exact upper_of_quiet|apply quiet_checkGap]
          | apply relaxCore_bounds
          | apply preserves_modify; intros ?; split; cbn; lia ].
Qed.

Lemma step_upper_bounds (s : PMRES) (h : Z) (s' : PMRES) :
  step s h s' -> upper_bounds_down s s'.
Proof.
  intros Hstep. destruct Hstep.
  - apply upper_of_same_bounds. eapply initAssumptions_same_weights. eassumption.
  - apply upper_of_quiet. eapply quiet_unsatSearch; eassumption.
  - eapply weightDisjointCores_turn_bounds; eassumption.
  - apply upper_of_quiet. eapply quiet_weightSearch_model; eassumption.
  - apply upper_of_quiet. eapply quiet_coreGuidedLinearSearch_model; eassumption.
  - apply upper_of_quiet. eapply quiet_getModelAfterCG; eassumption.
  - apply hardenClauses_result in H. subst s'. apply upper_of_same_bounds.
    unfold hardened_state. destruct (hardenLazily s); repeat split.
  - apply upper_of_quiet. eapply frame_quiet, frame_updateSolver; eassumption.
  - apply upper_of_quiet. eapply frame_quiet, frame_updateCurrentWeight; eassumption.
  - apply upper_of_quiet.
    eapply frame_quiet, frame_initializeDivisionFactor; eassumption.
  - apply upper_of_quiet.
    apply bind_Some in H as ([] & s1 & Ho & Hc).
    eapply quiet_trans; [eapply frame_quiet, frame_oracle_answers; exact Ho|].
    eapply quiet_checkModel; exact Hc.
  - apply upper_of_quiet, frame_quiet, frame_linear_phase_writes.
Qed.

Lemma run_upper_bounds (s0 : PMRES) (h : Z) (s : PMRES) :
  run s0 h s -> upper_bounds_down s0 s.
Proof.
  intros Hrun. induction Hrun as [s|s h1 s1 h2 s2 Hrun IH Hstep].
  - apply upper_bounds_down_refl.
  - eapply upper_bounds_down_trans; [exact IH|].
    eapply step_upper_bounds. exact Hstep.
Qed.

(** C1 (amended): throughout any run of the search, every operation
    (and so every sequence of operations) leaves [ubCost] and
    [known_gap] where they are or lowers them.  It leaves [lbCost]
    where it is or raises it in a run that starts from a formula
    whose weights are 64-bit values and whose sum with [lbCost] is
    one, so that the 64-bit addition [lbCost += coreCost] is exact. *)
Theorem bounds_monotone_throughout (s0 s s' : PMRES) (h h' : Z) :
  run s0 h s -> run s h' s' ->
  ubCost s' <= ubCost s /\ known_gap s' <= known_gap s
  /\ (sums_fit s0 -> lbCost s <= lbCost s').
Proof.
  intros Hrun Hrun'.
  destruct (run_upper_bounds s h' s' Hrun') as [Hu Hk].
  split; [exact Hu|]. split; [exact Hk|].
  intros Hfit.
  destruct (run_accounts s0 h s Hfit Hrun) as (Hfit1 & _).
  destruct (run_accounts s h' s' Hfit1 Hrun') as (_ & (Hl & _) & _).
  exact Hl.
Qed.


(** ** A run, worked out *)

Lemma sums_fit_four_five : sums_fit st_four_five.
Proof.
  split; [|split; [cbn; lia|vm_compute; reflexivity]].
  repeat constructor; vm_compute; try discriminate; reflexivity.
Qed.

Lemma run_to_core : run st_four_five 0 st_after_core.
Proof.
  change 0 with (0 + 0). eapply run_step; [apply run_start|].
  apply (step_core turn_with_core st_four_five None). vm_compute. reflexivity.
Qed.

Lemma run_core_to_hardening : run st_after_core 0 st_after_hardening.
Proof.
  change 0 with (0 + 0 + 0 + total_weight
                                (hardened_upto st_after_model (softs_added st_after_model))).
  eapply run_step; [eapply run_step; [eapply run_step; [apply run_start|]|]|].
  - apply (step_core turn_with_model st_after_core (Some _SATISFIABLE_)).
    vm_compute. reflexivity.
  - apply (step_weightSearch_model _ None). vm_compute. reflexivity.
  - apply step_harden. vm_compute. reflexivity.
Qed.

Lemma bounds_monotone_throughout_witness :
  sums_fit st_four_five
  /\ run st_four_five 0 st_after_core
  /\ run st_after_core 0 st_after_hardening
  /\ lbCost st_after_core <= lbCost st_after_hardening
  /\ ubCost st_after_hardening <= ubCost st_after_core
  /\ known_gap st_after_hardening <= known_gap st_after_core.
Proof.
  split; [exact sums_fit_four_five|]. split; [exact run_to_core|].
  split; [exact run_core_to_hardening|].
  destruct (bounds_monotone_throughout st_four_five st_after_core st_after_hardening
              0 0 run_to_core run_core_to_hardening) as (Hu & Hk & Hl).
  split; [exact (Hl sums_fit_four_five)|]. split; [exact Hu|exact Hk].
Defined.

Lemma weights_inrange_check (l : list Soft) :
  forallb (fun c => (0 <=? weight c) && (weight c <? U64.modulus)) l = true ->
  weights_inrange l.
Proof.
  intros H. apply Forall_forall. intros c Hc.
  rewrite forallb_forall in H. apply list_elem_of_In in Hc.
  specialize (H c Hc). apply andb_prop in H as [H1 H2].
  split; [apply Z.leb_le; exact H1|apply Z.ltb_lt; exact H2].
Qed.

(** The run of [search] on three soft clauses of weight 2^63 + 1, from
    the state that [setup] leaves: the two cores the oracle reports
    are sets of assumptions of [setAssumptions]. *)
Lemma heavy_setup :
  search_init st_heavy_given = Some (tt, state_after (search_init st_heavy_given))
  /\ setup 8 Z.pow turn_all_relaxed (state_after (search_init st_heavy_given))
     = Some (_SATISFIABLE_, st_heavy_setup)
  /\ weights_inrange (softs st_heavy_setup)
  /\ lbCost st_heavy_setup = 0.
Proof.
  split; [vm_compute; reflexivity|]. split; [vm_compute; reflexivity|].
  split; [|vm_compute; reflexivity].
  apply weights_inrange_check. vm_compute. reflexivity.
Qed.

Lemma heavy_first_core :
  weightDisjointCores_turn turn_core_of_two st_heavy_setup
  = Some (None, st_heavy_one_core)
  /\ assumptions st_heavy_one_core = [7; 9; 11]
  /\ lbCost st_heavy_one_core = 2 ^ 63 + 1.
Proof. split; [vm_compute; reflexivity|]. split; vm_compute; reflexivity. Qed.

Lemma heavy_second_core :
  weightDisjointCores_turn turn_core_of_one st_heavy_one_core
  = Some (None, st_heavy_two_cores)
  /\ assumptions st_heavy_two_cores = [11]
  /\ lbCost st_heavy_two_cores = 2.
Proof. split; [vm_compute; reflexivity|]. split; vm_compute; reflexivity. Qed.

Lemma run_heavy_first_core : run st_heavy_setup 0 st_heavy_one_core.
Proof.
  change 0 with (0 + 0). eapply run_step; [apply run_start|].
  apply (step_core turn_core_of_two st_heavy_setup None). apply heavy_first_core.
Qed.

Lemma run_heavy_second_core : run st_heavy_one_core 0 st_heavy_two_cores.
Proof.
  change 0 with (0 + 0). eapply run_step; [apply run_start|].
  apply (step_core turn_core_of_one st_heavy_one_core None). apply heavy_second_core.
Qed.

(** C1 (as stated, refuted): on three soft clauses of weight 2^63 + 1
    the first core, of the first two clauses, takes [lbCost] from 0 to
    2^63 + 1, and the second core, of the third clause, adds 2^63 + 1
    in 64 bits: [lbCost] wraps to 2, below what it was. *)
Lemma lbCost_wraps_in_a_run :
  search_init st_heavy_given = Some (tt, state_after (search_init st_heavy_given))
  /\ setup 8 Z.pow turn_all_relaxed (state_after (search_init st_heavy_given))
     = Some (_SATISFIABLE_, st_heavy_setup)
  /\ weights_inrange (softs st_heavy_setup)
  /\ run st_heavy_setup 0 st_heavy_one_core
  /\ (forall l, l ∈ turn_conflict turn_core_of_two ->
                neg l ∈ assumptions st_heavy_one_core)
  /\ run st_heavy_one_core 0 st_heavy_two_cores
  /\ (forall l, l ∈ turn_conflict turn_core_of_one ->
                neg l ∈ assumptions st_heavy_two_cores)
  /\ lbCost st_heavy_one_core = 2 ^ 63 + 1
  /\ lbCost st_heavy_two_cores = 2
  /\ ~ lbCost st_heavy_one_core <= lbCost st_heavy_two_cores.
Proof.
  split; [apply heavy_setup|]. split; [apply heavy_setup|].
  split; [apply heavy_setup|]. split; [exact run_heavy_first_core|].
  split.
  { intros l Hl. cbn in Hl. rewrite !elem_of_cons in Hl.
    destruct Hl as [->|[->|Hl]]; [| |inversion Hl]; vm_compute; repeat constructor. }
  split; [exact run_heavy_second_core|].
  split.
  { intros l Hl. cbn in Hl. apply list_elem_of_singleton in Hl. subst l.
    vm_compute. repeat constructor. }
  split; [apply heavy_first_core|].
  split; [apply heavy_second_core|]. vm_compute. intros H. apply H. reflexivity.
Qed.



Example accounts_after_core :
  total_weight (softs st_four_five) = 9
  /\ total_weight (softs st_after_core) = 5 /\ lbCost st_after_core = 4.
Proof. repeat split. Qed.

(** [initAssumptions] on two unit soft clauses of a standardized
    formula. *)
Example initAssumptions_five_three :
  exists s',
    initAssumptions
      (new_PMRES opts_cg
         (formula_of 2 _WEIGHTED_ 5
            [mkSoft [neg (mkLit 0 false)] 5 lit_Undef;
             mkSoft [neg (mkLit 1 false)] 3 lit_Undef]))
    = Some (tt, s')
    /\ softs s' = softs st_five_three
    /\ coreMapping s' = coreMapping st_five_three.
Proof.
  eexists. split; [vm_compute; reflexivity|].
  split; vm_compute; reflexivity.
Qed.

(** A hardening that takes a clause: its weight 3 is the label of the
    step. *)
Example hardening_takes_three :
  exists s', step st_models_differ 3 s' /\ total_weight (softs s') = 0.
Proof.
  eexists. split.
  - change 3 with (total_weight (hardened_upto st_models_differ
                                   (softs_added st_models_differ))).
    apply step_harden. vm_compute. reflexivity.
  - reflexivity.
Qed.

(** * Further properties *)

(** ** Literals under a model: [literalTrueInModel] *)

Lemma sign_neg (l : Z) : sign (neg l) = negb (sign l).
Proof.
  unfold sign, neg. rewrite <- !Z.bit0_odd, Z.lxor_spec.
  change (Z.testbit 1 0) with true. apply xorb_true_r.
Qed.

Lemma varZ_neg (l : Z) : varZ (neg l) = varZ l.
Proof.
  unfold varZ, neg. rewrite Z.shiftr_lxor.
  change (Z.shiftr 1 1) with 0. apply Z.lxor_0_r.
Qed.

Lemma neg_involutive (l : Z) : neg (neg l) = l.
Proof.
  unfold neg. rewrite Z.lxor_assoc, Z.lxor_nilpotent. apply Z.lxor_0_r.
Qed.

Lemma model_at_eq (m : list lbool) (v : Z) (x : lbool) (s : PMRES) :
  0 <= v -> m !! Z.to_nat v = Some x -> model_at m v s = Some (x, s).
Proof.
  intros Hv Hx. unfold model_at.
  destruct (v <? 0) eqn:E; [apply Z.ltb_lt in E; lia|].
  apply vec_at_eq. exact Hx.
Qed.

Lemma literalTrueInModel_eq (l : Z) (m : list lbool) (x : lbool) (s : PMRES) :
  0 <= varZ l -> m !! Z.to_nat (varZ l) = Some x ->
  literalTrueInModel l m s = Some (lit_true_under l x, s).
Proof.
  intros Hv Hx. unfold literalTrueInModel.
  assert (Hlt : varZ l <? Z.of_nat (length m) = true).
  { apply Z.ltb_lt. apply lookup_lt_Some in Hx. lia. }
  rewrite Hlt. cbn [assertM].
  unfold bind at 1. cbn [ret].
  rewrite (bind_eq _ _ _ _ _ (model_at_eq m (varZ l) x s Hv Hx)). reflexivity.
Qed.

(** X1: under a model that reaches the variable of a literal [l], the
    literal and its negation are never both true; exactly one of them
    is true when the variable is assigned, and none when it is
    undefined.  Beyond the size of the model the function stops at its
    assertion. *)
Theorem literalTrueInModel_negation (l : Z) (m : list lbool) (s : PMRES) :
  0 <= varZ l < Z.of_nat (length m) ->
  exists (x : lbool) (a b : bool),
    m !! Z.to_nat (varZ l) = Some x
    /\ literalTrueInModel l m s = Some (a, s)
    /\ literalTrueInModel (neg l) m s = Some (b, s)
    /\ a && b = false
    /\ (x <> l_Undef -> b = negb a)
    /\ (x = l_Undef -> a = false /\ b = false)
    /\ forall l', Z.of_nat (length m) <= varZ l' -> literalTrueInModel l' m s = None.
Proof.
  intros [H0 Hlt].
  destruct (m !! Z.to_nat (varZ l)) as [x|] eqn:Hx.
  2:{ apply lookup_ge_None in Hx. lia. }
  exists x, (lit_true_under l x), (lit_true_under (neg l) x).
  split; [reflexivity|].
  split; [apply literalTrueInModel_eq; assumption|].
  split; [apply literalTrueInModel_eq; rewrite varZ_neg; assumption|].
  unfold lit_true_under. rewrite sign_neg.
  split; [destruct (sign l), x; reflexivity|].
  split; [intros Hne; destruct (sign l), x; try reflexivity; contradiction|].
  split; [intros ->; destruct (sign l); split; reflexivity|].
  intros l' Hge. unfold literalTrueInModel.
  assert (E : varZ l' <? Z.of_nat (length m) = false) by (apply Z.ltb_ge; exact Hge).
  rewrite E. reflexivity.
Qed.

Lemma literalTrueInModel_negation_witness :
  exists (x : lbool) (a b : bool),
    [l_True; l_False] !! Z.to_nat (varZ 3) = Some x
    /\ literalTrueInModel 3 [l_True; l_False] st_five_three = Some (a, st_five_three)
    /\ literalTrueInModel (neg 3) [l_True; l_False] st_five_three
       = Some (b, st_five_three)
    /\ a && b = false.
Proof.
  destruct (literalTrueInModel_negation 3 [l_True; l_False] st_five_three)
    as (x & a & b & H1 & H2 & H3 & H4 & _).
  - vm_compute. split; [discriminate|reflexivity].
  - exists x, a, b. auto.
Defined.

(** ** The cost of a model: [computeCostModelPMRES] *)

Lemma clause_loop_eq (m : list lbool) (s : PMRES) (cl : Clause) :
  (forall x, x ∈ cl -> 0 <= varZ x < Z.of_nat (length m)) ->
  forall found : bool,
    foldM (fun (found : bool) l =>
             if found then ret true
             else
               assertM (varZ l <? Z.of_nat (length m)) ;;;
               v <- model_at m (varZ l) ;;
               ret (lit_true_under l v))
          cl found s
    = Some (found || clause_true_under m cl, s).
Proof.
  induction cl as [|x cl IH]; intros Hcov found.
  - cbn. rewrite orb_false_r. reflexivity.
  - cbn [foldM]. destruct found.
    + unfold bind at 1. cbn [ret]. rewrite IH; [reflexivity|].
      intros y Hy. apply Hcov. now right.
    + destruct (Hcov x) as [H0 Hlt]; [now left|].
      destruct (m !! Z.to_nat (varZ x)) as [v|] eqn:Hv.
      2:{ apply lookup_ge_None in Hv. lia. }
      assert (E : varZ x <? Z.of_nat (length m) = true) by (apply Z.ltb_lt; exact Hlt).
      rewrite E. cbn [assertM].
      unfold bind at 1. unfold bind at 1. cbn [ret].
      rewrite (bind_eq _ _ _ _ _ (model_at_eq m (varZ x) v s H0 Hv)). cbn [ret].
      rewrite IH by (intros y Hy; apply Hcov; now right).
      cbn [clause_true_under existsb orb]. fold (clause_true_under m cl).
      rewrite Hv. reflexivity.
Qed.

Lemma cost_under_cons (m : list lbool) (c : Soft) (l : list Soft) :
  cost_under m (c :: l)
  = (if clause_true_under m (clause c) then 0 else weight c) + cost_under m l.
Proof.
  unfold cost_under. rewrite filter_cons.
  destruct (clause_true_under m (clause c)).
  - rewrite decide_False by discriminate. lia.
  - rewrite decide_True by reflexivity. reflexivity.
Qed.

Lemma cost_under_bounds (m : list lbool) (l : list Soft) :
  weights_inrange l -> 0 <= cost_under m l <= total_weight l.
Proof.
  intros Hl. induction Hl as [|c l Hc Hl IH].
  - unfold cost_under. cbn. lia.
  - rewrite cost_under_cons. cbn [total_weight]. destruct Hc.
    destruct (clause_true_under m (clause c)); lia.
Qed.

Lemma cost_loop_eq (m : list lbool) (s : PMRES) (l : list Soft) :
  model_covers m l -> weights_inrange l ->
  forall acc,
    0 <= acc -> acc + total_weight l < U64.modulus ->
    foldM (fun currentCost c =>
             sat <- foldM (fun (found : bool) l =>
                             if found then ret true
                             else
                               assertM (varZ l <? Z.of_nat (length m)) ;;;
                               v <- model_at m (varZ l) ;;
                               ret (lit_true_under l v))
                          (clause c) false ;;
             ret (if sat : bool then currentCost else U64.add currentCost (weight c)))
          l acc s
    = Some (acc + cost_under m l, s).
Proof.
  induction l as [|c l IH]; intros Hcov Hin acc Hacc Hfit.
  - cbn. unfold cost_under. cbn. rewrite Z.add_0_r. reflexivity.
  - inversion Hin as [|? ? Hc Hl]; subst.
    cbn [foldM]. unfold bind at 1. unfold bind at 1.
    rewrite clause_loop_eq by (intros x Hx; apply (Hcov c x); [now left|exact Hx]).
    cbn [orb ret]. cbn [total_weight] in Hfit.
    pose proof (total_weight_nonneg l Hl) as Hnn.
    pose proof (cost_under_bounds m l Hl) as Hb.
    destruct Hc as [Hc0 Hc1].
    rewrite cost_under_cons.
    destruct (clause_true_under m (clause c)).
    + rewrite IH; [f_equal; f_equal; lia| |exact Hl|exact Hacc|lia].
      intros c' x Hc' Hx. apply (Hcov c' x); [now right|exact Hx].
    + rewrite u64_add_exact by lia.
      rewrite IH; [f_equal; f_equal; lia| |exact Hl|lia|lia].
      intros c' x Hc' Hx. apply (Hcov c' x); [now right|exact Hx].
Qed.

Lemma computeCostModelPMRES_eq (m : list lbool) (s : PMRES) :
  m <> [] ->
  model_covers m (soft_clauses (costComputingFormula s)) ->
  weights_inrange (soft_clauses (costComputingFormula s)) ->
  total_weight (soft_clauses (costComputingFormula s)) < U64.modulus ->
  computeCostModelPMRES m s
  = Some (cost_under m (soft_clauses (costComputingFormula s)), s).
Proof.
  intros Hm Hcov Hin Hfit. unfold computeCostModelPMRES.
  destruct m as [|v m]; [contradiction|].
  change (negb (length (v :: m) =? 0)%nat) with true. cbn [assertM].
  unfold bind at 1. cbn [ret]. unfold bind at 1. unfold gets at 1. unfold id.
  rewrite cost_loop_eq; [reflexivity|exact Hcov|exact Hin|lia|lia].
Qed.

(** X2: [computeCostModelPMRES] returns the sum of the weights of the
    soft clauses of the formula the search was given
    ([costComputingFormula]) none of whose literals is true under the
    model, without a change to the solver object; the cost lies between
    0 and the sum of all the weights, and a model that makes a literal
    of every soft clause true costs 0.  An empty model stops at the
    assertion. *)
Theorem computeCostModelPMRES_cost (m : list lbool) (s : PMRES) :
  m <> [] ->
  model_covers m (soft_clauses (costComputingFormula s)) ->
  weights_inrange (soft_clauses (costComputingFormula s)) ->
  total_weight (soft_clauses (costComputingFormula s)) < U64.modulus ->
  let l := soft_clauses (costComputingFormula s) in
  computeCostModelPMRES m s = Some (cost_under m l, s)
  /\ 0 <= cost_under m l <= total_weight l
  /\ ((forall c, c ∈ l -> clause_true_under m (clause c) = true) -> cost_under m l = 0)
  /\ computeCostModelPMRES [] s = None.
Proof.
  intros Hm Hcov Hin Hfit l.
  split; [apply computeCostModelPMRES_eq; assumption|].
  split; [apply cost_under_bounds; exact Hin|].
  split; [|reflexivity].
  intros Hall. subst l.
  induction (soft_clauses (costComputingFormula s)) as [|c l IH]; [reflexivity|].
  rewrite cost_under_cons, (Hall c) by (now left).
  rewrite IH; [reflexivity|..].
  - intros c' x Hc' Hx. apply (Hcov c' x); [now right|exact Hx].
  - now inversion Hin.
  - cbn [total_weight] in Hfit. inversion Hin as [|? ? [Hc0 _] _]; subst. lia.
  - intros c' Hc'. apply Hall. now right.
Qed.

Lemma model_covers_intro (m : list lbool) (l : list Soft) :
  Forall (fun c => Forall (fun x => 0 <= varZ x < Z.of_nat (length m)) (clause c)) l ->
  model_covers m l.
Proof.
  intros H c x Hc Hx. rewrite Forall_forall in H. specialize (H c Hc).
  rewrite Forall_forall in H. exact (H x Hx).
Qed.

Lemma computeCostModelPMRES_cost_witness :
  [l_True; l_False; l_True] <> []
  /\ model_covers [l_True; l_False; l_True]
       (soft_clauses (costComputingFormula st_four_five))
  /\ weights_inrange (soft_clauses (costComputingFormula st_four_five))
  /\ total_weight (soft_clauses (costComputingFormula st_four_five)) < U64.modulus
  /\ computeCostModelPMRES [l_True; l_False; l_True] st_four_five
     = Some (5, st_four_five)
  /\ computeCostModelPMRES [] st_four_five = None.
Proof.
  assert (H1 : [l_True; l_False; l_True] <> []) by discriminate.
  assert (H2 : model_covers [l_True; l_False; l_True]
                 (soft_clauses (costComputingFormula st_four_five))).
  { apply model_covers_intro.
    repeat constructor; vm_compute; try discriminate; reflexivity. }
  assert (H3 : weights_inrange (soft_clauses (costComputingFormula st_four_five))).
  { repeat constructor; vm_compute; try discriminate; reflexivity. }
  assert (H4 : total_weight (soft_clauses (costComputingFormula st_four_five))
               < U64.modulus) by (vm_compute; reflexivity).
  destruct (computeCostModelPMRES_cost _ _ H1 H2 H3 H4) as (Hc & _ & _ & Hn).
  split; [exact H1|]. split; [exact H2|]. split; [exact H3|]. split; [exact H4|].
  split; [exact Hc|exact Hn].
Defined.

(** ** Bounds: [checkGap] and [checkModel] *)

Lemma checkGap_eq (s : PMRES) :
  checkGap s
  = Some (tt, if U64.sub (ubCost s) (lbCost s) <? known_gap s
              then set_known_gap (U64.sub (ubCost s) (lbCost s)) s else s).
Proof.
  unfold checkGap, bind, gets, id.
  destruct (U64.sub (ubCost s) (lbCost s) <? known_gap s); reflexivity.
Qed.

(** X4: [checkGap] leaves [known_gap] at the smaller of its value and
    the 64-bit difference [ubCost - lbCost], writes nothing else, and a
    second call changes nothing. *)
Theorem checkGap_minimum (s : PMRES) :
  exists s',
    checkGap s = Some (tt, s')
    /\ known_gap s' = Z.min (known_gap s) (U64.sub (ubCost s) (lbCost s))
    /\ s' = set_known_gap (known_gap s') s
    /\ checkGap s' = Some (tt, s').
Proof.
  rewrite checkGap_eq.
  destruct (U64.sub (ubCost s) (lbCost s) <? known_gap s) eqn:E.
  - apply Z.ltb_lt in E. eexists. split; [reflexivity|].
    split; [cbn; lia|]. split; [reflexivity|].
    rewrite checkGap_eq. cbn [ubCost lbCost known_gap set_known_gap].
    rewrite Z.ltb_irrefl. reflexivity.
  - apply Z.ltb_ge in E. exists s. split; [reflexivity|].
    split; [lia|]. split; [apply PMRES_ext; reflexivity|].
    rewrite checkGap_eq. apply Z.ltb_ge in E. rewrite E. reflexivity.
Qed.

(** The cost of a model is read off [costComputingFormula] alone, and
    the solver object is left as it was. *)
Lemma clause_loop_indep (m : list lbool) (cl : Clause) :
  forall (found b : bool) (s1 s1' s2 : PMRES),
    foldM (fun (found : bool) l =>
             if found then ret true
             else
               assertM (varZ l <? Z.of_nat (length m)) ;;;
               v <- model_at m (varZ l) ;;
               ret (lit_true_under l v))
          cl found s1 = Some (b, s1') ->
    foldM (fun (found : bool) l =>
             if found then ret true
             else
               assertM (varZ l <? Z.of_nat (length m)) ;;;
               v <- model_at m (varZ l) ;;
               ret (lit_true_under l v))
          cl found s2 = Some (b, s2).
Proof.
  induction cl as [|x cl IH]; intros found b s1 s1' s2 H.
  - cbn in *. injection H as <- _. reflexivity.
  - cbn [foldM] in *. apply bind_Some in H as (b1 & s1a & Hb & H).
    assert (Hb2 : (if found then ret true
                   else
                     assertM (varZ x <? Z.of_nat (length m)) ;;;
                     v <- model_at m (varZ x) ;;
                     ret (lit_true_under x v)) s2 = Some (b1, s2)).
    { destruct found; [injection Hb as <- _; reflexivity|].
      apply bind_Some in Hb as ([] & s1b & Ha & Hb).
      apply assertM_Some in Ha as [Ha ->]. rewrite Ha. cbn [assertM].
      unfold bind at 1. cbn [ret].
      apply bind_Some in Hb as (v & s1c & Hv & Hb). injection Hb as <- _.
      unfold model_at in *. destruct (varZ x <? 0); [discriminate|].
      unfold vec_at in *. unfold bind.
      destruct (m !! Z.to_nat (varZ x)); [|discriminate].
      injection Hv as <- _. reflexivity. }
    rewrite (bind_eq _ _ _ _ _ Hb2). eapply IH. exact H.
Qed.

Lemma cost_loop_indep (m : list lbool) (l : list Soft) :
  forall (acc c : Z) (s1 s1' s2 : PMRES),
    foldM (fun currentCost c =>
             sat <- foldM (fun (found : bool) l =>
                             if found then ret true
                             else
                               assertM (varZ l <? Z.of_nat (length m)) ;;;
                               v <- model_at m (varZ l) ;;
                               ret (lit_true_under l v))
                          (clause c) false ;;
             ret (if sat : bool then currentCost else U64.add currentCost (weight c)))
          l acc s1 = Some (c, s1') ->
    foldM (fun currentCost c =>
             sat <- foldM (fun (found : bool) l =>
                             if found then ret true
                             else
                               assertM (varZ l <? Z.of_nat (length m)) ;;;
                               v <- model_at m (varZ l) ;;
                               ret (lit_true_under l v))
                          (clause c) false ;;
             ret (if sat : bool then currentCost else U64.add currentCost (weight c)))
          l acc s2 = Some (c, s2).
Proof.
  induction l as [|x l IH]; intros acc c s1 s1' s2 H.
  - cbn in *. injection H as <- _. reflexivity.
  - cbn [foldM] in *. apply bind_Some in H as (acc1 & s1a & Hb & H).
    apply bind_Some in Hb as (sat & s1b & Hsat & Hb). injection Hb as <- _.
    unfold bind at 1. unfold bind at 1.
    rewrite (clause_loop_indep m (clause x) false sat s1 s1b s2 Hsat). cbn [ret].
    eapply IH. exact H.
Qed.

Lemma computeCostModelPMRES_indep (m : list lbool) (c : Z) (s1 s1' s2 : PMRES) :
  computeCostModelPMRES m s1 = Some (c, s1') ->
  costComputingFormula s2 = costComputingFormula s1 ->
  computeCostModelPMRES m s2 = Some (c, s2).
Proof.
  unfold computeCostModelPMRES. intros H Hf.
  apply bind_Some in H as ([] & s1a & Ha & H). apply assertM_Some in Ha as [Ha ->].
  rewrite Ha. cbn [assertM]. unfold bind at 1. cbn [ret].
  apply bind_Some in H as (s0 & s1b & Hg & H). injection Hg as <- <-.
  unfold bind at 1. unfold gets at 1. unfold id in *. rewrite Hf.
  eapply cost_loop_indep. exact H.
Qed.

Lemma checkModel_eq (s : PMRES) (c : Z) :
  computeCostModelPMRES (model (solver s)) s = Some (c, s) ->
  checkModel s
  = Some (c <? ubCost s,
          if c <? ubCost s then
            set_known_gap (Z.min (known_gap s) (U64.sub c (lbCost s)))
              (set_bestModel (model (solver s)) (set_ubCost c s))
          else if (c =? ubCost s) && Nat.ltb (length (bestModel s)) (length (model (solver s)))
               then set_bestModel (model (solver s)) s else s).
Proof.
  intros Hc. unfold checkModel.
  unfold bind at 1. unfold gets at 1.
  rewrite (bind_eq _ _ _ _ _ Hc).
  unfold bind at 1. unfold gets at 1.
  destruct (c <? ubCost s) eqn:E.
  - unfold bind at 1. unfold bind at 1. unfold modify at 1.
    unfold bind at 1. unfold modify at 1. rewrite checkGap_eq.
    cbn [ubCost lbCost known_gap set_ubCost set_bestModel].
    unfold bind at 1. unfold gets at 1. unfold id.
    destruct (U64.sub c (lbCost s) <? known_gap s) eqn:G.
    + cbn [ubCost bestModel set_known_gap set_bestModel set_ubCost].
      rewrite Z.eqb_refl, Nat.ltb_irrefl. cbn [andb ret bind].
      apply Z.ltb_lt in G. rewrite Z.min_r by lia. reflexivity.
    + cbn [ubCost bestModel set_known_gap set_bestModel set_ubCost].
      rewrite Z.eqb_refl, Nat.ltb_irrefl. cbn [andb ret bind].
      apply Z.ltb_ge in G. rewrite Z.min_l by lia. reflexivity.
  - unfold bind at 1. cbn [ret]. unfold bind at 1. unfold gets at 1. unfold id.
    destruct ((c =? ubCost s) && Nat.ltb (length (bestModel s)) (length (model (solver s))));
      reflexivity.
Qed.

(** X3: with [c] the cost of the model the oracle holds, [checkModel]
    returns whether [c] is below [ubCost] and leaves [ubCost] at the
    smaller of the two; [lbCost] is not written and [known_gap] does
    not grow.  When the model is better it becomes [bestModel]; and if
    [bestModel] had the cost [ubCost] before, it has the cost [ubCost]
    afterwards. *)
Theorem checkModel_outcome (s : PMRES) (c : Z) :
  computeCostModelPMRES (model (solver s)) s = Some (c, s) ->
  exists s',
    checkModel s = Some (c <? ubCost s, s')
    /\ ubCost s' = Z.min (ubCost s) c
    /\ lbCost s' = lbCost s
    /\ known_gap s' <= known_gap s
    /\ (c < ubCost s -> bestModel s' = model (solver s))
    /\ (ubCost s < c -> bestModel s' = bestModel s)
    /\ (computeCostModelPMRES (bestModel s) s = Some (ubCost s, s) ->
        computeCostModelPMRES (bestModel s') s' = Some (ubCost s', s')).
Proof.
  intros Hc. rewrite (checkModel_eq s c Hc). eexists. split; [reflexivity|].
  destruct (c <? ubCost s) eqn:E.
  - apply Z.ltb_lt in E. cbn [ubCost lbCost known_gap bestModel set_known_gap
                             set_bestModel set_ubCost].
    split; [lia|]. split; [reflexivity|]. split; [lia|].
    split; [reflexivity|]. split; [lia|].
    intros _. eapply computeCostModelPMRES_indep; [exact Hc|reflexivity].
  - apply Z.ltb_ge in E.
    destruct ((c =? ubCost s) && Nat.ltb (length (bestModel s)) (length (model (solver s))))
      eqn:F.
    + apply andb_true_iff in F as [F _]. apply Z.eqb_eq in F.
      cbn [ubCost lbCost known_gap bestModel set_bestModel].
      split; [lia|]. split; [reflexivity|]. split; [lia|].
      split; [lia|]. split; [lia|].
      intros _. rewrite <- F.
      eapply computeCostModelPMRES_indep; [exact Hc|reflexivity].
    + split; [lia|]. split; [reflexivity|]. split; [lia|].
      split; [lia|]. split; [reflexivity|]. auto.
Qed.

Lemma checkModel_outcome_witness :
  computeCostModelPMRES (model (solver st_models_differ)) st_models_differ
  = Some (0, st_models_differ)
  /\ exists s',
      checkModel st_models_differ = Some (true, s')
      /\ ubCost s' = 0 /\ bestModel s' = [l_False].
Proof.
  assert (H : computeCostModelPMRES (model (solver st_models_differ)) st_models_differ
              = Some (0, st_models_differ)) by (vm_compute; reflexivity).
  split; [exact H|].
  destruct (checkModel_outcome _ _ H) as (s' & Hrun & Hub & _ & _ & Hbest & _).
  exists s'. split; [exact Hrun|]. split; [exact Hub|]. apply Hbest. reflexivity.
Defined.

(** ** The oracle and the formula: [updateSolver], [resetSolver] *)

Lemma updateSolver_eq (s : PMRES) :
  updateSolver s
  = Some (tt,
          set_softs_added (nSoft (maxsat_formula s))
            (set_clauses_added (nHard (maxsat_formula s))
               (set_vars_added (nVars (maxsat_formula s))
                  (set_solver
                     {| solver_nvars := solver_nvars (solver s)
                                        + (nVars (maxsat_formula s) - vars_added s);
                        solver_clauses := solver_clauses (solver s)
                                          ++ drop (clauses_added s)
                                                  (hard_clauses (maxsat_formula s));
                        model := model (solver s);
                        conflict := conflict (solver s) |} s)))).
Proof. reflexivity. Qed.

Lemma updateSolver_level (s : PMRES) :
  vars_added s = nVars (maxsat_formula s) ->
  clauses_added s = nHard (maxsat_formula s) ->
  softs_added s = nSoft (maxsat_formula s) ->
  updateSolver s = Some (tt, s).
Proof.
  intros Hv Hc Hs. rewrite updateSolver_eq. f_equal. f_equal.
  apply PMRES_ext; cbn; try reflexivity; try (symmetry; assumption).
  apply Solver_ext; cbn; try reflexivity.
  - rewrite Hv. lia.
  - rewrite Hc. unfold nHard. rewrite drop_all. apply app_nil_r.
Qed.

(** X5: [updateSolver] gives the oracle the hard clauses of the formula
    from [clauses_added] on, in the order of the formula, and brings
    the three counters level with the formula.  When the oracle held
    the first [clauses_added] hard clauses before, it holds exactly the
    hard clauses of the formula afterwards, [shouldUpdate] is false and
    a second [updateSolver] changes nothing. *)
Theorem updateSolver_delivers (s : PMRES) :
  oracle_in_step s ->
  exists s',
    updateSolver s = Some (tt, s')
    /\ solver_clauses (solver s')
       = solver_clauses (solver s)
         ++ drop (clauses_added s) (hard_clauses (maxsat_formula s))
    /\ solver_clauses (solver s') = hard_clauses (maxsat_formula s)
    /\ solver_nvars (solver s') = nVars (maxsat_formula s)
    /\ maxsat_formula s' = maxsat_formula s
    /\ vars_added s' = nVars (maxsat_formula s)
    /\ clauses_added s' = nHard (maxsat_formula s)
    /\ softs_added s' = nSoft (maxsat_formula s)
    /\ shouldUpdate s' = false
    /\ oracle_in_step s'
    /\ updateSolver s' = Some (tt, s').
Proof.
  intros (Hv & Hnv & Hc & Hcl). rewrite updateSolver_eq. eexists.
  split; [reflexivity|]. split; [reflexivity|].
  cbn [solver solver_clauses solver_nvars maxsat_formula vars_added clauses_added
       softs_added set_softs_added set_clauses_added set_vars_added set_solver].
  assert (Hall : solver_clauses (solver s)
                 ++ drop (clauses_added s) (hard_clauses (maxsat_formula s))
                 = hard_clauses (maxsat_formula s)) by (rewrite Hcl; apply take_drop).
  split; [exact Hall|]. split; [lia|]. split; [reflexivity|].
  split; [reflexivity|]. split; [reflexivity|]. split; [reflexivity|].
  split; [unfold shouldUpdate; apply Nat.ltb_irrefl|].
  split.
  - unfold oracle_in_step.
    cbn [solver solver_clauses solver_nvars maxsat_formula vars_added clauses_added
         softs_added set_softs_added set_clauses_added set_vars_added set_solver].
    split; [lia|]. split; [lia|]. split; [lia|].
    rewrite Hall. unfold nHard. symmetry. apply firstn_all.
  - apply updateSolver_level; reflexivity.
Qed.

Lemma updateSolver_delivers_witness :
  oracle_in_step st_after_core /\
  exists s',
    updateSolver st_after_core = Some (tt, s')
    /\ solver_clauses (solver s') = [[0; 2]; [1; 4]; [2; 4]; [6; 5]; [7; 4]; [3; 7; 8]]
    /\ shouldUpdate st_after_core = true /\ shouldUpdate s' = false.
Proof.
  assert (H : oracle_in_step st_after_core)
    by (repeat split; vm_compute; try reflexivity; lia).
  split; [exact H|].
  destruct (updateSolver_delivers st_after_core H)
    as (s' & Hrun & _ & Hcl & _ & _ & _ & _ & _ & Hsu & _).
  exists s'. split; [exact Hrun|]. split; [rewrite Hcl; reflexivity|].
  split; [reflexivity|exact Hsu].
Defined.

(** X6: whatever the oracle held, after [resetSolver] the new oracle
    holds the variables and exactly the hard clauses of the formula in
    their order, with no model and no conflict; the counters are level
    with the formula, and nothing else of the solver object is
    changed. *)
Theorem resetSolver_rebuilds (s : PMRES) :
  exists s',
    resetSolver s = Some (tt, s')
    /\ solver s'
       = mkSolver (nVars (maxsat_formula s)) (hard_clauses (maxsat_formula s)) [] []
    /\ vars_added s' = nVars (maxsat_formula s)
    /\ clauses_added s' = nHard (maxsat_formula s)
    /\ softs_added s' = nSoft (maxsat_formula s)
    /\ oracle_in_step s'
    /\ shouldUpdate s' = false
    /\ s' = set_softs_added (softs_added s')
              (set_clauses_added (clauses_added s')
                 (set_vars_added (vars_added s') (set_solver (solver s') s))).
Proof.
  unfold resetSolver, bind, modify. rewrite updateSolver_eq.
  eexists. split; [reflexivity|].
  cbn [solver maxsat_formula vars_added clauses_added softs_added set_softs_added
       set_clauses_added set_vars_added set_solver newSATSolver solver_nvars
       solver_clauses model conflict].
  split; [rewrite Nat.sub_0_r; reflexivity|].
  split; [reflexivity|]. split; [reflexivity|]. split; [reflexivity|].
  split.
  - unfold oracle_in_step.
    cbn [solver maxsat_formula vars_added clauses_added softs_added set_softs_added
         set_clauses_added set_vars_added set_solver newSATSolver solver_nvars
         solver_clauses model conflict].
    split; [lia|]. split; [lia|]. split; [lia|].
    unfold nHard. rewrite firstn_all. reflexivity.
  - split; [unfold shouldUpdate; apply Nat.ltb_irrefl|].
    apply PMRES_ext; reflexivity.
Qed.

(** ** The working weight: [resetMaximumWeight], [updateCurrentWeight] *)

(** X7: [resetMaximumWeight] sets the working weight to the largest
    weight of a soft clause, and to 1 when no soft clause has a weight
    above 1 (in particular when there is no soft clause); the soft
    clauses are left as they were. *)
Theorem resetMaximumWeight_maximum (s : PMRES) :
  exists s',
    resetMaximumWeight s = Some (tt, s')
    /\ s' = set_maxsat_formula
              (setMaximumWeight (getMaximumWeight (maxsat_formula s')) (maxsat_formula s)) s
    /\ 1 <= getMaximumWeight (maxsat_formula s')
    /\ (forall c, c ∈ softs s -> weight c <= getMaximumWeight (maxsat_formula s'))
    /\ (getMaximumWeight (maxsat_formula s') = 1
        \/ exists c, c ∈ softs s /\ weight c = getMaximumWeight (maxsat_formula s'))
    /\ ((forall c, c ∈ softs s -> weight c <= 1) ->
        getMaximumWeight (maxsat_formula s') = 1).
Proof.
  eexists. split; [reflexivity|]. split; [reflexivity|].
  cbn [maxsat_formula set_maxsat_formula getMaximumWeight setMaximumWeight
       max_soft_weight].
  destruct (max_weight_of_fold (softs s) 1) as (Hle & Hall & Hex).
  cbn beta zeta in Hle, Hall, Hex. fold (reset_weight s) in Hle, Hall, Hex.
  split; [exact Hle|]. split; [exact Hall|]. split; [exact Hex|].
  intros Hsmall. unfold id. destruct Hex as [H1 | (c & Hc & Hw)]; [exact H1|].
  specialize (Hsmall c Hc). lia.
Qed.

Lemma findNextWeight_range (s : PMRES) (w : Z) :
  1 <= findNextWeight s w
  /\ (1 < w -> findNextWeight s w < w)
  /\ (findNextWeight s w = 1
      \/ exists c, c ∈ softs s /\ weight c = findNextWeight s w)
  /\ (forall c, c ∈ softs s -> weight c < w -> weight c <= findNextWeight s w).
Proof.
  unfold findNextWeight.
  destruct (findNextWeight_fold w (softs s) 1) as (Hle & Hex & Hall).
  cbn beta zeta in Hle, Hex, Hall.
  split; [exact Hle|]. split; [|split; [|exact Hall]].
  - intros Hw. destruct Hex as [-> | (_ & Hlt)]; [exact Hw|exact Hlt].
  - destruct Hex as [H1 | (Hc & _)]; [left; exact H1|right; exact Hc].
Qed.

(** X8: under the normal weight strategy (no varying resolution)
    [updateCurrentWeight] replaces the working weight [w] by
    [findNextWeight w]: a weight of a soft clause or 1, never below 1,
    strictly below [w] when [w] is above 1, and not below any soft
    weight that is below [w].  So the strata go down to 1 and stay
    there. *)
Theorem updateCurrentWeight_normal (fuel : nat) (s : PMRES) :
  varyingresCG (opts s) = false ->
  let w := getMaximumWeight (maxsat_formula s) in
  exists s',
    updateCurrentWeight fuel _WEIGHT_NORMAL_ s = Some (tt, s')
    /\ s' = set_maxsat_formula
              (setMaximumWeight (getMaximumWeight (maxsat_formula s')) (maxsat_formula s)) s
    /\ 1 <= getMaximumWeight (maxsat_formula s')
    /\ (1 < w -> getMaximumWeight (maxsat_formula s') < w)
    /\ (w <= 1 -> getMaximumWeight (maxsat_formula s') = 1)
    /\ (getMaximumWeight (maxsat_formula s') = 1
        \/ exists c, c ∈ softs s /\ weight c = getMaximumWeight (maxsat_formula s'))
    /\ (forall c, c ∈ softs s -> weight c < w ->
          weight c <= getMaximumWeight (maxsat_formula s')).
Proof.
  intros Hv w. unfold updateCurrentWeight.
  cbn [assertM]. unfold bind at 1. cbn [ret]. unfold bind at 1. unfold gets at 1.
  unfold id. rewrite Hv. cbn [negb].
  eexists. split; [reflexivity|]. split; [reflexivity|].
  cbn [maxsat_formula set_maxsat_formula getMaximumWeight setMaximumWeight
       max_soft_weight].
  fold (getMaximumWeight (maxsat_formula s)). fold w.
  destruct (findNextWeight_range s w) as (H1 & Hlt & Hex & Hall).
  split; [exact H1|]. split; [exact Hlt|]. split; [|split; [exact Hex|exact Hall]].
  intros Hw. destruct Hex as [H|(c & Hc & Hwc)]; [exact H|].
  unfold findNextWeight in *.
  destruct (findNextWeight_fold w (softs s) 1) as (_ & Hex' & _).
  cbn beta zeta in Hex'. destruct Hex' as [H | (_ & Hlt')]; [exact H|lia].
Qed.

Lemma updateCurrentWeight_normal_witness :
  exists s',
    updateCurrentWeight 0 _WEIGHT_NORMAL_ st_five_three = Some (tt, s')
    /\ getMaximumWeight (maxsat_formula s') = 3.
Proof.
  destruct (updateCurrentWeight_normal 0 st_five_three eq_refl)
    as (s' & Hrun & Hs' & _).
  exists s'. split; [exact Hrun|].
  vm_compute in Hrun. injection Hrun as <-. reflexivity.
Defined.

(** ** The count of hardened clauses: [num_hardened], [nRealSoft] *)

Lemma zero_weights_cons (c : Soft) (l : list Soft) :
  zero_weights (c :: l)
  = ((if decide (weight c = 0)%Z then 1 else 0) + zero_weights l)%nat.
Proof.
  unfold zero_weights. rewrite filter_cons.
  destruct (decide (weight c = 0)); reflexivity.
Qed.

Lemma zero_weights_app (l1 l2 : list Soft) :
  zero_weights (l1 ++ l2) = (zero_weights l1 + zero_weights l2)%nat.
Proof. unfold zero_weights. rewrite filter_app, length_app. reflexivity. Qed.

Lemma zero_weights_insert (l : list Soft) (i : nat) (c c' : Soft) :
  l !! i = Some c -> weight c <> 0 ->
  zero_weights (<[i := c']> l)
  = ((if decide (weight c' = 0)%Z then 1 else 0) + zero_weights l)%nat.
Proof.
  revert i. induction l as [|x l IH]; intros i Hi Hc; [discriminate|].
  destruct i as [|i].
  - injection Hi as ->.
    change (<[0%nat := c']> (c :: l)) with (c' :: l).
    rewrite !zero_weights_cons. rewrite (decide_False (P := weight c = 0)) by exact Hc.
    reflexivity.
  - change (<[S i := c']> (x :: l)) with (x :: <[i := c']> l).
    rewrite !zero_weights_cons. rewrite (IH i Hi Hc). lia.
Qed.

Lemma zero_weights_none (l : list Soft) :
  (forall c, c ∈ l -> weight c <> 0) -> zero_weights l = 0%nat.
Proof.
  induction l as [|c l IH]; intros H; [reflexivity|].
  rewrite zero_weights_cons, decide_False by (apply H; now left).
  apply IH. intros c' Hc'. apply H. now right.
Qed.

(** Under the invariant [nRealSoft] is the number of soft clauses
    whose weight is not 0. *)
Lemma nRealSoft_counts (s : PMRES) :
  num_hardened s = zero_weights (softs s) ->
  nRealSoft s = Z.of_nat (length (filter (fun c => weight c <> 0) (softs s))).
Proof.
  intros H. unfold nRealSoft, nSoft. fold (softs s). rewrite H. clear H.
  unfold zero_weights.
  induction (softs s) as [|c l IH]; [reflexivity|].
  rewrite !filter_cons. destruct (decide (weight c = 0)) as [E|E].
  - rewrite decide_False by (intros N; apply N; exact E).
    cbn [length] in *. lia.
  - rewrite decide_True by exact E. cbn [length] in *. lia.
Qed.

Lemma relaxCore_body_counted (w l : Z) (s s' : PMRES) :
  0 < w ->
  relaxCore_body w l s = Some (tt, s') ->
  hardened_counted s -> hardened_counted s'.
Proof.
  intros Hw H [Hn Ha]. rewrite relaxCore_body_eq in H.
  destruct (softs s !! cm_get (coreMapping s) l) as [c|] eqn:Hc; [|discriminate].
  destruct (weight c >=? w) eqn:Hge; [|discriminate].
  injection H as <-. apply Z.geb_le in Hge.
  assert (Hnz : weight c <> 0) by lia.
  split.
  - change (softs (relaxed_at w l c s))
      with (<[cm_get (coreMapping s) l := relax_soft w c]> (softs s)).
    change (num_hardened (relaxed_at w l c s))
      with (if weight (relax_soft w c) =? 0 then S (num_hardened s) else num_hardened s).
    rewrite (zero_weights_insert _ _ c _ Hc Hnz), Hn.
    destruct (weight (relax_soft w c) =? 0) eqn:E.
    + apply Z.eqb_eq in E. rewrite decide_True by exact E. reflexivity.
    + apply Z.eqb_neq in E. rewrite decide_False by exact E. reflexivity.
  - change (softs (relaxed_at w l c s))
      with (<[cm_get (coreMapping s) l := relax_soft w c]> (softs s)).
    intros c' Hc' Hz. apply list_elem_of_lookup in Hc' as (j & Hj).
    apply list_lookup_insert_Some in Hj as [(_ & Hcc & _) | (_ & Hj)].
    + subst c'. unfold relax_soft in *.
      destruct (weight (set_weight (U64.sub (weight c) w) c) =? 0) eqn:E.
      * reflexivity.
      * apply Z.eqb_neq in E. contradiction.
    + apply Ha; [|exact Hz]. apply list_elem_of_lookup. eauto.
Qed.

Lemma relaxCore_loop_counted (w : Z) (conflict0 : list Z) :
  0 < w ->
  forall s s',
    for_each conflict0 (relaxCore_body w) s = Some (tt, s') ->
    hardened_counted s -> hardened_counted s'.
Proof.
  intros Hw. induction conflict0 as [|l conflict0 IH]; intros s s' H Hs.
  - injection H as <-. exact Hs.
  - cbn [for_each] in H. apply bind_Some in H as ([] & s1 & Hb & H).
    apply (IH s1 s' H). exact (relaxCore_body_counted w l s s1 Hw Hb Hs).
Qed.

Lemma new_softs_weight (nv n : nat) (w : Z) (c : Soft) :
  c ∈ new_softs nv n w -> weight c = w.
Proof.
  unfold new_softs. intros H. apply list_elem_of_fmap in H as (i & -> & _). reflexivity.
Qed.

Lemma relaxCore_counted (conflict0 : list Z) (w : Z) (s s' : PMRES) :
  relaxCore conflict0 w s = Some (tt, s') ->
  hardened_counted s -> hardened_counted s'.
Proof.
  unfold relaxCore. intros H Hs.
  apply bind_Some in H as ([] & s0 & Ha & H). apply assertM_Some in Ha as [Hlen ->].
  apply bind_Some in H as ([] & s0 & Ha & H). apply assertM_Some in Ha as [Hw ->].
  apply Z.gtb_lt in Hw.
  apply bind_Some in H as ([] & s1 & Hloop & H).
  pose proof (relaxCore_loop_counted w conflict0 Hw s s1 Hloop Hs) as [Hn1 Ha1].
  apply bind_Some in H as ([] & s2 & Henc & H).
  unfold modify in H. injection H as <-.
  assert (Hne : conflict0 <> []) by (destruct conflict0; [discriminate|discriminate]).
  rewrite (encodeMaxRes_result s1 conflict0 w Hne) in Henc. injection Henc as <-.
  split.
  - cbn [num_hardened set_sumSizeCores put_formula set_coreMapping set_maxsat_formula].
    change (softs (set_sumSizeCores _ (put_formula ?nv ?h ?sf ?cm s1))) with sf.
    rewrite zero_weights_app, Hn1.
    rewrite (zero_weights_none (new_softs _ _ w)); [lia|].
    intros c Hc. rewrite (new_softs_weight _ _ _ _ Hc). lia.
  - change (softs (set_sumSizeCores _ (put_formula ?nv ?h ?sf ?cm s1))) with sf.
    intros c Hc Hz. apply elem_of_app in Hc as [Hc|Hc]; [apply Ha1; assumption|].
    rewrite (new_softs_weight _ _ _ _ Hc) in Hz. lia.
Qed.

(** X9: [relaxCore] keeps the count of hardened clauses exact: if
    [num_hardened] is the number of soft clauses of weight 0 and a soft
    clause of weight 0 has no assumption, the same holds afterwards, so
    that [nRealSoft] is the number of soft clauses whose weight is not
    0.  No assumption on the conflict is needed: the assertions of
    [relaxCore] suffice. *)
Theorem relaxCore_keeps_count (conflict0 : list Z) (w : Z) (s s' : PMRES) :
  relaxCore conflict0 w s = Some (tt, s') ->
  hardened_counted s ->
  hardened_counted s'
  /\ nRealSoft s' = Z.of_nat (length (filter (fun c => weight c <> 0) (softs s'))).
Proof.
  intros H Hs. pose proof (relaxCore_counted conflict0 w s s' H Hs) as Hs'.
  split; [exact Hs'|]. apply nRealSoft_counts. exact (proj1 Hs').
Qed.

Lemma hardened_counted_intro (s : PMRES) :
  num_hardened s = zero_weights (softs s) ->
  Forall (fun c => weight c = 0 -> assumption_var c = lit_Undef) (softs s) ->
  hardened_counted s.
Proof.
  intros Hn Ha. split; [exact Hn|]. rewrite Forall_forall in Ha. exact Ha.
Qed.

Lemma relaxCore_keeps_count_witness :
  hardened_counted st_five_three /\
  exists s',
    relaxCore [0; 2] 3 st_five_three = Some (tt, s')
    /\ hardened_counted s'
    /\ num_hardened s' = 1%nat
    /\ nRealSoft s' = 2.
Proof.
  assert (H0 : hardened_counted st_five_three).
  { apply hardened_counted_intro; [reflexivity|].
    repeat constructor; vm_compute; intros; discriminate. }
  split; [exact H0|].
  eexists. split; [vm_compute; reflexivity|].
  match goal with
  | |- hardened_counted ?s' /\ _ =>
      assert (Hrun : relaxCore [0; 2] 3 st_five_three = Some (tt, s'))
        by (vm_compute; reflexivity);
      destruct (relaxCore_keeps_count _ _ _ _ Hrun H0) as [H1 H2]
  end.
  split; [exact H1|]. split; [reflexivity|]. reflexivity.
Defined.

(** The hardener, when it returns, has passed its assertions at every
    soft clause it went through. *)
Lemma hardenClauses_ready_all (s s' : PMRES) :
  hardenClauses s = Some (tt, s') ->
  forall i, (i < softs_added s)%nat -> ready_at s i.
Proof.
  unfold hardenClauses. intros H.
  apply bind_Some in H as (bound & s0 & Hg & H). injection Hg as <- <-.
  apply bind_Some in H as ([] & s0 & Hm & H). injection Hm as <-.
  apply bind_Some in H as (n & s0 & Hg & H). injection Hg as <- <-.
  change (softs_added (set_maxw_nothardened 0 s)) with (softs_added s) in H.
  unfold for_upto in H.
  pose proof (for_each_from_partial
                (fun k s1 => s1 = hardened_state s k
                             /\ forall i, (i < k)%nat -> ready_at s i)
                (hardenClauses_body (U64.sub (ubCost s) (lbCost s)))
                (softs_added s) 0 (set_maxw_nothardened 0 s) s') as Hinv.
  cbn beta in Hinv. apply Hinv.
  - split; [symmetry; apply hardened_state_0|]. intros i Hi. lia.
  - intros i s1 s2 _ [-> Hprev] Hbody.
    pose proof (hardenClauses_body_inv s i s2 Hbody) as Hready.
    rewrite (hardenClauses_body_step s i Hready) in Hbody.
    injection Hbody as <-. split; [reflexivity|].
    intros j Hj. destruct (Nat.eq_dec j i) as [->|Hne]; [exact Hready|].
    apply Hprev. lia.
  - exact H.
Qed.

Lemma zero_weights_hardened (m : list lbool) (s : PMRES) (l : list Soft) :
  (forall c, c ∈ l -> to_harden m s c = true -> weight c <> 0) ->
  zero_weights (map (fun c => if to_harden m s c then hardened c else c) l)
  = (zero_weights l + length (filter (fun c => to_harden m s c = true) l))%nat.
Proof.
  induction l as [|c l IH]; intros H; [reflexivity|].
  cbn [map]. rewrite filter_cons.
  specialize (IH (fun c' Hc' => H c' (list_elem_of_further _ _ _ Hc'))).
  destruct (to_harden m s c) eqn:E.
  - rewrite decide_True by reflexivity. rewrite !zero_weights_cons, IH.
    rewrite (decide_True (P := weight (hardened c) = 0)) by reflexivity.
    rewrite (decide_False (P := weight c = 0)) by (apply H; [now left|exact E]).
    cbn [length]. lia.
  - rewrite decide_False by discriminate. rewrite !zero_weights_cons, IH. lia.
Qed.

Lemma hardenClauses_counted (s s' : PMRES) :
  hardenClauses s = Some (tt, s') ->
  hardened_counted s -> hardened_counted s'.
Proof.
  intros H [Hn Ha].
  pose proof (hardenClauses_ready_all s s' H) as Hready.
  apply hardenClauses_result in H. subst s'.
  set (n := softs_added s) in *. set (m := model (solver s)).
  assert (Hnz : forall c, c ∈ take n (softs s) -> to_harden m s c = true -> weight c <> 0).
  { intros c Hc Hth Hz. apply elem_of_take in Hc as (i & Hi & Hlt).
    destruct (Hready i Hlt) as (c0 & Hc0 & _ & Hass).
    rewrite Hi in Hc0. injection Hc0 as <-.
    apply (Hass Hth). apply Ha; [|exact Hz]. apply list_elem_of_lookup. eauto. }
  split.
  - rewrite softs_hardened_state. fold m n.
    rewrite zero_weights_app, (zero_weights_hardened m s _ Hnz).
    assert (Hsplit : zero_weights (softs s)
                     = (zero_weights (take n (softs s))
                        + zero_weights (drop n (softs s)))%nat)
      by (rewrite <- zero_weights_app, take_drop; reflexivity).
    unfold hardened_state. fold m n.
    destruct (hardenLazily s);
      cbn [num_hardened set_num_hardened]; unfold hardened_upto; fold m n; lia.
  - rewrite softs_hardened_state. fold m n. intros c Hc Hz.
    apply elem_of_app in Hc as [Hc|Hc].
    + apply list_elem_of_fmap in Hc as (c0 & -> & Hc0).
      destruct (to_harden m s c0); [reflexivity|].
      apply Ha; [|exact Hz]. apply elem_of_take in Hc0 as (i & Hi & _).
      apply list_elem_of_lookup. eauto.
    + apply Ha; [|exact Hz]. apply list_elem_of_lookup in Hc as (i & Hi).
      rewrite lookup_drop in Hi. apply list_elem_of_lookup. eauto.
Qed.

Lemma max_weight_of_kept (s : PMRES) (k : nat) :
  0 <= max_weight_of (kept_upto s k) <= U64.sub (ubCost s) (lbCost s).
Proof.
  unfold max_weight_of.
  destruct (max_weight_of_fold (kept_upto s k) 0) as (Hle & _ & Hex).
  cbn beta zeta in Hle, Hex. split; [exact Hle|].
  assert (H0 : 0 <= U64.sub (ubCost s) (lbCost s)).
  { unfold U64.sub, U64.wrap. apply Z.mod_pos_bound. reflexivity. }
  destruct Hex as [-> | (c & Hc & <-)]; [exact H0|].
  unfold kept_upto in Hc. apply list_elem_of_filter in Hc as [Hth _].
  unfold to_harden in Hth. apply orb_false_iff in Hth as [Hgt _].
  rewrite Z.gtb_ltb in Hgt. apply Z.ltb_ge in Hgt. exact Hgt.
Qed.

(** X10: [hardenClauses] keeps the count of hardened clauses exact
    (with [num_hardened] the number of soft clauses of weight 0 before,
    it is so afterwards), and it leaves [maxw_nothardened] at most the
    gap [ubCost - lbCost]: the test [ubCost - lbCost < maxw_nothardened]
    of the drivers is false right after a hardening. *)
Theorem hardenClauses_keeps_count (s s' : PMRES) :
  hardenClauses s = Some (tt, s') ->
  hardened_counted s ->
  hardened_counted s'
  /\ nRealSoft s' = Z.of_nat (length (filter (fun c => weight c <> 0) (softs s')))
  /\ 0 <= maxw_nothardened s' <= U64.sub (ubCost s') (lbCost s')
  /\ (U64.sub (ubCost s') (lbCost s') <? maxw_nothardened s') = false.
Proof.
  intros H Hs. pose proof (hardenClauses_counted s s' H Hs) as Hs'.
  split; [exact Hs'|]. split; [apply nRealSoft_counts; exact (proj1 Hs')|].
  apply hardenClauses_result in H. subst s'.
  assert (Hb : 0 <= maxw_nothardened (hardened_state s (softs_added s))
               <= U64.sub (ubCost (hardened_state s (softs_added s)))
                          (lbCost (hardened_state s (softs_added s)))).
  { unfold hardened_state. destruct (hardenLazily s);
      cbn [maxw_nothardened ubCost lbCost set_num_hardened set_maxsat_formula set_solver
           set_maxw_nothardened]; apply max_weight_of_kept. }
  split; [exact Hb|]. apply Z.ltb_ge. lia.
Qed.

Lemma hardenClauses_keeps_count_witness :
  hardened_counted st_models_differ /\
  exists s',
    hardenClauses st_models_differ = Some (tt, s')
    /\ hardened_counted s'
    /\ num_hardened s' = 1%nat
    /\ maxw_nothardened s' = 0.
Proof.
  assert (H0 : hardened_counted st_models_differ).
  { apply hardened_counted_intro; [reflexivity|].
    repeat constructor; vm_compute; intros; discriminate. }
  split; [exact H0|].
  eexists. split; [vm_compute; reflexivity|].
  match goal with
  | |- hardened_counted ?s' /\ _ =>
      assert (Hrun : hardenClauses st_models_differ = Some (tt, s'))
        by (vm_compute; reflexivity);
      destruct (hardenClauses_keeps_count _ _ Hrun H0) as [H1 _]
  end.
  split; [exact H1|]. split; reflexivity.
Defined.

(** ** Varying resolution comes to an end *)

Lemma filter_length_iff {A} (P Q : A -> Prop) `{!forall x, Decision (P x)}
      `{!forall x, Decision (Q x)} (l : list A) :
  (forall x, x ∈ l -> P x <-> Q x) ->
  length (filter P l) = length (filter Q l).
Proof.
  induction l as [|x l IH]; intros Hall; [reflexivity|].
  rewrite !filter_cons.
  specialize (IH (fun y Hy => Hall y (list_elem_of_further _ _ _ Hy))).
  destruct (decide (P x)) as [p|p], (decide (Q x)) as [q|q]; cbn [length];
    try (rewrite IH; reflexivity).
  - exfalso. apply q, (Hall x); [now left|exact p].
  - exfalso. apply p, (Hall x); [now left|exact q].
Qed.

(** At the candidate 1 the clauses counted are those of weight other
    than 0, whose number is [nRealSoft]. *)
Lemma enough_above_one (s : PMRES) :
  hardened_counted s -> weights_inrange (softs s) -> enough_above s 1 = true.
Proof.
  intros [Hn _] Hin. unfold enough_above. rewrite softs_above_counts. cbn [fst snd].
  apply orb_true_iff. right. apply Z.eqb_eq.
  rewrite (nRealSoft_counts s Hn). f_equal. unfold at_or_above.
  apply filter_length_iff. intros c Hc.
  unfold weights_inrange in Hin. rewrite Forall_forall in Hin.
  destruct (Hin c Hc) as [H0 _]. lia.
Qed.

Lemma first_true (P : nat -> bool) (n : nat) :
  P n = true ->
  exists k, (k <= n)%nat /\ P k = true /\ forall j, (j < k)%nat -> P j = false.
Proof.
  revert P. induction n as [|n IH]; intros P Hn.
  - exists 0%nat. split; [lia|]. split; [exact Hn|]. intros j Hj. lia.
  - destruct (P 0%nat) eqn:H0.
    + exists 0%nat. split; [lia|]. split; [exact H0|]. intros j Hj. lia.
    + destruct (IH (fun i => P (S i)) Hn) as (k & Hk & Hpk & Hbefore).
      exists (S k). split; [lia|]. split; [exact Hpk|].
      intros [|j] Hj; [exact H0|]. apply Hbefore. lia.
Qed.

Lemma divided_S (factor cand : Z) (k : nat) :
  divided factor (S k) cand = divided factor k cand / factor.
Proof. reflexivity. Qed.

Lemma divided_pow (factor : Z) (e j : nat) :
  2 <= factor -> (j <= e)%nat ->
  divided factor j (factor ^ Z.of_nat e) = factor ^ Z.of_nat (e - j).
Proof.
  intros Hf. induction j as [|j IH]; intros Hj.
  - rewrite Nat.sub_0_r. reflexivity.
  - rewrite divided_S, IH by lia.
    replace (Z.of_nat (e - j)) with (Z.succ (Z.of_nat (e - S j))) by lia.
    rewrite Z.pow_succ_r by lia. rewrite Z.mul_comm. apply Z.div_mul. lia.
Qed.

(** The chain of divisions from a power of the factor meets the
    predicate at 1 at the latest. *)
Lemma first_enough_power (s : PMRES) (factor : Z) (e : nat) :
  2 <= factor -> hardened_counted s -> weights_inrange (softs s) ->
  exists k, (k <= e)%nat
            /\ enough_above s (factor ^ Z.of_nat (e - k)) = true
            /\ (forall j, (j < k)%nat ->
                  enough_above s (divided factor j (factor ^ Z.of_nat e)) = false)
            /\ divided factor k (factor ^ Z.of_nat e) = factor ^ Z.of_nat (e - k).
Proof.
  intros Hf Hs Hin.
  destruct (first_true (fun j => enough_above s (divided factor j (factor ^ Z.of_nat e))) e)
    as (k & Hk & Hpk & Hbefore).
  - cbn beta. rewrite divided_pow, Nat.sub_diag by lia. apply enough_above_one; assumption.
  - exists k. split; [exact Hk|]. cbn beta in Hpk.
    rewrite divided_pow in Hpk by lia. split; [exact Hpk|].
    split; [exact Hbefore|]. apply divided_pow; lia.
Qed.

(** X11: in varying resolution, after a first model, with a factor of
    at least 2 and the working weight a power [factor ^ (e+1)] of
    [varresFactor], [updateDivisionFactor] returns when [num_hardened]
    is the number of soft clauses of weight 0: it sets the working
    weight to a smaller power of the factor, at least 1, namely the
    first of [factor ^ e], [factor ^ (e-1)], ... for which the
    predicate of [enoughSoftAboveWeight] holds.  The loop ends because
    at weight 1 the clauses counted are [nRealSoft] many. *)
Theorem updateDivisionFactor_terminates (s : PMRES) (e fuel : nat) :
  let factor := varresFactor (opts s) in
  2 <= factor -> (0 < nbSatisfiable s)%nat ->
  hardened_counted s -> weights_inrange (softs s) ->
  getMaximumWeight (maxsat_formula s) = factor ^ Z.of_nat (S e) ->
  (e <= fuel)%nat ->
  exists k, (k <= e)%nat
    /\ updateDivisionFactor fuel s
       = Some (tt, set_maxsat_formula
                     (setMaximumWeight (factor ^ Z.of_nat (e - k)) (maxsat_formula s)) s)
    /\ 1 <= factor ^ Z.of_nat (e - k) < getMaximumWeight (maxsat_formula s)
    /\ enough_above s (factor ^ Z.of_nat (e - k)) = true
    /\ forall j, (j < k)%nat -> enough_above s (factor ^ Z.of_nat (e - j)) = false.
Proof.
  intros factor Hf Hsat Hs Hin Hmw Hfuel.
  destruct (first_enough_power s factor e Hf Hs Hin) as (k & Hk & Hpk & Hbefore & Hdiv).
  exists k. split; [exact Hk|].
  assert (Hq : getMaximumWeight (maxsat_formula s) / factor = factor ^ Z.of_nat e).
  { rewrite Hmw, Nat2Z.inj_succ, Z.pow_succ_r by lia.
    rewrite Z.mul_comm. apply Z.div_mul. lia. }
  split; [|split; [|split; [exact Hpk|]]].
  - unfold updateDivisionFactor.
    rewrite (bind_eq _ _ s s s) by reflexivity. cbn zeta. fold factor.
    unfold u64_div at 1. destruct (factor =? 0) eqn:E; [apply Z.eqb_eq in E; lia|].
    unfold bind at 1. cbn [ret]. rewrite Hq.
    rewrite (bind_eq _ _ s (divided factor k (factor ^ Z.of_nat e)) s).
    + rewrite Hdiv. reflexivity.
    + apply (divide_until_enough_spec factor s); [lia|exact Hsat|lia|exact Hbefore|].
      rewrite Hdiv. exact Hpk.
  - rewrite Hmw. split.
    + assert (0 < factor ^ Z.of_nat (e - k)) by (apply Z.pow_pos_nonneg; lia). lia.
    + apply Z.pow_lt_mono_r; lia.
  - intros j Hj. rewrite <- (divided_pow factor e j) by lia. apply Hbefore. exact Hj.
Qed.

Lemma hardened_counted_three_nines_at_eight : hardened_counted st_three_nines_at_eight.
Proof.
  apply hardened_counted_intro; [reflexivity|].
  repeat constructor; vm_compute; intros; discriminate.
Qed.

Lemma weights_inrange_three_nines_at_eight :
  weights_inrange (softs st_three_nines_at_eight).
Proof. repeat constructor; vm_compute; try discriminate; reflexivity. Qed.

Lemma updateDivisionFactor_terminates_witness :
  2 <= varresFactor (opts st_three_nines_at_eight)
  /\ (0 < nbSatisfiable st_three_nines_at_eight)%nat
  /\ hardened_counted st_three_nines_at_eight
  /\ weights_inrange (softs st_three_nines_at_eight)
  /\ getMaximumWeight (maxsat_formula st_three_nines_at_eight) = 2 ^ Z.of_nat 3
  /\ exists k, (k <= 2)%nat
       /\ updateDivisionFactor 2 st_three_nines_at_eight
          = Some (tt, set_maxsat_formula
                        (setMaximumWeight (2 ^ Z.of_nat (2 - k))
                           (maxsat_formula st_three_nines_at_eight))
                        st_three_nines_at_eight)
       /\ enough_above st_three_nines_at_eight (2 ^ Z.of_nat (2 - k)) = true.
Proof.
  assert (H1 : 2 <= varresFactor (opts st_three_nines_at_eight))
    by (vm_compute; discriminate).
  assert (H2 : (0 < nbSatisfiable st_three_nines_at_eight)%nat) by (vm_compute; lia).
  assert (H3 : getMaximumWeight (maxsat_formula st_three_nines_at_eight)
               = 2 ^ Z.of_nat 3) by reflexivity.
  split; [exact H1|]. split; [exact H2|].
  split; [exact hardened_counted_three_nines_at_eight|].
  split; [exact weights_inrange_three_nines_at_eight|]. split; [exact H3|].
  destruct (updateDivisionFactor_terminates st_three_nines_at_eight 2 2 H1 H2
              hardened_counted_three_nines_at_eight
              weights_inrange_three_nines_at_eight H3 (le_n 2))
    as (k & Hk & Hrun & _ & Hen & _).
  exists k. split; [exact Hk|]. split; [exact Hrun|exact Hen].
Defined.

(** X12: after a first model and with a factor of at least 2,
    [initializeDivisionFactor(true)] returns whenever [num_hardened] is
    the number of soft clauses of weight 0 and the call of [pow] is
    exact on the powers of the factor up to the largest soft weight
    (they are [double] values when below [2 ^ 53]): with [m] the
    largest soft weight (at least 1) and [factor ^ e] the greatest
    power of the factor not above [m], it sets the working weight to
    the first of [factor ^ e], [factor ^ (e-1)], ..., 1 for which the
    predicate of [enoughSoftAboveWeight] holds, a value between 1 and
    [m]; any fuel of at least 64 turns is enough.
    [initializeDivisionFactor(false)] sets the working weight to 1. *)
Theorem initializeDivisionFactor_terminates
        (pow_u64 : Z -> Z -> Z) (s : PMRES) (fuel : nat) :
  let factor := varresFactor (opts s) in
  2 <= factor -> (0 < nbSatisfiable s)%nat ->
  hardened_counted s -> weights_inrange (softs s) ->
  (forall e, 0 <= e -> factor ^ e <= reset_weight s -> pow_u64 factor e = factor ^ e) ->
  (64 <= fuel)%nat ->
  (exists e k : nat,
      (k <= e)%nat
      /\ factor ^ Z.of_nat e <= reset_weight s < factor ^ (Z.of_nat e + 1)
      /\ initializeDivisionFactor fuel pow_u64 true s
         = Some (tt, set_maxsat_formula
                       (setMaximumWeight (factor ^ Z.of_nat (e - k)) (maxsat_formula s)) s)
      /\ 1 <= factor ^ Z.of_nat (e - k) <= reset_weight s
      /\ enough_above s (factor ^ Z.of_nat (e - k)) = true
      /\ forall j, (j < k)%nat -> enough_above s (factor ^ Z.of_nat (e - j)) = false)
  /\ initializeDivisionFactor fuel pow_u64 false s
     = Some (tt, set_maxsat_formula (setMaximumWeight 1 (maxsat_formula s)) s).
Proof.
  intros factor Hf Hsat Hs Hin Hpw Hfuel. split; [|reflexivity].
  pose proof (reset_weight_bounds s Hin) as Hm.
  set (s1 := set_maxsat_formula (setMaximumWeight (reset_weight s) (maxsat_formula s)) s).
  assert (Hpow : U64.modulus <= factor ^ Z.of_nat fuel).
  { unfold U64.modulus. transitivity (2 ^ Z.of_nat fuel).
    - apply Z.pow_le_mono_r; lia.
    - apply Z.pow_le_mono_l. lia. }
  destruct (count_divisions_spec factor s1 fuel Hf (reset_weight s) 0) as (d & Hcount & Hd);
    [lia|].
  destruct Hd as [[Hz _] | (_ & Hdpos & Hlo & Hhi)]; [lia|].
  set (e := Z.to_nat (d - 1)).
  assert (He : Z.of_nat e = d - 1) by (unfold e; lia).
  assert (He64 : (e < 64)%nat).
  { assert (H2 : 2 ^ Z.of_nat e < 2 ^ 64).
    { apply Z.le_lt_trans with (factor ^ Z.of_nat e).
      - apply Z.pow_le_mono_l. lia.
      - rewrite He. unfold U64.modulus in Hm. lia. }
    apply Z.pow_lt_mono_r_iff in H2; lia. }
  destruct (first_enough_power s factor e Hf Hs Hin) as (k & Hk & Hpk & Hbefore & Hdiv).
  exists e, k. split; [exact Hk|].
  split; [rewrite He; replace (d - 1 + 1) with d by lia; auto|].
  split; [|split; [|split; [exact Hpk|]]].
  - unfold initializeDivisionFactor. cbn [negb].
    rewrite (bind_eq _ _ s tt s1) by reflexivity.
    rewrite (bind_eq _ _ s1 s1 s1) by reflexivity.
    change (varresFactor (opts s1)) with factor.
    change (getMaximumWeight (maxsat_formula s1)) with (reset_weight s).
    rewrite (bind_eq _ _ _ _ _ Hcount).
    replace (0 + d - 1) with (Z.of_nat e) by lia.
    rewrite (Hpw (Z.of_nat e)) by (rewrite ?He; lia).
    rewrite (bind_eq _ _ s1 (divided factor k (factor ^ Z.of_nat e)) s1).
    + rewrite Hdiv. reflexivity.
    + apply (divide_until_enough_spec factor s1); [lia|exact Hsat|lia|exact Hbefore|].
      rewrite Hdiv. exact Hpk.
  - split.
    + assert (0 < factor ^ Z.of_nat (e - k)) by (apply Z.pow_pos_nonneg; lia). lia.
    + transitivity (factor ^ Z.of_nat e); [apply Z.pow_le_mono_r; lia|].
      rewrite He. exact Hlo.
  - intros j Hj. rewrite <- (divided_pow factor e j) by lia. apply Hbefore. exact Hj.
Qed.

Lemma hardened_counted_three_nines : hardened_counted st_three_nines.
Proof.
  apply hardened_counted_intro; [reflexivity|].
  repeat constructor; vm_compute; intros; discriminate.
Qed.

Lemma weights_inrange_three_nines : weights_inrange (softs st_three_nines).
Proof. repeat constructor; vm_compute; try discriminate; reflexivity. Qed.

Lemma initializeDivisionFactor_terminates_witness :
  2 <= varresFactor (opts st_three_nines)
  /\ (0 < nbSatisfiable st_three_nines)%nat
  /\ hardened_counted st_three_nines
  /\ weights_inrange (softs st_three_nines)
  /\ (exists e k : nat,
         (k <= e)%nat
         /\ 2 ^ Z.of_nat e <= reset_weight st_three_nines < 2 ^ (Z.of_nat e + 1)
         /\ initializeDivisionFactor 64 Z.pow true st_three_nines
            = Some (tt, set_maxsat_formula
                          (setMaximumWeight (2 ^ Z.of_nat (e - k))
                             (maxsat_formula st_three_nines))
                          st_three_nines))
  /\ initializeDivisionFactor 64 Z.pow false st_three_nines
     = Some (tt, set_maxsat_formula
                   (setMaximumWeight 1 (maxsat_formula st_three_nines))
                   st_three_nines).
Proof.
  assert (H1 : 2 <= varresFactor (opts st_three_nines)) by (vm_compute; discriminate).
  assert (H2 : (0 < nbSatisfiable st_three_nines)%nat) by (vm_compute; lia).
  split; [exact H1|]. split; [exact H2|].
  split; [exact hardened_counted_three_nines|].
  split; [exact weights_inrange_three_nines|].
  destruct (initializeDivisionFactor_terminates Z.pow st_three_nines 64 H1 H2
              hardened_counted_three_nines weights_inrange_three_nines
              (fun e _ _ => eq_refl) (le_n 64))
    as [(e & k & Hk & Hr & Hrun & _) Hfalse].
  split; [|exact Hfalse].
  exists e, k. split; [exact Hk|]. split; [exact Hr|exact Hrun].
Defined.

(** ** The linear phase: [moreThanWeight], [updateDivisionFactorLinear] *)

Lemma moreThanWeight_count (s : PMRES) (weightCand : Z) :
  moreThanWeight s weightCand = length (at_or_above s weightCand).
Proof.
  unfold moreThanWeight, at_or_above.
  assert (H : forall l acc,
             fold_left (fun test c => if weight c >=? weightCand then S test else test)
                       l acc
             = (acc + length (filter (fun c : Soft => (weightCand <= weight c)%Z) l))%nat).
  { induction l as [|c l IH]; intros acc; [cbn; lia|].
    cbn [fold_left]. rewrite IH, filter_cons.
    destruct (weight c >=? weightCand) eqn:E.
    - apply Z.geb_le in E. rewrite decide_True by exact E. cbn [length]. lia.
    - rewrite Z.geb_leb in E. apply Z.leb_gt in E.
      rewrite decide_False by lia. reflexivity. }
  rewrite H. reflexivity.
Qed.

Lemma divide_while_all_above_spec (factor : Z) (s : PMRES) :
  factor <> 0 ->
  forall (k fuel : nat) (cand : Z),
    (k <= fuel)%nat ->
    (forall j, (j < k)%nat ->
       Nat.eqb (moreThanWeight s (divided factor j cand)) (nbCurrentSoft s)
       && (divided factor j cand >? 1) = true) ->
    Nat.eqb (moreThanWeight s (divided factor k cand)) (nbCurrentSoft s)
    && (divided factor k cand >? 1) = false ->
    divide_while_all_above fuel factor cand s = Some (divided factor k cand, s).
Proof.
  intros Hf. induction k as [|k IH]; intros fuel cand Hk Hbefore Hat.
  - change (divided factor 0 cand) with cand in Hat.
    destruct fuel; cbn [divide_while_all_above]; unfold bind, gets, id; rewrite Hat;
      reflexivity.
  - destruct fuel as [|fuel]; [lia|].
    cbn [divide_while_all_above]. unfold bind at 1. unfold gets at 1. unfold id.
    pose proof (Hbefore 0%nat ltac:(lia)) as H0.
    change (divided factor 0 cand) with cand in H0. rewrite H0.
    unfold u64_div. destruct (factor =? 0) eqn:E; [apply Z.eqb_eq in E; contradiction|].
    unfold bind at 1. cbn [ret].
    assert (Hshift : forall j, divided factor j (cand / factor)
                               = divided factor (S j) cand).
    { induction j as [|j IHj]; [reflexivity|].
      rewrite divided_S, IHj. reflexivity. }
    rewrite <- Hshift. apply IH; [lia| |rewrite Hshift; exact Hat].
    intros j Hj. rewrite Hshift. apply Hbefore. lia.
Qed.

(** X13: in the linear phase, with a factor of at least 2 and the
    working weight a power [factor ^ (e+1)] of [varresFactor],
    [updateDivisionFactorLinear] returns and lowers the working weight
    to a smaller power of the factor that is at least 1: the first of
    [factor ^ e], ..., 1 that is 1 or at which the number of soft
    clauses of at least that weight differs from [nbCurrentSoft].  The
    working weight never becomes 0, the divisor of [initRelaxation]. *)
Theorem updateDivisionFactorLinear_terminates (s : PMRES) (e fuel : nat) :
  let factor := varresFactor (opts s) in
  2 <= factor ->
  getMaximumWeight (maxsat_formula s) = factor ^ Z.of_nat (S e) ->
  (e <= fuel)%nat ->
  exists k, (k <= e)%nat
    /\ updateDivisionFactorLinear fuel s
       = Some (tt, set_maxsat_formula
                     (setMaximumWeight (factor ^ Z.of_nat (e - k)) (maxsat_formula s)) s)
    /\ 1 <= factor ^ Z.of_nat (e - k) < getMaximumWeight (maxsat_formula s)
    /\ (factor ^ Z.of_nat (e - k) = 1
        \/ length (at_or_above s (factor ^ Z.of_nat (e - k))) <> nbCurrentSoft s)
    /\ forall j, (j < k)%nat ->
         length (at_or_above s (factor ^ Z.of_nat (e - j))) = nbCurrentSoft s
         /\ 1 < factor ^ Z.of_nat (e - j).
Proof.
  intros factor Hf Hmw Hfuel.
  set (P := fun j => negb (Nat.eqb (moreThanWeight s (divided factor j (factor ^ Z.of_nat e)))
                                   (nbCurrentSoft s)
                           && (divided factor j (factor ^ Z.of_nat e) >? 1))).
  destruct (first_true P e) as (k & Hk & Hpk & Hbefore).
  { unfold P. rewrite divided_pow, Nat.sub_diag by lia.
    change (factor ^ Z.of_nat 0) with 1. rewrite andb_false_r. reflexivity. }
  unfold P in Hpk, Hbefore. apply negb_true_iff in Hpk.
  assert (Hdiv : forall j, (j <= e)%nat ->
                           divided factor j (factor ^ Z.of_nat e)
                           = factor ^ Z.of_nat (e - j))
    by (intros j Hj; apply divided_pow; lia).
  exists k. split; [exact Hk|].
  assert (Hq : getMaximumWeight (maxsat_formula s) / factor = factor ^ Z.of_nat e).
  { rewrite Hmw, Nat2Z.inj_succ, Z.pow_succ_r by lia.
    rewrite Z.mul_comm. apply Z.div_mul. lia. }
  split; [|split; [|split]].
  - unfold updateDivisionFactorLinear.
    rewrite (bind_eq _ _ s s s) by reflexivity. cbn zeta. fold factor.
    unfold u64_div at 1. destruct (factor =? 0) eqn:E; [apply Z.eqb_eq in E; lia|].
    unfold bind at 1. cbn [ret]. rewrite Hq.
    rewrite (bind_eq _ _ s (divided factor k (factor ^ Z.of_nat e)) s).
    + rewrite Hdiv by exact Hk. reflexivity.
    + apply (divide_while_all_above_spec factor s); [lia|lia| |exact Hpk].
      intros j Hj. apply negb_false_iff. apply Hbefore. exact Hj.
  - rewrite Hmw. split.
    + assert (0 < factor ^ Z.of_nat (e - k)) by (apply Z.pow_pos_nonneg; lia). lia.
    + apply Z.pow_lt_mono_r; lia.
  - rewrite Hdiv in Hpk by exact Hk. rewrite moreThanWeight_count in Hpk.
    apply andb_false_iff in Hpk as [Hne|Hle].
    + right. apply Nat.eqb_neq. exact Hne.
    + left. rewrite Z.gtb_ltb in Hle. apply Z.ltb_ge in Hle.
      assert (0 < factor ^ Z.of_nat (e - k)) by (apply Z.pow_pos_nonneg; lia). lia.
  - intros j Hj. specialize (Hbefore j Hj). apply negb_false_iff in Hbefore.
    rewrite Hdiv in Hbefore by lia. rewrite moreThanWeight_count in Hbefore.
    apply andb_true_iff in Hbefore as [Heq Hgt].
    split; [apply Nat.eqb_eq; exact Heq|]. apply Z.gtb_lt. exact Hgt.
Qed.

Lemma updateDivisionFactorLinear_terminates_witness :
  2 <= varresFactor (opts st_three_nines_at_eight)
  /\ getMaximumWeight (maxsat_formula st_three_nines_at_eight) = 2 ^ Z.of_nat 3
  /\ exists k, (k <= 2)%nat
       /\ updateDivisionFactorLinear 2 st_three_nines_at_eight
          = Some (tt, set_maxsat_formula
                        (setMaximumWeight (2 ^ Z.of_nat (2 - k))
                           (maxsat_formula st_three_nines_at_eight))
                        st_three_nines_at_eight)
       /\ 1 <= 2 ^ Z.of_nat (2 - k) < 8.
Proof.
  assert (H1 : 2 <= varresFactor (opts st_three_nines_at_eight))
    by (vm_compute; discriminate).
  assert (H3 : getMaximumWeight (maxsat_formula st_three_nines_at_eight)
               = 2 ^ Z.of_nat 3) by reflexivity.
  split; [exact H1|]. split; [exact H3|].
  destruct (updateDivisionFactorLinear_terminates st_three_nines_at_eight 2 2
              H1 H3 (le_n 2))
    as (k & Hk & Hrun & Hr & _).
  exists k. split; [exact Hk|]. split; [exact Hrun|exact Hr].
Defined.

(** ** The objective of the linear phase: [initRelaxation] *)

Lemma hd_app_nonempty {A} (d : A) (l1 l2 : list A) :
  l1 <> [] -> hd d (l1 ++ l2) = hd d l1.
Proof. destruct l1; [contradiction|reflexivity]. Qed.

(** What the loop of [initRelaxation] has built after the first [k]
    soft clauses. *)
Lemma initRelaxation_body_inv (s : PMRES) (i : nat) (r r' : Relaxation) (s1 s2 : PMRES) :
  let mw := getMaximumWeight (maxsat_formula s) in
  let sel k := filter (fun c => in_objective s c = true) (take k (softs s)) in
  let I k r s1 :=
    s1 = set_nbCurrentSoft (nbCurrentSoft s1) s
    /\ objFunction r = assumption_var <$> sel k
    /\ coeffs r = (fun c => weight c / mw) <$> sel k
    /\ nbCurrentSoft s1 = length (sel k)
    /\ comW r = hd 0 (coeffs r)
    /\ (unweighted r = true <-> forall x, x ∈ coeffs r -> x = comW r)
    /\ Forall (fun x => 0 < x) (coeffs r)
    /\ Forall (fun l => l <> lit_Undef) (objFunction r) in
  I i r s1 ->
  initRelaxation_body r i s1 = Some (r', s2) ->
  I (S i) r' s2 /\ mw <> 0.
Proof.
  intros mw sel I (Hs1 & Hobj & Hcf & Hnb & Hcom & Hunw & Hpos & Hdef) H.
  unfold initRelaxation_body in H.
  apply bind_Some in H as (c & s0 & Hc & H).
  unfold getSoftClause in Hc.
  destruct (softs s1 !! i) as [c0|] eqn:Hi; [|discriminate].
  injection Hc as Hc0 Hs0. subst c0 s0.
  assert (Hi' : softs s !! i = Some c) by (rewrite Hs1 in Hi; exact Hi).
  apply bind_Some in H as (mw0 & s0 & Hg & H). unfold gets in Hg.
  injection Hg as Hmw0 Hs0. subst s0.
  assert (Hmw : mw0 = mw) by (rewrite <- Hmw0, Hs1; reflexivity).
  clear Hmw0. subst mw0.
  apply bind_Some in H as (rw & s0 & Hd & H). unfold u64_div in Hd.
  destruct (mw =? 0) eqn:Ez; [discriminate|]. apply Z.eqb_neq in Ez.
  injection Hd as Hrw Hs0. subst s0.
  split; [|exact Ez].
  assert (Htake : sel (S i)
                  = sel i ++ (if decide (in_objective s c = true) then [c] else [])).
  { unfold sel. rewrite (take_S_r _ _ _ Hi'), filter_app.
    rewrite filter_cons, filter_nil. reflexivity. }
  assert (Hin : in_objective s c = (rw >? 0)) by (rewrite <- Hrw; reflexivity).
  destruct (rw >? 0) eqn:Egt.
  - apply Z.gtb_lt in Egt.
    apply bind_Some in H as ([] & s0 & Ha & H). apply assertM_Some in Ha as [Ha ->].
    apply negb_true_iff, Z.eqb_neq in Ha.
    apply bind_Some in H as ([] & s0 & Hm & H). unfold modify in Hm.
    injection Hm as <-. injection H as <- <-.
    unfold I. rewrite Htake, decide_True by exact Hin.
    cbn [objFunction coeffs comW unweighted nbCurrentSoft set_nbCurrentSoft].
    split; [rewrite Hs1 at 2; reflexivity|].
    split; [rewrite Hobj, fmap_app; reflexivity|].
    split; [rewrite Hcf, fmap_app; cbn [fmap list_fmap]; rewrite Hrw; reflexivity|].
    split; [rewrite Hnb, length_app; cbn [length]; lia|].
    assert (Hempty : comW r = 0 <-> coeffs r = []).
    { rewrite Hcom. destruct (coeffs r) as [|x l]; [cbn; tauto|].
      inversion Hpos; subst. cbn [hd]. split; [lia|discriminate]. }
    destruct (comW r =? 0) eqn:E0.
    + apply Z.eqb_eq in E0. apply Hempty in E0. rewrite E0. cbn [app hd].
      split; [reflexivity|].
      split.
      * split; [intros _ x Hx; apply list_elem_of_singleton in Hx; exact Hx|].
        intros _. apply Hunw. rewrite E0. intros x Hx. inversion Hx.
      * split; [repeat constructor; exact Egt|].
        apply Forall_app. split; [exact Hdef|repeat constructor; exact Ha].
    + apply Z.eqb_neq in E0.
      assert (Hne : coeffs r <> []) by (intros N; apply E0, Hempty, N).
      split; [rewrite hd_app_nonempty by exact Hne; exact Hcom|].
      split.
      * destruct (comW r =? rw) eqn:Er; cbn [negb].
        -- apply Z.eqb_eq in Er. rewrite Hunw. split.
           ++ intros Hall x Hx. apply elem_of_app in Hx as [Hx|Hx]; [auto|].
              apply list_elem_of_singleton in Hx. lia.
           ++ intros Hall x Hx. apply Hall. apply elem_of_app. now left.
        -- apply Z.eqb_neq in Er. split; [discriminate|].
           intros Hall. exfalso. apply Er. symmetry. apply Hall.
           apply elem_of_app. right. now left.
      * split; [apply Forall_app; split; [exact Hpos|repeat constructor; exact Egt]|].
        apply Forall_app. split; [exact Hdef|repeat constructor; exact Ha].
  - injection H as <- <-.
    unfold I. rewrite Htake, decide_False by (rewrite Hin; discriminate).
    rewrite app_nil_r. auto 10.
Qed.

Lemma foldM_from {B} (I : nat -> B -> PMRES -> Prop)
      (body : B -> nat -> M B) (m : nat) :
  forall (k : nat) (acc : B) (s : PMRES),
    I k acc s ->
    (forall i acc1 s1, (k <= i < k + m)%nat -> I i acc1 s1 ->
                       exists acc2 s2, body acc1 i s1 = Some (acc2, s2)
                                       /\ I (S i) acc2 s2) ->
    exists r s', foldM body (seq k m) acc s = Some (r, s') /\ I (k + m)%nat r s'.
Proof.
  induction m as [|m IH]; intros k acc s Hk Hstep.
  - exists acc, s. split; [reflexivity|]. now rewrite Nat.add_0_r.
  - destruct (Hstep k acc s) as (acc1 & s1 & Hb & H1); [lia|exact Hk|].
    destruct (IH (S k) acc1 s1 H1) as (r & s' & Hrun & H').
    { intros i a1 t1 Hi. apply Hstep. lia. }
    exists r, s'. split.
    + cbn [seq foldM]. rewrite (bind_eq _ _ _ _ _ Hb). exact Hrun.
    + now replace (k + S m)%nat with (S k + m)%nat by lia.
Qed.

Lemma initRelaxation_body_runs (s : PMRES) (i : nat) (r : Relaxation) (s1 : PMRES) :
  getMaximumWeight (maxsat_formula s) <> 0 ->
  (forall c, c ∈ softs s -> in_objective s c = true -> assumption_var c <> lit_Undef) ->
  (i < length (softs s))%nat ->
  s1 = set_nbCurrentSoft (nbCurrentSoft s1) s ->
  exists r' s2, initRelaxation_body r i s1 = Some (r', s2).
Proof.
  intros Hmw Hass Hi Hs1.
  destruct (softs s !! i) as [c|] eqn:Hc; [|apply lookup_ge_None in Hc; lia].
  assert (Hc1 : softs s1 !! i = Some c) by (rewrite Hs1; exact Hc).
  unfold initRelaxation_body.
  rewrite (bind_eq _ _ _ _ _ (getSoftClause_eq i s1 c Hc1)).
  rewrite (bind_eq _ _ s1 (getMaximumWeight (maxsat_formula s)) s1)
    by (unfold gets; rewrite Hs1 at 1; reflexivity).
  unfold u64_div. apply Z.eqb_neq in Hmw. rewrite Hmw.
  unfold bind at 1. cbn [ret].
  destruct (weight c / getMaximumWeight (maxsat_formula s) >? 0) eqn:E.
  - assert (Ha : negb (assumption_var c =? lit_Undef) = true).
    { apply negb_true_iff, Z.eqb_neq. apply Hass; [|exact E].
      apply list_elem_of_lookup. eauto. }
    rewrite Ha. cbn [assertM]. unfold bind, ret, modify. eauto.
  - unfold ret. eauto.
Qed.

(** X14: [initRelaxation] runs through when the working weight is not 0
    and every soft clause with a positive quotient [weight / max_weight]
    has its assumption.  It returns the assumption literals of these
    clauses and their quotients, in the order of the formula: the two
    vectors have the same length, which is [nbCurrentSoft]; every
    coefficient is positive; the problem type is set to unweighted
    exactly when all the coefficients are equal and [incrementalVarres]
    is off; the soft clauses and the working weight are not written.
    With the working weight 0 and a soft clause, the division stops the
    function. *)
Theorem initRelaxation_objective (s : PMRES) :
  let mw := getMaximumWeight (maxsat_formula s) in
  let sel := filter (fun c => in_objective s c = true) (softs s) in
  (mw <> 0 ->
   (forall c, c ∈ softs s -> in_objective s c = true -> assumption_var c <> lit_Undef) ->
   exists s',
     initRelaxation s
     = Some ((assumption_var <$> sel, (fun c => weight c / mw) <$> sel), s')
     /\ nbCurrentSoft s' = length sel
     /\ Forall (fun x => 0 < x) ((fun c => weight c / mw) <$> sel)
     /\ (getProblemType (maxsat_formula s') = _UNWEIGHTED_ <->
         incrementalVarres (opts s) = false
         /\ forall c, c ∈ sel -> weight c / mw = hd 0 ((fun c => weight c / mw) <$> sel))
     /\ s' = set_maxsat_formula
               (setProblemType (getProblemType (maxsat_formula s')) (maxsat_formula s))
               (set_nbCurrentSoft (length sel) s))
  /\ (mw = 0 -> softs s <> [] -> initRelaxation s = None).
Proof.
  intros mw sel. split.
  - intros Hmw Hass.
    set (s0 := set_nbCurrentSoft 0 s).
    set (selk := fun k => filter (fun c => in_objective s c = true) (take k (softs s))).
    set (I := fun (k : nat) (r : Relaxation) (s1 : PMRES) =>
                s1 = set_nbCurrentSoft (nbCurrentSoft s1) s
                /\ objFunction r = assumption_var <$> selk k
                /\ coeffs r = (fun c => weight c / mw) <$> selk k
                /\ nbCurrentSoft s1 = length (selk k)
                /\ comW r = hd 0 (coeffs r)
                /\ (unweighted r = true <-> forall x, x ∈ coeffs r -> x = comW r)
                /\ Forall (fun x => 0 < x) (coeffs r)
                /\ Forall (fun l => l <> lit_Undef) (objFunction r)).
    destruct (foldM_from I initRelaxation_body (length (softs s)) 0
                {| objFunction := []; coeffs := []; comW := 0; unweighted := true |} s0)
      as (r & s1 & Hrun & HI).
    { unfold I, selk. rewrite take_0, filter_nil.
      cbn [objFunction coeffs comW unweighted fmap list_fmap length hd].
      split; [reflexivity|]. split; [reflexivity|]. split; [reflexivity|].
      split; [reflexivity|]. split; [reflexivity|].
      split; [split; [intros _ x Hx; inversion Hx|reflexivity]|].
      split; constructor. }
    { intros i r1 s1 Hi HI1.
      destruct (initRelaxation_body_runs s i r1 s1 Hmw Hass) as (r2 & s2 & Hb);
        [lia|exact (proj1 HI1)|].
      exists r2, s2. split; [exact Hb|].
      exact (proj1 (initRelaxation_body_inv s i r1 r2 s1 s2 HI1 Hb)). }
    destruct HI as (Hs1 & Hobj & Hcf & Hnb & Hcom & Hunw & Hpos & _).
    assert (Hsel : selk (0 + length (softs s))%nat = sel)
      by (unfold selk, sel; cbn [Nat.add]; rewrite firstn_all; reflexivity).
    rewrite Hsel in Hobj, Hcf, Hnb.
    assert (Hs1' : s1 = set_nbCurrentSoft (length sel) s) by (rewrite <- Hnb; exact Hs1).
    clear Hs1 Hnb. subst s1.
    eexists. split.
    { unfold initRelaxation.
      rewrite (bind_eq _ _ s tt s0) by reflexivity.
      rewrite (bind_eq _ _ s0 (length (softs s)) s0) by reflexivity.
      rewrite (bind_eq _ _ _ _ _ Hrun).
      unfold bind at 1. unfold gets at 1. cbn zeta.
      unfold bind at 1. unfold onFormula, modify. cbn [ret].
      rewrite Hobj, Hcf. reflexivity. }
    cbn [nbCurrentSoft maxsat_formula set_maxsat_formula getProblemType setProblemType
         problem_type].
    split; [reflexivity|].
    split; [rewrite <- Hcf; exact Hpos|].
    cbn [opts set_nbCurrentSoft].
    split.
    + destruct (incrementalVarres (opts s)).
      * split; [discriminate|intros [N _]; discriminate].
      * destruct (unweighted r) eqn:Eu.
        -- split; [|reflexivity]. intros _. split; [reflexivity|].
           intros c Hc. rewrite <- Hcf, <- Hcom. apply Hunw; [reflexivity|].
           rewrite Hcf. apply list_elem_of_fmap. exists c. auto.
        -- split; [discriminate|]. intros [_ Hall]. exfalso.
           assert (Ht : false = true); [|discriminate].
           apply Hunw. intros x Hx. rewrite Hcf in Hx.
           apply list_elem_of_fmap in Hx as (c & -> & Hc).
           rewrite Hcom, Hcf. apply Hall. exact Hc.
    + reflexivity.
  - intros Hmw Hne. unfold initRelaxation.
    rewrite (bind_eq _ _ s tt (set_nbCurrentSoft 0 s)) by reflexivity.
    rewrite (bind_eq _ _ _ (length (softs s)) (set_nbCurrentSoft 0 s)) by reflexivity.
    destruct (softs s) as [|c l] eqn:Hsofts; [contradiction|].
    cbn [length seq foldM]. unfold bind at 1. unfold bind at 1.
    unfold initRelaxation_body at 1. unfold bind at 1. unfold getSoftClause at 1.
    change (softs (set_nbCurrentSoft 0 s)) with (softs s). rewrite Hsofts.
    cbn [lookup list_lookup]. unfold bind at 1. unfold gets at 1.
    change (getMaximumWeight (maxsat_formula (set_nbCurrentSoft 0 s))) with mw.
    unfold u64_div. rewrite Hmw. reflexivity.
Qed.

Lemma initRelaxation_objective_witness :
  exists s',
    initRelaxation st_three_nines_at_eight = Some (([0; 2; 4], [1; 1; 1]), s')
    /\ nbCurrentSoft s' = 3%nat.
Proof.
  assert (H1 : getMaximumWeight (maxsat_formula st_three_nines_at_eight) <> 0)
    by (vm_compute; discriminate).
  assert (H2 : forall c, c ∈ softs st_three_nines_at_eight ->
                 in_objective st_three_nines_at_eight c = true ->
                 assumption_var c <> lit_Undef).
  { assert (H : Forall (fun c => assumption_var c <> lit_Undef)
                  (softs st_three_nines_at_eight))
      by (repeat constructor; vm_compute; discriminate).
    rewrite Forall_forall in H. intros c Hc _. exact (H c Hc). }
  destruct (proj1 (initRelaxation_objective st_three_nines_at_eight) H1 H2)
    as (s' & Hrun & Hn & _).
  exists s'. split; [exact Hrun|exact Hn].
Defined.

(** ** The start of the search: [initAssumptions] *)

Lemma insert_take_drop {A} (f : A -> A) (l : list A) (i : nat) (c : A) :
  l !! i = Some c ->
  <[i := f c]> ((f <$> take i l) ++ drop i l) = (f <$> take (S i) l) ++ drop (S i) l.
Proof.
  revert i. induction l as [|x l IH]; intros i Hi; [discriminate|].
  destruct i as [|i].
  - injection Hi as ->. reflexivity.
  - cbn [take drop fmap list_fmap app].
    change (<[S i := f c]> (f x :: (f <$> take i l) ++ drop i l))
      with (f x :: <[i := f c]> ((f <$> take i l) ++ drop i l)).
    rewrite (IH i Hi). reflexivity.
Qed.

Lemma lookup_take_drop {A} (f : A -> A) (l : list A) (i : nat) :
  ((f <$> take i l) ++ drop i l) !! i = l !! i.
Proof.
  revert i. induction l as [|x l IH]; intros i.
  - rewrite take_nil, drop_nil. reflexivity.
  - destruct i as [|i]; [reflexivity|]. cbn [take drop fmap list_fmap app]. apply IH.
Qed.

Lemma assumed_mapping_S (l : list Soft) (k : nat) (cm : gmap Z nat) (c : Soft) :
  l !! k = Some c ->
  assumed_mapping l (S k) cm = <[neg (unit_lit c) := k]> (assumed_mapping l k cm).
Proof.
  intros Hc. unfold assumed_mapping. rewrite seq_S, fold_left_app. cbn [fold_left Nat.add].
  rewrite Hc. reflexivity.
Qed.

Lemma initAssumptions_body_step (s : PMRES) (i : nat) (c : Soft) (s1 : PMRES) :
  softs s !! i = Some c -> length (clause c) = 1%nat ->
  s1 = set_coreMapping (assumed_mapping (softs s) i (coreMapping s))
         (set_maxsat_formula
            (with_soft_clauses ((assumed <$> take i (softs s)) ++ drop i (softs s))
                               (maxsat_formula s)) s) ->
  initAssumptions_body i s1
  = Some (tt, set_coreMapping (assumed_mapping (softs s) (S i) (coreMapping s))
                (set_maxsat_formula
                   (with_soft_clauses
                      ((assumed <$> take (S i) (softs s)) ++ drop (S i) (softs s))
                      (maxsat_formula s)) s)).
Proof.
  intros Hc Hlen ->. unfold initAssumptions_body.
  set (s1 := set_coreMapping _ _).
  assert (Hc1 : softs s1 !! i = Some c).
  { change (softs s1) with ((assumed <$> take i (softs s)) ++ drop i (softs s)).
    rewrite lookup_take_drop. exact Hc. }
  rewrite (bind_eq _ _ _ _ _ (getSoftClause_eq i s1 c Hc1)).
  rewrite Hlen. cbn [Nat.eqb assertM]. unfold bind at 1. cbn [ret].
  destruct (clause c) as [|l [|l' cl]] eqn:Hcl; try discriminate Hlen.
  unfold vec_at at 1. unfold bind at 1. cbn [lookup list_lookup].
  unfold putSoftClause, modify, bind.
  f_equal. f_equal.
  assert (Hass : set_assumption_var (neg l) c = assumed c)
    by (unfold assumed, unit_lit; rewrite Hcl; reflexivity).
  rewrite Hass.
  apply PMRES_ext; try reflexivity.
  - cbn [maxsat_formula set_coreMapping set_maxsat_formula].
    change (softs s1) with ((assumed <$> take i (softs s)) ++ drop i (softs s)).
    rewrite (insert_take_drop assumed _ _ _ Hc). reflexivity.
  - cbn [coreMapping set_coreMapping set_maxsat_formula].
    rewrite (assumed_mapping_S _ _ _ _ Hc).
    unfold unit_lit. rewrite Hcl. reflexivity.
Qed.

Lemma initAssumptions_eq (s : PMRES) :
  unit_softs (softs s) ->
  initAssumptions s
  = Some (tt, set_coreMapping
                (assumed_mapping (softs s) (length (softs s)) (coreMapping s))
                (set_maxsat_formula
                   (with_soft_clauses (assumed <$> softs s) (maxsat_formula s)) s)).
Proof.
  intros Hunit. unfold initAssumptions.
  rewrite (bind_eq _ _ s (length (softs s)) s) by reflexivity.
  set (st := fun k => set_coreMapping (assumed_mapping (softs s) k (coreMapping s))
                        (set_maxsat_formula
                           (with_soft_clauses
                              ((assumed <$> take k (softs s)) ++ drop k (softs s))
                              (maxsat_formula s)) s)).
  destruct (for_upto_inv (fun k s1 => s1 = st k) initAssumptions_body
              (length (softs s)) s) as (s' & Hrun & Hs').
  - unfold st. rewrite take_0, drop_0. cbn [fmap list_fmap app].
    apply PMRES_ext; try reflexivity.
    unfold softs. destruct (maxsat_formula s); reflexivity.
  - intros i s1 Hi ->.
    destruct (softs s !! i) as [c|] eqn:Hc; [|apply lookup_ge_None in Hc; lia].
    exists (st (S i)). split; [|reflexivity].
    apply (initAssumptions_body_step s i c); [exact Hc| |reflexivity].
    apply Hunit. apply list_elem_of_lookup. eauto.
  - rewrite Hrun, Hs'. unfold st. rewrite firstn_all, drop_all, app_nil_r. reflexivity.
Qed.

Lemma assumed_mapping_lookup_other (l : list Soft) (cm : gmap Z nat) (x : Z) (k : nat) :
  (k <= length l)%nat ->
  (forall c, c ∈ l -> neg (unit_lit c) <> x) ->
  assumed_mapping l k cm !! x = cm !! x.
Proof.
  intros Hk Hx. induction k as [|k IH]; [reflexivity|].
  destruct (l !! k) as [c|] eqn:Hc; [|apply lookup_ge_None in Hc; lia].
  rewrite (assumed_mapping_S _ _ _ _ Hc), lookup_insert_ne.
  - apply IH. lia.
  - apply Hx. apply list_elem_of_lookup. eauto.
Qed.

Lemma assumed_mapping_lookup (l : list Soft) (cm : gmap Z nat) (i : nat) (c : Soft) :
  NoDup (unit_lit <$> l) ->
  l !! i = Some c ->
  forall k, (i < k <= length l)%nat ->
    assumed_mapping l k cm !! neg (unit_lit c) = Some i.
Proof.
  intros Hnd Hc k. induction k as [|k IH]; intros Hk; [lia|].
  destruct (l !! k) as [ck|] eqn:Hck; [|apply lookup_ge_None in Hck; lia].
  rewrite (assumed_mapping_S _ _ _ _ Hck).
  destruct (Nat.eq_dec k i) as [->|Hne].
  - rewrite Hc in Hck. injection Hck as <-. apply lookup_insert_eq.
  - rewrite lookup_insert_ne; [apply IH; lia|].
    intros Heq. apply Hne.
    assert (Hlit : unit_lit ck = unit_lit c).
    { rewrite <- (neg_involutive (unit_lit ck)), Heq. apply neg_involutive. }
    apply (NoDup_lookup _ k i (unit_lit c) Hnd).
    + rewrite list_lookup_fmap, Hck. cbn. rewrite Hlit. reflexivity.
    + rewrite list_lookup_fmap, Hc. reflexivity.
Qed.

Lemma initAssumptions_units (s s' : PMRES) :
  initAssumptions s = Some (tt, s') -> unit_softs (softs s).
Proof.
  unfold initAssumptions. intros H.
  apply bind_Some in H as (n & s0 & Hn & H). unfold gets in Hn.
  injection Hn as Hn0 Hs0. subst n s0. unfold for_upto in H.
  pose proof (for_each_from_partial
                (fun k s1 => clause <$> softs s1 = clause <$> softs s
                             /\ forall i c, (i < k)%nat -> softs s !! i = Some c ->
                                            length (clause c) = 1%nat)
                initAssumptions_body (nSoft (maxsat_formula s)) 0 s s') as Hinv.
  cbn beta in Hinv.
  destruct Hinv as [_ Hall].
  - split; [reflexivity|]. intros i c Hi. lia.
  - intros i s1 s2 _ [Hcl Hprev] Hb. unfold initAssumptions_body in Hb.
    apply bind_Some in Hb as (c & s0 & Hc & Hb).
    unfold getSoftClause in Hc.
    destruct (softs s1 !! i) as [c0|] eqn:Hi; [|discriminate].
    injection Hc as Hc0 Hs0. subst c0 s0.
    apply bind_Some in Hb as ([] & s0 & Ha & Hb). apply assertM_Some in Ha as [Ha ->].
    apply Nat.eqb_eq in Ha.
    apply bind_Some in Hb as (l & s0 & Hl & Hb). unfold vec_at in Hl.
    match type of Hl with
    | match ?x with _ => _ end = _ => destruct x as [l0|]; [|discriminate Hl]
    end.
    injection Hl as Hl0 Hs0. subst l0 s0.
    apply bind_Some in Hb as ([] & s0 & Hp & Hb).
    unfold putSoftClause, modify in Hp. injection Hp as <-.
    unfold modify in Hb. injection Hb as <-.
    assert (Hci : (clause <$> softs s) !! i = Some (clause c))
      by (rewrite <- Hcl, list_lookup_fmap, Hi; reflexivity).
    split.
    + change (clause <$> <[i := set_assumption_var (neg l) c]> (softs s1)
              = clause <$> softs s).
      rewrite list_fmap_insert. rewrite <- Hcl. apply list_insert_id.
      rewrite list_lookup_fmap, Hi. reflexivity.
    + intros j cj Hj Hcj. destruct (Nat.eq_dec j i) as [->|Hne].
      * rewrite list_lookup_fmap, Hcj in Hci. injection Hci as Hci.
        rewrite Hci. exact Ha.
      * apply (Hprev j cj); [lia|exact Hcj].
  - exact H.
  - intros c Hc. apply list_elem_of_lookup in Hc as (i & Hi).
    apply (Hall i c); [|exact Hi]. apply lookup_lt_Some in Hi. exact Hi.
Qed.

(** X15: [initAssumptions] returns exactly when every soft clause is a
    unit clause.  Then each soft clause [l] gets the assumption [~l],
    its weight and body unchanged; a literal that is the negation of no
    soft clause keeps its entry of [coreMapping]; and when the soft
    clauses are over pairwise distinct literals, [coreMapping] gives
    for the assumption of every soft clause the index of that
    clause. *)
Theorem initAssumptions_mapping (s : PMRES) :
  ((exists s', initAssumptions s = Some (tt, s')) <-> unit_softs (softs s))
  /\ forall s',
      initAssumptions s = Some (tt, s') ->
      softs s' = assumed <$> softs s
      /\ (forall i c, softs s !! i = Some c ->
            softs s' !! i = Some (mkSoft (clause c) (weight c) (neg (unit_lit c))))
      /\ (forall x, (forall c, c ∈ softs s -> neg (unit_lit c) <> x) ->
            coreMapping s' !! x = coreMapping s !! x)
      /\ (NoDup (unit_lit <$> softs s) ->
          forall i c', softs s' !! i = Some c' ->
                       coreMapping s' !! assumption_var c' = Some i).
Proof.
  split.
  - split.
    + intros [s' H]. exact (initAssumptions_units s s' H).
    + intros Hu. eexists. apply initAssumptions_eq. exact Hu.
  - intros s' H.
    pose proof (initAssumptions_units s s' H) as Hu.
    rewrite (initAssumptions_eq s Hu) in H. injection H as <-.
    change (softs (set_coreMapping ?cm (set_maxsat_formula (with_soft_clauses ?l ?f) s)))
      with l.
    cbn [coreMapping set_coreMapping].
    split; [reflexivity|]. split; [|split].
    + intros i c Hc. rewrite list_lookup_fmap, Hc. reflexivity.
    + intros x Hx. apply assumed_mapping_lookup_other; [lia|exact Hx].
    + intros Hnd i c' Hc'. rewrite list_lookup_fmap in Hc'.
      destruct (softs s !! i) as [c|] eqn:Hc; [|discriminate].
      injection Hc' as <-. cbn [assumed assumption_var set_assumption_var].
      apply (assumed_mapping_lookup _ _ i c Hnd Hc).
      apply lookup_lt_Some in Hc. lia.
Qed.

(** ** Standardisation: [standardizeMaxSATFormula] and the head of [search] *)

Lemma standardize_fold (l : list Soft) :
  forall g : MaxSATFormula,
    fold_left standardize_soft l g
    = with_soft_clauses
        (soft_clauses g ++ imap (fun i c => standard_soft (n_vars g) i c) l)
        (with_hard_clauses
           (hard_clauses g
            ++ imap (fun i c => clause c ++ [mkLit (n_vars g + i) false]) l)
           (with_n_vars (n_vars g + length l) g)).
Proof.
  induction l as [|c l IH]; intros g.
  - cbn [fold_left imap length]. rewrite !app_nil_r, Nat.add_0_r.
    destruct g; reflexivity.
  - cbn [fold_left]. rewrite IH.
    apply MaxSATFormula_ext; cbn; try reflexivity.
    + lia.
    + rewrite <- app_assoc. cbn [app]. rewrite Nat.add_0_r. f_equal. f_equal.
      apply imap_ext. intros i x _. cbn. repeat f_equal. lia.
    + rewrite <- app_assoc. cbn [app]. unfold standard_soft at 2.
      rewrite Nat.add_0_r. f_equal. f_equal.
      apply imap_ext. intros i x _. unfold standard_soft. cbn. repeat f_equal. lia.
Qed.

Lemma standardize_hards (l : list Clause) :
  forall g : MaxSATFormula,
    fold_left (fun g c => addHardClause c g) l g
    = with_hard_clauses (hard_clauses g ++ l) g.
Proof.
  induction l as [|c l IH]; intros g.
  - cbn [fold_left]. rewrite app_nil_r. destruct g; reflexivity.
  - cbn [fold_left]. rewrite IH. apply MaxSATFormula_ext; cbn; try reflexivity.
    rewrite <- app_assoc. reflexivity.
Qed.

Lemma standardize_vars (n : nat) (g : MaxSATFormula) :
  Nat.iter n newVar g = with_n_vars (n + n_vars g) g.
Proof.
  induction n as [|n IH]; [destruct g; reflexivity|].
  cbn [Nat.iter nat_rect]. change (nat_rect _ g (fun _ => newVar) n) with (Nat.iter n newVar g).
  rewrite IH. reflexivity.
Qed.

Lemma standardizeMaxSATFormula_eq (f : MaxSATFormula) :
  standardizeMaxSATFormula f
  = {| n_vars := nVars f + nSoft f;
       hard_clauses := hard_clauses f
                       ++ imap (fun i c => clause c ++ [mkLit (nVars f + i) false])
                               (soft_clauses f);
       soft_clauses := imap (standard_soft (nVars f)) (soft_clauses f);
       sum_soft_weight := U64.add 0 (sum_soft_weight f);
       max_soft_weight := max_soft_weight f;
       hard_weight := hard_weight f;
       problem_type := problem_type f |}.
Proof.
  unfold standardizeMaxSATFormula.
  rewrite standardize_vars, standardize_hards, standardize_fold.
  apply MaxSATFormula_ext; cbn; rewrite ?Nat.add_0_r; reflexivity.
Qed.

Lemma neg_inj (a b : Z) : neg a = neg b -> a = b.
Proof.
  intros H. rewrite <- (neg_involutive a), H. apply neg_involutive.
Qed.

Lemma standard_softs_NoDup (nv : nat) (l : list Soft) :
  NoDup (unit_lit <$> imap (standard_soft nv) l).
Proof.
  apply NoDup_alt. intros i j x Hi Hj.
  rewrite list_lookup_fmap, list_lookup_imap in Hi, Hj.
  destruct (l !! i) as [ci|]; [|discriminate].
  destruct (l !! j) as [cj|]; [|discriminate].
  cbn in Hi, Hj. injection Hi as <-. injection Hj as Hj.
  apply neg_inj, mkLit_false_inj in Hj. lia.
Qed.

(** X16: the head of [search] keeps the formula it was given for the
    cost of models and goes on with the standardized copy: one new
    variable [r i] per soft clause, the hard clauses followed by the
    clauses [C i or r i] in the order of the soft clauses, and the soft
    clauses [not r i] with the weights of the given ones.  On it
    [initAssumptions] always runs through, and afterwards the soft
    clause of index [i] is the unit clause [not r i] of the weight
    given, with assumption [r i], and [coreMapping[r i]] is [i]. *)
Theorem search_init_standardizes (s : PMRES) :
  let f := maxsat_formula s in
  let r i := mkLit (nVars f + i) false in
  exists s1 s2,
    search_init s = Some (tt, s1)
    /\ costComputingFormula s1 = f
    /\ nVars (maxsat_formula s1) = (nVars f + nSoft f)%nat
    /\ hard_clauses (maxsat_formula s1)
       = hard_clauses f ++ imap (fun i c => clause c ++ [r i]) (soft_clauses f)
    /\ weight <$> softs s1 = weight <$> soft_clauses f
    /\ getMaximumWeight (maxsat_formula s1) = getMaximumWeight f
    /\ getProblemType (maxsat_formula s1) = getProblemType f
    /\ initAssumptions s1 = Some (tt, s2)
    /\ hard_clauses (maxsat_formula s2) = hard_clauses (maxsat_formula s1)
    /\ (forall i c, soft_clauses f !! i = Some c ->
          softs s2 !! i = Some (mkSoft [neg (r i)] (weight c) (r i))
          /\ coreMapping s2 !! r i = Some i
          /\ (clause c ++ [r i]) ∈ hard_clauses (maxsat_formula s2))
    /\ (num_hardened s = 0%nat ->
        (forall c, c ∈ soft_clauses f -> weight c <> 0) ->
        hardened_counted s2).
Proof.
  intros f r.
  set (g := standardizeMaxSATFormula f).
  set (o := match weightStrategy (opts s) with
            | _WEIGHT_NONE_ => set_weightStrategy _WEIGHT_NORMAL_ s
            | _ => s
            end).
  set (s1 := set_maxw_nothardened (getSumWeights g)
               (set_maxsat_formula g (set_costComputingFormula f o))).
  assert (Hrun1 : search_init s = Some (tt, s1)).
  { unfold search_init, s1, o, g, f. unfold bind, gets, modify, id.
    destruct (weightStrategy (opts s)); reflexivity. }
  assert (Hf1 : maxsat_formula s1 = g) by reflexivity.
  assert (Hg : g = standardizeMaxSATFormula f) by reflexivity.
  rewrite standardizeMaxSATFormula_eq in Hg.
  assert (Hsofts : softs s1 = imap (standard_soft (nVars f)) (soft_clauses f)).
  { unfold softs. rewrite Hf1, Hg. reflexivity. }
  assert (Hunit : unit_softs (softs s1)).
  { rewrite Hsofts. intros c Hc. apply list_elem_of_lookup in Hc as (i & Hi).
    rewrite list_lookup_imap in Hi. destruct (soft_clauses f !! i); [|discriminate].
    injection Hi as <-. reflexivity. }
  pose proof (initAssumptions_eq s1 Hunit) as Hrun2.
  eexists s1, _. split; [exact Hrun1|].
  split; [unfold s1, o; destruct (weightStrategy (opts s)); reflexivity|].
  rewrite Hf1.
  split; [rewrite Hg; reflexivity|]. split; [rewrite Hg; reflexivity|].
  split.
  { rewrite Hsofts. apply list_eq. intros i. rewrite !list_lookup_fmap, list_lookup_imap.
    destruct (soft_clauses f !! i); reflexivity. }
  split; [rewrite Hg; reflexivity|]. split; [rewrite Hg; reflexivity|].
  split; [exact Hrun2|].
  cbn [maxsat_formula set_coreMapping set_maxsat_formula with_soft_clauses hard_clauses].
  rewrite Hf1. split; [reflexivity|].
  change (softs (set_coreMapping ?cm (set_maxsat_formula (with_soft_clauses ?l ?h) s1)))
    with l.
  cbn [coreMapping set_coreMapping].
  split.
  2:{ intros Hnh Hpos.
      assert (Hnz : forall c, c ∈ assumed <$> softs s1 -> weight c <> 0).
      { intros c Hc. apply list_elem_of_fmap in Hc as (c0 & -> & Hc0).
        rewrite Hsofts in Hc0. apply list_elem_of_lookup in Hc0 as (i & Hi).
        rewrite list_lookup_imap in Hi.
        destruct (soft_clauses f !! i) as [c1|] eqn:H1; [|discriminate].
        injection Hi as <-. cbn. apply Hpos. apply list_elem_of_lookup. eauto. }
      split.
      - change (softs (set_coreMapping ?cm
                         (set_maxsat_formula (with_soft_clauses ?l ?h) s1))) with l.
        rewrite (zero_weights_none _ Hnz).
        cbn [num_hardened set_coreMapping set_maxsat_formula].
        unfold s1, o. destruct (weightStrategy (opts s)); exact Hnh.
      - change (softs (set_coreMapping ?cm
                         (set_maxsat_formula (with_soft_clauses ?l ?h) s1))) with l.
        intros c Hc Hz. exfalso. exact (Hnz c Hc Hz). }
  intros i c Hc.
  assert (Hi : softs s1 !! i = Some (standard_soft (nVars f) i c))
    by (rewrite Hsofts, list_lookup_imap, Hc; reflexivity).
  split; [|split].
  - rewrite list_lookup_fmap, Hi. cbn. unfold assumed, unit_lit. cbn.
    rewrite neg_involutive. reflexivity.
  - replace (r i) with (neg (unit_lit (standard_soft (nVars f) i c)))
      by (cbn; apply neg_involutive).
    apply (assumed_mapping_lookup _ _ i _).
    + rewrite Hsofts. apply standard_softs_NoDup.
    + exact Hi.
    + apply lookup_lt_Some in Hi. lia.
  - rewrite Hg. cbn [hard_clauses]. apply elem_of_app. right.
    apply list_elem_of_lookup. exists i. rewrite list_lookup_imap, Hc. reflexivity.
Qed.

(** ** The drivers: a model after the core-guided loop *)

Lemma computeCostModelPMRES_state (m : list lbool) (c : Z) (s s' : PMRES) :
  computeCostModelPMRES m s = Some (c, s') -> s' = s.
Proof.
  intros H. pose proof (computeCostModelPMRES_indep m c s s' s H eq_refl) as H'.
  rewrite H in H'. injection H' as ->. reflexivity.
Qed.

Lemma lower_ub_to_lb_noop (s : PMRES) :
  ubCost s <= lbCost s -> lower_ub_to_lb s = Some (tt, s).
Proof.
  intros H. unfold lower_ub_to_lb, bind, gets, id.
  destruct (lbCost s <? ubCost s) eqn:E; [apply Z.ltb_lt in E; lia|reflexivity].
Qed.

(** What [weightSearch] does with a model: the state it leaves and the
    reason of its result. *)
Lemma weightSearch_model_cases (s : PMRES) (r : option StatusCode) (s' : PMRES) :
  weightSearch_model s = Some (r, s') ->
  exists c,
    computeCostModelPMRES (model (solver s)) s = Some (c, s)
    /\ s' = (if c <? ubCost s
             then set_ubCost c (set_nbSatisfiable (S (nbSatisfiable s)) s)
             else set_nbSatisfiable (S (nbSatisfiable s)) s)
    /\ ubCost s' = Z.min (ubCost s) c
    /\ (r = Some _OPTIMUM_
        /\ (lbCost s = ubCost s'
            \/ (Z.of_nat (nbCurrentSoft s) = nRealSoft s /\ c = lbCost s))
        \/ r = None /\ lbCost s <> ubCost s'
           /\ Z.of_nat (nbCurrentSoft s) <> nRealSoft s).
Proof.
  unfold weightSearch_model. intros H.
  apply bind_Some in H as ([] & s0 & Hi & H). unfold incr_nbSatisfiable, modify in Hi.
  injection Hi as <-.
  apply bind_Some in H as (m & s1 & Hm & H). unfold gets in Hm. injection Hm as <- <-.
  apply bind_Some in H as (c & s1 & Hc & H).
  pose proof (computeCostModelPMRES_state _ _ _ _ Hc) as ->.
  apply bind_Some in H as (ub & s1 & Hu & H). unfold gets in Hu. injection Hu as <- <-.
  cbn [solver model ubCost set_nbSatisfiable] in *.
  exists c. split; [eapply computeCostModelPMRES_indep; [exact Hc|reflexivity]|].
  apply bind_Some in H as ([] & s2 & Hset & H).
  assert (Hs2 : s2 = (if c <? ubCost s
                      then set_ubCost c (set_nbSatisfiable (S (nbSatisfiable s)) s)
                      else set_nbSatisfiable (S (nbSatisfiable s)) s)).
  { destruct (c <? ubCost s); injection Hset as <-; reflexivity. }
  clear Hset.
  assert (Hub : ubCost s2 = Z.min (ubCost s) c).
  { rewrite Hs2. destruct (Z.ltb_spec c (ubCost s)); cbn; lia. }
  assert (Hlb : lbCost s2 = lbCost s) by (rewrite Hs2; destruct (c <? ubCost s); reflexivity).
  assert (Hnb : nbCurrentSoft s2 = nbCurrentSoft s)
    by (rewrite Hs2; destruct (c <? ubCost s); reflexivity).
  assert (Hnr : nRealSoft s2 = nRealSoft s)
    by (rewrite Hs2; destruct (c <? ubCost s); reflexivity).
  apply bind_Some in H as (s3 & s4 & Hg & H). unfold gets, id in Hg.
  injection Hg as <- <-. rewrite Hlb, Hnb, Hnr in H.
  destruct (lbCost s =? ubCost s2) eqn:E1.
  - injection H as <- <-. apply Z.eqb_eq in E1.
    split; [exact Hs2|]. split; [exact Hub|]. left. auto.
  - apply Z.eqb_neq in E1.
    destruct (Z.of_nat (nbCurrentSoft s) =? nRealSoft s) eqn:E2.
    + apply Z.eqb_eq in E2.
      apply bind_Some in H as ([] & s4 & Ha & H). apply assertM_Some in Ha as [Ha ->].
      apply Z.eqb_eq in Ha.
      rewrite (bind_eq _ _ _ _ _ (lower_ub_to_lb_noop s2 ltac:(lia))) in H.
      injection H as <- <-.
      split; [exact Hs2|]. split; [exact Hub|]. left. auto.
    + apply Z.eqb_neq in E2. injection H as <- <-.
      split; [exact Hs2|]. split; [exact Hub|]. right. auto.
Qed.

Lemma coreGuidedLinearSearch_model_cases (s : PMRES) (r : option StatusCode) (s' : PMRES) :
  coreGuidedLinearSearch_model s = Some (r, s') ->
  exists (c : Z) (b : bool),
    computeCostModelPMRES (model (solver s)) s = Some (c, s)
    /\ checkModel (set_nbSatisfiable (S (nbSatisfiable s)) s) = Some (b, s')
    /\ ubCost s' = Z.min (ubCost s) c
    /\ (r = Some _OPTIMUM_
        /\ (lbCost s = ubCost s'
            \/ (Z.of_nat (nbCurrentSoft s) = nRealSoft s /\ c = lbCost s))
        \/ r = None /\ lbCost s <> ubCost s'
           /\ Z.of_nat (nbCurrentSoft s) <> nRealSoft s).
Proof.
  unfold coreGuidedLinearSearch_model. intros H.
  apply bind_Some in H as ([] & s0 & Hi & H). unfold incr_nbSatisfiable, modify in Hi.
  injection Hi as <-.
  set (s0 := set_nbSatisfiable (S (nbSatisfiable s)) s) in *.
  apply bind_Some in H as (b & s1 & Hck & H).
  assert (Hc : exists c, computeCostModelPMRES (model (solver s0)) s0 = Some (c, s0)).
  { unfold checkModel in Hck.
    apply bind_Some in Hck as (m & sa & Hm & Hck). unfold gets in Hm.
    injection Hm as <- <-.
    apply bind_Some in Hck as (c & sa & Hc & _). exists c.
    eapply computeCostModelPMRES_indep; [exact Hc|reflexivity]. }
  destruct Hc as (c & Hc).
  pose proof Hck as Hck0. rewrite (checkModel_eq s0 c Hc) in Hck0.
  injection Hck0 as Hb Hs1.
  assert (Hub : ubCost s1 = Z.min (ubCost s) c).
  { rewrite <- Hs1. change (ubCost s0) with (ubCost s).
    destruct (Z.ltb_spec c (ubCost s)); [cbn; lia|].
    destruct ((c =? ubCost s) && _); cbn; lia. }
  assert (Hrest : lbCost s1 = lbCost s /\ nbCurrentSoft s1 = nbCurrentSoft s
                  /\ nRealSoft s1 = nRealSoft s /\ model (solver s1) = model (solver s)
                  /\ costComputingFormula s1 = costComputingFormula s).
  { rewrite <- Hs1.
    repeat match goal with
           | |- context [if ?b then _ else _] => destruct b
           end; repeat split. }
  destruct Hrest as (Hlb & Hnb & Hnr & Hmod & Hcf).
  assert (Htail : s' = s1
                  /\ (r = Some _OPTIMUM_
                      /\ (lbCost s = ubCost s1
                          \/ (Z.of_nat (nbCurrentSoft s) = nRealSoft s /\ c = lbCost s))
                      \/ r = None /\ lbCost s <> ubCost s1
                         /\ Z.of_nat (nbCurrentSoft s) <> nRealSoft s)).
  { apply bind_Some in H as (s3 & s4 & Hg & H). unfold gets, id in Hg.
    injection Hg as <- <-. rewrite Hlb, Hnb, Hnr, Hmod in H.
    destruct (lbCost s =? ubCost s1) eqn:E1.
    - injection H as <- <-. apply Z.eqb_eq in E1. split; [reflexivity|]. left. auto.
    - apply Z.eqb_neq in E1.
      destruct (Z.of_nat (nbCurrentSoft s) =? nRealSoft s) eqn:E2.
      + apply Z.eqb_eq in E2.
        apply bind_Some in H as (c' & s4 & Hc' & H).
        pose proof (computeCostModelPMRES_state _ _ _ _ Hc') as ->.
        pose proof (computeCostModelPMRES_indep _ _ _ _ s Hc' (eq_sym Hcf)) as Hc2.
        pose proof (computeCostModelPMRES_indep _ _ _ _ s Hc eq_refl) as Hc3.
        change (model (solver s0)) with (model (solver s)) in Hc3.
        rewrite Hc2 in Hc3. injection Hc3 as ->.
        apply bind_Some in H as ([] & s5 & Ha & H). apply assertM_Some in Ha as [Ha ->].
        apply Z.eqb_eq in Ha.
        rewrite (bind_eq _ _ _ _ _ (lower_ub_to_lb_noop s1 ltac:(lia))) in H.
        injection H as <- <-. split; [reflexivity|]. left. auto.
      + apply Z.eqb_neq in E2. injection H as <- <-. split; [reflexivity|]. right. auto. }
  destruct Htail as [-> Hr].
  exists c, b. split; [eapply computeCostModelPMRES_indep; [exact Hc|reflexivity]|].
  split; [exact Hck|]. split; [exact Hub|]. exact Hr.
Qed.

(** X17: when [weightSearch] or [coreGuidedLinearSearch] has a model of
    cost [c] after the core-guided loop, it leaves [ubCost] at the
    smaller of [ubCost] and [c] and does nothing else to the bounds:
    the assignment [ubCost = lbCost] of the branch
    [nbCurrentSoft == nRealSoft()] is never carried out, because the
    assertion [modelCost == lbCost] before it leaves no room.  The
    result is [_OPTIMUM_] or the loop goes on, and with [_OPTIMUM_]
    [ubCost] is at most [lbCost], and equal to it if [lbCost] was not
    above [ubCost]. *)
Theorem drivers_model_optimum (s : PMRES) (r : option StatusCode) (s' : PMRES) :
  weightSearch_model s = Some (r, s') \/ coreGuidedLinearSearch_model s = Some (r, s') ->
  exists c,
    computeCostModelPMRES (model (solver s)) s = Some (c, s)
    /\ ubCost s' = Z.min (ubCost s) c
    /\ lbCost s' = lbCost s
    /\ (r = Some _OPTIMUM_ \/ r = None)
    /\ (r = Some _OPTIMUM_ ->
        ubCost s' <= lbCost s' /\ (lbCost s <= ubCost s -> ubCost s' = lbCost s')).
Proof.
  intros [H|H].
  - destruct (weightSearch_model_cases s r s' H) as (c & Hc & Hs' & Hub & Hr).
    exists c. split; [exact Hc|]. split; [exact Hub|].
    assert (Hlb : lbCost s' = lbCost s)
      by (rewrite Hs'; destruct (c <? ubCost s); reflexivity).
    split; [exact Hlb|].
    split; [destruct Hr as [[-> _]|[-> _]]; auto|].
    intros ->. destruct Hr as [[_ Hr]|[N _]]; [|discriminate]. lia.
  - destruct (coreGuidedLinearSearch_model_cases s r s' H)
      as (c & b & Hc & Hck & Hub & Hr).
    exists c. split; [exact Hc|]. split; [exact Hub|].
    assert (Hlb : lbCost s' = lbCost s).
    { pose proof (quiet_checkModel _ _ _ Hck) as ((Hl & _) & _). exact Hl. }
    split; [exact Hlb|].
    split; [destruct Hr as [[-> _]|[-> _]]; auto|].
    intros ->. destruct Hr as [[_ Hr]|[N _]]; [|discriminate]. lia.
Qed.

Lemma drivers_model_optimum_witness :
  weightSearch_model st_bounds_meet = Some (Some _OPTIMUM_, st_optimum)
  /\ ubCost st_optimum = 5 /\ lbCost st_optimum = 5.
Proof.
  assert (Hrun : weightSearch_model st_bounds_meet = Some (Some _OPTIMUM_, st_optimum))
    by (vm_compute; reflexivity).
  split; [exact Hrun|].
  destruct (drivers_model_optimum _ _ _ (or_introl Hrun))
    as (c & Hc & Hub & Hlb & _ & Hopt).
  destruct (Hopt eq_refl) as [_ Heq].
  assert (Hle : lbCost st_bounds_meet <= ubCost st_bounds_meet)
    by (vm_compute; discriminate).
  split; [|exact Hlb]. rewrite (Heq Hle). exact Hlb.
Defined.

Lemma weightDisjointCores_not_optimum (turns : list Turn) (s : PMRES)
      (st : StatusCode) (s' : PMRES) :
  weightDisjointCores turns s = Some (Some st, s') -> st <> _OPTIMUM_.
Proof.
  intros H ->.
  destruct (weightDisjointCores_returns turns s _OPTIMUM_ s' H) as (t & s1 & _ & Ht).
  exact (weightDisjointCores_turn_outcome t s1 _ s' Ht).
Qed.

Lemma weightSearch_loop_optimum (fuel : nat) (rounds : list (list Turn * Turn)) :
  forall s st s',
    weightSearch_loop fuel rounds s = Some (Some st, s') ->
    st = _OPTIMUM_ /\ ubCost s' <= lbCost s'.
Proof.
  induction rounds as [|[turns t] rounds IH]; intros s st s' H.
  - discriminate H.
  - cbn [weightSearch_loop] in H.
    apply bind_Some in H as (us & s1 & Hw & H).
    destruct us as [st0|]; [|discriminate H].
    pose proof (weightDisjointCores_not_optimum turns s st0 s1 Hw) as Hno.
    assert (H' : (r <- weightSearch_model ;;
                  match r with
                  | Some st => ret (Some st)
                  | None => weightSearch_next fuel ;;; weightSearch_loop fuel rounds
                  end) s1 = Some (Some st, s')).
    { destruct st0; try exact H. contradiction. }
    clear H. apply bind_Some in H' as (r & s2 & Hm & H).
    destruct r as [st1|].
    + injection H as <- <-.
      destruct (weightSearch_model_cases s1 _ s2 Hm) as (c & _ & Hs2 & Hub & Hr).
      assert (Hlb : lbCost s2 = lbCost s1)
        by (rewrite Hs2; destruct (c <? ubCost s1); reflexivity).
      destruct Hr as [[Hst Hr]|[N _]]; [|discriminate].
      injection Hst as ->. split; [reflexivity|]. lia.
    + apply bind_Some in H as ([] & s3 & _ & H). exact (IH s3 st s' H).
Qed.

(** X18: every status that [weightSearch] returns is [_OPTIMUM_], and
    it is returned with [ubCost] at most [lbCost]: whatever the oracle
    answers, no optimum is reported while the upper bound is above the
    lower bound.  A run that returns has passed the two assertions at
    the head: the weight strategy is not none and [timeLimitCores] is
    negative. *)
Theorem weightSearch_optimum (fuel : nat) (rounds : list (list Turn * Turn))
        (s : PMRES) (st : StatusCode) (s' : PMRES) :
  weightSearch fuel rounds s = Some (Some st, s') ->
  st = _OPTIMUM_ /\ ubCost s' <= lbCost s'
  /\ weightStrategy (opts s) <> _WEIGHT_NONE_ /\ timeLimitCores (opts s) < 0.
Proof.
  unfold weightSearch. intros H.
  apply bind_Some in H as (strategy & s0 & Hg & H). unfold gets in Hg.
  injection Hg as <- <-.
  apply bind_Some in H as ([] & s0 & Ha & H). apply assertM_Some in Ha as [Ha ->].
  apply bind_Some in H as (limit & s0 & Hg & H). unfold gets in Hg.
  injection Hg as <- <-.
  apply bind_Some in H as ([] & s0 & Hl & H). apply assertM_Some in Hl as [Hl ->].
  destruct (weightSearch_loop_optimum fuel rounds s st s' H) as [Hst Hub].
  split; [exact Hst|]. split; [exact Hub|].
  split; [intros N; rewrite N in Ha; discriminate|]. apply Z.ltb_lt. exact Hl.
Qed.

Lemma weightSearch_optimum_witness :
  weightSearch 8 rounds_core_then_best st_four_five
  = Some (Some _OPTIMUM_, st_after_weightSearch)
  /\ ubCost st_after_weightSearch <= lbCost st_after_weightSearch.
Proof.
  assert (Hrun : weightSearch 8 rounds_core_then_best st_four_five
                 = Some (Some _OPTIMUM_, st_after_weightSearch))
    by (vm_compute; reflexivity).
  split; [exact Hrun|].
  exact (proj1 (proj2 (weightSearch_optimum _ _ _ _ _ Hrun))).
Defined.

(** ** The first call of the oracle: [unsatSearch] and [setup] *)

Lemma checkModel_cost (s : PMRES) (b : bool) (s' : PMRES) :
  checkModel s = Some (b, s') ->
  exists c, computeCostModelPMRES (model (solver s)) s = Some (c, s).
Proof.
  unfold checkModel. intros H.
  apply bind_Some in H as (m & sa & Hm & H). unfold gets in Hm.
  injection Hm as <- <-.
  apply bind_Some in H as (c & sa & Hc & _). exists c.
  eapply computeCostModelPMRES_indep; [exact Hc|reflexivity].
Qed.

Lemma checkModel_counters (s : PMRES) (b : bool) (s' : PMRES) :
  checkModel s = Some (b, s') ->
  nbSatisfiable s' = nbSatisfiable s /\ nbCores s' = nbCores s
  /\ softs s' = softs s /\ num_hardened s' = num_hardened s.
Proof.
  intros H. destruct (checkModel_cost s b s' H) as (c & Hc).
  rewrite (checkModel_eq s c Hc) in H. injection H as _ <-.
  repeat match goal with
         | |- context [if ?b then _ else _] => destruct b
         end; repeat split.
Qed.

Lemma softsSatisfied_body_eq (s : PMRES) (i : nat) (c : Soft) (l : Z) :
  softs s !! i = Some c -> clause c = [l] ->
  softsSatisfied_body i s = Some (tt, s).
Proof.
  intros Hc Hcl. unfold softsSatisfied_body.
  rewrite (bind_eq _ _ s c s) by (apply getSoftClause_eq; exact Hc).
  rewrite Hcl. cbn [length Nat.eqb]. rewrite (bind_eq _ _ s tt s) by reflexivity.
  rewrite (bind_eq _ _ s l s) by reflexivity.
  reflexivity.
Qed.

Lemma softsSatisfied_body_Some (s : PMRES) (i : nat) (u : unit) (s' : PMRES) :
  softsSatisfied_body i s = Some (u, s') ->
  s' = s /\ exists c l, softs s !! i = Some c /\ clause c = [l].
Proof.
  unfold softsSatisfied_body. intros H.
  apply bind_Some in H as (c & s0 & Hc & H). unfold getSoftClause in Hc.
  destruct (softs s !! i) as [c0|] eqn:Hi; [|discriminate].
  injection Hc as Hc0 Hs0. subst c0 s0.
  apply bind_Some in H as ([] & s0 & Ha & H). apply assertM_Some in Ha as [Ha ->].
  apply Nat.eqb_eq in Ha.
  destruct (clause c) as [|l [|l' cl]] eqn:Ecl; try discriminate Ha.
  apply bind_Some in H as (l0 & s0 & Hl & H). injection Hl as Hl0 Hs0. subst l0 s0.
  unfold setPolarity in H.
  injection H as _ Hs. subst s'. split; [reflexivity|]. exists c, l. auto.
Qed.

Lemma units_below_of_ready (nv : nat) (s : PMRES) :
  polarities_ready nv s -> units_below s.
Proof.
  intros Hready i Hi. destruct (Hready i Hi) as (c & l & Hc & Hcl & _).
  exists c, l. auto.
Qed.

Lemma softsSatisfied_eq (s : PMRES) :
  units_below s -> softsSatisfied s = Some (tt, s).
Proof.
  intros Hall. unfold softsSatisfied.
  rewrite (bind_eq _ _ s (nSoft (costComputingFormula s)) s) by reflexivity.
  destruct (for_upto_inv (fun _ s1 => s1 = s) softsSatisfied_body
              (nSoft (costComputingFormula s)) s) as (s' & Hrun & ->).
  - reflexivity.
  - intros i s1 Hi ->. exists s. split; [|reflexivity].
    destruct (Hall i Hi) as (c & l & Hc & Hcl).
    exact (softsSatisfied_body_eq s i c l Hc Hcl).
  - exact Hrun.
Qed.

Lemma softsSatisfied_Some (s : PMRES) (u : unit) (s' : PMRES) :
  softsSatisfied s = Some (u, s') -> s' = s /\ units_below s.
Proof.
  unfold softsSatisfied. intros H.
  apply bind_Some in H as (n & s0 & Hg & H). injection Hg as Hn Hs0. subst n s0.
  destruct u. unfold for_upto in H.
  pose proof (for_each_from_partial
                (fun k s1 => s1 = s
                             /\ forall i, (i < k)%nat ->
                                  exists c l, softs s !! i = Some c /\ clause c = [l])
                softsSatisfied_body (nSoft (costComputingFormula s)) 0 s s') as Hinv.
  cbn beta in Hinv. destruct Hinv as [Hs Hall].
  - split; [reflexivity|]. intros i Hi. lia.
  - intros i s1 s2 _ [-> Hprev] Hb.
    destruct (softsSatisfied_body_Some s i tt s2 Hb) as (-> & Hi).
    split; [reflexivity|]. intros j Hj.
    destruct (Nat.eq_dec j i) as [->|Hne]; [exact Hi|]. apply Hprev. lia.
  - exact H.
  - split; [exact Hs|]. intros i Hi. apply Hall. exact Hi.
Qed.

(** The state in which [unsatSearch] calls the oracle. *)
Lemma unsatSearch_head (t : Turn) (s : PMRES) :
  assumptions s = [] -> units_below s ->
  exists s1,
    updateSolver s = Some (tt, s1)
    /\ unsatSearch t s
       = ((if lbool_eqb (res t) l_False then
             modify (fun s => set_nbCores (S (nbCores s)) s) ;;;
             ret _UNSATISFIABLE_
           else
             (if lbool_eqb (res t) l_True then
                incr_nbSatisfiable ;;;
                beforecheck <- gets ubCost ;;
                checkModel ;;;
                aftercheck <- gets ubCost ;;
                assertM (beforecheck >=? aftercheck)
              else ret tt) ;;;
             ret _SATISFIABLE_)
            (set_solver (solver_answer (turn_model t) (turn_conflict t) (solver s1)) s1)).
Proof.
  intros Ha Hall. pose proof (updateSolver_eq s) as Hu.
  match type of Hu with _ = Some (tt, ?su) => set (s1 := su) in * end.
  assert (Hr1 : units_below s1) by exact Hall.
  exists s1. split; [exact Hu|].
  unfold unsatSearch.
  rewrite (bind_eq _ _ s [] s) by (unfold gets; rewrite Ha; reflexivity).
  cbn [length Nat.eqb assertM]. unfold bind at 1. cbn [ret].
  rewrite (bind_eq _ _ _ _ _ Hu).
  rewrite (bind_eq _ _ _ _ _ (softsSatisfied_eq s1 Hr1)).
  unfold bind at 1. unfold oracle_answers, modify at 1. reflexivity.
Qed.

Lemma unsatSearch_needs (t : Turn) (s : PMRES) (st : StatusCode) (s' : PMRES) :
  unsatSearch t s = Some (st, s') -> assumptions s = [] /\ units_below s.
Proof.
  unfold unsatSearch. intros H.
  apply bind_Some in H as (a & s0 & Hg & H). unfold gets in Hg.
  injection Hg as Ha Hs0. subst a s0.
  destruct (assumptions s) as [|z l]; [|discriminate H].
  split; [reflexivity|].
  cbn [length Nat.eqb assertM] in H. unfold bind at 1 in H. cbn [ret] in H.
  rewrite (bind_eq _ _ _ _ _ (updateSolver_eq s)) in H.
  apply bind_Some in H as (u & s1 & Hss & _).
  apply softsSatisfied_Some in Hss as [_ Hall]. exact Hall.
Qed.

Lemma unsatSearch_false (t : Turn) (s : PMRES) :
  assumptions s = [] -> units_below s -> res t = l_False ->
  exists s',
    unsatSearch t s = Some (_UNSATISFIABLE_, s')
    /\ nbCores s' = S (nbCores s)
    /\ nbSatisfiable s' = nbSatisfiable s
    /\ opts s' = opts s
    /\ same_bounds s s' /\ bestModel s' = bestModel s.
Proof.
  intros Ha Hall Hr.
  destruct (unsatSearch_head t s Ha Hall) as (s1 & Hu & ->).
  rewrite updateSolver_eq in Hu. injection Hu as <-.
  rewrite Hr. cbn [lbool_eqb]. unfold bind, modify, ret.
  eexists. split; [reflexivity|]. repeat split.
Qed.

Lemma unsatSearch_undef (t : Turn) (s : PMRES) :
  assumptions s = [] -> units_below s -> res t = l_Undef ->
  exists s',
    unsatSearch t s = Some (_SATISFIABLE_, s')
    /\ nbCores s' = nbCores s
    /\ nbSatisfiable s' = nbSatisfiable s
    /\ same_bounds s s' /\ bestModel s' = bestModel s.
Proof.
  intros Ha Hall Hr.
  destruct (unsatSearch_head t s Ha Hall) as (s1 & Hu & ->).
  rewrite updateSolver_eq in Hu. injection Hu as <-.
  rewrite Hr. cbn [lbool_eqb]. unfold bind, modify, ret.
  eexists. split; [reflexivity|]. repeat split.
Qed.

(** X19: [unsatSearch] stops when the assumption vector is not empty,
    and when a soft clause of the working formula at an index below
    the number of soft clauses of the formula the search was given is
    not a unit clause (the assertion of [softsSatisfied]).  With an
    empty assumption vector and, at each of these indices, a unit soft
    clause over a variable that the oracle holds after [updateSolver],
    it returns [_UNSATISFIABLE_] exactly when the oracle answers
    false, counting a core and leaving the bounds and the best model
    as they were.  When the oracle gives no answer it still returns
    [_SATISFIABLE_], with no model counted or recorded and [ubCost]
    unchanged.  When the oracle answers true a model is counted,
    [ubCost] does not grow and [lbCost] is not written. *)
Theorem unsatSearch_outcome (t : Turn) (s : PMRES) :
  (assumptions s <> []
   \/ (exists i c, (i < nSoft (costComputingFormula s))%nat
                   /\ softs s !! i = Some c /\ length (clause c) <> 1%nat) ->
   unsatSearch t s = None)
  /\ (assumptions s = [] -> polarities_ready (nvars_after_update s) s ->
      res t = l_False ->
      exists s',
        unsatSearch t s = Some (_UNSATISFIABLE_, s')
        /\ nbCores s' = S (nbCores s) /\ nbSatisfiable s' = nbSatisfiable s
        /\ same_bounds s s' /\ bestModel s' = bestModel s)
  /\ (assumptions s = [] -> polarities_ready (nvars_after_update s) s ->
      res t = l_Undef ->
      exists s',
        unsatSearch t s = Some (_SATISFIABLE_, s')
        /\ nbCores s' = nbCores s /\ nbSatisfiable s' = nbSatisfiable s
        /\ same_bounds s s' /\ bestModel s' = bestModel s)
  /\ (forall st s',
        unsatSearch t s = Some (st, s') ->
        assumptions s = []
        /\ (forall i c, (i < nSoft (costComputingFormula s))%nat ->
                        softs s !! i = Some c -> length (clause c) = 1%nat)
        /\ (st = _UNSATISFIABLE_ <-> res t = l_False)
        /\ (st = _UNSATISFIABLE_ \/ st = _SATISFIABLE_)
        /\ (res t = l_True -> nbSatisfiable s' = S (nbSatisfiable s))
        /\ lbCost s' = lbCost s /\ ubCost s' <= ubCost s).
Proof.
  split; [|split; [|split]].
  - intros Hno. destruct (unsatSearch t s) as [[st s']|] eqn:H; [|reflexivity].
    destruct (unsatSearch_needs t s st s' H) as [Ha Hall].
    destruct Hno as [Hne|(i & c & Hi & Hc & Hlen)]; [contradiction|].
    destruct (Hall i Hi) as (c' & l & Hc' & Hcl).
    rewrite Hc in Hc'. injection Hc' as <-. rewrite Hcl in Hlen. contradiction.
  - intros Ha Hready Hr.
    destruct (unsatSearch_false t s Ha (units_below_of_ready _ s Hready) Hr)
      as (s' & H1 & H2 & H3 & _ & H5).
    exists s'. auto.
  - intros Ha Hready Hr.
    exact (unsatSearch_undef t s Ha (units_below_of_ready _ s Hready) Hr).
  - intros st s' H.
    pose proof (quiet_unsatSearch t _ _ _ H) as ((Hlb & Hub & _) & _).
    destruct (unsatSearch_needs t s st s' H) as [Ha Hall].
    split; [exact Ha|].
    split.
    { intros i c Hi Hc. destruct (Hall i Hi) as (c' & l & Hc' & Hcl).
      rewrite Hc in Hc'. injection Hc' as <-. rewrite Hcl. reflexivity. }
    destruct (res t) eqn:Hr.
    + destruct (unsatSearch_head t s Ha Hall) as (s1 & Hu & Heq).
      rewrite Heq, Hr in H. cbn [lbool_eqb] in H.
      apply bind_Some in H as ([] & s2 & H1 & H). injection H as <- <-.
      split; [split; discriminate|]. split; [right; reflexivity|].
      split; [|split; [exact Hlb|exact Hub]].
      intros _.
      apply bind_Some in H1 as ([] & s3 & Hi & H1).
      unfold incr_nbSatisfiable, modify in Hi. injection Hi as <-.
      apply bind_Some in H1 as (before & s3 & Hg & H1). unfold gets in Hg.
      injection Hg as <- <-.
      apply bind_Some in H1 as (b & s3 & Hck & H1).
      apply bind_Some in H1 as (after & s4 & Hg & H1). unfold gets in Hg.
      injection Hg as <- <-. apply assertM_Some in H1 as [_ ->].
      destruct (checkModel_counters _ _ _ Hck) as (Hns & _). rewrite Hns.
      rewrite updateSolver_eq in Hu. injection Hu as <-. reflexivity.
    + destruct (unsatSearch_false t s Ha Hall Hr) as (s1 & H1 & _).
      rewrite H1 in H. injection H as <- <-.
      split; [tauto|]. split; [left; reflexivity|].
      split; [discriminate|]. split; [exact Hlb|exact Hub].
    + destruct (unsatSearch_undef t s Ha Hall Hr) as (s1 & H1 & _).
      rewrite H1 in H. injection H as <- <-.
      split; [split; discriminate|]. split; [right; reflexivity|].
      split; [discriminate|]. split; [exact Hlb|exact Hub].
Qed.

Lemma count_divisions_nbSatisfiable (fuel : nat) (factor : Z) :
  forall maxW counter s r s',
    count_divisions fuel factor maxW counter s = Some (r, s') ->
    nbSatisfiable s' = nbSatisfiable s.
Proof.
  induction fuel as [|fuel IH]; intros maxW counter s r s' H; cbn [count_divisions] in H.
  - destruct (maxW >? 0); [discriminate|]. injection H as _ <-. reflexivity.
  - destruct (maxW >? 0); [|injection H as _ <-; reflexivity].
    apply bind_Some in H as (q & s1 & Hq & H). unfold u64_div in Hq.
    destruct (factor =? 0); [discriminate|]. injection Hq as _ <-.
    exact (IH _ _ _ _ _ H).
Qed.

Lemma divide_until_enough_needs_model (fuel : nat) (factor cand : Z) (s : PMRES) :
  nbSatisfiable s = 0%nat -> divide_until_enough fuel factor cand s = None.
Proof.
  intros H0.
  assert (He : enoughSoftAboveWeight cand s = None).
  { unfold enoughSoftAboveWeight, bind, gets. rewrite H0. reflexivity. }
  destruct fuel; cbn [divide_until_enough]; unfold bind at 1; rewrite He; reflexivity.
Qed.

Lemma initializeDivisionFactor_needs_model (fuel : nat) (pow_u64 : Z -> Z -> Z)
      (s : PMRES) :
  nbSatisfiable s = 0%nat -> initializeDivisionFactor fuel pow_u64 true s = None.
Proof.
  intros H0. unfold initializeDivisionFactor. cbn [negb].
  set (s1 := set_maxsat_formula (setMaximumWeight (reset_weight s) (maxsat_formula s)) s).
  rewrite (bind_eq _ _ s tt s1) by reflexivity.
  rewrite (bind_eq _ _ s1 s1 s1) by reflexivity.
  unfold bind at 1.
  destruct (count_divisions fuel _ _ 0 s1) as [[counter s2]|] eqn:Hc; [|reflexivity].
  pose proof (count_divisions_nbSatisfiable _ _ _ _ _ _ _ Hc) as Hn.
  unfold bind at 1. rewrite divide_until_enough_needs_model; [reflexivity|].
  rewrite Hn. exact H0.
Qed.

Lemma findNextWeightDiversity_needs_model (fuel : nat) (w : Z) (s : PMRES) :
  nbSatisfiable s = 0%nat -> findNextWeightDiversity fuel w s = None.
Proof.
  intros H0. unfold findNextWeightDiversity.
  rewrite (bind_eq _ _ s s s) by reflexivity.
  destruct (weightStrategy (opts s)); try reflexivity.
  cbn [assertM]. unfold bind at 1. cbn [ret]. rewrite H0. reflexivity.
Qed.

Lemma polarities_ready_assumed (nv : nat) (s s1 : PMRES) :
  costComputingFormula s1 = costComputingFormula s ->
  softs s1 = assumed <$> softs s ->
  polarities_ready nv s -> polarities_ready nv s1.
Proof.
  intros Hcf Hsofts Hready i Hi. rewrite Hcf in Hi.
  destruct (Hready i Hi) as (c & l & Hc & Hcl & Hl).
  exists (assumed c), l. rewrite Hsofts, list_lookup_fmap, Hc. auto.
Qed.

(** X20: on an instance whose hard clauses the oracle finds
    unsatisfiable (no model has been counted), [setup] returns
    [_UNSATISFIABLE_] under the normal weight strategy without varying
    resolution, with a core counted, provided that the soft clauses
    are unit clauses, that the assumption vector is empty, and that
    up to the number of soft clauses of the formula the search was
    given the working formula has soft clauses over the variables that
    the new oracle receives.  With [varyingresCG], or
    with the diversifying strategy, the first working weight is
    computed all the same, and the assertion [nbSatisfiable > 0] of
    [enoughSoftAboveWeight] (of [findNextWeightDiversity]) stops the
    search before the status is returned. *)
Theorem setup_unsatisfiable (fuel : nat) (pow_u64 : Z -> Z -> Z) (t : Turn)
        (s : PMRES) :
  res t = l_False -> nbSatisfiable s = 0%nat ->
  (varyingresCG (opts s) = true
   \/ weightStrategy (opts s) = _WEIGHT_DIVERSIFY_ ->
   setup fuel pow_u64 t s = None)
  /\ (varyingresCG (opts s) = false ->
      weightStrategy (opts s) = _WEIGHT_NORMAL_ ->
      unit_softs (softs s) -> assumptions s = [] ->
      polarities_ready (nVars (maxsat_formula s) - vars_added s) s ->
      exists s', setup fuel pow_u64 t s = Some (_UNSATISFIABLE_, s')
                 /\ nbCores s' = S (nbCores s) /\ nbSatisfiable s' = 0%nat).
Proof.
  intros Hr H0.
  set (s1 := set_coreMapping
               (assumed_mapping (softs s) (length (softs s)) (coreMapping s))
               (set_maxsat_formula
                  (with_soft_clauses (assumed <$> softs s) (maxsat_formula s)) s)).
  set (s2 := set_solver newSATSolver s1).
  split.
  - intros Hmode. unfold setup. unfold bind at 1.
    destruct (initAssumptions s) as [[[] s1']|] eqn:Hi; [|reflexivity].
    pose proof (initAssumptions_units s s1' Hi) as Hu.
    rewrite (initAssumptions_eq s Hu) in Hi. injection Hi as <-. fold s1.
    rewrite (bind_eq _ _ s1 tt s2) by reflexivity.
    unfold bind at 1.
    destruct (unsatSearch t s2) as [[rs s3]|] eqn:Hus; [|reflexivity].
    destruct (unsatSearch_needs t s2 rs s3 Hus) as [Ha Hall2].
    destruct (unsatSearch_false t s2 Ha Hall2 Hr) as (s3' & Hus' & _ & Hn & Ho & _).
    rewrite Hus in Hus'. injection Hus' as -> <-.
    assert (Hn3 : nbSatisfiable s3 = 0%nat) by (rewrite Hn; exact H0).
    assert (Ho3 : opts s3 = opts s) by (rewrite Ho; reflexivity).
    unfold bind at 1. unfold gets at 1. rewrite Ho3.
    destruct Hmode as [Hv|Hd].
    + rewrite Hv. unfold bind at 1.
      rewrite (initializeDivisionFactor_needs_model fuel pow_u64 s3 Hn3). reflexivity.
    + destruct (varyingresCG (opts s)).
      * unfold bind at 1.
        rewrite (initializeDivisionFactor_needs_model fuel pow_u64 s3 Hn3). reflexivity.
      * unfold bind at 1. unfold bind at 1. unfold gets at 1. rewrite Ho3, Hd.
        unfold updateCurrentWeight. cbn [assertM]. unfold bind at 1. cbn [ret].
        unfold bind at 1. unfold gets at 1. unfold id. rewrite Ho3.
        destruct (varyingresCG (opts s)) eqn:Hv; cbn [negb].
        -- unfold updateDivisionFactor.
           rewrite (bind_eq _ _ s3 s3 s3) by reflexivity. cbn zeta.
           unfold bind at 1.
           destruct (u64_div _ _ s3) as [[q s4]|] eqn:Hq; [|reflexivity].
           unfold u64_div in Hq. destruct (varresFactor (opts s3) =? 0); [discriminate|].
           injection Hq as _ <-. unfold bind at 1.
           rewrite (divide_until_enough_needs_model _ _ _ s3 Hn3). reflexivity.
        -- unfold bind at 1.
           rewrite (findNextWeightDiversity_needs_model _ _ s3 Hn3). reflexivity.
  - intros Hv Hw Hu Ha Hready. unfold setup.
    rewrite (bind_eq _ _ _ _ _ (initAssumptions_eq s Hu)). fold s1.
    rewrite (bind_eq _ _ s1 tt s2) by reflexivity.
    assert (Hready2 : polarities_ready (nvars_after_update s2) s2).
    { apply (polarities_ready_assumed _ s s2); [reflexivity|reflexivity|].
      exact Hready. }
    destruct (unsatSearch_false t s2 Ha (units_below_of_ready _ s2 Hready2) Hr)
      as (s3 & Hus & Hc & Hn & Ho & _).
    rewrite (bind_eq _ _ _ _ _ Hus).
    unfold bind at 1. unfold gets at 1. rewrite Ho. change (opts s2) with (opts s).
    rewrite Hv.
    unfold bind at 1. unfold bind at 1. unfold gets at 1.
    rewrite Ho. change (opts s2) with (opts s). rewrite Hw.
    unfold updateCurrentWeight. cbn [assertM]. unfold bind at 1. cbn [ret].
    unfold bind at 1. unfold gets at 1. unfold id.
    rewrite Ho. change (opts s2) with (opts s). rewrite Hv. cbn [negb].
    unfold onFormula, modify, ret.
    eexists. split; [reflexivity|].
    cbn [nbCores nbSatisfiable set_maxsat_formula].
    split; [rewrite Hc; reflexivity|]. rewrite Hn. exact H0.
Qed.

Lemma unit_softs_five_three : unit_softs (softs st_five_three).
Proof.
  assert (H : Forall (fun c => length (clause c) = 1%nat) (softs st_five_three))
    by (repeat constructor).
  rewrite Forall_forall in H. exact H.
Qed.

Lemma setup_unsatisfiable_witness :
  res turn_core = l_False
  /\ nbSatisfiable st_three_nines_no_model = 0%nat
  /\ nbSatisfiable st_five_three = 0%nat
  /\ unit_softs (softs st_five_three)
  /\ polarities_ready (nVars (maxsat_formula st_five_three)
                        - vars_added st_five_three) st_five_three
  /\ setup 64 Z.pow turn_core st_three_nines_no_model = None
  /\ exists s', setup 64 Z.pow turn_core st_five_three = Some (_UNSATISFIABLE_, s')
                /\ nbCores s' = S (nbCores st_five_three)
                /\ nbSatisfiable s' = 0%nat.
Proof.
  assert (Hready : polarities_ready (nVars (maxsat_formula st_five_three)
                                     - vars_added st_five_three) st_five_three).
  { intros i Hi. change (i < 2)%nat in Hi.
    destruct i as [|[|i]]; [| |lia].
    - exists (unit_soft 0 5), 1. split; [reflexivity|]. split; [reflexivity|].
      vm_compute. split; [discriminate|reflexivity].
    - exists (unit_soft 1 3), 3. split; [reflexivity|]. split; [reflexivity|].
      vm_compute. split; [discriminate|reflexivity]. }
  split; [reflexivity|]. split; [reflexivity|]. split; [reflexivity|].
  split; [exact unit_softs_five_three|]. split; [exact Hready|].
  split.
  - exact (proj1 (setup_unsatisfiable 64 Z.pow turn_core st_three_nines_no_model
                    eq_refl eq_refl) (or_introl eq_refl)).
  - exact (proj2 (setup_unsatisfiable 64 Z.pow turn_core st_five_three
                    eq_refl eq_refl)
             eq_refl eq_refl unit_softs_five_three eq_refl Hready).
Defined.

(** ** The diversifying strategy comes to an end *)

Lemma at_or_above_one_count (s : PMRES) :
  hardened_counted s -> weights_inrange (softs s) ->
  Z.of_nat (length (at_or_above s 1)) = nRealSoft s.
Proof.
  intros [Hn _] Hin. rewrite (nRealSoft_counts s Hn). f_equal. unfold at_or_above.
  apply filter_length_iff. intros c Hc.
  unfold weights_inrange in Hin. rewrite Forall_forall in Hin.
  destruct (Hin c Hc) as [H0 _]. lia.
Qed.

Lemma diversity_reached_one (s : PMRES) :
  hardened_counted s -> weights_inrange (softs s) -> diversity_reached s 1 = true.
Proof.
  intros Hs Hin. unfold diversity_reached. cbn zeta.
  apply orb_true_iff. right. apply Z.eqb_eq. apply at_or_above_one_count; assumption.
Qed.

Lemma findNextWeightDiversity_loop_S (fuel : nat) (w : Z) (findNext : bool) (s : PMRES) :
  findNextWeightDiversity_loop (S fuel) w findNext s
  = let w' := if Nat.ltb 1 (nbSatisfiable s) || findNext
              then findNextWeight s w else w in
    if diversity_reached s w' then Some (w', s)
    else findNextWeightDiversity_loop fuel w'
           (if Nat.eqb (nbSatisfiable s) 1 && negb findNext then true else findNext) s.
Proof.
  cbn [findNextWeightDiversity_loop]. unfold bind at 1. unfold gets at 1. unfold id.
  cbn zeta. rewrite softs_above_counts. unfold diversity_reached. cbn zeta.
  destruct (Nat.ltb 1 (nbSatisfiable s) || findNext);
    match goal with
    | |- context [if ?b then ret _ else _] => destruct b
    end; reflexivity.
Qed.

Lemma filter_length_lt {A} (P Q : A -> Prop) `{!forall x, Decision (P x)}
      `{!forall x, Decision (Q x)} (l : list A) (a : A) :
  (forall x, x ∈ l -> P x -> Q x) -> a ∈ l -> Q a -> ~ P a ->
  (length (filter P l) < length (filter Q l))%nat.
Proof.
  intros Hall Ha Hqa Hpa.
  assert (Hle : forall l', (forall x, x ∈ l' -> P x -> Q x) ->
                           (length (filter P l') <= length (filter Q l'))%nat).
  { induction l' as [|x l' IH]; intros Hsub; [reflexivity|].
    rewrite !filter_cons.
    specialize (IH (fun y Hy => Hsub y (list_elem_of_further _ _ _ Hy))).
    destruct (decide (P x)) as [p|p], (decide (Q x)) as [q|q]; cbn [length]; try lia.
    exfalso. apply q, Hsub; [now left|exact p]. }
  induction l as [|x l IH]; [inversion Ha|].
  rewrite !filter_cons.
  apply elem_of_cons in Ha as [->|Ha].
  - rewrite decide_False by exact Hpa. rewrite decide_True by exact Hqa.
    cbn [length]. specialize (Hle l (fun y Hy => Hall y (list_elem_of_further _ _ _ Hy))).
    lia.
  - specialize (IH (fun y Hy => Hall y (list_elem_of_further _ _ _ Hy)) Ha).
    destruct (decide (P x)) as [p|p], (decide (Q x)) as [q|q]; cbn [length]; try lia.
    exfalso. apply q, Hall; [now left|exact p].
Qed.

(** Once the loop steps at every turn, it ends within as many turns as
    there are soft weights between 1 and the weight it is at, and one
    more. *)
Lemma findNextWeightDiversity_loop_steps (s : PMRES) :
  hardened_counted s -> weights_inrange (softs s) ->
  forall (n fuel : nat) (w : Z) (findNext : bool),
    Nat.ltb 1 (nbSatisfiable s) || findNext = true ->
    (length (weights_between s w) < n)%nat -> (n <= fuel)%nat ->
    exists r,
      findNextWeightDiversity_loop fuel w findNext s = Some (r, s)
      /\ diversity_reached s r = true
      /\ 1 <= r /\ (1 < w -> r < w)
      /\ (r = 1 \/ exists c, c ∈ softs s /\ weight c = r).
Proof.
  intros Hs Hin. induction n as [|n IH]; intros fuel w findNext Hstep Hmu Hfuel; [lia|].
  destruct fuel as [|fuel]; [lia|].
  rewrite findNextWeightDiversity_loop_S. cbn zeta. rewrite Hstep.
  destruct (findNextWeight_range s w) as (H1 & Hlt & Hex & Hall).
  set (w' := findNextWeight s w) in *.
  destruct (diversity_reached s w') eqn:Hd.
  - exists w'. auto.
  - assert (Hne : w' <> 1).
    { intros E. rewrite E in Hd. rewrite diversity_reached_one in Hd by assumption.
      discriminate. }
    destruct Hex as [E|(c & Hc & Hwc)]; [contradiction|].
    assert (Hw : 1 < w).
    { destruct (Z_lt_dec 1 w) as [Hw|Hw]; [exact Hw|exfalso].
      unfold w', findNextWeight in Hne.
      destruct (findNextWeight_fold w (softs s) 1) as (_ & Hex' & _).
      cbn beta zeta in Hex'. destruct Hex' as [E|(_ & Hlt')]; [contradiction|].
      fold (findNextWeight s w) in Hlt'. fold w' in Hlt'. lia. }
    specialize (Hlt Hw).
    assert (Hmu' : (length (weights_between s w') < length (weights_between s w))%nat).
    { unfold weights_between.
      apply (filter_length_lt _ _ _ c); [intros x _ Hx; lia|exact Hc|lia|lia]. }
    destruct (IH fuel w'
                 (if Nat.eqb (nbSatisfiable s) 1 && negb findNext then true else findNext))
      as (r & Hrun & Hr & Hr1 & Hrlt & Hrex); [|lia|lia|].
    { destruct (Nat.ltb 1 (nbSatisfiable s)); [reflexivity|].
      cbn [orb] in *. rewrite Hstep. cbn [negb andb].
      rewrite andb_false_r. reflexivity. }
    exists r. split; [exact Hrun|]. split; [exact Hr|]. split; [exact Hr1|].
    split; [|exact Hrex]. intros _. specialize (Hrlt ltac:(lia)). lia.
Qed.

(** X21: under the diversifying strategy [findNextWeightDiversity]
    returns, within as many turns of its loop as there are soft clauses
    and two more, whenever a model has been found before and
    [num_hardened] is the number of soft clauses of weight 0; the
    solver object is not changed.  The weight returned passes the test
    of the loop; it is the weight given (possible in the first turn
    only, after the first model), or it is 1 or a weight of a soft
    clause, at least 1 and below the weight given when that is above
    1. *)
Theorem findNextWeightDiversity_terminates (s : PMRES) (w : Z) (fuel : nat) :
  weightStrategy (opts s) = _WEIGHT_DIVERSIFY_ ->
  (0 < nbSatisfiable s)%nat ->
  hardened_counted s -> weights_inrange (softs s) ->
  (length (softs s) + 2 <= fuel)%nat ->
  exists r,
    findNextWeightDiversity fuel w s = Some (r, s)
    /\ diversity_reached s r = true
    /\ (r = w
        \/ (1 <= r /\ (1 < w -> r < w)
            /\ (r = 1 \/ exists c, c ∈ softs s /\ weight c = r))).
Proof.
  intros Hstrat Hsat Hs Hin Hfuel.
  assert (Hmu : forall x, (length (weights_between s x) <= length (softs s))%nat)
    by (intros x; unfold weights_between; apply length_filter).
  unfold findNextWeightDiversity.
  rewrite (bind_eq _ _ s s s) by reflexivity. rewrite Hstrat. cbn [assertM].
  unfold bind at 1. cbn [ret].
  assert (Hpos : Nat.ltb 0 (nbSatisfiable s) = true) by (apply Nat.ltb_lt; exact Hsat).
  rewrite Hpos. cbn [assertM]. unfold bind at 1. cbn [ret].
  destruct (Nat.ltb 1 (nbSatisfiable s)) eqn:Hmany.
  - destruct (findNextWeightDiversity_loop_steps s Hs Hin (S (length (softs s))) fuel w false)
      as (r & Hrun & Hr & Hrest); [rewrite Hmany; reflexivity|specialize (Hmu w); lia|lia|].
    exists r. split; [exact Hrun|]. split; [exact Hr|]. right. exact Hrest.
  - destruct fuel as [|fuel]; [lia|].
    rewrite findNextWeightDiversity_loop_S. cbn zeta. rewrite Hmany. cbn [orb].
    destruct (diversity_reached s w) eqn:Hd.
    + exists w. split; [reflexivity|]. split; [exact Hd|]. left. reflexivity.
    + assert (H1 : nbSatisfiable s = 1%nat) by (apply Nat.ltb_ge in Hmany; lia).
      rewrite H1. cbn [Nat.eqb negb andb].
      destruct (findNextWeightDiversity_loop_steps s Hs Hin (S (length (softs s))) fuel w true)
        as (r & Hrun & Hr & Hrest);
        [apply orb_true_r|specialize (Hmu w); lia|lia|].
      exists r. split; [exact Hrun|]. split; [exact Hr|]. right. exact Hrest.
Qed.

Lemma findNextWeightDiversity_terminates_witness :
  weightStrategy (opts st_diversify) = _WEIGHT_DIVERSIFY_
  /\ (0 < nbSatisfiable st_diversify)%nat
  /\ hardened_counted st_diversify
  /\ weights_inrange (softs st_diversify)
  /\ exists r,
       findNextWeightDiversity 5 9 st_diversify = Some (r, st_diversify)
       /\ diversity_reached st_diversify r = true.
Proof.
  assert (H2 : (0 < nbSatisfiable st_diversify)%nat) by (vm_compute; lia).
  assert (H3 : hardened_counted st_diversify).
  { apply hardened_counted_intro; [reflexivity|].
    repeat constructor; vm_compute; intros; discriminate. }
  assert (H4 : weights_inrange (softs st_diversify))
    by (repeat constructor; vm_compute; try discriminate; reflexivity).
  assert (H5 : (length (softs st_diversify) + 2 <= 5)%nat) by (vm_compute; lia).
  split; [reflexivity|]. split; [exact H2|]. split; [exact H3|]. split; [exact H4|].
  destruct (findNextWeightDiversity_terminates st_diversify 9 5 eq_refl H2 H3 H4 H5)
    as (r & Hrun & Hd & _).
  exists r. split; [exact Hrun|exact Hd].
Defined.

(** ** The table of assumptions: [coreMapping] *)

Lemma cm_touch_lookup_Some (m : gmap Z nat) (l k : Z) (i : nat) :
  m !! k = Some i -> cm_touch m l !! k = Some i.
Proof.
  intros H. unfold cm_touch. destruct (m !! l) eqn:Hl; [exact H|].
  rewrite lookup_insert_ne; [exact H|]. intros ->. congruence.
Qed.

Lemma relaxCore_body_mapping (w l : Z) (s s' : PMRES) :
  relaxCore_body w l s = Some (tt, s') -> mapping_exact s -> mapping_exact s'.
Proof.
  intros H Hs. rewrite relaxCore_body_eq in H.
  destruct (softs s !! cm_get (coreMapping s) l) as [c|] eqn:Hc; [|discriminate].
  destruct (weight c >=? w); [|discriminate]. injection H as <-.
  intros j c' Hj Hdef.
  change (softs (relaxed_at w l c s))
    with (<[cm_get (coreMapping s) l := relax_soft w c]> (softs s)) in Hj.
  change (coreMapping (relaxed_at w l c s)) with (cm_touch (coreMapping s) l).
  change (nVars (maxsat_formula (relaxed_at w l c s))) with (nVars (maxsat_formula s)).
  apply list_lookup_insert_Some in Hj as [(Hij & Hcc & _) | (_ & Hj)].
  - subst c' j.
    assert (Ha : assumption_var (relax_soft w c) = assumption_var c).
    { unfold relax_soft in *.
      destruct (weight (set_weight (U64.sub (weight c) w) c) =? 0); [|reflexivity].
      exfalso. apply Hdef. reflexivity. }
    rewrite Ha in *. destruct (Hs _ c Hc Hdef) as [H1 H2].
    split; [apply cm_touch_lookup_Some; exact H1|exact H2].
  - destruct (Hs j c' Hj Hdef) as [H1 H2].
    split; [apply cm_touch_lookup_Some; exact H1|exact H2].
Qed.

Lemma relaxCore_loop_mapping (w : Z) (conflict0 : list Z) :
  forall s s',
    for_each conflict0 (relaxCore_body w) s = Some (tt, s') ->
    mapping_exact s -> mapping_exact s'.
Proof.
  induction conflict0 as [|l conflict0 IH]; intros s s' H Hs.
  - injection H as <-. exact Hs.
  - cbn [for_each] in H. apply bind_Some in H as ([] & s1 & Hb & H).
    apply (IH s1 s' H). exact (relaxCore_body_mapping w l s s1 Hb Hs).
Qed.

Lemma new_mapping_lookup_old (nv n ns : nat) (cm : gmap Z nat) (k : Z) :
  varZ k < Z.of_nat nv -> new_mapping nv n ns cm !! k = cm !! k.
Proof.
  intros Hk. unfold new_mapping. generalize (n - 1)%nat as m. intros m.
  induction m as [|m IH]; [reflexivity|].
  rewrite seq_S, fold_left_app. cbn [fold_left]. rewrite Nat.add_0_l.
  rewrite lookup_insert_ne; [exact IH|].
  intros Heq. subst k. unfold a_var in Hk. rewrite varZ_mkLit_false in Hk. lia.
Qed.

Lemma encodeMaxRes_mapping (core : list Z) (w : Z) (s s' : PMRES) :
  encodeMaxRes core w s = Some (tt, s') -> mapping_exact s -> mapping_exact s'.
Proof.
  intros H Hs.
  assert (Hne : core <> []).
  { intros ->. unfold encodeMaxRes in H. discriminate H. }
  rewrite (encodeMaxRes_result s core w Hne) in H. injection H as <-.
  set (n := length core). set (nv := n_vars (maxsat_formula s)).
  intros j c Hj Hdef.
  change (softs (put_formula ?a ?h ?sf ?cm s)) with sf in Hj.
  change (coreMapping (put_formula ?a ?h ?sf ?cm s)) with cm.
  change (nVars (maxsat_formula (put_formula ?a ?h ?sf ?cm s))) with a.
  apply lookup_app_Some in Hj as [Hj | [Hge Hj]].
  - destruct (Hs j c Hj Hdef) as [H1 H2]. unfold nVars in H2. fold nv in H2.
    split; [rewrite new_mapping_lookup_old by exact H2; exact H1|]. fold nv. lia.
  - unfold new_softs in Hj. rewrite list_lookup_fmap in Hj.
    destruct (seq 0 (n - 1) !! (j - length (softs s))%nat) as [i|] eqn:Hi; [|discriminate].
    apply lookup_seq in Hi as [-> Hi]. injection Hj as <-.
    cbn [assumption_var new_soft].
    split.
    + rewrite new_mapping_lookup by exact Hi. f_equal. cbn [Nat.add]. lia.
    + unfold a_var. rewrite varZ_mkLit_false. fold n nv. lia.
Qed.

Lemma relaxCore_mapping (conflict0 : list Z) (w : Z) (s s' : PMRES) :
  relaxCore conflict0 w s = Some (tt, s') -> mapping_exact s -> mapping_exact s'.
Proof.
  unfold relaxCore. intros H Hs.
  apply bind_Some in H as ([] & s0 & Ha & H). apply assertM_Some in Ha as [_ ->].
  apply bind_Some in H as ([] & s0 & Ha & H). apply assertM_Some in Ha as [_ ->].
  apply bind_Some in H as ([] & s1 & Hloop & H).
  apply bind_Some in H as ([] & s2 & Henc & H).
  unfold modify in H. injection H as <-.
  pose proof (encodeMaxRes_mapping _ _ _ _ Henc
                (relaxCore_loop_mapping _ _ _ _ Hloop Hs)) as H2.
  intros j c Hj Hdef. exact (H2 j c Hj Hdef).
Qed.

Lemma hardenClauses_mapping (s s' : PMRES) :
  hardenClauses s = Some (tt, s') -> mapping_exact s -> mapping_exact s'.
Proof.
  intros H Hs.
  pose proof (hardenClauses_ready_all s s' H) as Hready.
  apply hardenClauses_result in H. subst s'.
  assert (Hn : (softs_added s <= length (softs s))%nat).
  { destruct (softs_added s) as [|n] eqn:E; [lia|].
    destruct (Hready n ltac:(lia)) as (c & Hc & _). apply lookup_lt_Some in Hc. lia. }
  intros j c' Hj Hdef.
  assert (Hcm : coreMapping (hardened_state s (softs_added s)) = coreMapping s)
    by (unfold hardened_state; destruct (hardenLazily s); reflexivity).
  assert (Hnv : nVars (maxsat_formula (hardened_state s (softs_added s)))
                = nVars (maxsat_formula s))
    by (unfold hardened_state; destruct (hardenLazily s); reflexivity).
  rewrite Hcm, Hnv.
  destruct (softs s !! j) as [c|] eqn:Hc.
  - rewrite (lookup_hardened_softs s _ j c Hn Hc) in Hj. injection Hj as <-.
    destruct ((j <? softs_added s)%nat && to_harden (model (solver s)) s c).
    + exfalso. apply Hdef. reflexivity.
    + exact (Hs j c Hc Hdef).
  - apply lookup_lt_Some in Hj. apply lookup_ge_None in Hc.
    rewrite softs_hardened_state, length_app, length_map, length_take, length_drop in Hj.
    lia.
Qed.

(** X22: the relaxation of a core and the hardener keep [coreMapping]
    exact: if every soft clause that has an assumption is found through
    [coreMapping] by it (and the assumption is over a variable of the
    formula), the same holds after [relaxCore], new soft clauses
    included, and after [hardenClauses]. *)
Theorem coreMapping_kept_exact (s s' : PMRES) :
  mapping_exact s ->
  (forall conflict0 w, relaxCore conflict0 w s = Some (tt, s') -> mapping_exact s')
  /\ (hardenClauses s = Some (tt, s') -> mapping_exact s').
Proof.
  intros Hs. split.
  - intros conflict0 w H. exact (relaxCore_mapping conflict0 w s s' H Hs).
  - intros H. exact (hardenClauses_mapping s s' H Hs).
Qed.

Lemma coreMapping_kept_exact_witness :
  mapping_exact st_five_three
  /\ relaxCore [0; 2] 3 st_five_three = Some (tt, st_five_three_relaxed)
  /\ mapping_exact st_five_three_relaxed.
Proof.
  assert (H0 : mapping_exact st_five_three).
  { intros i c Hi _.
    destruct i as [|[|i]]; vm_compute in Hi;
      [injection Hi as <-|injection Hi as <-|discriminate Hi];
      (split; [vm_compute; reflexivity|vm_compute; reflexivity]). }
  assert (Hrun : relaxCore [0; 2] 3 st_five_three = Some (tt, st_five_three_relaxed))
    by (vm_compute; reflexivity).
  split; [exact H0|]. split; [exact Hrun|].
  exact (proj1 (coreMapping_kept_exact st_five_three st_five_three_relaxed H0)
           [0; 2] 3 Hrun).
Defined.

(** ** The assumptions of the core-guided phase *)

Lemma setAssumptions_eq (s : PMRES) :
  setAssumptions_ready s ->
  setAssumptions s
  = Some (tt, set_nbCurrentSoft (length (stratum_upto s (softs_added s)))
                (set_assumptions
                   (negated_assumptions (stratum_upto s (softs_added s))) s)).
Proof.
  intros Hready.
  destruct (for_upto_inv
              (fun k s1 => s1 = set_nbCurrentSoft (length (stratum_upto s k))
                                  (set_assumptions
                                     (negated_assumptions (stratum_upto s k)) s))
              setAssumptions_body (softs_added s)
              (set_assumptions [] (set_nbCurrentSoft 0 s)))
    as (s' & Hrun & Hs').
  - reflexivity.
  - intros i s1 Hi ->. eexists. split; [|reflexivity].
    now apply setAssumptions_body_step.
  - rewrite <- Hs'. exact Hrun.
Qed.

Lemma in_stratum_positive (s : PMRES) (c : Soft) :
  0 < getMaximumWeight (maxsat_formula s) ->
  in_stratum s c = true -> 0 < weight c.
Proof.
  intros Hmw. unfold in_stratum.
  set (mw := getMaximumWeight (maxsat_formula s)) in *.
  destruct (varyingresCG (opts s)); intros H.
  - apply Z.gtb_lt in H.
    destruct (Z_lt_le_dec (weight c) mw) as [Hlt|Hle]; [|lia].
    destruct (Z_lt_le_dec (weight c) 0) as [Hneg|Hpos].
    + pose proof (Z.div_lt_upper_bound (weight c) mw 0 Hmw ltac:(lia)). lia.
    + rewrite Z.div_small in H by lia. lia.
  - apply Z.geb_le in H. lia.
Qed.

Lemma stratum_upto_elem (s : PMRES) (k : nat) (c : Soft) :
  c ∈ stratum_upto s k ->
  in_stratum s c = true /\ c ∈ take k (softs s).
Proof.
  unfold stratum_upto. intros H. apply list_elem_of_filter in H. exact H.
Qed.

(** X23: the conflicts the oracle can report on the assumptions of
    [setAssumptions] are conflicts of active soft clauses.  When
    [coreMapping] is exact and the weights are [uint64_t] values, every
    duplicate-free list of literals whose negations are among the
    assumptions stands for pairwise distinct soft clauses, each found
    through [coreMapping] with a positive weight. *)
Theorem setAssumptions_conflicts_active (s s' : PMRES) (conflict0 : list Z) :
  setAssumptions_ready s -> mapping_exact s -> weights_inrange (softs s) ->
  setAssumptions s = Some (tt, s') ->
  NoDup conflict0 -> (forall l, l ∈ conflict0 -> neg l ∈ assumptions s') ->
  conflict_of_active_softs s' conflict0.
Proof.
  intros Hready Hmap Hrange Hrun Hnd Hsub.
  rewrite (setAssumptions_eq s Hready) in Hrun. injection Hrun as <-.
  destruct Hready as (Hn & Hmw & Hcl).
  assert (Hfind : forall l, l ∈ conflict0 ->
            exists i c, softs s !! i = Some c /\ assumption_var c = l
                        /\ coreMapping s !! l = Some i /\ 0 < weight c).
  { intros l Hl. specialize (Hsub l Hl).
    change (assumptions (set_nbCurrentSoft ?n (set_assumptions ?a s))) with a in Hsub.
    unfold negated_assumptions in Hsub.
    apply list_elem_of_fmap in Hsub as (c & Heq & Hc).
    apply neg_inj in Heq. apply stratum_upto_elem in Hc as [Hin Hc].
    destruct (Hcl c Hc) as [_ Hdef]. specialize (Hdef Hin).
    apply elem_of_take in Hc as (i & Hi & _).
    destruct (Hmap i c Hi Hdef) as [Hcm _].
    exists i, c. rewrite Heq.
    split; [exact Hi|]. split; [reflexivity|]. split; [exact Hcm|].
    exact (in_stratum_positive s c Hmw Hin). }
  split.
  - apply NoDup_fmap_2_strong; [|exact Hnd].
    intros l1 l2 H1 H2 Heq.
    destruct (Hfind l1 H1) as (i1 & c1 & Hc1 & Ha1 & Hm1 & _).
    destruct (Hfind l2 H2) as (i2 & c2 & Hc2 & Ha2 & Hm2 & _).
    unfold core_index, cm_get in Heq.
    change (coreMapping (set_nbCurrentSoft ?n (set_assumptions ?a s)))
      with (coreMapping s) in Heq.
    rewrite Hm1, Hm2 in Heq. cbn in Heq. subst i2.
    rewrite Hc1 in Hc2. injection Hc2 as <-. congruence.
  - intros l Hl. destruct (Hfind l Hl) as (i & c & Hc & Ha & Hm & Hpos).
    exists c. split.
    + unfold core_soft, core_index, cm_get.
      change (coreMapping (set_nbCurrentSoft ?n (set_assumptions ?a s)))
        with (coreMapping s).
      rewrite Hm. exact Hc.
    + split; [exact Hpos|].
      unfold weights_inrange in Hrange. rewrite Forall_forall in Hrange.
      assert (Hin : c ∈ softs s) by (apply list_elem_of_lookup; eauto).
      specialize (Hrange c Hin). unfold U64.inrange in Hrange. lia.
Qed.

Lemma setAssumptions_ready_after_setup : setAssumptions_ready st_after_setup.
Proof.
  split; [vm_compute; lia|]. split; [reflexivity|].
  assert (H : Forall (fun c => length (clause c) = 1%nat
                               /\ (in_stratum st_after_setup c = true ->
                                   assumption_var c <> lit_Undef))
                (take (softs_added st_after_setup) (softs st_after_setup))).
  { repeat constructor; intros _; discriminate. }
  rewrite Forall_forall in H. exact H.
Qed.

Lemma setAssumptions_conflicts_active_witness :
  setAssumptions_ready st_after_setup
  /\ mapping_exact st_after_setup
  /\ weights_inrange (softs st_after_setup)
  /\ setAssumptions st_after_setup = Some (tt, st_assumed)
  /\ NoDup [0; 2]
  /\ (forall l, l ∈ [0; 2] -> neg l ∈ assumptions st_assumed)
  /\ conflict_of_active_softs st_assumed [0; 2].
Proof.
  assert (H2 : mapping_exact st_after_setup).
  { intros i c Hi _.
    destruct i as [|[|i]]; vm_compute in Hi;
      [injection Hi as <-|injection Hi as <-|discriminate Hi];
      (split; [vm_compute; reflexivity|vm_compute; reflexivity]). }
  assert (H3 : weights_inrange (softs st_after_setup))
    by (repeat constructor; vm_compute; try discriminate; reflexivity).
  assert (H4 : setAssumptions st_after_setup = Some (tt, st_assumed))
    by (vm_compute; reflexivity).
  assert (H5 : NoDup [0; 2]).
  { apply NoDup_cons. split; [|apply NoDup_singleton].
    intros H. apply list_elem_of_singleton in H. discriminate H. }
  assert (H6 : forall l, l ∈ [0; 2] -> neg l ∈ assumptions st_assumed).
  { intros l Hl. rewrite !elem_of_cons in Hl.
    destruct Hl as [->|[->|Hl]]; [| |inversion Hl]; vm_compute; repeat constructor. }
  split; [exact setAssumptions_ready_after_setup|]. split; [exact H2|].
  split; [exact H3|]. split; [exact H4|]. split; [exact H5|]. split; [exact H6|].
  exact (setAssumptions_conflicts_active st_after_setup st_assumed [0; 2]
           setAssumptions_ready_after_setup H2 H3 H4 H5 H6).
Defined.

(** X24: right after a delivery to the oracle, when [softs_added] is
    the number of soft clauses, [setAssumptions] assumes every soft
    clause of the stratum: the assumptions are exactly the negated
    assumption literals of the soft clauses of the formula in the
    stratum, and [nbCurrentSoft] counts them. *)
Theorem setAssumptions_after_delivery (s : PMRES) :
  setAssumptions_ready s ->
  softs_added s = nSoft (maxsat_formula s) ->
  exists s', setAssumptions s = Some (tt, s') /\ assumptions_of_every_soft s s'.
Proof.
  intros Hready Hall. eexists. split; [exact (setAssumptions_eq s Hready)|].
  assert (Hstr : stratum_upto s (softs_added s)
                 = filter (fun c => in_stratum s c = true) (softs s)).
  { unfold stratum_upto. rewrite Hall. unfold nSoft.
    change (soft_clauses (maxsat_formula s)) with (softs s).
    rewrite firstn_all. reflexivity. }
  split.
  - intros a.
    change (assumptions (set_nbCurrentSoft ?n (set_assumptions ?l s))) with l.
    rewrite Hstr. unfold negated_assumptions. rewrite list_elem_of_fmap.
    split.
    + intros (c & -> & Hc). apply list_elem_of_filter in Hc as [Hin Hc].
      exists c. repeat split; assumption.
    + intros (c & Hc & Hin & ->). exists c. split; [reflexivity|].
      apply list_elem_of_filter. split; assumption.
  - change (nbCurrentSoft (set_nbCurrentSoft ?n ?x)) with n.
    rewrite Hstr. reflexivity.
Qed.

Lemma setAssumptions_after_delivery_witness :
  setAssumptions_ready st_after_setup
  /\ softs_added st_after_setup = nSoft (maxsat_formula st_after_setup)
  /\ exists s', setAssumptions st_after_setup = Some (tt, s')
                /\ assumptions_of_every_soft st_after_setup s'.
Proof.
  split; [exact setAssumptions_ready_after_setup|]. split; [reflexivity|].
  exact (setAssumptions_after_delivery st_after_setup
           setAssumptions_ready_after_setup eq_refl).
Defined.

(** ** The reduced cost of a model: [computeCostReducedWeights] *)

Lemma reduced_cost_under_app (m : list lbool) (mw : Z) (l1 l2 : list Soft) :
  reduced_cost_under m mw (l1 ++ l2)
  = reduced_cost_under m mw l1 + reduced_cost_under m mw l2.
Proof.
  induction l1 as [|c l1 IH]; cbn [app reduced_cost_under]; [lia|].
  rewrite IH. lia.
Qed.

Lemma reduced_cost_under_bounds (m : list lbool) (mw : Z) (l : list Soft) :
  0 < mw -> weights_inrange l ->
  0 <= reduced_cost_under m mw l
  /\ reduced_cost_under m mw l * mw <= cost_under m l
  /\ reduced_cost_under m mw l <= total_weight l.
Proof.
  intros Hmw Hr. induction Hr as [|c l Hc Hr IH].
  - cbn. unfold cost_under. cbn. lia.
  - rewrite cost_under_cons. cbn [reduced_cost_under total_weight].
    destruct IH as (IH1 & IH2 & IH3). unfold U64.inrange in Hc.
    pose proof (Z.div_pos (weight c) mw ltac:(lia) Hmw) as Hq0.
    pose proof (Z.mul_div_le (weight c) mw Hmw) as Hq1.
    assert (Hq2 : weight c / mw <= weight c).
    { apply Z.div_le_upper_bound; [exact Hmw|]. nia. }
    destruct (clause_true_under m (clause c)); nia.
Qed.

Lemma reduced_cost_under_one (m : list lbool) (l : list Soft) :
  reduced_cost_under m 1 l = cost_under m l.
Proof.
  induction l as [|c l IH]; [reflexivity|].
  rewrite cost_under_cons. cbn [reduced_cost_under]. rewrite IH, Z.div_1_r.
  reflexivity.
Qed.

Lemma getLastSoftClause_eq (s : PMRES) (c : Soft) :
  last (softs s) = Some c -> getLastSoftClause s = Some (c, s).
Proof.
  intros Hc. unfold getLastSoftClause.
  rewrite (bind_eq _ _ s (nSoft (maxsat_formula s)) s) by reflexivity.
  rewrite last_lookup in Hc. unfold nSoft.
  change (soft_clauses (maxsat_formula s)) with (softs s).
  destruct (length (softs s)) as [|n] eqn:En.
  - apply lookup_lt_Some in Hc. lia.
  - cbn [Nat.eqb]. apply getSoftClause_eq.
    replace (S n - 1)%nat with (Nat.pred (S n)) by lia. exact Hc.
Qed.

Lemma computeCostReducedWeights_body_eq (m : list lbool) (s : PMRES) (tot : Z)
      (i : nat) (c : Soft) :
  softs s !! i = Some c -> length (clause c) = 1%nat ->
  (forall x, x ∈ clause c -> 0 <= varZ x < Z.of_nat (length m)) ->
  0 < getMaximumWeight (maxsat_formula s) ->
  computeCostReducedWeights_body m tot i s
  = Some (if clause_true_under m (clause c) then tot
          else U64.add tot (weight c / getMaximumWeight (maxsat_formula s)), s).
Proof.
  intros Hc Hlen Hcov Hmw. unfold computeCostReducedWeights_body.
  rewrite (bind_eq _ _ s c s) by (apply getSoftClause_eq; exact Hc).
  rewrite Hlen. rewrite (bind_eq _ _ s tt s) by reflexivity.
  destruct (clause c) as [|l [|l' cl]] eqn:Ecl; try discriminate Hlen.
  rewrite (bind_eq _ _ s l s) by reflexivity.
  destruct (Hcov l ltac:(apply list_elem_of_singleton; reflexivity)) as [Hl0 Hl1].
  assert (Hlt : (varZ l <? Z.of_nat (length m)) = true) by (apply Z.ltb_lt; exact Hl1).
  rewrite Hlt. rewrite (bind_eq _ _ s tt s) by reflexivity.
  destruct (lookup_lt_is_Some_2 m (Z.to_nat (varZ l)) ltac:(lia)) as [v Hv].
  rewrite (bind_eq _ _ s v s) by (apply model_at_eq; [exact Hl0|exact Hv]).
  unfold clause_true_under. cbn [existsb]. rewrite Hv, orb_false_r.
  destruct (lit_true_under l v); [reflexivity|].
  rewrite (bind_eq _ _ s (getMaximumWeight (maxsat_formula s)) s) by reflexivity.
  unfold u64_div.
  destruct (Z.eqb_spec (getMaximumWeight (maxsat_formula s)) 0) as [E|_]; [lia|].
  reflexivity.
Qed.

Lemma computeCostReducedWeights_loop (m : list lbool) (s : PMRES) :
  unit_softs (softs s) -> model_covers m (softs s) ->
  weights_inrange (softs s) -> total_weight (softs s) < U64.modulus ->
  0 < getMaximumWeight (maxsat_formula s) ->
  foldM (computeCostReducedWeights_body m) (seq 0 (length (softs s))) 0 s
  = Some (reduced_cost_under m (getMaximumWeight (maxsat_formula s)) (softs s), s).
Proof.
  intros Hunit Hcov Hr Htot Hmw.
  set (mw := getMaximumWeight (maxsat_formula s)) in *.
  destruct (foldM_from
              (fun k tot s1 => s1 = s
                               /\ tot = reduced_cost_under m mw (take k (softs s)))
              (computeCostReducedWeights_body m) (length (softs s)) 0%nat 0 s)
    as (r & s' & Hrun & Hs & Hr').
  - split; reflexivity.
  - intros i tot s1 Hi [-> ->].
    destruct (lookup_lt_is_Some_2 (softs s) i ltac:(lia)) as [c Hc].
    assert (Hin : c ∈ softs s) by (apply list_elem_of_lookup; eauto).
    rewrite (computeCostReducedWeights_body_eq m s _ i c Hc (Hunit c Hin)
               (fun x Hx => Hcov c x Hin Hx) Hmw).
    eexists. eexists. split; [reflexivity|]. split; [reflexivity|].
    rewrite (take_S_r _ _ _ Hc), reduced_cost_under_app.
    cbn [reduced_cost_under]. fold mw.
    destruct (clause_true_under m (clause c)); [lia|].
    rewrite Z.add_0_r. apply u64_add_exact.
    + assert (Hrt : weights_inrange (take i (softs s))).
      { unfold weights_inrange in *. apply Forall_take. exact Hr. }
      apply (reduced_cost_under_bounds m mw _ Hmw Hrt).
    + unfold weights_inrange in Hr. rewrite Forall_forall in Hr.
      specialize (Hr c Hin). unfold U64.inrange in Hr.
      apply Z.div_pos; lia.
    + assert (Hsplit : softs s = take i (softs s) ++ c :: drop (S i) (softs s)).
      { rewrite <- (take_drop_middle _ _ _ Hc) at 1. reflexivity. }
      assert (Hr3 : weights_inrange (take i (softs s) ++ c :: drop (S i) (softs s)))
        by (rewrite <- Hsplit; exact Hr).
      unfold weights_inrange in Hr3. apply Forall_app in Hr3 as [Hr1 Hr2].
      apply Forall_cons in Hr2 as [Hc0 Hr2].
      pose proof (reduced_cost_under_bounds m mw _ Hmw Hr1) as (_ & _ & Hb1).
      assert (Hq : weight c / mw <= weight c).
      { unfold U64.inrange in Hc0. apply Z.div_le_upper_bound; [exact Hmw|]. nia. }
      assert (Hd : 0 <= total_weight (drop (S i) (softs s))).
      { apply total_weight_nonneg. exact Hr2. }
      rewrite Hsplit in Htot. rewrite total_weight_app in Htot.
      cbn [total_weight] in Htot. lia.
  - cbn [Nat.add] in Hr'. rewrite firstn_all in Hr'. subst r s'. exact Hrun.
Qed.

(** X25: for a model that reaches the variables of the unit soft
    clauses, with a positive working weight [mw] and weights whose sum
    fits 64 bits, [computeCostReducedWeights] does not ask the oracle
    and changes nothing; it returns the sum of the quotients
    [weight / mw] of the soft clauses the model falsifies.  This reduced
    cost is not negative, times [mw] it is at most the cost of the
    model on the soft clauses, and at working weight 1 it is that
    cost.  On an empty model, and on a formula without soft clauses,
    the function stops; and when the model does not reach the variable
    of the last soft clause, the oracle is asked and the function
    stops unless it answers with a model. *)
Theorem computeCostReducedWeights_estimate (t : Turn) (m : list lbool) (s : PMRES) :
  let mw := getMaximumWeight (maxsat_formula s) in
  (softs s <> [] -> unit_softs (softs s) -> model_covers m (softs s) ->
   weights_inrange (softs s) -> total_weight (softs s) < U64.modulus ->
   0 < mw ->
   computeCostReducedWeights t m s = Some (reduced_cost_under m mw (softs s), s)
   /\ 0 <= reduced_cost_under m mw (softs s)
   /\ reduced_cost_under m mw (softs s) * mw <= cost_under m (softs s)
   /\ (mw = 1 -> reduced_cost_under m mw (softs s) = cost_under m (softs s)))
  /\ computeCostReducedWeights t [] s = None
  /\ (softs s = [] -> computeCostReducedWeights t m s = None)
  /\ (forall c l, last (softs s) = Some c -> clause c = [l] ->
        Z.of_nat (length m) <= varZ l -> res t <> l_True ->
        computeCostReducedWeights t m s = None).
Proof.
  intros mw. split; [|split; [|split]].
  - intros Hne Hunit Hcov Hr Htot Hmw.
    destruct (last (softs s)) as [c|] eqn:Hlast;
      [|apply last_None in Hlast; contradiction].
    assert (Hin : c ∈ softs s).
    { rewrite last_lookup in Hlast. apply list_elem_of_lookup. eauto. }
    pose proof (Hunit c Hin) as Hlen.
    destruct (clause c) as [|l [|l' cl]] eqn:Ecl; try discriminate Hlen.
    assert (Hl : 0 <= varZ l < Z.of_nat (length m)).
    { apply (Hcov c l Hin). rewrite Ecl. apply list_elem_of_singleton. reflexivity. }
    assert (Hm : negb (Nat.eqb (length m) 0) = true).
    { destruct m; [cbn in Hl; lia|reflexivity]. }
    split.
    + unfold computeCostReducedWeights. rewrite Hm.
      rewrite (bind_eq _ _ s tt s) by reflexivity.
      rewrite (bind_eq _ _ s c s) by (apply getLastSoftClause_eq; exact Hlast).
      rewrite Ecl. cbn [length Nat.eqb].
      rewrite (bind_eq _ _ s tt s) by reflexivity.
      rewrite (bind_eq _ _ s c s) by (apply getLastSoftClause_eq; exact Hlast).
      rewrite Ecl. rewrite (bind_eq _ _ s l s) by reflexivity.
      assert (Hlt : (varZ l <? Z.of_nat (length m)) = true)
        by (apply Z.ltb_lt; apply Hl).
      cbv zeta. rewrite Hlt.
      rewrite (bind_eq _ _ s m s) by reflexivity.
      rewrite (bind_eq _ _ s c s) by (apply getLastSoftClause_eq; exact Hlast).
      rewrite Ecl. rewrite (bind_eq _ _ s l s) by reflexivity.
      rewrite Hlt. rewrite (bind_eq _ _ s tt s) by reflexivity.
      rewrite (bind_eq _ _ s (nSoft (maxsat_formula s)) s) by reflexivity.
      exact (computeCostReducedWeights_loop m s Hunit Hcov Hr Htot Hmw).
    + pose proof (reduced_cost_under_bounds m mw (softs s) Hmw Hr) as (H1 & H2 & _).
      split; [exact H1|]. split; [exact H2|].
      intros E. unfold mw in *. rewrite E. apply reduced_cost_under_one.
  - reflexivity.
  - intros Hnil. unfold computeCostReducedWeights.
    destruct (negb (Nat.eqb (length m) 0)); [|reflexivity].
    rewrite (bind_eq _ _ s tt s) by reflexivity.
    unfold getLastSoftClause at 1.
    unfold bind at 1. unfold bind at 1. unfold gets, nSoft.
    change (soft_clauses (maxsat_formula s)) with (softs s). rewrite Hnil.
    reflexivity.
  - intros c l Hlast Ecl Hge Hres. unfold computeCostReducedWeights.
    destruct (negb (Nat.eqb (length m) 0)); [|reflexivity].
    rewrite (bind_eq _ _ s tt s) by reflexivity.
    rewrite (bind_eq _ _ s c s) by (apply getLastSoftClause_eq; exact Hlast).
    rewrite Ecl. cbn [length Nat.eqb].
    rewrite (bind_eq _ _ s tt s) by reflexivity.
    rewrite (bind_eq _ _ s c s) by (apply getLastSoftClause_eq; exact Hlast).
    rewrite Ecl. rewrite (bind_eq _ _ s l s) by reflexivity.
    assert (Hlt : (varZ l <? Z.of_nat (length m)) = false)
      by (apply Z.ltb_ge; exact Hge).
    cbv zeta. rewrite Hlt.
    unfold getModel, oracle_answers. unfold bind at 1. unfold bind at 1.
    unfold modify at 1.
    destruct (res t); try contradiction; reflexivity.
Qed.

Lemma computeCostReducedWeights_estimate_witness :
  computeCostReducedWeights turn_core [l_True; l_False; l_True] st_three_nines_at_eight
  = Some (2, st_three_nines_at_eight)
  /\ 2 * 8 <= cost_under [l_True; l_False; l_True] (softs st_three_nines_at_eight).
Proof.
  assert (H1 : softs st_three_nines_at_eight <> []) by (vm_compute; discriminate).
  assert (H2 : unit_softs (softs st_three_nines_at_eight)).
  { assert (H : Forall (fun c => length (clause c) = 1%nat)
                  (softs st_three_nines_at_eight)) by (repeat constructor).
    rewrite Forall_forall in H. exact H. }
  assert (H3 : model_covers [l_True; l_False; l_True] (softs st_three_nines_at_eight)).
  { apply model_covers_intro.
    repeat constructor; vm_compute; try discriminate; reflexivity. }
  assert (H5 : total_weight (softs st_three_nines_at_eight) < U64.modulus)
    by (vm_compute; reflexivity).
  assert (H6 : 0 < getMaximumWeight (maxsat_formula st_three_nines_at_eight))
    by reflexivity.
  destruct (proj1 (computeCostReducedWeights_estimate turn_core
                     [l_True; l_False; l_True] st_three_nines_at_eight)
              H1 H2 H3 weights_inrange_three_nines_at_eight H5 H6)
    as (Hrun & _ & Hle & _).
  split; [exact Hrun|exact Hle].
Defined.
